(** * compis type checker: a shallow embedding of [src/typecheck.c]

    The development follows the layout of the C source.  Every definition
    names the C function (or macro, or struct) it embeds.  Pointers are
    addresses ([ptr]); pointer comparison [x == y] is comparison of
    addresses.  Loops that the C code runs until a [return] are bounded by
    a [fuel] argument; running out of fuel is [None] and never a result. *)

From Stdlib Require Import ZArith Lia Ascii String.
From stdpp Require Import base numbers option list gmap strings.

Set Default Proof Using "Type".
#[local] Open Scope Z_scope.

(** ** Addresses, symbols, flags *)

(** A node address.  Two C pointers are equal iff the addresses are. *)
Definition ptr := positive.

(** [sym_t]: an interned string; interning makes pointer equality of
    symbols coincide with equality of their characters. *)
Definition sym_t := string.

(** [nodeflag_t] is a [u16] bit set. *)
Definition nodeflag_t := Z.

Definition NF_VIS_MASK  : nodeflag_t := 3.
Definition NF_VIS_UNIT  : nodeflag_t := 0.
Definition NF_VIS_PKG   : nodeflag_t := Z.shiftl 1 0.
Definition NF_VIS_PUB   : nodeflag_t := Z.shiftl 1 1.
Definition NF_CHECKED   : nodeflag_t := Z.shiftl 1 3.
Definition NF_RVALUE    : nodeflag_t := Z.shiftl 1 4.
(** [compiler.h] calls bit 5 [NF_OPTIONAL] ("type-narrowed from optional");
    [typecheck.c] uses the name [NF_NARROWED] for it. *)
Definition NF_NARROWED  : nodeflag_t := Z.shiftl 1 5.
Definition NF_UNKNOWN   : nodeflag_t := Z.shiftl 1 6.
Definition NF_NAMEDPARAMS : nodeflag_t := Z.shiftl 1 7.
Definition NF_DROP      : nodeflag_t := Z.shiftl 1 8.
Definition NF_SUBOWNERS : nodeflag_t := Z.shiftl 1 9.
Definition NF_EXIT      : nodeflag_t := Z.shiftl 1 10.
Definition NF_CONST     : nodeflag_t := Z.shiftl 1 10.
Definition NF_PKGNS     : nodeflag_t := Z.shiftl 1 11.
(** Modelled from the spec: [NF_MARK1], [NF_MARK2], [NF_TEMPLATE] and
    [NF_TEMPLATEI] are used by [typecheck.c] but their definitions are in a
    header that is not among the sources.  They are temporary marks and
    template flags: single bits, distinct from each other and from the
    flags above. *)
Definition NF_MARK1     : nodeflag_t := Z.shiftl 1 12.
Definition NF_MARK2     : nodeflag_t := Z.shiftl 1 13.
Definition NF_TEMPLATE  : nodeflag_t := Z.shiftl 1 14.
Definition NF_TEMPLATEI : nodeflag_t := Z.shiftl 1 15.

(** [(flags & F) != 0] *)
Definition has_flag (flags f : nodeflag_t) : bool := negb (Z.land flags f =? 0)%Z.
(** [flags |= F] *)
Definition set_flag (flags f : nodeflag_t) : nodeflag_t := Z.lor flags f.
(** [flags &= ~F] *)
Definition clear_flag (flags f : nodeflag_t) : nodeflag_t := Z.land flags (Z.lnot f).
(** [flags ^= F] *)
Definition toggle_flag (flags f : nodeflag_t) : nodeflag_t := Z.lxor flags f.

(** ** Node kinds ([FOREACH_NODEKIND] of [compiler.h], with the kinds that
    the [switch] statements of [typecheck.c] add) *)

Inductive nodekind : Set :=
  | NODE_BAD | NODE_COMMENT | NODE_UNIT | NODE_IMPORTID | NODE_TPLPARAM
  | NODE_FWDDECL
  | STMT_TYPEDEF | STMT_IMPORT
  | EXPR_FUN | EXPR_BLOCK | EXPR_CALL | EXPR_TYPECONS | EXPR_ID | EXPR_NS
  | EXPR_FIELD | EXPR_PARAM | EXPR_VAR | EXPR_LET | EXPR_MEMBER
  | EXPR_SUBSCRIPT | EXPR_PREFIXOP | EXPR_POSTFIXOP | EXPR_DEREF
  | EXPR_BINOP | EXPR_ASSIGN | EXPR_IF | EXPR_FOR | EXPR_RETURN
  | EXPR_BOOLLIT | EXPR_INTLIT | EXPR_FLOATLIT | EXPR_STRLIT | EXPR_ARRAYLIT
  | TYPE_VOID | TYPE_BOOL | TYPE_I8 | TYPE_I16 | TYPE_I32 | TYPE_I64
  | TYPE_INT | TYPE_U8 | TYPE_U16 | TYPE_U32 | TYPE_U64 | TYPE_UINT
  | TYPE_F32 | TYPE_F64 | TYPE_UNKNOWN
  | TYPE_ARRAY | TYPE_FUN | TYPE_PTR | TYPE_REF | TYPE_MUTREF | TYPE_SLICE
  | TYPE_MUTSLICE | TYPE_OPTIONAL | TYPE_STRUCT | TYPE_ALIAS | TYPE_NS
  | TYPE_TEMPLATE | TYPE_PLACEHOLDER | TYPE_UNRESOLVED.

(** The value of the enumerator. *)
Definition nodekind_index (k : nodekind) : Z :=
  match k with
  | NODE_BAD => 0 | NODE_COMMENT => 1 | NODE_UNIT => 2 | NODE_IMPORTID => 3
  | NODE_TPLPARAM => 4 | NODE_FWDDECL => 5
  | STMT_TYPEDEF => 6 | STMT_IMPORT => 7
  | EXPR_FUN => 8 | EXPR_BLOCK => 9 | EXPR_CALL => 10 | EXPR_TYPECONS => 11
  | EXPR_ID => 12 | EXPR_NS => 13 | EXPR_FIELD => 14 | EXPR_PARAM => 15
  | EXPR_VAR => 16 | EXPR_LET => 17 | EXPR_MEMBER => 18
  | EXPR_SUBSCRIPT => 19 | EXPR_PREFIXOP => 20 | EXPR_POSTFIXOP => 21
  | EXPR_DEREF => 22 | EXPR_BINOP => 23 | EXPR_ASSIGN => 24 | EXPR_IF => 25
  | EXPR_FOR => 26 | EXPR_RETURN => 27 | EXPR_BOOLLIT => 28
  | EXPR_INTLIT => 29 | EXPR_FLOATLIT => 30 | EXPR_STRLIT => 31
  | EXPR_ARRAYLIT => 32
  | TYPE_VOID => 33 | TYPE_BOOL => 34 | TYPE_I8 => 35 | TYPE_I16 => 36
  | TYPE_I32 => 37 | TYPE_I64 => 38 | TYPE_INT => 39 | TYPE_U8 => 40
  | TYPE_U16 => 41 | TYPE_U32 => 42 | TYPE_U64 => 43 | TYPE_UINT => 44
  | TYPE_F32 => 45 | TYPE_F64 => 46 | TYPE_UNKNOWN => 47
  | TYPE_ARRAY => 48 | TYPE_FUN => 49 | TYPE_PTR => 50 | TYPE_REF => 51
  | TYPE_MUTREF => 52 | TYPE_SLICE => 53 | TYPE_MUTSLICE => 54
  | TYPE_OPTIONAL => 55 | TYPE_STRUCT => 56 | TYPE_ALIAS => 57
  | TYPE_NS => 58 | TYPE_TEMPLATE => 59 | TYPE_PLACEHOLDER => 60
  | TYPE_UNRESOLVED => 61
  end.

Definition nodekind_eqb (a b : nodekind) : bool :=
  (nodekind_index a =? nodekind_index b)%Z.

Lemma nodekind_index_inj a b : nodekind_index a = nodekind_index b → a = b.
Proof. destruct a; destruct b; simpl; intros H; first [reflexivity | discriminate H]. Qed.

Lemma nodekind_eqb_eq a b : nodekind_eqb a b = true ↔ a = b.
Proof.
  unfold nodekind_eqb. rewrite Z.eqb_eq. split.
  - apply nodekind_index_inj.
  - by intros ->.
Qed.

#[global] Instance nodekind_eq_dec : EqDecision nodekind.
Proof.
  intros a b. destruct (nodekind_eqb a b) eqn:E.
  - left. by apply nodekind_eqb_eq.
  - right. intros H. apply nodekind_eqb_eq in H. congruence.
Defined.

(** [nodekind_istype], [nodekind_isexpr], ... of [compiler.h] *)
Definition nodekind_istype (k : nodekind) : bool :=
  (nodekind_index TYPE_VOID <=? nodekind_index k)%Z.
Definition nodekind_isexpr (k : nodekind) : bool :=
  (nodekind_index EXPR_FUN <=? nodekind_index k)%Z
  && (nodekind_index k <? nodekind_index TYPE_VOID)%Z.
Definition nodekind_islocal (k : nodekind) : bool :=
  match k with EXPR_FIELD | EXPR_PARAM | EXPR_LET | EXPR_VAR => true | _ => false end.
Definition nodekind_isprimtype (k : nodekind) : bool :=
  (nodekind_index TYPE_VOID <=? nodekind_index k)%Z
  && (nodekind_index k <=? nodekind_index TYPE_UNKNOWN)%Z.
Definition nodekind_isusertype (k : nodekind) : bool :=
  (nodekind_index TYPE_ARRAY <=? nodekind_index k)%Z
  && (nodekind_index k <=? nodekind_index TYPE_UNRESOLVED)%Z.
Definition nodekind_isptrtype (k : nodekind) : bool :=
  match k with TYPE_PTR => true | _ => false end.
Definition nodekind_isreftype (k : nodekind) : bool :=
  match k with TYPE_REF | TYPE_MUTREF => true | _ => false end.
Definition nodekind_isptrliketype (k : nodekind) : bool :=
  match k with TYPE_PTR | TYPE_REF | TYPE_MUTREF => true | _ => false end.
Definition nodekind_isslicetype (k : nodekind) : bool :=
  match k with TYPE_SLICE | TYPE_MUTSLICE => true | _ => false end.
Definition nodekind_isvar (k : nodekind) : bool :=
  match k with EXPR_VAR | EXPR_LET => true | _ => false end.

(** ** Types

    A type node is the C struct it is allocated as: [type_t] for the
    primitive kinds, [ptrtype_t] (and the structs that only embed it:
    [reftype_t], [slicetype_t], [opttype_t]), [arraytype_t], [aliastype_t].
    The other user types ([funtype_t], [structtype_t], [nstype_t], template
    uses, placeholders, unresolved names) are compared by address only in
    the functions on types that are embedded here, so their payload is left
    out of [type_t]; the checker rules that read it have their own records
    further down. *)

Inductive primkind : Set :=
  | K_VOID | K_BOOL | K_I8 | K_I16 | K_I32 | K_I64 | K_INT
  | K_U8 | K_U16 | K_U32 | K_U64 | K_UINT | K_F32 | K_F64 | K_UNKNOWN.

Inductive ptrkind : Set :=
  | K_PTR | K_REF | K_MUTREF | K_SLICE | K_MUTSLICE | K_OPTIONAL.

Inductive userkind : Set :=
  | K_FUN | K_STRUCT | K_NS | K_TEMPLATE | K_PLACEHOLDER | K_UNRESOLVED.

(** The fields every type node has: its address, and [flags], [size],
    [align] of [node_t] and [type_t]. *)
Record thdr : Set := Thdr {
  t_addr  : ptr;
  t_flags : nodeflag_t;
  t_size  : Z;   (* u64 *)
  t_align : Z;   (* u8 *)
}.

Inductive type_t : Set :=
  | TPrim  (h : thdr) (k : primkind)
  | TPtr   (h : thdr) (k : ptrkind) (elem : type_t)
  | TArray (h : thdr) (elem : type_t) (len : Z)
  | TAlias (h : thdr) (name : sym_t) (elem : type_t)
  | TUser  (h : thdr) (k : userkind).

Definition type_hdr (t : type_t) : thdr :=
  match t with
  | TPrim h _ | TPtr h _ _ | TArray h _ _ | TAlias h _ _ | TUser h _ => h
  end.

Definition type_addr (t : type_t) : ptr := t_addr (type_hdr t).
Definition type_flags (t : type_t) : nodeflag_t := t_flags (type_hdr t).
Definition type_size (t : type_t) : Z := t_size (type_hdr t).
Definition type_align (t : type_t) : Z := t_align (type_hdr t).

Definition primkind_kind (k : primkind) : nodekind :=
  match k with
  | K_VOID => TYPE_VOID | K_BOOL => TYPE_BOOL | K_I8 => TYPE_I8
  | K_I16 => TYPE_I16 | K_I32 => TYPE_I32 | K_I64 => TYPE_I64
  | K_INT => TYPE_INT | K_U8 => TYPE_U8 | K_U16 => TYPE_U16
  | K_U32 => TYPE_U32 | K_U64 => TYPE_U64 | K_UINT => TYPE_UINT
  | K_F32 => TYPE_F32 | K_F64 => TYPE_F64 | K_UNKNOWN => TYPE_UNKNOWN
  end.

Definition ptrkind_kind (k : ptrkind) : nodekind :=
  match k with
  | K_PTR => TYPE_PTR | K_REF => TYPE_REF | K_MUTREF => TYPE_MUTREF
  | K_SLICE => TYPE_SLICE | K_MUTSLICE => TYPE_MUTSLICE
  | K_OPTIONAL => TYPE_OPTIONAL
  end.

Definition userkind_kind (k : userkind) : nodekind :=
  match k with
  | K_FUN => TYPE_FUN | K_STRUCT => TYPE_STRUCT | K_NS => TYPE_NS
  | K_TEMPLATE => TYPE_TEMPLATE | K_PLACEHOLDER => TYPE_PLACEHOLDER
  | K_UNRESOLVED => TYPE_UNRESOLVED
  end.

(** [t->kind] *)
Definition type_kind (t : type_t) : nodekind :=
  match t with
  | TPrim _ k => primkind_kind k
  | TPtr _ k _ => ptrkind_kind k
  | TArray _ _ _ => TYPE_ARRAY
  | TAlias _ _ _ => TYPE_ALIAS
  | TUser _ k => userkind_kind k
  end.

(** [x == y] on [type_t*] *)
Definition ptr_eqb (x y : type_t) : bool := Pos.eqb (type_addr x) (type_addr y).

#[global] Instance thdr_eq_dec : EqDecision thdr.
Proof. solve_decision. Defined.
#[global] Instance primkind_eq_dec : EqDecision primkind.
Proof. solve_decision. Defined.
#[global] Instance ptrkind_eq_dec : EqDecision ptrkind.
Proof. solve_decision. Defined.
#[global] Instance userkind_eq_dec : EqDecision userkind.
Proof. solve_decision. Defined.
#[global] Instance type_t_eq_dec : EqDecision type_t.
Proof.
  intros x. induction x as [h k|h k e IH|h e IH len|h n e IH|h k];
    intros [h' k'|h' k' e'|h' e' len'|h' n' e'|h' k'];
    try (right; discriminate).
  - destruct (decide (h = h')) as [->|]; [|right; congruence].
    destruct (decide (k = k')) as [->|]; [left; reflexivity|right; congruence].
  - destruct (decide (h = h')) as [->|]; [|right; congruence].
    destruct (decide (k = k')) as [->|]; [|right; congruence].
    destruct (IH e') as [->|]; [left; reflexivity|right; congruence].
  - destruct (decide (h = h')) as [->|]; [|right; congruence].
    destruct (decide (len = len')) as [->|]; [|right; congruence].
    destruct (IH e') as [->|]; [left; reflexivity|right; congruence].
  - destruct (decide (h = h')) as [->|]; [|right; congruence].
    destruct (decide (n = n')) as [->|]; [|right; congruence].
    destruct (IH e') as [->|]; [left; reflexivity|right; congruence].
  - destruct (decide (h = h')) as [->|]; [|right; congruence].
    destruct (decide (k = k')) as [->|]; [left; reflexivity|right; congruence].
Defined.

(** [type_isptr], [type_isref], ... of [compiler.h] *)
Definition type_isptr (t : type_t) : bool := nodekind_isptrtype (type_kind t).
Definition type_isref (t : type_t) : bool := nodekind_isreftype (type_kind t).
Definition type_isptrlike (t : type_t) : bool := nodekind_isptrliketype (type_kind t).
Definition type_isslice (t : type_t) : bool := nodekind_isslicetype (type_kind t).
Definition type_isreflike (t : type_t) : bool :=
  nodekind_isreftype (type_kind t) || nodekind_isslicetype (type_kind t).
Definition type_isprim (t : type_t) : bool := nodekind_isprimtype (type_kind t).
Definition type_isopt (t : type_t) : bool :=
  bool_decide (type_kind t = TYPE_OPTIONAL).
Definition type_isbool (t : type_t) : bool :=
  bool_decide (type_kind t = TYPE_BOOL).

(** ** The universe: the process-wide primitive type nodes *)

(** Modelled from the spec: [universe.c] is not among the sources.  The
    sizes are those of [FOREACH_NODEKIND_PRIMTYPE]; every primitive type is
    taken to be aligned to its size and to carry [NF_CHECKED] ([_type]
    asserts the latter). *)
Definition mkprim (a : ptr) (k : primkind) (size : Z) : type_t :=
  TPrim {| t_addr := a; t_flags := NF_CHECKED; t_size := size; t_align := size |} k.

Definition type_void    : type_t := mkprim 1%positive  K_VOID 0.
Definition type_bool    : type_t := mkprim 2%positive  K_BOOL 1.
Definition type_i8      : type_t := mkprim 3%positive  K_I8 1.
Definition type_i16     : type_t := mkprim 4%positive  K_I16 2.
Definition type_i32     : type_t := mkprim 5%positive  K_I32 4.
Definition type_i64     : type_t := mkprim 6%positive  K_I64 8.
Definition type_int     : type_t := mkprim 7%positive  K_INT 4.
Definition type_u8      : type_t := mkprim 8%positive  K_U8 1.
Definition type_u16     : type_t := mkprim 9%positive  K_U16 2.
Definition type_u32     : type_t := mkprim 10%positive K_U32 4.
Definition type_u64     : type_t := mkprim 11%positive K_U64 8.
Definition type_uint    : type_t := mkprim 12%positive K_UINT 4.
Definition type_f32     : type_t := mkprim 13%positive K_F32 4.
Definition type_f64     : type_t := mkprim 14%positive K_F64 8.
Definition type_unknown : type_t := mkprim 15%positive K_UNKNOWN 0.

(** The first address that is not taken by the universe. *)
Definition universe_end : ptr := 16%positive.

(** ** The compiler context ([compiler_t]), as far as the checker reads it *)
Record compiler_t : Set := Compiler {
  target_ptrsize : Z;       (* c->target.ptrsize *)
  target_intsize : Z;       (* c->target.intsize *)
  inttype  : type_t;        (* c->inttype,  the type of "int"  *)
  uinttype : type_t;        (* c->uinttype, the type of "uint" *)
  strtype  : type_t;        (* &c->strtype, the alias "str"    *)
}.

(** ** Diagnostics

    [report_diag] formats its message with [printf]; the formatting of a
    node ([fmtnode], [fmtkind], [op_fmt]) is not among the sources.  A
    diagnostic is recorded as the format string of the call together with
    its arguments. *)
Inductive diagkind_t : Set := DIAG_ERR | DIAG_WARN | DIAG_HELP.

Inductive fmtarg : Set :=
  | FmtStr  (s : string)       (* a "%s" argument that is a C string *)
  | FmtType (t : type_t)       (* fmtnode(i, t) of a type *)
  | FmtKind (k : nodekind)      (* fmtkind(n) of a node of kind k *)
  | FmtNum  (n : Z).           (* "%u" *)

Record diag_t : Set := Diag {
  diag_kind : diagkind_t;
  diag_fmt  : string;
  diag_args : list fmtarg;
}.

#[global] Instance diagkind_eq_dec : EqDecision diagkind_t.
Proof. solve_decision. Defined.
#[global] Instance fmtarg_eq_dec : EqDecision fmtarg.
Proof. solve_decision. Defined.
#[global] Instance diag_eq_dec : EqDecision diag_t.
Proof. solve_decision. Defined.

Definition is_error (d : diag_t) : bool := bool_decide (diag_kind d = DIAG_ERR).

(** ** Unwrapping types *)

(** [unwrap_alias]: ["MyMyT" => "MyT" => "T"] *)
Fixpoint unwrap_alias (t : type_t) : type_t :=
  match t with
  | TAlias _ _ elem => unwrap_alias elem
  | _ => t
  end.

(** [type_isowner] *)
Fixpoint type_isowner (t : type_t) : bool :=
  let owner_here (t0 : type_t) : bool :=
    has_flag (type_flags t0) (Z.lor NF_DROP NF_SUBOWNERS) || type_isptr t0 in
  match t with
  | TPtr _ K_OPTIONAL elem =>
      (* t = type_isopt(t) ? ((opttype_t* )t)->elem : t *)
      owner_here elem
      || match elem with
         | TAlias _ _ elem' => type_isowner elem'
         | _ => false
         end
  | TAlias _ _ elem' => owner_here t || type_isowner elem'
  | _ => owner_here t
  end.

(** [concrete_type]: one unit of fuel for every turn of [for (;;) switch] *)
Fixpoint concrete_type (fuel : nat) (c : compiler_t) (t : type_t) : option type_t :=
  match fuel with
  | O => None
  | S fuel =>
      match t with
      | TAlias _ _ elem => concrete_type fuel c elem
      | TPrim _ K_INT => concrete_type fuel c (inttype c)
      | TPrim _ K_UINT => concrete_type fuel c (uinttype c)
      | _ => Some t
      end
  end.

(** [type_compat_unwrap] *)
Fixpoint type_compat_unwrap (fuel : nat) (c : compiler_t) (t : type_t)
    (may_deref : bool) : option type_t :=
  match fuel with
  | O => None
  | S fuel =>
      match t with
      | TAlias _ _ elem => type_compat_unwrap fuel c elem may_deref
      | TPrim _ K_INT => type_compat_unwrap fuel c (inttype c) may_deref
      | TPrim _ K_UINT => type_compat_unwrap fuel c (uinttype c) may_deref
      | TPtr _ (K_REF | K_MUTREF) elem =>
          if may_deref then type_compat_unwrap fuel c elem false else Some t
      | _ => Some t
      end
  end.

(** The test [(r_ismut == l_ismut || r_ismut || !l_ismut)] of the reference
    and slice cases. *)
Definition mut_compat (l_ismut r_ismut : bool) : bool :=
  Bool.eqb r_ismut l_ismut || r_ismut || negb l_ismut.

Definition is_sized_int (k : primkind) : bool :=
  match k with
  | K_I8 | K_I16 | K_I32 | K_I64 | K_U8 | K_U16 | K_U32 | K_U64 => true
  | _ => false
  end.

(** The [switch (x->kind)] of [_type_compat], on the unwrapped [x] and
    [y].  [type_compat] is the recursive call and [unwrap_deref y] is
    [type_compat_unwrap(c, y, /*may_deref*/true)]. *)
Definition _type_compat_switch (type_compat : type_t → type_t → option bool)
    (unwrap_deref : type_t → option type_t) (x y : type_t)
    (assignment : bool) : option bool :=
  match x with
  | TPrim _ k =>
      if is_sized_int k then
        y ← (if assignment then unwrap_deref y else Some y);
        Some (ptr_eqb x y)
      else Some false
  | TUser _ K_STRUCT =>
      y ← (if assignment then unwrap_deref y else Some y);
      Some (ptr_eqb x y && negb (type_isowner x))
  | TPtr _ K_PTR xelem =>
      match y with
      | TPtr _ (K_PTR | K_REF | K_MUTREF) yelem => type_compat xelem yelem
      | _ => Some false
      end
  | TPtr _ K_OPTIONAL delem =>
      let y := match y with TPtr _ K_OPTIONAL yelem => yelem | _ => y end in
      type_compat delem y
  | TPtr _ ((K_REF | K_MUTREF) as lk) lelem =>
      match y with
      | TPtr _ K_PTR yelem => type_compat lelem yelem
      | TPtr _ ((K_REF | K_MUTREF) as rk) relem =>
          let l_ismut := bool_decide (lk = K_MUTREF) in
          let r_ismut := bool_decide (rk = K_MUTREF) in
          if mut_compat l_ismut r_ismut then type_compat lelem relem
          else Some false
      | _ => Some false
      end
  | TPtr _ ((K_SLICE | K_MUTSLICE) as lk) lelem =>
      let l_ismut := bool_decide (lk = K_MUTSLICE) in
      match y with
      | TPtr _ ((K_SLICE | K_MUTSLICE) as rk) relem =>
          let r_ismut := bool_decide (rk = K_MUTSLICE) in
          if mut_compat l_ismut r_ismut then type_compat lelem relem
          else Some false
      | TPtr _ ((K_REF | K_MUTREF) as rk) (TArray _ relem _) =>
          let r_ismut := bool_decide (rk = K_MUTREF) in
          if mut_compat l_ismut r_ismut then type_compat lelem relem
          else Some false
      | _ => Some false
      end
  | TArray _ lelem llen =>
      match y with
      | TArray _ relem rlen =>
          if (llen =? rlen)%Z then type_compat lelem relem else Some false
      | _ => Some false
      end
  | _ => Some false
  end.

(** [_type_compat] and [type_compat].  [type_compat] is the pointer test
    followed by [_type_compat]; every call of [_type_compat] takes one
    unit of fuel. *)
Fixpoint _type_compat (fuel : nat) (c : compiler_t) (x y : type_t)
    (assignment : bool) : option bool :=
  match fuel with
  | O => None
  | S fuel' =>
      x ← type_compat_unwrap fuel c x (negb assignment);
      y ← type_compat_unwrap fuel c y (negb assignment);
      if ptr_eqb x y then Some true else
      _type_compat_switch
        (λ x y, if ptr_eqb x y then Some true
                else _type_compat fuel' c x y assignment)
        (λ y, type_compat_unwrap fuel c y true)
        x y assignment
  end.

Definition type_compat (fuel : nat) (c : compiler_t) (x y : type_t)
    (assignment : bool) : option bool :=
  if ptr_eqb x y then Some true else _type_compat fuel c x y assignment.

(** [type_isassignable]: a value of type [y] can be assigned to a local of
    type [x]. *)
Definition type_isassignable (fuel : nat) (c : compiler_t) (x y : type_t) : option bool :=
  type_compat fuel c x y true.

(** [type_iscompatible]: a value of type [x] can be read as type [y] or the
    other way round. *)
Definition type_iscompatible (fuel : nat) (c : compiler_t) (x y : type_t) : option bool :=
  type_compat fuel c x y false.

(** [type_isequivalent] *)
Definition type_isequivalent (fuel : nat) (c : compiler_t) (x y : type_t) : option bool :=
  if ptr_eqb x y then Some true else
  cx ← concrete_type fuel c x;
  cy ← concrete_type fuel c y;
  Some (ptr_eqb cx cy).

(** A compiler context as [compiler_configure] leaves it: 64-bit target. *)
Definition compiler64 : compiler_t :=
  {| target_ptrsize := 8; target_intsize := 8;
     inttype := type_i64; uinttype := type_u64;
     strtype := TAlias {| t_addr := 16%positive; t_flags := NF_CHECKED;
                          t_size := 16; t_align := 8 |} "str"
                  (TPtr {| t_addr := 17%positive; t_flags := NF_CHECKED;
                           t_size := 16; t_align := 8 |} K_SLICE type_u8) |}.

Definition mkptr (a : ptr) (k : ptrkind) (elem : type_t) : type_t :=
  TPtr {| t_addr := a; t_flags := NF_CHECKED; t_size := 8; t_align := 8 |} k elem.

Example compat_opt_int :
  type_isassignable 5 compiler64 (mkptr 100%positive K_OPTIONAL type_int) type_int = Some true
  ∧ type_isassignable 5 compiler64 type_int (mkptr 100%positive K_OPTIONAL type_int) = Some false
  ∧ type_isassignable 5 compiler64 type_int type_i64 = Some true
  ∧ type_isassignable 5 compiler64 type_i64 (mkptr 101%positive K_REF type_int) = Some true
  ∧ type_isassignable 5 compiler64 (mkptr 101%positive K_REF type_int) (mkptr 102%positive K_MUTREF type_int) = Some true
  ∧ type_isassignable 5 compiler64 (mkptr 102%positive K_MUTREF type_int) (mkptr 101%positive K_REF type_int) = Some false.
Proof. vm_compute. repeat split. Qed.

(** ** Facts about unwrapping *)

(** Number of nodes on the [elem] chain of a type. *)
Fixpoint tsize (t : type_t) : nat :=
  match t with
  | TPtr _ _ elem | TArray _ elem _ | TAlias _ _ elem => S (tsize elem)
  | _ => 1%nat
  end.

(** Length of the chain of aliases at the head of a type. *)
Fixpoint alias_depth (t : type_t) : nat :=
  match t with
  | TAlias _ _ elem => S (alias_depth elem)
  | _ => 0%nat
  end.

(** The nodes reachable from a type through [elem]. *)
Fixpoint subterms (t : type_t) : list type_t :=
  t :: match t with
       | TPtr _ _ elem | TArray _ elem _ | TAlias _ _ elem => subterms elem
       | _ => []
       end.

(** Number of optional wrappers of a type, looking through aliases. *)
Fixpoint optdepth (t : type_t) : nat :=
  match t with
  | TAlias _ _ elem => optdepth elem
  | TPtr _ K_OPTIONAL elem => S (optdepth elem)
  | _ => 0%nat
  end.

Definition is_sized_int_type (t : type_t) : bool :=
  match t with
  | TPrim _ k => is_sized_int k
  | _ => false
  end.

(** What [compiler_configure] establishes: "int" and "uint" stand for
    integer types of a fixed width. *)
Definition compiler_ok (c : compiler_t) : Prop :=
  is_sized_int_type (inttype c) = true ∧ is_sized_int_type (uinttype c) = true.

(** Distinct nodes have distinct addresses: in a list of nodes, equal
    addresses mean the same node. *)
Definition addr_consistentb (ts : list type_t) : bool :=
  forallb (λ s1, forallb (λ s2,
    implb (Pos.eqb (type_addr s1) (type_addr s2)) (bool_decide (s1 = s2))) ts) ts.

(** The value [type_compat_unwrap] returns when it may not dereference. *)
Definition tcu (c : compiler_t) (t : type_t) : type_t :=
  match unwrap_alias t with
  | TPrim _ K_INT => inttype c
  | TPrim _ K_UINT => uinttype c
  | u => u
  end.

Definition strip_opt (t : type_t) : type_t :=
  match t with
  | TPtr _ K_OPTIONAL elem => elem
  | _ => t
  end.

Lemma alias_depth_lt_tsize t : (alias_depth t < tsize t)%nat.
Proof. induction t; simpl; lia. Qed.

Lemma tsize_pos t : (1 ≤ tsize t)%nat.
Proof. destruct t; simpl; lia. Qed.

Lemma tsize_unwrap_alias t : (tsize (unwrap_alias t) ≤ tsize t)%nat.
Proof. induction t; simpl; lia. Qed.

Lemma unwrap_alias_subterm t : unwrap_alias t ∈ subterms t.
Proof.
  induction t; simpl; try apply list_elem_of_here.
  by apply list_elem_of_further.
Qed.

Lemma subterms_trans s t u : s ∈ subterms t → t ∈ subterms u → s ∈ subterms u.
Proof.
  intros Hs. induction u as [h k|h k e IH|h e IH len|h n e IH|h k];
    intros Ht; simpl in Ht; apply elem_of_cons in Ht as [->|Ht]; try exact Hs;
    try (by apply elem_of_nil in Ht);
    simpl; apply list_elem_of_further; auto.
Qed.

Lemma subterms_self t : t ∈ subterms t.
Proof. destruct t; simpl; apply list_elem_of_here. Qed.

Lemma unwrap_alias_not_alias t h n e : unwrap_alias t ≠ TAlias h n e.
Proof. induction t; simpl; congruence. Qed.

Lemma optdepth_unwrap_alias t : optdepth (unwrap_alias t) = optdepth t.
Proof. induction t; simpl; auto. Qed.

Section unwrap_facts.
Context (c : compiler_t) (Hc : compiler_ok c).

Lemma inttype_prim : ∃ h k, inttype c = TPrim h k ∧ is_sized_int k = true.
Proof using Hc.
  destruct Hc as [H _]. destruct (inttype c); simpl in H; try discriminate. eauto.
Qed.

Lemma uinttype_prim : ∃ h k, uinttype c = TPrim h k ∧ is_sized_int k = true.
Proof using Hc.
  destruct Hc as [_ H]. destruct (uinttype c); simpl in H; try discriminate. eauto.
Qed.

(** The unwrapped type is a node of the type itself, or the type of
    "int" or "uint". *)
Lemma tcu_cases t :
  (tcu c t = unwrap_alias t ∧ is_sized_int_type (tcu c t) = false
     ∨ tcu c t = unwrap_alias t ∧ is_sized_int_type (tcu c t) = true)
  ∨ (tcu c t = inttype c ∨ tcu c t = uinttype c).
Proof.
  unfold tcu. destruct (unwrap_alias t) as [h k| | | |] eqn:E; simpl; auto.
  destruct k; simpl; auto.
Qed.

Lemma tcu_not_alias t h n e : tcu c t ≠ TAlias h n e.
Proof using Hc.
  destruct inttype_prim as (hi & ki & Ei & _).
  destruct uinttype_prim as (hu & ku & Eu & _).
  unfold tcu. pose proof (unwrap_alias_not_alias t) as Hna.
  destruct (unwrap_alias t) as [h' k'| | | |] eqn:E; try congruence.
  destruct k'; congruence.
Qed.

Lemma tcu_not_native t h : tcu c t ≠ TPrim h K_INT ∧ tcu c t ≠ TPrim h K_UINT.
Proof using Hc.
  destruct inttype_prim as (hi & ki & Ei & Hi).
  destruct uinttype_prim as (hu & ku & Eu & Hu).
  unfold tcu. destruct (unwrap_alias t) as [h' k'| | | |] eqn:E; try (split; congruence).
  destruct k'; try (split; congruence);
    rewrite ?Ei, ?Eu; split; intros [= ? ?]; subst; discriminate.
Qed.

(** A pointer-like result of unwrapping is a node of the type. *)
Lemma tcu_ptr_subterm t h k e : tcu c t = TPtr h k e → TPtr h k e ∈ subterms t.
Proof using Hc.
  destruct inttype_prim as (hi & ki & Ei & _).
  destruct uinttype_prim as (hu & ku & Eu & _).
  unfold tcu. pose proof (unwrap_alias_subterm t) as Hs.
  destruct (unwrap_alias t) as [h' k'| | | |] eqn:E; try (intros <-; exact Hs).
  destruct k'; congruence.
Qed.

Lemma tcu_ptr_tsize t h k e : tcu c t = TPtr h k e → (tsize e < tsize t)%nat.
Proof using Hc.
  destruct inttype_prim as (hi & ki & Ei & _).
  destruct uinttype_prim as (hu & ku & Eu & _).
  unfold tcu. pose proof (tsize_unwrap_alias t) as Hs.
  destruct (unwrap_alias t) as [h' k'| | | |] eqn:E; try congruence.
  - destruct k'; congruence.
  - intros [= -> -> ->]. simpl in Hs. lia.
Qed.

Lemma optdepth_tcu t : optdepth (tcu c t) = optdepth t.
Proof using Hc.
  destruct inttype_prim as (hi & ki & Ei & _).
  destruct uinttype_prim as (hu & ku & Eu & _).
  rewrite <- (optdepth_unwrap_alias t). unfold tcu.
  destruct (unwrap_alias t) as [h' k'| | | |] eqn:E; try reflexivity.
  destruct k'; rewrite ?Ei, ?Eu; reflexivity.
Qed.

(** With enough fuel [type_compat_unwrap], called without the right to
    dereference, returns [tcu]. *)
Lemma type_compat_unwrap_noderef t fuel :
  (alias_depth t + 2 ≤ fuel)%nat →
  type_compat_unwrap fuel c t false = Some (tcu c t).
Proof using Hc.
  destruct inttype_prim as (hi & ki & Ei & Hi).
  destruct uinttype_prim as (hu & ku & Eu & Hu).
  revert fuel. induction t as [h k|h k e IH|h e IH len|h n e IH|h k];
    intros [|[|fuel]] Hf; simpl in Hf; try lia.
  - destruct k; try reflexivity; unfold tcu; simpl; rewrite ?Ei, ?Eu;
      [destruct ki | destruct ku]; simpl in *; try discriminate; reflexivity.
  - destruct k; reflexivity.
  - reflexivity.
  - change (type_compat_unwrap (S (S fuel)) c (TAlias h n e) false)
      with (type_compat_unwrap (S fuel) c e false).
    rewrite IH by lia. reflexivity.
  - reflexivity.
Qed.

(** Unwrapping a second time changes nothing. *)
Lemma type_compat_unwrap_tcu t fuel d :
  (1 ≤ fuel)%nat →
  (∀ h k e, tcu c t = TPtr h k e → k ≠ K_REF ∧ k ≠ K_MUTREF ∨ d = false) →
  type_compat_unwrap fuel c (tcu c t) d = Some (tcu c t).
Proof using Hc.
  intros Hf Hd. destruct fuel as [|fuel]; [lia|].
  pose proof (tcu_not_alias t) as Ha.
  pose proof (tcu_not_native t) as Hn.
  destruct (tcu c t) as [h k|h k e|h e len|h n e|h k] eqn:E; simpl.
  - destruct k; try reflexivity; exfalso; destruct (Hn h); congruence.
  - destruct (Hd h k e eq_refl) as [[H1 H2]| ->]; destruct k; congruence.
  - reflexivity.
  - exfalso. by eapply Ha.
  - reflexivity.
Qed.
End unwrap_facts.
Section compat_facts.
Context (c : compiler_t) (Hc : compiler_ok c).

Lemma _type_compat_S fuel x y a :
  _type_compat (S fuel) c x y a =
    x ← type_compat_unwrap (S fuel) c x (negb a);
    y ← type_compat_unwrap (S fuel) c y (negb a);
    if ptr_eqb x y then Some true else
    _type_compat_switch (λ x y, type_compat fuel c x y a)
      (λ y, type_compat_unwrap (S fuel) c y true) x y a.
Proof. reflexivity. Qed.

Lemma ptr_eqb_refl x : ptr_eqb x x = true.
Proof. apply Pos.eqb_refl. Qed.

Lemma type_compat_strip_self n x fuel :
  (tsize x ≤ n)%nat → (tsize x + 2 ≤ fuel)%nat →
  type_compat fuel c x (strip_opt (tcu c x)) true = Some true.
Proof using Hc.
  revert x fuel. induction n as [|n IH]; intros x fuel Hn Hf.
  { pose proof (tsize_pos x). lia. }
  unfold type_compat. destruct (ptr_eqb x _) eqn:Epx; [reflexivity|].
  destruct fuel as [|fuel']; [lia|].
  pose proof (alias_depth_lt_tsize x) as Had.
  rewrite _type_compat_S. cbn [negb].
  rewrite (type_compat_unwrap_noderef c Hc x) by lia. cbn [mbind option_bind].
  destruct (tcu c x) as [h k|h k e|h e len|h nm e|h k] eqn:E.
  - cbn [strip_opt]. rewrite <- E.
    rewrite (type_compat_unwrap_tcu c Hc x) by (first [lia| rewrite E; discriminate]).
    cbn [mbind option_bind]. by rewrite ptr_eqb_refl.
  - pose proof (tcu_ptr_tsize c Hc _ _ _ _ E) as Hlt.
    destruct (decide (k = K_OPTIONAL)) as [->|Hk].
    + cbn [strip_opt].
      pose proof (alias_depth_lt_tsize e).
      rewrite (type_compat_unwrap_noderef c Hc e) by lia. cbn [mbind option_bind].
      destruct (ptr_eqb (TPtr h K_OPTIONAL e) (tcu c e)); [reflexivity|].
      cbn [_type_compat_switch]. apply IH; lia.
    + assert (strip_opt (TPtr h k e) = TPtr h k e) as -> by (by destruct k).
      rewrite <- E.
      rewrite (type_compat_unwrap_tcu c Hc x) by (first [lia| auto]).
      cbn [mbind option_bind]. by rewrite ptr_eqb_refl.
  - cbn [strip_opt]. rewrite <- E.
    rewrite (type_compat_unwrap_tcu c Hc x) by (first [lia| rewrite E; discriminate]).
    cbn [mbind option_bind]. by rewrite ptr_eqb_refl.
  - exfalso. by eapply tcu_not_alias.
  - cbn [strip_opt]. rewrite <- E.
    rewrite (type_compat_unwrap_tcu c Hc x) by (first [lia| rewrite E; discriminate]).
    cbn [mbind option_bind]. by rewrite ptr_eqb_refl.
Qed.

(** A set of nodes that is closed under [elem], holds the types of
    "int" and "uint" and gives every node its own address. *)
Context (S : list type_t).
Context (S_closed : ∀ s t, t ∈ S → s ∈ subterms t → s ∈ S).
Context (S_int : inttype c ∈ S) (S_uint : uinttype c ∈ S).
Context (S_addr : ∀ s1 s2, s1 ∈ S → s2 ∈ S → type_addr s1 = type_addr s2 → s1 = s2).

Lemma tcu_in x : x ∈ S → tcu c x ∈ S.
Proof using S_closed S_int S_uint.
  intros Hx. destruct (tcu_cases c x) as [[[-> _]|[-> _]]|[->| ->]]; auto;
    eapply S_closed; eauto using unwrap_alias_subterm.
Qed.

Lemma ptr_eqb_false x y : x ∈ S → y ∈ S → x ≠ y → ptr_eqb x y = false.
Proof using S_addr.
  intros Hx Hy Hne. unfold ptr_eqb. apply Pos.eqb_neq. intros Ha. auto.
Qed.

Lemma optdepth_pos_inv y :
  (0 < optdepth y)%nat → (∀ h n e, y ≠ TAlias h n e) →
  ∃ h e, y = TPtr h K_OPTIONAL e.
Proof.
  destruct y as [h k|h k e|h e len|h n e|h k]; simpl; try lia.
  - destruct k; try lia. eauto.
  - intros _ H. by destruct (H h n e).
Qed.

Lemma type_compat_optdepth n x y fuel :
  x ∈ S → y ∈ S → (tsize x ≤ n)%nat → (optdepth x < optdepth y)%nat →
  (tsize x + tsize y + 2 ≤ fuel)%nat →
  type_compat fuel c x y true = Some false.
Proof using All.
  revert x y fuel. induction n as [|n IH]; intros x y fuel Hx Hy Hn Hd Hf.
  { pose proof (tsize_pos x). lia. }
  unfold type_compat.
  rewrite ptr_eqb_false by (auto; intros ->; lia).
  destruct fuel as [|fuel']; [lia|].
  pose proof (alias_depth_lt_tsize x). pose proof (alias_depth_lt_tsize y).
  rewrite _type_compat_S. cbn [negb].
  rewrite !(type_compat_unwrap_noderef c Hc) by lia. cbn [mbind option_bind].
  pose proof (tcu_in x Hx) as Hx'. pose proof (tcu_in y Hy) as Hy'.
  pose proof (optdepth_tcu c Hc x) as Hdx. pose proof (optdepth_tcu c Hc y) as Hdy.
  rewrite ptr_eqb_false by (auto; intros Heq; rewrite Heq in Hdx; lia).
  destruct (optdepth_pos_inv (tcu c y)) as (hy & ey & Ey);
    [lia | apply (tcu_not_alias c Hc) |].
  pose proof (tcu_ptr_tsize c Hc _ _ _ _ Ey) as Hty.
  rewrite Ey in *.
  destruct (tcu c x) as [h k|h k e|h e len|h nm e|h k] eqn:Ex.
  - cbn [_type_compat_switch]. destruct (is_sized_int k); [|reflexivity].
    cbn. by rewrite ptr_eqb_false by (try assumption; discriminate).
  - pose proof (tcu_ptr_tsize c Hc _ _ _ _ Ex) as Htx.
    destruct k; cbn [_type_compat_switch]; try reflexivity;
      try (destruct ey; reflexivity).
    simpl in Hdx, Hdy. apply IH; try lia.
    + eapply S_closed; [exact Hx'|]. simpl. apply list_elem_of_further, subterms_self.
    + eapply S_closed; [exact Hy'|]. simpl. apply list_elem_of_further, subterms_self.
  - reflexivity.
  - reflexivity.
  - destruct k; cbn [_type_compat_switch]; try reflexivity.
    cbn. by rewrite ptr_eqb_false by (try assumption; discriminate).
Qed.
End compat_facts.

(** All nodes reachable from the types of a list. *)
Definition nodes_of (ts : list type_t) : list type_t := flat_map subterms ts.

Lemma nodes_of_closed ts s t : t ∈ nodes_of ts → s ∈ subterms t → s ∈ nodes_of ts.
Proof.
  unfold nodes_of. intros Ht Hs. apply list_elem_of_In in Ht.
  apply in_flat_map in Ht as (r & Hr & Ht). apply list_elem_of_In in Ht.
  apply list_elem_of_In, in_flat_map. exists r. split; [done|].
  apply list_elem_of_In. eapply subterms_trans; eauto.
Qed.

Lemma nodes_of_root ts t : t ∈ ts → t ∈ nodes_of ts.
Proof.
  unfold nodes_of. intros H. apply list_elem_of_In, in_flat_map.
  exists t. split; [by apply list_elem_of_In|]. apply list_elem_of_In, subterms_self.
Qed.

Lemma addr_consistentb_spec ts :
  addr_consistentb ts = true →
  ∀ s1 s2, s1 ∈ ts → s2 ∈ ts → type_addr s1 = type_addr s2 → s1 = s2.
Proof.
  unfold addr_consistentb. rewrite forallb_forall. intros H s1 s2 H1 H2 Ha.
  apply list_elem_of_In in H1, H2. specialize (H s1 H1).
  rewrite forallb_forall in H. specialize (H s2 H2).
  rewrite Ha, Pos.eqb_refl in H. simpl in H. by apply bool_decide_eq_true in H.
Qed.

(** ** The rules of assignability *)

Definition is_ref (k : ptrkind) : bool :=
  match k with K_REF | K_MUTREF => true | _ => false end.

Definition is_slice (k : ptrkind) : bool :=
  match k with K_SLICE | K_MUTSLICE => true | _ => false end.

(** [assignable c x y]: a value of type [y] can be assigned to a target of
    type [x]; [X <= Y] below reads "a [Y] is assignable to an [X]".  The
    specification names four of the rules ([?T <= T], not [T <= ?T],
    [&T <= mut&T], not [mut&T <= &T]); the others are the ones the
    comments of [_type_compat] state, with the rule on mutability of
    references read as the one of slices (the comment of the code lists it
    the other way round, the specification does not).  The rules are
    stated on the types with their aliases unwrapped and "int", "uint"
    replaced by the types the target configures ([tcu]); a node is
    identified by its address. *)
Inductive assignable (c : compiler_t) : type_t → type_t → Prop :=
  (* the same type node *)
  | assign_same x y :
      type_addr x = type_addr y → assignable c x y
  (* the same type node, aliases unwrapped *)
  | assign_unwrapped x y :
      type_addr (tcu c x) = type_addr (tcu c y) → assignable c x y
  (* T <= &T and T <= mut&T, for T an integer of a fixed size *)
  | assign_int_deref x y h k hy rk e :
      tcu c x = TPrim h k → is_sized_int k = true →
      tcu c y = TPtr hy rk e → is_ref rk = true →
      type_addr (tcu c x) = type_addr (tcu c e) →
      assignable c x y
  (* T <= &T and T <= mut&T, for T a struct that owns nothing *)
  | assign_struct_deref x y h hy rk e :
      tcu c x = TUser h K_STRUCT → type_isowner (tcu c x) = false →
      tcu c y = TPtr hy rk e → is_ref rk = true →
      type_addr (tcu c x) = type_addr (tcu c e) →
      assignable c x y
  (* *T <= *T, *T <= &T, *T <= mut&T *)
  | assign_ptr x y hx xe hy k ye :
      tcu c x = TPtr hx K_PTR xe →
      tcu c y = TPtr hy k ye → k = K_PTR ∨ is_ref k = true →
      assignable c xe ye →
      assignable c x y
  (* ?T <= ?T *)
  | assign_opt_opt x y hx d hy ye :
      tcu c x = TPtr hx K_OPTIONAL d →
      tcu c y = TPtr hy K_OPTIONAL ye →
      assignable c d ye →
      assignable c x y
  (* ?T <= T *)
  | assign_opt x y hx d :
      tcu c x = TPtr hx K_OPTIONAL d →
      (∀ hy ye, tcu c y ≠ TPtr hy K_OPTIONAL ye) →
      assignable c d (tcu c y) →
      assignable c x y
  (* &T <= *T, mut&T <= *T *)
  | assign_ref_ptr x y hx lk le hy ye :
      tcu c x = TPtr hx lk le → is_ref lk = true →
      tcu c y = TPtr hy K_PTR ye →
      assignable c le ye →
      assignable c x y
  (* &T <= &T, &T <= mut&T, mut&T <= mut&T; never mut&T <= &T *)
  | assign_ref x y hx lk le hy rk re :
      tcu c x = TPtr hx lk le → is_ref lk = true →
      tcu c y = TPtr hy rk re → is_ref rk = true →
      (lk = K_MUTREF → rk = K_MUTREF) →
      assignable c le re →
      assignable c x y
  (* &[T] <= &[T], &[T] <= mut&[T], mut&[T] <= mut&[T] *)
  | assign_slice x y hx lk le hy rk re :
      tcu c x = TPtr hx lk le → is_slice lk = true →
      tcu c y = TPtr hy rk re → is_slice rk = true →
      (lk = K_MUTSLICE → rk = K_MUTSLICE) →
      assignable c le re →
      assignable c x y
  (* &[T] <= &[T N], &[T] <= mut&[T N], mut&[T] <= mut&[T N] *)
  | assign_slice_array x y hx lk le hy rk ha re len :
      tcu c x = TPtr hx lk le → is_slice lk = true →
      tcu c y = TPtr hy rk (TArray ha re len) → is_ref rk = true →
      (lk = K_MUTSLICE → rk = K_MUTREF) →
      assignable c le re →
      assignable c x y
  (* [T N] <= [T N] *)
  | assign_array x y hx le hy re len :
      tcu c x = TArray hx le len →
      tcu c y = TArray hy re len →
      assignable c le re →
      assignable c x y.

Section assignable_facts.
Context (c : compiler_t) (Hc : compiler_ok c).

Lemma tsize_tcu t : (tsize (tcu c t) ≤ tsize t)%nat.
Proof using Hc.
  destruct (inttype_prim c Hc) as (hi & ki & Ei & _).
  destruct (uinttype_prim c Hc) as (hu & ku & Eu & _).
  pose proof (tsize_unwrap_alias t) as Hs. pose proof (tsize_pos t).
  unfold tcu. destruct (unwrap_alias t) as [h k| | | |]; try exact Hs.
  destruct k; rewrite ?Ei, ?Eu; simpl in *; lia.
Qed.

(** The value [type_compat_unwrap] returns for an unwrapped type when it
    may dereference: the unwrapped element of a reference. *)
Definition deref_tcu (t : type_t) : type_t :=
  match t with
  | TPtr _ (K_REF | K_MUTREF) e => tcu c e
  | _ => t
  end.

Lemma type_compat_unwrap_deref t fuel :
  (tsize t + 1 ≤ fuel)%nat →
  type_compat_unwrap fuel c (tcu c t) true = Some (deref_tcu (tcu c t)).
Proof using Hc.
  intros Hf. destruct fuel as [|fuel]; [lia|].
  pose proof (tcu_not_alias c Hc t) as Ha.
  pose proof (tcu_not_native c Hc t) as Hn.
  pose proof (tsize_tcu t) as Hs.
  destruct (tcu c t) as [h k|h k e|h e len|h n e|h k] eqn:E; simpl.
  - destruct k; try reflexivity; exfalso; destruct (Hn h); congruence.
  - pose proof (alias_depth_lt_tsize e). simpl in Hs.
    destruct k; try reflexivity; apply (type_compat_unwrap_noderef c Hc); lia.
  - reflexivity.
  - exfalso. by eapply Ha.
  - reflexivity.
Qed.

Lemma ptr_eqb_addr x y : ptr_eqb x y = true ↔ type_addr x = type_addr y.
Proof. unfold ptr_eqb. apply Pos.eqb_eq. Qed.

Lemma ptr_eqb_addr_false x y : ptr_eqb x y = false ↔ type_addr x ≠ type_addr y.
Proof. unfold ptr_eqb. apply Pos.eqb_neq. Qed.

End assignable_facts.

Section assignable_main.
Context (c : compiler_t) (Hc : compiler_ok c).

(** Closes the cases of an inversion in which a rule does not apply. *)
Ltac close_rule :=
  cbn [is_ref is_slice] in *; try done; try congruence;
  repeat match goal with
         | H : _ ∨ _ |- _ => destruct H
         | H : ?a = ?a → _ |- _ => specialize (H eq_refl)
         | H : ∀ hy ye, TPtr ?h K_OPTIONAL ?e ≠ TPtr hy K_OPTIONAL ye |- _ =>
             destruct (H h e eq_refl)
         end;
  try done; try congruence.

Ltac invert_rule H Ex Ey :=
  inversion H; subst; rewrite ?Ex, ?Ey in *; simplify_eq; close_rule.

Ltac is_false Ex Ey :=
  exists false; split; [reflexivity|]; split; [discriminate|];
  let H := fresh "H" in intros H; exfalso; invert_rule H Ex Ey.

Ltac recurse IH e ye fuel' rule Ex Ey :=
  let b := fresh "b" in let Hb := fresh "Hb" in let Hiff := fresh "Hiff" in
  destruct (IH e ye fuel') as (b & Hb & Hiff); [simpl in *; lia|simpl in *; lia|];
  exists b; split; [exact Hb|]; rewrite Hiff; split;
  [ let Ha := fresh "Ha" in
    intros Ha; eapply rule; eauto; rewrite ?Ex, ?Ey; first [done|by right|by left]
  | let H' := fresh "H'" in
    intros H'; invert_rule H' Ex Ey ].

Lemma type_compat_assignable (n : nat) : ∀ (x y : type_t) (fuel : nat),
  (tsize x + tsize y ≤ n)%nat → (tsize x + tsize y + 2 ≤ fuel)%nat →
  ∃ b, type_compat fuel c x y true = Some b ∧ (b = true ↔ assignable c x y).
Proof using Hc.
  induction n as [|n IH]; intros x y fuel Hn Hf.
  { pose proof (tsize_pos x). lia. }
  unfold type_compat. destruct (ptr_eqb x y) eqn:E0.
  { exists true. split; [done|]. split; [|done]. intros _.
    apply assign_same. by apply ptr_eqb_addr. }
  destruct fuel as [|fuel']; [lia|].
  pose proof (alias_depth_lt_tsize x). pose proof (alias_depth_lt_tsize y).
  rewrite _type_compat_S. cbn [negb].
  rewrite !(type_compat_unwrap_noderef c Hc) by lia. cbn [mbind option_bind].
  destruct (ptr_eqb (tcu c x) (tcu c y)) eqn:E1.
  { exists true. split; [done|]. split; [|done]. intros _.
    apply assign_unwrapped. by apply ptr_eqb_addr. }
  apply ptr_eqb_addr_false in E0, E1.
  pose proof (tsize_tcu c Hc x) as Hsx. pose proof (tsize_tcu c Hc y) as Hsy.
  pose proof (type_compat_unwrap_deref c Hc y (S fuel')) as Hd.
  pose proof (tcu_not_alias c Hc x) as Hax.
  pose proof (tcu_not_alias c Hc y) as Hay.
  destruct (tcu c x) as [h k|h k e|h e len|h nm e|h k] eqn:Ex.
  - (* a primitive type *)
    cbn [_type_compat_switch]. destruct (is_sized_int k) eqn:Ek; [|is_false Ex Ex].
    rewrite Hd by lia. cbn [mbind option_bind].
    destruct (tcu c y) as [hy ky|hy ky ye|hy ye ylen|hy ynm ye|hy ky] eqn:Ey;
      cbn [deref_tcu];
      try (rewrite (proj2 (ptr_eqb_addr_false _ _) E1); is_false Ex Ey).
    destruct ky;
      try (rewrite (proj2 (ptr_eqb_addr_false _ _) E1); is_false Ex Ey).
    all: eexists; split; [reflexivity|]; rewrite ptr_eqb_addr; split.
    all: try (intros Ha; eapply assign_int_deref; eauto; by rewrite Ex).
    all: intros H'; invert_rule H' Ex Ey.
  - (* a pointer-like type *)
    pose proof (tsize_pos e). simpl in Hsx.
    destruct (tcu c y) as [hy ky|hy ky ye|hy ye ylen|hy ynm ye|hy ky] eqn:Ey;
      simpl in Hsy.
    + destruct k; cbn [_type_compat_switch]; [is_false Ex Ey..| ].
      recurse IH e (TPrim hy ky) fuel' assign_opt Ex Ey.
    + destruct k.
      * (* *T *)
        destruct ky; cbn [_type_compat_switch];
          [recurse IH e ye fuel' assign_ptr Ex Ey ..
          |is_false Ex Ey|is_false Ex Ey|is_false Ex Ey].
      * (* &T *)
        destruct ky; cbn [_type_compat_switch];
          [recurse IH e ye fuel' assign_ref_ptr Ex Ey
          |recurse IH e ye fuel' assign_ref Ex Ey
          |recurse IH e ye fuel' assign_ref Ex Ey
          |is_false Ex Ey|is_false Ex Ey|is_false Ex Ey].
      * (* mut&T *)
        destruct ky; cbn [_type_compat_switch];
          [recurse IH e ye fuel' assign_ref_ptr Ex Ey
          |is_false Ex Ey
          |recurse IH e ye fuel' assign_ref Ex Ey
          |is_false Ex Ey|is_false Ex Ey|is_false Ex Ey].
      * (* &[T] *)
        destruct ky; cbn [_type_compat_switch];
          [is_false Ex Ey
          |destruct ye as [hz kz|hz kz ze|hz ze zlen|hz znm ze|hz kz];
             [is_false Ex Ey|is_false Ex Ey
             |recurse IH e ze fuel' assign_slice_array Ex Ey
             |is_false Ex Ey|is_false Ex Ey]
          |destruct ye as [hz kz|hz kz ze|hz ze zlen|hz znm ze|hz kz];
             [is_false Ex Ey|is_false Ex Ey
             |recurse IH e ze fuel' assign_slice_array Ex Ey
             |is_false Ex Ey|is_false Ex Ey]
          |recurse IH e ye fuel' assign_slice Ex Ey
          |recurse IH e ye fuel' assign_slice Ex Ey
          |is_false Ex Ey].
      * (* mut&[T] *)
        destruct ky; cbn [_type_compat_switch];
          [is_false Ex Ey
          |destruct ye as [hz kz|hz kz ze|hz ze zlen|hz znm ze|hz kz]; is_false Ex Ey
          |destruct ye as [hz kz|hz kz ze|hz ze zlen|hz znm ze|hz kz];
             [is_false Ex Ey|is_false Ex Ey
             |recurse IH e ze fuel' assign_slice_array Ex Ey
             |is_false Ex Ey|is_false Ex Ey]
          |is_false Ex Ey
          |recurse IH e ye fuel' assign_slice Ex Ey
          |is_false Ex Ey].
      * (* ?T *)
        destruct ky; cbn [_type_compat_switch];
          [recurse IH e (TPtr hy K_PTR ye) fuel' assign_opt Ex Ey
          |recurse IH e (TPtr hy K_REF ye) fuel' assign_opt Ex Ey
          |recurse IH e (TPtr hy K_MUTREF ye) fuel' assign_opt Ex Ey
          |recurse IH e (TPtr hy K_SLICE ye) fuel' assign_opt Ex Ey
          |recurse IH e (TPtr hy K_MUTSLICE ye) fuel' assign_opt Ex Ey
          |recurse IH e ye fuel' assign_opt_opt Ex Ey].
    + destruct k; cbn [_type_compat_switch]; [is_false Ex Ey..| ].
      recurse IH e (TArray hy ye ylen) fuel' assign_opt Ex Ey.
    + exfalso. by eapply Hay.
    + destruct k; cbn [_type_compat_switch]; [is_false Ex Ey..| ].
      recurse IH e (TUser hy ky) fuel' assign_opt Ex Ey.
  - (* an array *)
    pose proof (tsize_pos e). simpl in Hsx.
    destruct (tcu c y) as [hy ky|hy ky ye|hy ye ylen|hy ynm ye|hy ky] eqn:Ey;
      simpl in Hsy; cbn [_type_compat_switch];
      [is_false Ex Ey|is_false Ex Ey| |is_false Ex Ey|is_false Ex Ey].
    destruct (Z.eqb_spec len ylen) as [->|Hlen]; [|is_false Ex Ey].
    recurse IH e ye fuel' assign_array Ex Ey.
  - exfalso. by eapply Hax.
  - (* a user type *)
    cbn [_type_compat_switch].
    destruct k; [is_false Ex Ex| |is_false Ex Ex..].
    rewrite Hd by lia. cbn [mbind option_bind].
    destruct (tcu c y) as [hy ky|hy ky ye|hy ye ylen|hy ynm ye|hy ky] eqn:Ey;
      cbn [deref_tcu];
      try (rewrite (proj2 (ptr_eqb_addr_false _ _) E1); is_false Ex Ey).
    destruct ky;
      try (rewrite (proj2 (ptr_eqb_addr_false _ _) E1); is_false Ex Ey).
    all: eexists; split; [reflexivity|]; rewrite andb_true_iff, negb_true_iff, ptr_eqb_addr;
      split.
    all: try (intros [Ha Ho]; eapply assign_struct_deref; eauto; by rewrite Ex).
    all: intros H'; invert_rule H' Ex Ey.
Qed.
End assignable_main.

(** The nodes the four assignments of the next theorem touch. *)
Definition assign_nodes (c : compiler_t) (T : type_t) (ho hr hm : thdr) : list type_t :=
  nodes_of [TPtr ho K_OPTIONAL T; TPtr hr K_REF T; TPtr hm K_MUTREF T;
            inttype c; uinttype c].

(** Assignability of optionals and references: the four cases. *)
Lemma type_isassignable_opt_ref
    (c : compiler_t) (T : type_t) (ho hr hm : thdr) (fuel : nat) :
  compiler_ok c →
  addr_consistentb (assign_nodes c T ho hr hm) = true →
  (2 * tsize T + 3 ≤ fuel)%nat →
  type_isassignable fuel c (TPtr ho K_OPTIONAL T) T = Some true
  ∧ type_isassignable fuel c T (TPtr ho K_OPTIONAL T) = Some false
  ∧ type_isassignable fuel c (TPtr hr K_REF T) (TPtr hm K_MUTREF T) = Some true
  ∧ type_isassignable fuel c (TPtr hm K_MUTREF T) (TPtr hr K_REF T) = Some false.
Proof.
  intros Hc Ha Hf. pose proof (addr_consistentb_spec _ Ha) as Haddr.
  set (S := assign_nodes c T ho hr hm) in *.
  assert (HinO : TPtr ho K_OPTIONAL T ∈ S) by (apply nodes_of_root, list_elem_of_In; simpl; tauto).
  assert (HinR : TPtr hr K_REF T ∈ S) by (apply nodes_of_root, list_elem_of_In; simpl; tauto).
  assert (HinM : TPtr hm K_MUTREF T ∈ S) by (apply nodes_of_root, list_elem_of_In; simpl; tauto).
  assert (HinI : inttype c ∈ S) by (apply nodes_of_root, list_elem_of_In; simpl; tauto).
  assert (HinU : uinttype c ∈ S) by (apply nodes_of_root, list_elem_of_In; simpl; tauto).
  assert (Hcl : ∀ s t, t ∈ S → s ∈ subterms t → s ∈ S)
    by (intros s t; apply nodes_of_closed).
  assert (HinT : T ∈ S).
  { eapply Hcl; [exact HinO|]. simpl. apply list_elem_of_further, subterms_self. }
  pose proof (alias_depth_lt_tsize T) as HaT.
  destruct fuel as [|fuel']; [lia|].
  unfold type_isassignable. repeat split.
  - unfold type_compat. destruct (ptr_eqb _ T); [reflexivity|].
    rewrite _type_compat_S. cbn [negb].
    change (type_compat_unwrap (Datatypes.S fuel') c (TPtr ho K_OPTIONAL T) false)
      with (Some (TPtr ho K_OPTIONAL T)).
    rewrite (type_compat_unwrap_noderef c Hc T) by lia. cbn [mbind option_bind].
    destruct (ptr_eqb _ (tcu c T)); [reflexivity|].
    cbn [_type_compat_switch].
    apply (type_compat_strip_self c Hc (tsize T)); lia.
  - apply (type_compat_optdepth c Hc S Hcl HinI HinU Haddr (tsize T)); auto.
    simpl; lia.
  - unfold type_compat. destruct (ptr_eqb _ _); [reflexivity|].
    rewrite _type_compat_S. cbn [negb type_compat_unwrap mbind option_bind].
    destruct (ptr_eqb _ _); [reflexivity|].
    cbn [_type_compat_switch]. unfold type_compat. by rewrite ptr_eqb_refl.
  - unfold type_compat.
    rewrite (ptr_eqb_false S Haddr) by (auto; discriminate).
    rewrite _type_compat_S. cbn [negb type_compat_unwrap mbind option_bind].
    by rewrite (ptr_eqb_false S Haddr) by (auto; discriminate).
Qed.

(** C4.  Assignability follows the rules.  For all types [X] and [Y]
    ("int" and "uint" standing for fixed-width integers, enough fuel for
    the recursion) [type_isassignable] returns, and it accepts exactly
    when [assignable] holds: aliases and "int", "uint" are seen through,
    and the rules for fixed-size integers, structs, pointers, optionals,
    references, slices and arrays decide.  In particular, for every type
    [T], with [?T], [&T] and [mut&T] nodes over it (every node having its
    own address): a [T] is assignable to a [?T]; a [?T] is not assignable
    to a [T]; a [mut&T] is assignable to a [&T]; a [&T] is not assignable
    to a [mut&T]; and the rules say the same. *)
Theorem type_isassignable_rules
    (c : compiler_t) (X Y T : type_t) (ho hr hm : thdr) (fuel : nat) :
  compiler_ok c →
  (tsize X + tsize Y + 2 ≤ fuel)%nat →
  addr_consistentb (assign_nodes c T ho hr hm) = true →
  (2 * tsize T + 3 ≤ fuel)%nat →
  (∃ b, type_isassignable fuel c X Y = Some b ∧ (b = true ↔ assignable c X Y))
  ∧ (type_isassignable fuel c (TPtr ho K_OPTIONAL T) T = Some true
     ∧ assignable c (TPtr ho K_OPTIONAL T) T)
  ∧ (type_isassignable fuel c T (TPtr ho K_OPTIONAL T) = Some false
     ∧ ¬ assignable c T (TPtr ho K_OPTIONAL T))
  ∧ (type_isassignable fuel c (TPtr hr K_REF T) (TPtr hm K_MUTREF T) = Some true
     ∧ assignable c (TPtr hr K_REF T) (TPtr hm K_MUTREF T))
  ∧ (type_isassignable fuel c (TPtr hm K_MUTREF T) (TPtr hr K_REF T) = Some false
     ∧ ¬ assignable c (TPtr hm K_MUTREF T) (TPtr hr K_REF T)).
Proof.
  intros Hc HXY Ha HT.
  destruct (type_isassignable_opt_ref c T ho hr hm fuel Hc Ha HT) as (H1 & H2 & H3 & H4).
  destruct (type_isassignable_opt_ref c T ho hr hm (S fuel) Hc Ha) as (_ & _ & H3' & H4');
    [lia|].
  assert (Hrule : ∀ f x y v, (tsize x + tsize y + 2 ≤ f)%nat →
            type_isassignable f c x y = Some v →
            if v then assignable c x y else ¬ assignable c x y).
  { intros f x y v Hf Hv.
    destruct (type_compat_assignable c Hc (tsize x + tsize y) x y f) as (b & Hb & Hiff);
      [lia|lia|].
    unfold type_isassignable in Hv. rewrite Hb in Hv. injection Hv as ->.
    destruct v; [by apply Hiff|]. intros Hr. apply Hiff in Hr. discriminate Hr. }
  split; [apply (type_compat_assignable c Hc (tsize X + tsize Y)); lia|].
  split; [split; [exact H1|apply (Hrule fuel _ _ true); [simpl; lia|exact H1]]|].
  split; [split; [exact H2|apply (Hrule fuel _ _ false); [simpl; lia|exact H2]]|].
  split; [split; [exact H3|apply (Hrule (S fuel) _ _ true); [simpl; lia|exact H3']]|].
  split; [exact H4|apply (Hrule (S fuel) _ _ false); [simpl; lia|exact H4']].
Qed.

(** An alias of "int", and a slice and an array of it, for the examples. *)
Definition Int_alias : type_t := TAlias (Thdr 110%positive NF_CHECKED 8 8) "Int" type_int.
Definition slice_Int : type_t := mkptr 111%positive K_SLICE Int_alias.
Definition array_i64 : type_t :=
  TArray (Thdr 112%positive NF_CHECKED 24 8) type_i64 3.

(** The theorem at [X = &[Int]] and [Y = mut&[i64 3]], and at [T = int], on
    a 64-bit target. *)
Lemma type_isassignable_rules_witness :
  let ho := Thdr 100%positive NF_CHECKED 8 8 in
  let hr := Thdr 101%positive NF_CHECKED 8 8 in
  let hm := Thdr 102%positive NF_CHECKED 8 8 in
  let X := slice_Int in
  let Y := mkptr 113%positive K_MUTREF array_i64 in
  (∃ b, type_isassignable 8 compiler64 X Y = Some b
        ∧ (b = true ↔ assignable compiler64 X Y))
  ∧ (type_isassignable 8 compiler64 (TPtr ho K_OPTIONAL type_int) type_int = Some true
     ∧ assignable compiler64 (TPtr ho K_OPTIONAL type_int) type_int)
  ∧ (type_isassignable 8 compiler64 type_int (TPtr ho K_OPTIONAL type_int) = Some false
     ∧ ¬ assignable compiler64 type_int (TPtr ho K_OPTIONAL type_int))
  ∧ (type_isassignable 8 compiler64 (TPtr hr K_REF type_int) (TPtr hm K_MUTREF type_int)
     = Some true
     ∧ assignable compiler64 (TPtr hr K_REF type_int) (TPtr hm K_MUTREF type_int))
  ∧ (type_isassignable 8 compiler64 (TPtr hm K_MUTREF type_int) (TPtr hr K_REF type_int)
     = Some false
     ∧ ¬ assignable compiler64 (TPtr hm K_MUTREF type_int) (TPtr hr K_REF type_int)).
Proof.
  intros ho hr hm X Y.
  apply (type_isassignable_rules compiler64 X Y type_int ho hr hm 8).
  - split; reflexivity.
  - simpl. lia.
  - vm_compute. reflexivity.
  - simpl. lia.
Defined.

(** The rules at work: an alias is transparent, "int" is the integer the
    target configures, a slice takes a reference to an array, a mutable
    slice takes no immutable one. *)
Example assignable_examples :
  type_isassignable 8 compiler64 slice_Int (mkptr 113%positive K_MUTREF array_i64) = Some true
  ∧ type_isassignable 8 compiler64 Int_alias type_i64 = Some true
  ∧ type_isassignable 8 compiler64 type_i32 type_i64 = Some false
  ∧ type_isassignable 8 compiler64 (mkptr 114%positive K_MUTSLICE type_i64)
      (mkptr 115%positive K_SLICE type_i64) = Some false
  ∧ type_isassignable 8 compiler64 (mkptr 116%positive K_PTR type_i64)
      (mkptr 117%positive K_REF Int_alias) = Some true
  ∧ type_isassignable 8 compiler64 array_i64
      (TArray (Thdr 118%positive NF_CHECKED 32 8) type_i64 4) = Some false.
Proof. vm_compute. repeat split. Qed.

(** ** Rendering of diagnostics *)

(** Modelled from the spec: [report_diagv] and [fmtnode] are not among the
    sources.  A message is its format string with every ["%s"] replaced by
    the next argument; a primitive type prints as its name (the NAME column
    of [FOREACH_NODEKIND_PRIMTYPE], which is what [primtype_name] returns),
    an alias as its name, and a number in decimal is left to the renderer. *)
Definition primtype_name (k : primkind) : string :=
  match k with
  | K_VOID => "void" | K_BOOL => "bool" | K_I8 => "i8" | K_I16 => "i16"
  | K_I32 => "i32" | K_I64 => "i64" | K_INT => "int" | K_U8 => "u8"
  | K_U16 => "u16" | K_U32 => "u32" | K_U64 => "u64" | K_UINT => "uint"
  | K_F32 => "f32" | K_F64 => "f64" | K_UNKNOWN => "unknown"
  end.

Definition fmtarg_str (x : fmtarg) : string :=
  match x with
  | FmtStr s => s
  | FmtType (TPrim _ k) => primtype_name k
  | FmtType (TAlias _ name _) => name
  | FmtType _ => "<type>"
  | FmtKind _ => "<kind>"
  | FmtNum _ => "<number>"
  end.

Fixpoint format (fmt : string) (args : list string) : string :=
  match fmt with
  | EmptyString => EmptyString
  | String "%"%char (String "s"%char rest) =>
      match args with
      | x :: args' => (x +:+ format rest args')%string
      | [] => format rest []
      end
  | String ch rest => String ch (format rest args)
  end.

Definition diag_msg (d : diag_t) : string :=
  format (diag_fmt d) (map fmtarg_str (diag_args d)).

(** ** Allocators *)

(** Modelled from the spec: the allocators ([memalloc_t], [mem_alloc],
    [ast_mknode], [ast_clone_node]) are not among the sources.  An
    allocator is the number of requests it can still serve; a request on an
    exhausted allocator fails (the C functions return [NULL]). *)
Definition memalloc_t := nat.

Definition mem_alloc (ma : memalloc_t) : option memalloc_t :=
  match ma with
  | O => None
  | S ma' => Some ma'
  end.

(** [err_t]: 0, or [ErrNoMem]. *)
Inductive err_t : Set := ErrOk | ErrNoMem.

(** [typeid_t]: the canonical byte string of a type. *)
Definition typeid_t := string.

(** ** Scopes *)

(** Modelled from the spec: [scope.c] is not among the sources.  "Scope.
    A flat vector of (symbol, node) pairs with a stack of base indices.
    Push/pop adjusts base; define appends; lookup scans from top toward
    either current scope only or all scopes."  [typecheck.c] reads the
    vector itself: from the top, the name of an entry comes first and its
    node below it.  The vector is kept top first; [len] is its length.
    Entering a scope and defining a name make a request to the allocator
    (the vector may have to grow). *)
Inductive slot : Set :=
  | SBase (b : nat)          (* the base index of the enclosing scope *)
  | SNode (p : ptr)          (* a node *)
  | SName (name : sym_t).    (* the name of the node below *)

Record scope_t : Set := Scope {
  s_ptr  : list slot;
  s_base : nat;
}.

Definition scope_len (s : scope_t) : nat := length (s_ptr s).

Definition U32_MAX : N := 4294967295%N.

Definition scope_push (s : scope_t) : scope_t :=
  {| s_ptr := SBase (s_base s) :: s_ptr s; s_base := scope_len s |}.

Definition scope_pop (s : scope_t) : scope_t :=
  match drop (scope_len s - 1 - s_base s) (s_ptr s) with
  | SBase b :: rest => {| s_ptr := rest; s_base := b |}
  | _ => s
  end.

Definition scope_define (s : scope_t) (key : sym_t) (value : ptr) : scope_t :=
  {| s_ptr := SName key :: SNode value :: s_ptr s; s_base := s_base s |}.

Fixpoint scope_scan (slots : list slot) (key : sym_t) (maxdepth : N) : option ptr :=
  match slots with
  | SName k :: SNode p :: rest =>
      if String.eqb k key then Some p else scope_scan rest key maxdepth
  | SBase _ :: rest =>
      if (maxdepth =? 0)%N then None else scope_scan rest key (N.pred maxdepth)
  | _ => None
  end.

Definition scope_lookup (s : scope_t) (key : sym_t) (maxdepth : N) : option ptr :=
  scope_scan (s_ptr s) key maxdepth.

(** ** Nodes kept in a store

    The nodes the checker reaches through pointers that it also writes
    through (the scope, the references of identifiers, the instances of
    templates) are kept in a store, by address.  [nhdr] is what every
    [node_t] starts with. *)
Record nhdr : Set := Nhdr {
  nd_kind  : nodekind;
  nd_flags : nodeflag_t;
  nd_nuse  : Z;
  nd_line  : Z;                           (* loc_line(n->loc) *)
}.

(** [templateparam_t]: a parameter of a template, with its default. *)
Record templateparam_t : Set := Templateparam {
  tpl_name : sym_t;
  tpl_init : option type_t;
}.

(** An entry of [templateparams]: a parameter, in a template; a type
    argument, in an instance. *)
Inductive tplnode : Set :=
  | TplParam (p : templateparam_t)
  | TplArg (t : type_t).

Inductive node_t : Set :=
  | NId (h : nhdr) (type : ptr) (name : sym_t) (ref : option ptr)  (* idexpr_t *)
  | NUnresolved (h : nhdr) (name : sym_t) (resolved : option ptr)  (* unresolvedtype_t *)
  | NAlias (h : nhdr) (name : sym_t) (elem : ptr)                  (* aliastype_t *)
  | NUsertype (h : nhdr) (templateparams : list tplnode)           (* usertype_t *)
  | NNode (h : nhdr).                                              (* any other node *)

Definition node_hdr (n : node_t) : nhdr :=
  match n with
  | NId h _ _ _ | NUnresolved h _ _ | NAlias h _ _ | NUsertype h _ | NNode h => h
  end.

Definition node_set_hdr (n : node_t) (h : nhdr) : node_t :=
  match n with
  | NId _ type name ref => NId h type name ref
  | NUnresolved _ name resolved => NUnresolved h name resolved
  | NAlias _ name elem => NAlias h name elem
  | NUsertype _ ps => NUsertype h ps
  | NNode _ => NNode h
  end.

Definition hdr_set_flags (h : nhdr) (fl : nodeflag_t) : nhdr :=
  {| nd_kind := nd_kind h; nd_flags := fl; nd_nuse := nd_nuse h; nd_line := nd_line h |}.

Definition hdr_set_nuse (h : nhdr) (nuse : Z) : nhdr :=
  {| nd_kind := nd_kind h; nd_flags := nd_flags h; nd_nuse := nuse; nd_line := nd_line h |}.

Definition node_kind (n : node_t) : nodekind := nd_kind (node_hdr n).
Definition node_flags (n : node_t) : nodeflag_t := nd_flags (node_hdr n).

(** [didyoumean_t] *)
Record didyoumean_t : Set := Didyoumean {
  dym_name      : sym_t;
  dym_decl      : ptr;
  dym_othername : option sym_t;
}.

(** ** The checker state ([typecheck_t])

    The fields the rules for literals, struct types, interning, the
    "main" function, name resolution and templates read or write.  [diags] is what [report_diag] was
    called with, oldest first; [ast_next] is the address the AST allocator
    hands out next. *)
Record typecheck_t : Type := Typecheck {
  compiler       : compiler_t;
  mainfun        : option ptr;            (* a->pkg->mainfun *)
  ma             : memalloc_t;
  ast_ma         : memalloc_t;
  ast_next       : ptr;
  err            : err_t;
  typectx        : type_t;
  typectxstack   : list type_t;
  postanalyze    : gmap ptr Z;
  typeidmap      : gmap typeid_t type_t;
  reported_error : bool;
  diags          : list diag_t;
  scope          : scope_t;
  pkg_defs       : gmap sym_t ptr;        (* a->pkg: the definitions of the package *)
  didyoumean     : list didyoumean_t;
  nodes          : gmap ptr node_t;
  templateimap   : gmap (ptr * string) ptr;
  templatenest   : Z;
}.

Definition set_diags (a : typecheck_t) (reported : bool) (ds : list diag_t) : typecheck_t :=
  {| compiler := compiler a; mainfun := mainfun a; ma := ma a; ast_ma := ast_ma a;
     ast_next := ast_next a; err := err a; typectx := typectx a;
     typectxstack := typectxstack a; postanalyze := postanalyze a;
     typeidmap := typeidmap a; reported_error := reported; diags := ds;
     scope := scope a; pkg_defs := pkg_defs a; didyoumean := didyoumean a;
     nodes := nodes a; templateimap := templateimap a; templatenest := templatenest a |}.

Definition set_err (a : typecheck_t) (e : err_t) : typecheck_t :=
  {| compiler := compiler a; mainfun := mainfun a; ma := ma a; ast_ma := ast_ma a;
     ast_next := ast_next a; err := e; typectx := typectx a;
     typectxstack := typectxstack a; postanalyze := postanalyze a;
     typeidmap := typeidmap a; reported_error := reported_error a; diags := diags a;
     scope := scope a; pkg_defs := pkg_defs a; didyoumean := didyoumean a;
     nodes := nodes a; templateimap := templateimap a; templatenest := templatenest a |}.

Definition set_ma (a : typecheck_t) (m : memalloc_t) : typecheck_t :=
  {| compiler := compiler a; mainfun := mainfun a; ma := m; ast_ma := ast_ma a;
     ast_next := ast_next a; err := err a; typectx := typectx a;
     typectxstack := typectxstack a; postanalyze := postanalyze a;
     typeidmap := typeidmap a; reported_error := reported_error a; diags := diags a;
     scope := scope a; pkg_defs := pkg_defs a; didyoumean := didyoumean a;
     nodes := nodes a; templateimap := templateimap a; templatenest := templatenest a |}.

Definition set_ast (a : typecheck_t) (m : memalloc_t) (next : ptr) : typecheck_t :=
  {| compiler := compiler a; mainfun := mainfun a; ma := ma a; ast_ma := m;
     ast_next := next; err := err a; typectx := typectx a;
     typectxstack := typectxstack a; postanalyze := postanalyze a;
     typeidmap := typeidmap a; reported_error := reported_error a; diags := diags a;
     scope := scope a; pkg_defs := pkg_defs a; didyoumean := didyoumean a;
     nodes := nodes a; templateimap := templateimap a; templatenest := templatenest a |}.

Definition set_typectx (a : typecheck_t) (t : type_t) (stack : list type_t) : typecheck_t :=
  {| compiler := compiler a; mainfun := mainfun a; ma := ma a; ast_ma := ast_ma a;
     ast_next := ast_next a; err := err a; typectx := t;
     typectxstack := stack; postanalyze := postanalyze a;
     typeidmap := typeidmap a; reported_error := reported_error a; diags := diags a;
     scope := scope a; pkg_defs := pkg_defs a; didyoumean := didyoumean a;
     nodes := nodes a; templateimap := templateimap a; templatenest := templatenest a |}.

Definition set_typeidmap (a : typecheck_t) (m : gmap typeid_t type_t) : typecheck_t :=
  {| compiler := compiler a; mainfun := mainfun a; ma := ma a; ast_ma := ast_ma a;
     ast_next := ast_next a; err := err a; typectx := typectx a;
     typectxstack := typectxstack a; postanalyze := postanalyze a;
     typeidmap := m; reported_error := reported_error a; diags := diags a;
     scope := scope a; pkg_defs := pkg_defs a; didyoumean := didyoumean a;
     nodes := nodes a; templateimap := templateimap a; templatenest := templatenest a |}.

Definition set_postanalyze (a : typecheck_t) (m : gmap ptr Z) : typecheck_t :=
  {| compiler := compiler a; mainfun := mainfun a; ma := ma a; ast_ma := ast_ma a;
     ast_next := ast_next a; err := err a; typectx := typectx a;
     typectxstack := typectxstack a; postanalyze := m;
     typeidmap := typeidmap a; reported_error := reported_error a; diags := diags a;
     scope := scope a; pkg_defs := pkg_defs a; didyoumean := didyoumean a;
     nodes := nodes a; templateimap := templateimap a; templatenest := templatenest a |}.

Definition set_mainfun (a : typecheck_t) (f : option ptr) : typecheck_t :=
  {| compiler := compiler a; mainfun := f; ma := ma a; ast_ma := ast_ma a;
     ast_next := ast_next a; err := err a; typectx := typectx a;
     typectxstack := typectxstack a; postanalyze := postanalyze a;
     typeidmap := typeidmap a; reported_error := reported_error a; diags := diags a;
     scope := scope a; pkg_defs := pkg_defs a; didyoumean := didyoumean a;
     nodes := nodes a; templateimap := templateimap a; templatenest := templatenest a |}.

(** The macros [diag], [error], [warning], [help].  The origin of a
    diagnostic (a source location) is not recorded. *)
Definition diag (a : typecheck_t) (k : diagkind_t) (fmt : string) (args : list fmtarg)
    : typecheck_t :=
  set_diags a (reported_error a) (diags a ++ [Diag k fmt args]).

Definition error (a : typecheck_t) (fmt : string) (args : list fmtarg) : typecheck_t :=
  diag (set_diags a true (diags a)) DIAG_ERR fmt args.

Definition warning (a : typecheck_t) (fmt : string) (args : list fmtarg) : typecheck_t :=
  diag a DIAG_WARN fmt args.

Definition help (a : typecheck_t) (fmt : string) (args : list fmtarg) : typecheck_t :=
  diag a DIAG_HELP fmt args.

(** [seterr] *)
Definition seterr (a : typecheck_t) (e : err_t) : typecheck_t :=
  match err a with
  | ErrOk => set_err a e
  | _ => a
  end.

(** [out_of_mem] *)
Definition out_of_mem (a : typecheck_t) : typecheck_t :=
  seterr (error a "out of memory" []) ErrNoMem.

(** [typectx_push], [typectx_pop] *)
Definition typectx_push (a : typecheck_t) (t : type_t) : typecheck_t :=
  match mem_alloc (ma a) with
  | Some m => set_typectx (set_ma a m) t (typectx a :: typectxstack a)
  | None =>
      (* ptrarray_push failed: nothing is pushed, the context changes *)
      set_typectx (out_of_mem a) t (typectxstack a)
  end.

(** [typectx_pop] asserts that the stack is not empty; here a pop of an
    empty stack leaves the state as it is. *)
Definition typectx_pop (a : typecheck_t) : typecheck_t :=
  match typectxstack a with
  | t :: stack => set_typectx a t stack
  | [] => a
  end.

(** A checker state as [typecheck] sets it up, with room for [n]
    allocations in each allocator. *)
Definition typecheck_init (c : compiler_t) (n : nat) : typecheck_t :=
  {| compiler := c; mainfun := None; ma := n; ast_ma := n;
     ast_next := 1000%positive; err := ErrOk; typectx := type_void;
     typectxstack := []; postanalyze := ∅; typeidmap := ∅;
     reported_error := false; diags := [];
     scope := Scope [] 0%nat; pkg_defs := ∅; didyoumean := [];
     nodes := ∅; templateimap := ∅; templatenest := 0 |}.

(** ** Integer literals *)

Record intlit_t : Set := Intlit {
  il_flags : nodeflag_t;
  il_type  : type_t;
  intval   : Z;            (* u64 *)
}.

Definition intlit_set_type (n : intlit_t) (t : type_t) : intlit_t :=
  {| il_flags := il_flags n; il_type := t; intval := intval n |}.

(** [u64 isneg = 0; // TODO] *)
Definition intlit_isneg : Z := 0.

(** The tail of [intlit]: the overflow test and the assignment of the type. *)
Definition intlit_finish (a : typecheck_t) (n : intlit_t) (type : type_t)
    (uintval maxval : Z) : typecheck_t * intlit_t :=
  let a := if (maxval <? uintval)%Z
           then error a "integer constant overflows %s" [FmtType type]
           else a in
  (a, intlit_set_type n type).

(** The [switch] of [intlit], re-entered at [again:] for "int" and "uint";
    every entry takes one unit of fuel. *)
Fixpoint intlit_switch (fuel : nat) (a : typecheck_t) (n : intlit_t) (isneg : Z)
    (type basetype : type_t) (uintval : Z) : option (typecheck_t * intlit_t) :=
  match fuel with
  | O => None
  | S fuel =>
      match type_kind basetype with
      | TYPE_I8  => Some (intlit_finish a n type uintval (0x7f + isneg))
      | TYPE_I16 => Some (intlit_finish a n type uintval (0x7fff + isneg))
      | TYPE_I32 => Some (intlit_finish a n type uintval (0x7fffffff + isneg))
      | TYPE_I64 => Some (intlit_finish a n type uintval (0x7fffffffffffffff + isneg))
      | TYPE_U8  => Some (intlit_finish a n type uintval 0xff)
      | TYPE_U16 => Some (intlit_finish a n type uintval 0xffff)
      | TYPE_U32 => Some (intlit_finish a n type uintval 0xffffffff)
      | TYPE_U64 => Some (intlit_finish a n type uintval 0xffffffffffffffff)
      | TYPE_INT => intlit_switch fuel a n isneg type (inttype (compiler a)) uintval
      | TYPE_UINT => intlit_switch fuel a n isneg type (uinttype (compiler a)) uintval
      | _ =>
          (* all other type contexts result in int, uint, i64 or u64 *)
          if (target_intsize (compiler a) =? 8)%Z then
            if negb (isneg =? 0)%Z then
              Some (intlit_finish a n type_int uintval 0x8000000000000000)
            else if (intval n <? 0x8000000000000000)%Z then
              Some (a, intlit_set_type n type_int)
            else
              Some (intlit_finish a n type_u64 uintval 0xffffffffffffffff)
          else
            if negb (isneg =? 0)%Z then
              if (uintval <=? 0x80000000)%Z then Some (a, intlit_set_type n type_int)
              else if (uintval <=? 0x8000000000000000)%Z
                   then Some (a, intlit_set_type n type_i64)
              else Some (intlit_finish a n type_i64 uintval 0x8000000000000000)
            else
              if (intval n <=? 0x7fffffff)%Z then Some (a, intlit_set_type n type_int)
              else if (intval n <=? 0xffffffff)%Z then Some (a, intlit_set_type n type_uint)
              else if (intval n <=? 0x7fffffffffffffff)%Z
                   then Some (a, intlit_set_type n type_i64)
              else Some (intlit_finish a n type_u64 uintval 0xffffffffffffffff)
      end
  end.

(** [intlit] *)
Definition intlit (fuel : nat) (a : typecheck_t) (n : intlit_t)
    : option (typecheck_t * intlit_t) :=
  if negb (ptr_eqb (il_type n) type_unknown) then Some (a, n) else
  let isneg := intlit_isneg in
  let type := typectx a in
  let basetype := unwrap_alias type in
  let uintval := intval n in
  let uintval := if negb (isneg =? 0)%Z
                 then Z.land uintval (Z.lnot 0x1000000000000000) (* clear negative bit *)
                 else uintval in
  intlit_switch fuel a n isneg type basetype uintval.

(** *** The range table of the specification *)

(** "Integer literal ranges used for overflow checking: i8/u8 0x7f/0xff,
    i16/u16 0x7fff/0xffff, i32/u32, i64/u64". *)
Definition range_max (k : primkind) : Z :=
  match k with
  | K_I8 => 0x7f | K_U8 => 0xff
  | K_I16 => 0x7fff | K_U16 => 0xffff
  | K_I32 => 0x7fffffff | K_U32 => 0xffffffff
  | K_I64 => 0x7fffffffffffffff | K_U64 => 0xffffffffffffffff
  | _ => 0
  end.

Definition is_signed_int (k : primkind) : bool :=
  match k with
  | K_I8 | K_I16 | K_I32 | K_I64 => true
  | _ => false
  end.

(** "negation adjusts the signed upper bound by +1": [isneg] is 1 for a
    negated literal and 0 otherwise. *)
Definition range_bound (isneg : Z) (k : primkind) : Z :=
  range_max k + (if is_signed_int k then isneg else 0).

(** The integer type a context stands for: aliases unwrapped, "int" and
    "uint" replaced by the types the target configures for them. *)
Definition expected_int_kind (c : compiler_t) (t : type_t) : option primkind :=
  let sized (t : type_t) :=
    match t with
    | TPrim _ k => if is_sized_int k then Some k else None
    | _ => None
    end in
  match unwrap_alias t with
  | TPrim _ K_INT => sized (inttype c)
  | TPrim _ K_UINT => sized (uinttype c)
  | u => sized u
  end.

Definition overflow_diag (type : type_t) : diag_t :=
  Diag DIAG_ERR "integer constant overflows %s" [FmtType type].

(** In a context that stands for an integer type of kind [k], the [switch]
    of [intlit] ends with the bound of the range table for [k], to which
    [isneg] is added for a signed type. *)
Lemma intlit_switch_typed (a : typecheck_t) (n : intlit_t) (k : primkind) (fuel : nat)
    (isneg uintval : Z) :
  compiler_ok (compiler a) →
  expected_int_kind (compiler a) (typectx a) = Some k →
  (2 ≤ fuel)%nat →
  intlit_switch fuel a n isneg (typectx a) (unwrap_alias (typectx a)) uintval
  = Some (intlit_finish a n (typectx a) uintval (range_bound isneg k)).
Proof.
  intros [Hi Hu] Hk Hf.
  destruct fuel as [|[|fuel]]; try lia.
  unfold expected_int_kind in Hk. unfold range_bound.
  destruct (unwrap_alias (typectx a)) as [h k0|h k0 e|h e len|h nm e|h k0] eqn:E;
    try discriminate.
  destruct k0; cbn in Hk; try discriminate;
    try (injection Hk as <-; cbn [intlit_switch type_kind primkind_kind is_signed_int range_max];
         rewrite ?Z.add_0_r; reflexivity).
  - (* int *)
    cbn [intlit_switch type_kind primkind_kind].
    destruct (inttype (compiler a)) as [hi ki| | | |]; try discriminate.
    destruct ki; cbn in Hk; try discriminate; injection Hk as <-;
      cbn [intlit_switch type_kind primkind_kind is_signed_int range_max];
      rewrite ?Z.add_0_r; reflexivity.
  - (* uint *)
    cbn [intlit_switch type_kind primkind_kind].
    destruct (uinttype (compiler a)) as [hi ki| | | |]; try discriminate.
    destruct ki; cbn in Hk; try discriminate; injection Hk as <-;
      cbn [intlit_switch type_kind primkind_kind is_signed_int range_max];
      rewrite ?Z.add_0_r; reflexivity.
Qed.

(** What [intlit_finish] reports. *)
Lemma intlit_finish_spec (a : typecheck_t) (n : intlit_t) (type : type_t)
    (uintval maxval : Z) :
  let '(a', n') := intlit_finish a n type uintval maxval in
  il_type n' = type ∧ intval n' = intval n ∧ il_flags n' = il_flags n
  ∧ diags a' = diags a ++ (if (maxval <? uintval)%Z then [overflow_diag type] else [])
  ∧ reported_error a' = (reported_error a || (maxval <? uintval)%Z)
  ∧ ((uintval ≤ maxval)%Z → a' = a).
Proof.
  unfold intlit_finish. destruct (maxval <? uintval)%Z eqn:E; cbn.
  - repeat split; auto.
    + by rewrite orb_true_r.
    + intros. apply Z.ltb_lt in E. lia.
  - repeat split; auto.
    + by rewrite app_nil_r.
    + by rewrite orb_false_r.
Qed.




(** ** The type interner *)

(** Modelled from the spec: [typeid_intern] ([typeid.c]) is not among the
    sources.  "Type id (structural): a canonical byte string derived from
    a type's kind and recursive components".  The id starts with
    [TYPEID_PREFIX(kind)] of [compiler.h], the letter ['A' + (kind -
    TYPE_VOID)]; an array adds its length, a pointer-like type and an
    alias the id of the element.  Of a struct, function or namespace type
    [type_t] holds no components; such a node is identified by itself. *)
Definition TYPEID_PREFIX (k : nodekind) : ascii :=
  ascii_of_N (Z.to_N (65 + (nodekind_index k - nodekind_index TYPE_VOID))).

Fixpoint digits (fuel : nat) (n : N) : string :=
  match fuel with
  | O => EmptyString
  | S fuel =>
      let d := String (ascii_of_N (48 + N.modulo n 10)) EmptyString in
      if (n <? 10)%N then d else (digits fuel (N.div n 10) +:+ d)%string
  end.

Fixpoint typeid_structural (t : type_t) : typeid_t :=
  String (TYPEID_PREFIX (type_kind t))
    match t with
    | TPrim _ _ => EmptyString
    | TPtr _ _ elem => typeid_structural elem
    | TArray _ elem len =>
        (digits 20 (Z.to_N len) +:+ ";" +:+ typeid_structural elem)%string
    | TAlias _ name elem => (name +:+ ";" +:+ typeid_structural elem)%string
    | TUser h _ => digits 20 (Npos (t_addr h))
    end.

Section intern.
(** The structural id of a type node. *)
Variable typeid_intern : type_t → typeid_t.

(** [intern_usertype] interns [*tp] in [a->typeidmap].  The result is
    the state, the new [*tp], and [true] if [*tp] was added.
    [map_assign_ptr] allocates only when it adds an entry. *)
Definition intern_usertype (a : typecheck_t) (tp : type_t)
    : typecheck_t * type_t * bool :=
  let typeid := typeid_intern tp in
  match typeidmap a !! typeid with
  | Some p =>
      (* update caller's tp argument with existing type *)
      (a, if ptr_eqb tp p then tp else p, false)
  | None =>
      match mem_alloc (ma a) with
      | None => (out_of_mem a, tp, false)
      | Some m =>
          (* add type *)
          (set_typeidmap (set_ma a m) (<[typeid := tp]> (typeidmap a)), tp, true)
      end
  end.
End intern.

(** A type is interned when the interner maps some id to its node. *)
Definition interned (a : typecheck_t) (t : type_t) : Prop :=
  ∃ id p, typeidmap a !! id = Some p ∧ type_addr p = type_addr t.

(** ** Creating nodes *)

(** [last_resort_node]: the node [_mknode] hands out when the allocator is
    exhausted. *)
Definition last_resort_addr : ptr := 999%positive.
Definition last_resort_hdr : thdr :=
  {| t_addr := last_resort_addr; t_flags := 0; t_size := 0; t_align := 0 |}.

(** [mknode] for a type node: a zeroed node at a fresh address. *)
Definition mknode (a : typecheck_t) : typecheck_t * thdr :=
  match mem_alloc (ast_ma a) with
  | Some m =>
      (set_ast a m (Pos.succ (ast_next a)),
       {| t_addr := ast_next a; t_flags := 0; t_size := 0; t_align := 0 |})
  | None => (out_of_mem a, last_resort_hdr)
  end.

Definition u64_max : Z := 0xffffffffffffffff.

(** [arraytype_calc_size], on the header of the array type *)
Definition arraytype_calc_size (a : typecheck_t) (h : thdr) (elem : type_t) (len : Z)
    : typecheck_t * thdr :=
  let c := compiler a in
  if (len =? 0)%Z then
    (a, {| t_addr := t_addr h; t_flags := t_flags h;
           t_size := target_intsize c * 2 + target_ptrsize c;
           t_align := Z.max (target_ptrsize c) (target_intsize c) |})
  else if (u64_max <? len * type_size elem)%Z then
    (* check_mul_overflow *)
    (error a "array constant too large; overflows uint (%s)" [FmtType (uinttype c)], h)
  else
    (a, {| t_addr := t_addr h; t_flags := t_flags h;
           t_size := len * type_size elem; t_align := type_align elem |}).

(** ** String literals *)

Record strlit_t : Set := Strlit {
  sl_flags : nodeflag_t;
  sl_type  : type_t;
  sl_bytes : list Z;      (* u8* bytes *)
  sl_len   : Z;           (* u64 len *)
}.

Definition strlit_set_type (n : strlit_t) (t : type_t) : strlit_t :=
  {| sl_flags := sl_flags n; sl_type := t; sl_bytes := sl_bytes n; sl_len := sl_len n |}.

(** [strlit].  (When the AST allocator is exhausted the two calls of
    [mknode] return the one [last_resort_node] of the C code; here each
    gives a header with the address of that node.) *)
Definition strlit (a : typecheck_t) (n : strlit_t) : typecheck_t * strlit_t :=
  if ptr_eqb (typectx a) (strtype (compiler a)) then
    (a, strlit_set_type n (typectx a))
  else
    let '(a, h) := mknode a in
    let h := {| t_addr := t_addr h; t_flags := NF_CHECKED;
                t_size := t_size h; t_align := t_align h |} in
    let '(a, h) := arraytype_calc_size a h type_u8 (sl_len n) in
    let at_ := TArray h type_u8 (sl_len n) in
    let '(a, ht) := mknode a in
    let t := TPtr ht K_REF at_ in
    (a, strlit_set_type n t).

(** *** The type of a string literal *)

(** Two string literals of two bytes each, and a state whose context is
    not "str". *)
Definition strlit_hi : strlit_t := Strlit 0 type_unknown [104; 105] 2.
Definition strlit_ok : strlit_t := Strlit 0 type_unknown [111; 107] 2.
Definition state0 : typecheck_t := typecheck_init compiler64 8.

(** C8 as stated fails: the type synthesized for a string literal is not
    in the interner. *)
Lemma strlit_interns_counterexample :
  ¬ (∀ (a : typecheck_t) (n : strlit_t),
       ptr_eqb (typectx a) (strtype (compiler a)) = false →
       interned (strlit a n).1 (sl_type (strlit a n).2)).
Proof.
  intros H. destruct (H state0 strlit_hi eq_refl) as (id & p & Hp & _).
  vm_compute in Hp. discriminate Hp.
Qed.

(** C8, amended.  If the expected type is the configured "str" alias, the
    literal takes it and nothing else changes.  Otherwise, when the AST
    allocator can serve two nodes, the literal's type is a new reference
    node over a new array node [[u8 N]], [N] the length of the literal,
    at the next two addresses of the allocator; the interner is left as it
    was and nothing is reported. *)
Theorem strlit_type (a : typecheck_t) (n : strlit_t) :
  (ptr_eqb (typectx a) (strtype (compiler a)) = true →
     strlit a n = (a, strlit_set_type n (typectx a)))
  ∧ (ptr_eqb (typectx a) (strtype (compiler a)) = false →
     (2 ≤ ast_ma a)%nat → (0 ≤ sl_len n ≤ u64_max)%Z →
     ∃ a' hat href,
       strlit a n = (a', strlit_set_type n (TPtr href K_REF (TArray hat type_u8 (sl_len n))))
       ∧ t_addr hat = ast_next a ∧ t_addr href = Pos.succ (ast_next a)
       ∧ t_flags hat = NF_CHECKED
       ∧ ast_next a' = Pos.succ (Pos.succ (ast_next a))
       ∧ typeidmap a' = typeidmap a
       ∧ diags a' = diags a).
Proof.
  split.
  - intros H. unfold strlit. by rewrite H.
  - intros H Hm Hl. unfold strlit. rewrite H. unfold mknode at 1.
    destruct (ast_ma a) as [|[|m]] eqn:Em; try lia. cbn [mem_alloc].
    unfold arraytype_calc_size.
    destruct (sl_len n =? 0)%Z eqn:E0.
    + cbn. unfold mknode. cbn. eexists _, _, _. split; [reflexivity|]. cbn. tauto.
    + assert ((u64_max <? sl_len n * type_size type_u8)%Z = false) as ->.
      { apply Z.ltb_ge. cbn. lia. }
      cbn. unfold mknode. cbn. eexists _, _, _. split; [reflexivity|]. cbn. tauto.
Qed.

Lemma strlit_type_witness :
  ∃ a' hat href,
    strlit state0 strlit_hi
      = (a', strlit_set_type strlit_hi (TPtr href K_REF (TArray hat type_u8 2)))
    ∧ t_addr hat = 1000%positive ∧ t_addr href = 1001%positive
    ∧ typeidmap a' = ∅.
Proof.
  destruct (proj2 (strlit_type state0 strlit_hi)) as (a' & hat & href & H1 & H2 & H3 & _ & _ & H6 & _).
  - reflexivity.
  - cbn. lia.
  - cbn. unfold u64_max. lia.
  - exists a', hat, href. repeat split; assumption.
Defined.

(** *** The interner *)

(** C3 as stated fails: the types of two string literals of the same
    length are structurally equal (they have the same type id) and are two
    nodes. *)
Lemma intern_invariant_counterexample :
  let '(a1, n1) := strlit state0 strlit_hi in
  let '(a2, n2) := strlit a1 strlit_ok in
  typeid_structural (sl_type n1) = typeid_structural (sl_type n2)
  ∧ type_addr (sl_type n1) ≠ type_addr (sl_type n2)
  ∧ ¬ interned a2 (sl_type n1) ∧ ¬ interned a2 (sl_type n2).
Proof.
  vm_compute. repeat split; try discriminate;
    intros (id & p & Hp & _); discriminate Hp.
Qed.

(** C3, amended.  For any type-id function: when the id of [U] is mapped,
    [intern_usertype] leaves the state alone, hands back the node the map
    holds and returns false; when it is not mapped and the map can grow,
    [U] is inserted under its id and true is returned.  Two types of the
    same id that are interned one after the other come back as the same
    node. *)
Theorem intern_usertype_canonical (typeid_intern : type_t → typeid_t)
    (a : typecheck_t) (U V : type_t) :
  (∀ p, typeidmap a !! typeid_intern U = Some p →
     ∃ U', intern_usertype typeid_intern a U = (a, U', false)
           ∧ type_addr U' = type_addr p)
  ∧ (typeidmap a !! typeid_intern U = None → (1 ≤ ma a)%nat →
     ∃ a', intern_usertype typeid_intern a U = (a', U, true)
           ∧ typeidmap a' = <[typeid_intern U := U]> (typeidmap a)
           ∧ diags a' = diags a)
  ∧ ((1 ≤ ma a)%nat → typeid_intern U = typeid_intern V →
     let '(a1, U', _) := intern_usertype typeid_intern a U in
     let '(_, V', _) := intern_usertype typeid_intern a1 V in
     type_addr U' = type_addr V').
Proof.
  repeat split.
  - intros p Hp. unfold intern_usertype. rewrite Hp.
    eexists. split; [reflexivity|]. unfold ptr_eqb.
    destruct (Pos.eqb_spec (type_addr U) (type_addr p)); auto.
  - intros Hn Hm. unfold intern_usertype. rewrite Hn.
    destruct (ma a) as [|m] eqn:Em; [lia|]. cbn [mem_alloc].
    eexists. split; [reflexivity|]. split; reflexivity.
  - intros Hm Hid. unfold intern_usertype at 1.
    destruct (typeidmap a !! typeid_intern U) as [p|] eqn:Hp.
    + unfold intern_usertype. rewrite <- Hid, Hp. unfold ptr_eqb.
      destruct (Pos.eqb_spec (type_addr U) (type_addr p)) as [->|];
        destruct (Pos.eqb_spec (type_addr V) (type_addr p)); auto.
    + destruct (ma a) as [|m] eqn:Em; [lia|]. cbn [mem_alloc].
      unfold intern_usertype. rewrite <- Hid. cbn [typeidmap set_typeidmap].
      rewrite lookup_insert_eq. unfold ptr_eqb.
      destruct (Pos.eqb_spec (type_addr V) (type_addr U)); auto.
Qed.

(** Two array nodes [[u8 2]] at different addresses, interned one after
    the other in an empty interner: the second comes back as the first. *)
Lemma intern_usertype_canonical_witness :
  let U := TArray (Thdr 200%positive NF_CHECKED 2 1) type_u8 2 in
  let V := TArray (Thdr 201%positive NF_CHECKED 2 1) type_u8 2 in
  (∃ a', intern_usertype typeid_structural state0 U = (a', U, true)
         ∧ typeidmap a' = <[typeid_structural U := U]> ∅)
  ∧ (let '(a1, U', _) := intern_usertype typeid_structural state0 U in
     let '(_, V', _) := intern_usertype typeid_structural a1 V in
     type_addr U' = type_addr V').
Proof.
  intros U V.
  destruct (intern_usertype_canonical typeid_structural state0 U V) as (_ & H2 & H3).
  split.
  - destruct H2 as (a' & Ha & Hm & _); [reflexivity | cbn; lia |].
    exists a'. split; assumption.
  - apply H3; [cbn; lia | reflexivity].
Defined.

(** ** Struct types *)

(** [local_t] (FIELD, PARAM, VAR, LET).  Of the initializer [init] (an
    expression, or [NULL]) the rules embedded here read only its type,
    [init->type] (which may be [NULL] before the initializer is checked). *)
Record init_t : Set := Init {
  init_type : option type_t;
}.

Record local_t : Set := Local {
  l_kind   : nodekind;
  l_flags  : nodeflag_t;
  l_type   : type_t;
  l_name   : sym_t;
  l_init   : option init_t;
  l_isthis : bool;
  l_ismut  : bool;
  l_offset : Z;           (* [FIELD only] memory offset in bytes *)
}.

Definition local_set_flags (n : local_t) (fl : nodeflag_t) : local_t :=
  {| l_kind := l_kind n; l_flags := fl; l_type := l_type n; l_name := l_name n;
     l_init := l_init n;
     l_isthis := l_isthis n; l_ismut := l_ismut n; l_offset := l_offset n |}.

Definition local_set_type (n : local_t) (t : type_t) : local_t :=
  {| l_kind := l_kind n; l_flags := l_flags n; l_type := t; l_name := l_name n;
     l_init := l_init n;
     l_isthis := l_isthis n; l_ismut := l_ismut n; l_offset := l_offset n |}.

Definition local_set_offset (n : local_t) (off : Z) : local_t :=
  {| l_kind := l_kind n; l_flags := l_flags n; l_type := l_type n; l_name := l_name n;
     l_init := l_init n;
     l_isthis := l_isthis n; l_ismut := l_ismut n; l_offset := off |}.

(** [structtype_t].  [struct_type] is the node seen as a [type_t*]. *)
Record structtype_t : Set := Structtype {
  st_hdr    : thdr;
  st_name   : option sym_t;
  st_fields : list local_t;
}.

Definition struct_type (st : structtype_t) : type_t := TUser (st_hdr st) K_STRUCT.

(** Arithmetic on [u64]. *)
Definition u64 (z : Z) : Z := z mod 2 ^ 64.

(** Modelled from the spec: the macro [ALIGN2] ([colib.h]) is not among
    the sources.  "[ALIGN2(x, a)] rounds up [x] to the nearest [a]; [a]
    must be a power of two": the mask arithmetic
    [(x + (a - 1)) & ~(a - 1)] in the unsigned type of [x], here [u64]. *)
Definition ALIGN2 (x a : Z) : Z :=
  let atmp := u64 (a - 1) in
  Z.land (u64 (x + atmp)) (u64 (Z.lnot atmp)).

(** The three assignments of the loop of [structtype] that place a field
    of concrete type [t]: [(size, align)] before, [(offset, size, align)]
    after. *)
Definition struct_place (size align : Z) (t : type_t) : Z * Z * Z :=
  let offset := ALIGN2 size (type_align t) in
  let size := u64 (offset + type_size t) in
  let align := Z.max align (type_align t) in   (* alignment of struct is max alignment of fields *)
  (offset, size, align).

Section structtype.
Variable typeid_intern : type_t → typeid_t.
(** The rule [local], which checks the type and the initializer of a
    field; it is part of the expression checker. *)
Variable local : typecheck_t → local_t → typecheck_t * local_t.

(** [check_local] *)
Definition check_local (a : typecheck_t) (n : local_t) : typecheck_t * local_t :=
  if has_flag (l_flags n) NF_CHECKED then (a, n)
  else local a (local_set_flags n (set_flag (l_flags n) NF_CHECKED)).

(** The loop over the fields in [structtype]. *)
Fixpoint structtype_fields (fuel : nat) (a : typecheck_t) (fields : list local_t)
    (stflags : nodeflag_t) (size align : Z)
    : option (typecheck_t * list local_t * nodeflag_t * Z * Z) :=
  match fields with
  | [] => Some (a, [], stflags, size, align)
  | f :: fields =>
      let '(a, f) := check_local a f in
      let stflags := if type_isowner (l_type f)
                     then set_flag stflags NF_SUBOWNERS else stflags in
      t ← concrete_type fuel (compiler a) (l_type f);
      let '(offset, size, align) := struct_place size align t in
      let f := local_set_offset f offset in
      '(a, fields, stflags, size, align) ← structtype_fields fuel a fields stflags size align;
      Some (a, f :: fields, stflags, size, align)
  end.

(** [structtype].  The result is the state, the struct node and the new
    [*tp].  (The namespace path, [nsparent], is not part of the state:
    [enter_ns], which pushes the struct on [a->nspath] with a request to
    [a->ma] and reports out-of-memory when that fails, and [leave_ns] are
    left out.) *)
Definition structtype (fuel : nat) (a : typecheck_t) (st : structtype_t)
    : option (typecheck_t * structtype_t * type_t) :=
  '(a, fields, stflags, size, align) ←
    structtype_fields fuel a (st_fields st) (t_flags (st_hdr st)) 0 0;
  let st := {| st_hdr := {| t_addr := t_addr (st_hdr st); t_flags := stflags;
                            t_size := ALIGN2 size align; t_align := align |};
               st_name := st_name st; st_fields := fields |} in
  let '(a, tp, added) := intern_usertype typeid_intern a (struct_type st) in
  if negb added then Some (a, st, tp) else
  if negb (has_flag stflags NF_SUBOWNERS) then
    match postanalyze a !! type_addr tp with
    | Some _ => Some (a, st, tp)
    | None =>
        match mem_alloc (ma a) with
        | Some m => Some (set_postanalyze (set_ma a m) (<[type_addr tp := 0]> (postanalyze a)), st, tp)
        | None => Some (out_of_mem a, st, tp)
        end
    end
  else Some (a, st, tp).
End structtype.

(** The offsets of the fields, in declaration order. *)
Definition field_offsets (st : structtype_t) : list Z := map l_offset (st_fields st).

Fixpoint nondecreasing (l : list Z) : bool :=
  match l with
  | x :: ((y :: _) as l') => (x <=? y)%Z && nondecreasing l'
  | _ => true
  end.

(** ** The "main" function *)

(** [funtype_t] and the fields of [fun_t] that [main_fun] reads. *)
Record funtype_t : Set := Funtype {
  ft_hdr    : thdr;
  ft_result : type_t;
  ft_params : list local_t;
}.

Record fun_t : Set := Fun {
  fn_addr  : ptr;
  fn_flags : nodeflag_t;
  fn_type  : funtype_t;
  fn_name  : option sym_t;
  fn_recvt : option type_t;
  fn_hasbody : bool;        (* n->body != NULL *)
}.

(** A double quote, for the messages that print a name in quotes. *)
Definition dq : string := String "034"%char EmptyString.

(** [main_fun] *)
Definition main_fun (a : typecheck_t) (n : fun_t) : typecheck_t :=
  let a := set_mainfun a (Some (fn_addr n)) in
  let ft := fn_type n in
  (* there should be no input parameters *)
  let a := if (0 <? Z.of_nat (length (ft_params ft)))%Z
           then error a ("special " +:+ dq +:+ "main" +:+ dq +:+
                         " function should not accept any input parameters") []
           else a in
  (* there should be no output result *)
  let a := if negb (ptr_eqb (ft_result ft) type_void)
           then error a ("special " +:+ dq +:+ "main" +:+ dq +:+
                         " function should not return a result") []
           else a in
  a.

Section fun_main.
(** [ast_is_main_fun] is not among the sources. *)
Variable ast_is_main_fun : fun_t → bool.

(** The end of [fun], for a function with a body: "is this the main
    function?" *)
Definition fun_main_step (a : typecheck_t) (n : fun_t) : typecheck_t :=
  if fn_hasbody n then
    if ast_is_main_fun n then main_fun a n else a
  else a.
End fun_main.

Definition main_params_diag : diag_t :=
  Diag DIAG_ERR ("special " +:+ dq +:+ "main" +:+ dq +:+
                 " function should not accept any input parameters") [].
Definition main_result_diag : diag_t :=
  Diag DIAG_ERR ("special " +:+ dq +:+ "main" +:+ dq +:+
                 " function should not return a result") [].

(** C10.  [main_fun] records the function as the main function of the
    package; it reports one error if the function type has parameters and
    one error if the result type is not [void], in this order, and nothing
    else.  For a function with a body that [ast_is_main_fun] recognizes,
    this is what the end of [fun] does. *)
Theorem main_fun_checks (ast_is_main_fun : fun_t → bool) (a : typecheck_t) (n : fun_t) :
  let a' := main_fun a n in
  mainfun a' = Some (fn_addr n)
  ∧ diags a' = diags a
      ++ (if bool_decide (ft_params (fn_type n) = []) then [] else [main_params_diag])
      ++ (if ptr_eqb (ft_result (fn_type n)) type_void then [] else [main_result_diag])
  ∧ (ft_params (fn_type n) = [] → ptr_eqb (ft_result (fn_type n)) type_void = true →
     a' = set_mainfun a (Some (fn_addr n)))
  ∧ (fn_hasbody n = true → ast_is_main_fun n = true →
     fun_main_step ast_is_main_fun a n = a').
Proof.
  cbn zeta. split; [|split; [|split]].
  - unfold main_fun.
    destruct (0 <? _)%Z; destruct (negb _); reflexivity.
  - unfold main_fun.
    destruct (ft_params (fn_type n)) as [|p ps];
      destruct (ptr_eqb (ft_result (fn_type n)) type_void);
      [| | assert ((0 <? Z.of_nat (length (p :: ps)))%Z = true) as ->
             by (apply Z.ltb_lt; cbn [length]; lia)
         | assert ((0 <? Z.of_nat (length (p :: ps)))%Z = true) as ->
             by (apply Z.ltb_lt; cbn [length]; lia)];
      cbn; rewrite ?app_nil_r, <- ?app_assoc; reflexivity.
  - intros Hp Hr. unfold main_fun. by rewrite Hp, Hr.
  - intros Hb Hm. unfold fun_main_step. by rewrite Hb, Hm.
Qed.

(** A parameterless "main" that returns nothing is recorded and nothing is
    reported. *)
Lemma main_fun_checks_witness :
  let n := Fun 500%positive 0
             (Funtype (Thdr 501%positive NF_CHECKED 8 8) type_void [])
             (Some "main"%string) None true in
  main_fun state0 n = set_mainfun state0 (Some 500%positive)
  ∧ diags (main_fun state0 n) = []
  ∧ fun_main_step (λ f, bool_decide (fn_name f = Some "main"%string)) state0 n
    = main_fun state0 n.
Proof.
  intros n.
  destruct (main_fun_checks (λ f, bool_decide (fn_name f = Some "main"%string)) state0 n)
    as (_ & H2 & H3 & H4).
  split; [apply H3; reflexivity|].
  split; [rewrite H2; reflexivity|].
  apply H4; reflexivity.
Defined.

(** *** Struct layout *)

(** The rule [local] on a field that is checked already does not run; this
    stands for it in the examples. *)
Definition local_id (a : typecheck_t) (n : local_t) : typecheck_t * local_t := (a, n).

Definition mkfield (name : sym_t) (t : type_t) : local_t :=
  Local EXPR_FIELD NF_CHECKED t name None false false 0.

(** [type A {}], checked: no fields, so size 0 and alignment 0. *)
Definition struct_A : structtype_t := Structtype (Thdr 300%positive 0 0 0) (Some "A"%string) [].

(** [type B { x i8; y i32; a A }] *)
Definition struct_B (A : type_t) : structtype_t :=
  Structtype (Thdr 301%positive 0 0 0) (Some "B"%string)
    [mkfield "x" type_i8; mkfield "y" type_i32; mkfield "a" A].

(** [[u8 0x8000000000000000]]: its size is accepted by [check_mul_overflow]. *)
Definition huge_array : type_t :=
  TArray (Thdr 302%positive NF_CHECKED (2 ^ 63) 1) type_u8 (2 ^ 63).

(** [type C { p [u8 0x8000000000000000]; q [u8 0x8000000000000000]; r u8 }] *)
Definition struct_C : structtype_t :=
  Structtype (Thdr 303%positive 0 0 0) (Some "C"%string)
    [mkfield "p" huge_array; mkfield "q" huge_array; mkfield "r" type_u8].

(** C7 at two inputs.  An empty struct has alignment 0, and a field of
    that type is placed at offset 0 whatever precedes it; the running size
    is computed in [u64] and wraps around.  In both cases the offsets
    decrease. *)
Theorem structtype_offsets_decrease :
  (∃ a1 A tpA a2 B tpB,
     structtype typeid_structural local_id 3 state0 struct_A = Some (a1, A, tpA)
     ∧ type_size tpA = 0 ∧ type_align tpA = 0
     ∧ structtype typeid_structural local_id 3 a1 (struct_B tpA) = Some (a2, B, tpB)
     ∧ field_offsets B = [0; 4; 0]
     ∧ type_size tpB = 0 ∧ type_align tpB = 4
     ∧ nondecreasing (field_offsets B) = false)
  ∧ (∃ a1 C tpC,
       arraytype_calc_size state0 (Thdr 302%positive NF_CHECKED 0 0) type_u8 (2 ^ 63)
         = (state0, type_hdr huge_array)
       ∧ structtype typeid_structural local_id 3 state0 struct_C = Some (a1, C, tpC)
       ∧ field_offsets C = [0; 2 ^ 63; 0]
       ∧ nondecreasing (field_offsets C) = false).
Proof.
  split.
  - eexists _, _, _, _, _, _. split; [vm_compute; reflexivity|].
    split; [reflexivity|]. split; [reflexivity|].
    split; [vm_compute; reflexivity|].
    repeat split; reflexivity.
  - eexists _, _, _. split; [vm_compute; reflexivity|].
    split; [vm_compute; reflexivity|].
    split; reflexivity.
Qed.

(** ** The layout of a struct whose fields have power-of-two alignments *)

(** The offsets, the running size and the alignment that the loop of
    [structtype] computes for fields of concrete types [ts]. *)
Fixpoint struct_layout (ts : list type_t) (size align : Z) : list Z * Z * Z :=
  match ts with
  | [] => ([], size, align)
  | t :: ts =>
      let '(offset, size, align) := struct_place size align t in
      let '(offsets, size, align) := struct_layout ts size align in
      (offset :: offsets, size, align)
  end.

Lemma structtype_fields_layout (local : typecheck_t → local_t → typecheck_t * local_t)
    (fuel : nat) (fields : list local_t) :
  ∀ a stflags size align a' fields' stflags' size' align',
    structtype_fields local fuel a fields stflags size align
    = Some (a', fields', stflags', size', align') →
    ∃ ts, Forall2 (λ f t, ∃ c, concrete_type fuel c (l_type f) = Some t) fields' ts
          ∧ struct_layout ts size align = (map l_offset fields', size', align').
Proof.
  induction fields as [|f fields IH]; intros a stflags size align a' fields' stflags' size' align' H.
  - injection H as <- <- <- <- <-. exists []. by split.
  - cbn [structtype_fields] in H.
    destruct (check_local local a f) as [a0 f0].
    destruct (concrete_type fuel (compiler a0) (l_type f0)) as [t|] eqn:Et;
      [|discriminate H].
    cbn [mbind option_bind] in H.
    destruct (struct_place size align t) as [[offset size1] align1] eqn:Ep.
    match type of H with (?r ≫= _) = _ =>
      destruct r as [[[[[a1 fields1] stflags1] size2] align2]|] eqn:Er end;
      [|discriminate H].
    cbn [mbind option_bind] in H. injection H as <- <- <- <- <-.
    destruct (IH _ _ _ _ _ _ _ _ _ Er) as (ts & Hts & Hl).
    exists (t :: ts). split.
    + constructor; [|exact Hts]. by exists (compiler a0).
    + cbn [struct_layout map]. by rewrite Ep, Hl.
Qed.

(** [ALIGN2] rounds up to a multiple of a power of two, as long as the
    sum fits [u64]. *)
Lemma ALIGN2_pow2 (x k : Z) :
  0 ≤ k → 0 ≤ x → x + 2 ^ k ≤ 2 ^ 64 →
  ALIGN2 x (2 ^ k) = (x + 2 ^ k - 1) / 2 ^ k * 2 ^ k.
Proof.
  intros Hk Hx Hfit. unfold ALIGN2, u64.
  assert (0 < 2 ^ k) as Hpos by (apply Z.pow_pos_nonneg; lia).
  rewrite (Z.mod_small (2 ^ k - 1)) by lia.
  rewrite (Z.mod_small (x + (2 ^ k - 1))) by lia.
  rewrite <- (Z.land_ones (Z.lnot _)) by lia.
  rewrite Z.land_assoc, <- Z.ldiff_land.
  replace (2 ^ k - 1) with (Z.ones k) by (rewrite Z.ones_equiv; lia).
  rewrite Z.ldiff_ones_r by lia.
  rewrite Z.land_ones, Z.shiftl_mul_pow2, Z.shiftr_div_pow2 by lia.
  rewrite Z.ones_equiv. replace (x + Z.pred (2 ^ k)) with (x + 2 ^ k - 1) by lia.
  apply Z.mod_small.
  pose proof (Z.mul_div_le (x + 2 ^ k - 1) (2 ^ k) Hpos).
  pose proof (Z.div_pos (x + 2 ^ k - 1) (2 ^ k)). nia.
Qed.

Lemma ALIGN2_pow2_bounds (x k : Z) :
  0 ≤ k → 0 ≤ x → x + 2 ^ k ≤ 2 ^ 64 →
  x ≤ ALIGN2 x (2 ^ k) < x + 2 ^ k ∧ ALIGN2 x (2 ^ k) mod 2 ^ k = 0.
Proof.
  intros Hk Hx Hfit. rewrite ALIGN2_pow2 by assumption.
  assert (0 < 2 ^ k) as Hpos by (apply Z.pow_pos_nonneg; lia).
  split; [|apply Z.mod_mul; lia].
  pose proof (Z.mul_div_le (x + 2 ^ k - 1) (2 ^ k) Hpos).
  pose proof (Z.mul_succ_div_gt (x + 2 ^ k - 1) (2 ^ k) Hpos). lia.
Qed.

(** [structtype] lays out the concrete types of its fields: the offsets
    of the fields, the alignment and the size of the struct are those of
    [struct_layout], the size rounded with [ALIGN2]. *)
Lemma structtype_layout (typeid_intern : type_t → typeid_t)
    (local : typecheck_t → local_t → typecheck_t * local_t)
    (fuel : nat) (a a' : typecheck_t) (st st' : structtype_t) (tp : type_t) :
  structtype typeid_intern local fuel a st = Some (a', st', tp) →
  ∃ ts total,
    Forall2 (λ f t, ∃ c, concrete_type fuel c (l_type f) = Some t) (st_fields st') ts
    ∧ struct_layout ts 0 0 = (field_offsets st', total, t_align (st_hdr st'))
    ∧ t_size (st_hdr st') = ALIGN2 total (t_align (st_hdr st')).
Proof.
  unfold structtype. intros H.
  match type of H with (?r ≫= _) = _ =>
    destruct r as [[[[[a1 fields1] stflags1] size1] align1]|] eqn:Er end;
    [|discriminate H].
  cbn [mbind option_bind] in H.
  destruct (structtype_fields_layout _ _ _ _ _ _ _ _ _ _ _ _ Er) as (ts & Hts & Hl).
  assert (st_fields st' = fields1 ∧ t_align (st_hdr st') = align1
          ∧ t_size (st_hdr st') = ALIGN2 size1 align1) as (Hf & Ha & Hs).
  { destruct (intern_usertype _ _ _) as [[a2 tp2] added].
    destruct added; cbn [negb] in H.
    - destruct (negb _); [|by injection H as <- <- <-].
      destruct (postanalyze a2 !! _); [by injection H as <- <- <-|].
      destruct (mem_alloc _); by injection H as <- <- <-.
    - by injection H as <- <- <-. }
  exists ts, size1. unfold field_offsets. by rewrite Hf, Ha, Hs.
Qed.

(** The room the fields may need: their sizes and, for padding, their
    alignments. *)
Definition layout_room (ts : list type_t) : Z :=
  foldr (λ t room, type_size t + type_align t + room) 0 ts.

(** The maximum of the alignments, from [align]. *)
Definition max_align (ts : list type_t) (align : Z) : Z :=
  foldl (λ m t, Z.max m (type_align t)) align ts.

(** A type whose alignment is a power of two, as [ALIGN2] asks. *)
Definition pow2_aligned (t : type_t) : Prop :=
  (∃ k, 0 ≤ k ∧ type_align t = 2 ^ k) ∧ 0 ≤ type_size t.

Lemma layout_room_nonneg (ts : list type_t) : Forall pow2_aligned ts → 0 ≤ layout_room ts.
Proof.
  induction 1 as [|t ts [[k [Hk Ha]] Hs] _ IH]; cbn [layout_room foldr]; [lia|].
  fold (layout_room ts). rewrite Ha. pose proof (Z.pow_pos_nonneg 2 k). lia.
Qed.

Lemma nondecreasing_cons (x : Z) (l : list Z) :
  Forall (λ y, x ≤ y) l → nondecreasing l = true → nondecreasing (x :: l) = true.
Proof.
  intros Hl Hn. destruct l as [|y l]; [reflexivity|].
  cbn [nondecreasing]. apply Forall_cons in Hl as [Hy _].
  rewrite (proj2 (Z.leb_le x y) Hy). exact Hn.
Qed.

(** X1.  The layout of fields whose types have power-of-two alignments,
    when sizes and paddings fit [u64]: the offsets do not decrease, every
    offset is a multiple of the alignment of the type of its field, a field
    ends where the next starts or before, and the alignment is the maximum
    of the alignments. *)
Theorem struct_layout_aligned (ts : list type_t) : ∀ (size align : Z),
  Forall pow2_aligned ts →
  0 ≤ size →
  size + layout_room ts ≤ 2 ^ 64 →
  ∃ offsets size',
    struct_layout ts size align = (offsets, size', max_align ts align)
    ∧ Forall2 (λ off t, off mod type_align t = 0) offsets ts
    ∧ Forall (λ off, size ≤ off) offsets
    ∧ nondecreasing offsets = true
    ∧ size ≤ size' ≤ size + layout_room ts
    ∧ Forall2 (λ off t, off + type_size t ≤ size') offsets ts.
Proof.
  induction ts as [|t ts IH]; intros size align Hts Hsize Hroom.
  - exists [], size. cbn. repeat split; auto; lia.
  - apply Forall_cons in Hts as [[[k [Hk Ha]] Hs] Hts].
    pose proof (layout_room_nonneg ts Hts) as Hr.
    cbn [layout_room foldr] in Hroom. fold (layout_room ts) in Hroom.
    assert (0 < 2 ^ k) as Hpos by (apply Z.pow_pos_nonneg; lia).
    destruct (ALIGN2_pow2_bounds size k Hk Hsize) as [[Hlo Hhi] Hmod]; [lia|].
    cbn [struct_layout]. unfold struct_place. rewrite Ha.
    set (offset := ALIGN2 size (2 ^ k)) in *.
    assert (u64 (offset + type_size t) = offset + type_size t) as ->
      by (apply Z.mod_small; lia).
    destruct (IH (offset + type_size t) (Z.max align (2 ^ k)) Hts)
      as (offsets & size' & -> & Hal & Hge & Hnd & Hsz & Hfit); [lia|lia|].
    exists (offset :: offsets), size'.
    split; [by cbn [max_align foldl]; rewrite Ha|].
    split; [constructor; [by rewrite Ha|exact Hal]|].
    split.
    { constructor; [exact Hlo|]. eapply Forall_impl; [exact Hge|]. cbn. intros; lia. }
    split.
    { apply nondecreasing_cons; [|exact Hnd].
      eapply Forall_impl; [exact Hge|]. cbn. intros; lia. }
    split; [cbn [layout_room foldr]; fold (layout_room ts); lia|].
    constructor; [lia|exact Hfit].
Qed.

(** The struct [{ x i8; y i32; z i64 }]: offsets 0, 4 and 8, size 16,
    alignment 8. *)
Lemma struct_layout_aligned_witness :
  ∃ offsets size',
    struct_layout [type_i8; type_i32; type_i64] 0 0 = (offsets, size', 8)
    ∧ Forall2 (λ off t, off mod type_align t = 0) offsets [type_i8; type_i32; type_i64]
    ∧ Forall (λ off, 0 ≤ off) offsets
    ∧ nondecreasing offsets = true
    ∧ 0 ≤ size' ≤ 0 + layout_room [type_i8; type_i32; type_i64]
    ∧ Forall2 (λ off t, off + type_size t ≤ size') offsets [type_i8; type_i32; type_i64].
Proof.
  apply (struct_layout_aligned [type_i8; type_i32; type_i64] 0 0).
  - repeat constructor; try (cbn; lia);
      [by exists 0|by exists 2|by exists 3].
  - lia.
  - vm_compute. discriminate.
Defined.

Example struct_layout_i8_i32_i64 :
  struct_layout [type_i8; type_i32; type_i64] 0 0 = ([0; 4; 8], 16, 8)
  ∧ ALIGN2 16 8 = 16.
Proof. split; vm_compute; reflexivity. Qed.

Lemma max_align_pow2 (ts : list type_t) : ∀ (align : Z),
  Forall pow2_aligned ts →
  (∃ k, 0 ≤ k ∧ align = 2 ^ k) →
  ∃ k, 0 ≤ k ∧ max_align ts align = 2 ^ k.
Proof.
  induction ts as [|t ts IH]; intros align Hts Halign; [exact Halign|].
  apply Forall_cons in Hts as [[[k [Hk Ha]] _] Hts].
  cbn [max_align foldl]. apply IH; [exact Hts|].
  destruct Halign as (k0 & Hk0 & ->). rewrite Ha.
  destruct (Z.max_spec (2 ^ k0) (2 ^ k)) as [[_ ->]|[_ ->]]; eauto.
Qed.

(** X2.  The size of a struct with at least one field, all of
    power-of-two alignment: the running total rounded up to the alignment of the
    struct, when that fits [u64]. *)
Theorem struct_size_aligned (t : type_t) (ts : list type_t) (total : Z) :
  Forall pow2_aligned (t :: ts) →
  0 ≤ total →
  total + max_align (t :: ts) 0 ≤ 2 ^ 64 →
  let align := max_align (t :: ts) 0 in
  total ≤ ALIGN2 total align < total + align
  ∧ ALIGN2 total align mod align = 0.
Proof.
  intros Hts Htotal Hfit align.
  assert (∃ k, 0 ≤ k ∧ align = 2 ^ k) as (k & Hk & Hal).
  { unfold align. cbn [max_align foldl].
    apply Forall_cons in Hts as [[[k [Hk Ha]] Hs] Hts].
    apply max_align_pow2; [exact Hts|]. exists k. split; [exact Hk|].
    rewrite Ha. pose proof (Z.pow_pos_nonneg 2 k). lia. }
  fold align in Hfit. rewrite Hal in *. by apply ALIGN2_pow2_bounds.
Qed.

Lemma struct_size_aligned_witness :
  16 ≤ ALIGN2 16 8 < 16 + 8 ∧ ALIGN2 16 8 mod 8 = 0.
Proof.
  apply (struct_size_aligned type_i8 [type_i32; type_i64] 16).
  - repeat constructor; try (cbn; lia);
      [by exists 0|by exists 2|by exists 3].
  - lia.
  - vm_compute. discriminate.
Defined.



(** ** Type narrowing *)

(** Modelled from the spec: [op_t]; [ops.h] is not among the sources.
    These are the operations [typecheck.c] names in its rules for unary and
    logical operators, and [op_fmt] prints an operation as it is written
    (scenario S6 of the spec prints [OP_LOR] as "||"). *)
Inductive op_t : Set :=
  | OP_NOT | OP_LAND | OP_LOR | OP_EQ | OP_NEQ | OP_ADD | OP_SUB
  | OP_INC | OP_DEC | OP_REF | OP_MUTREF | OP_MUL.

#[global] Instance op_eq_dec : EqDecision op_t.
Proof. solve_decision. Defined.

Definition op_fmt (op : op_t) : string :=
  match op with
  | OP_NOT => "!" | OP_LAND => "&&" | OP_LOR => "||" | OP_EQ => "=="
  | OP_NEQ => "!=" | OP_ADD => "+" | OP_SUB => "-" | OP_INC => "++"
  | OP_DEC => "--" | OP_REF => "&" | OP_MUTREF => "mut&" | OP_MUL => "*"
  end.

(** A condition.  Only what the narrower reads of a node is kept.  The
    bindings ([local_t] nodes) live in a store, because the scope and the
    syntax tree point to the same nodes and the narrower writes to them
    through the scope: [ELocal p] is the [EXPR_VAR] or [EXPR_LET] node at
    address [p], with its initializer as a child.  An identifier
    ([idexpr_t]) is not shared; it points to its binding, [ref]. *)
#[local] Unset Elimination Schemes.
Inductive expr : Set :=
  | EId (flags : nodeflag_t) (type : type_t) (name : sym_t) (ref : option ptr)
  | EPrefixop (op : op_t) (e : expr)
  | EBinop (op : op_t) (left right : expr)
  | ELocal (p : ptr) (init : option expr)
  | EOther (kind : nodekind) (children : list expr).
#[local] Set Elimination Schemes.

(** Induction on conditions, through the initializer of a binding and the
    children of any other node. *)
Lemma expr_ind (P : expr → Prop)
    (HId : ∀ fl ty name ref, P (EId fl ty name ref))
    (HPrefixop : ∀ op e, P e → P (EPrefixop op e))
    (HBinop : ∀ op l r, P l → P r → P (EBinop op l r))
    (HLocal : ∀ p init, (∀ i, init = Some i → P i) → P (ELocal p init))
    (HOther : ∀ kind cs, Forall P cs → P (EOther kind cs)) :
  ∀ x, P x.
Proof.
  fix IH 1. intros [fl ty name ref|op e|op l r|p init|kind cs].
  - apply HId.
  - apply HPrefixop, IH.
  - apply HBinop; apply IH.
  - apply HLocal. destruct init as [i0|]; intros i H;
      [pose proof (IH i0) as Hi0; injection H as <-; exact Hi0 | discriminate H].
  - apply HOther. induction cs as [|c cs IHcs]; constructor; [apply IH | exact IHcs].
Qed.

(** What [type_narrow_cond] works on: the nodes of the bindings, the scope
    of the checker, the two allocators ([c->ma] and [ast_ma]) and the
    diagnostics reported through the compiler. *)
Record narrow_t : Type := Narrow {
  n_compiler : compiler_t;
  n_heap     : gmap ptr local_t;
  n_scope    : scope_t;
  n_ma       : memalloc_t;
  n_ast_ma   : memalloc_t;
  n_ast_next : ptr;
  n_diags    : list diag_t;
}.

Definition n_set_heap (s : narrow_t) (h : gmap ptr local_t) : narrow_t :=
  {| n_compiler := n_compiler s; n_heap := h; n_scope := n_scope s; n_ma := n_ma s;
     n_ast_ma := n_ast_ma s; n_ast_next := n_ast_next s; n_diags := n_diags s |}.

Definition n_set_scope (s : narrow_t) (sc : scope_t) (m : memalloc_t) : narrow_t :=
  {| n_compiler := n_compiler s; n_heap := n_heap s; n_scope := sc; n_ma := m;
     n_ast_ma := n_ast_ma s; n_ast_next := n_ast_next s; n_diags := n_diags s |}.

Definition n_report_diag (s : narrow_t) (d : diag_t) : narrow_t :=
  {| n_compiler := n_compiler s; n_heap := n_heap s; n_scope := n_scope s; n_ma := n_ma s;
     n_ast_ma := n_ast_ma s; n_ast_next := n_ast_next s; n_diags := n_diags s ++ [d] |}.

(** [ast_clone_node]: a copy of the node at a fresh address, or [NULL]. *)
Definition ast_clone_node (s : narrow_t) (n : local_t) : narrow_t * option ptr :=
  match mem_alloc (n_ast_ma s) with
  | None => (s, None)
  | Some m =>
      ({| n_compiler := n_compiler s; n_heap := <[n_ast_next s := n]> (n_heap s);
          n_scope := n_scope s; n_ma := n_ma s; n_ast_ma := m;
          n_ast_next := Pos.succ (n_ast_next s); n_diags := n_diags s |},
       Some (n_ast_next s))
  end.

(** [scope_define(scope, c->ma, name, n)] *)
Definition n_scope_define (s : narrow_t) (name : sym_t) (p : ptr) : narrow_t * bool :=
  match mem_alloc (n_ma s) with
  | None => (s, false)
  | Some m => (n_set_scope s (scope_define (n_scope s) name p) m, true)
  end.

(** The loop of the [!] case of [type_narrow_cond1]: toggle the "negative"
    mark of the narrowed nodes among the slots. *)
Fixpoint negate_slots (h : gmap ptr local_t) (slots : list slot)
    : option (gmap ptr local_t) :=
  match slots with
  | [] => Some h
  | _ :: SNode p :: rest =>
      n2 ← h !! p;
      let h := if has_flag (l_flags n2) NF_NARROWED
               then <[p := local_set_flags n2 (toggle_flag (l_flags n2) NF_MARK1)]> h
               else h in
      negate_slots h rest
  | _ => None
  end.

Definition is_land_lor (op : op_t) : bool :=
  match op with OP_LAND | OP_LOR => true | _ => false end.

(** [type_narrow_cond1].  The result is [None] when the C code stops the
    process ([safecheck]) or follows a pointer that is not a node;
    otherwise the state, [*flags], the condition with its identifiers
    marked, and the value returned. *)
Fixpoint type_narrow_cond1 (s : narrow_t) (flags : Z) (x : expr)
    : option (narrow_t * Z * expr * bool) :=
  match x with
  | EPrefixop op e =>
      if negb (bool_decide (op = OP_NOT)) then Some (s, flags, x, true) else
      let flags := Z.lor flags 1 in (* has complex op *)
      let scope_len0 := scope_len (n_scope s) in
      '(s, flags, e, ok) ← type_narrow_cond1 s flags e;
      if negb ok then Some (s, flags, EPrefixop op e, false) else
      h ← negate_slots (n_heap s)
            (take (scope_len (n_scope s) - scope_len0) (s_ptr (n_scope s)));
      Some (n_set_heap s h, flags, EPrefixop op e, true)
  | EBinop op l r =>
      if negb (is_land_lor op) then Some (s, flags, x, true) else
      let flags := if bool_decide (op = OP_LOR) then Z.lor flags 1 else flags in
      '(s, flags, l, ok) ← type_narrow_cond1 s flags l;
      if negb ok then Some (s, flags, EBinop op l r, false) else
      '(s, flags, r, ok) ← type_narrow_cond1 s flags r;
      Some (s, flags, EBinop op l r, ok)
  | EId fl ty name ref =>
      if negb (bool_decide (type_kind ty = TYPE_OPTIONAL)) || has_flag fl NF_NARROWED
      then Some (s, flags, x, true)  (* NF_NARROWED = already narrowed by previous pass *)
      else
        let x := EId (set_flag fl NF_NARROWED) ty name ref in
        reuse ← match scope_lookup (n_scope s) name 0 with
                | None => Some false
                | Some p2 =>
                    n2 ← n_heap s !! p2;
                    Some (bool_decide (l_kind n2 = EXPR_ID)
                          && has_flag (l_flags n2) NF_NARROWED)
                end;
        if reuse : bool then Some (s, flags, x, true) else
        r ← ref;
        rn ← n_heap s !! r;
        if negb (nodekind_islocal (l_kind rn)) then None (* safecheck *) else
        match ast_clone_node s rn with
        | (s, None) => Some (s, flags, x, false)
        | (s, Some p2) =>
            let n2 := local_set_flags rn (set_flag (l_flags rn) NF_NARROWED) in
            let s := n_set_heap s (<[p2 := n2]> (n_heap s)) in
            let '(s, ok) := n_scope_define s (l_name n2) p2 in
            Some (s, flags, x, ok)
        end
  | ELocal p _ =>
      n ← n_heap s !! p;
      if negb (nodekind_isvar (l_kind n)) then Some (s, flags, x, true) else
      if has_flag (l_flags n) NF_NARROWED (* already narrowed by previous pass *)
         || bool_decide (type_kind (l_type n) = TYPE_UNKNOWN)
         || (negb (bool_decide (type_kind (l_type n) = TYPE_OPTIONAL))
             && match l_init n with
                | None => true
                | Some i =>
                    match init_type i with
                    | None => false
                    | Some it =>
                        negb (bool_decide (type_kind it = TYPE_OPTIONAL))
                        && negb (bool_decide (type_kind it = TYPE_UNKNOWN))
                    end
                end)
      then Some (s, flags, x, true)
      else
        let flags := Z.lor flags 2 in (* has local definition *)
        let n := local_set_flags n (set_flag (l_flags n) (Z.lor NF_NARROWED NF_MARK2)) in
        let s := n_set_heap s (<[p := n]> (n_heap s)) in
        let '(s, ok) := n_scope_define s (l_name n) p in
        Some (s, flags, x, ok)
  | EOther _ _ => Some (s, flags, x, true)
  end.

(** Modelled from the spec: the children of a node that are expressions,
    as [ast_childit_const] yields them; [ast.c] is not among the sources.
    The children are the nodes a node owns, in the order of the fields of
    its struct (an identifier does not own the binding it refers to). *)
Definition expr_children (x : expr) : list expr :=
  match x with
  | EId _ _ _ _ => []
  | EPrefixop _ e => [e]
  | EBinop _ l r => [l; r]
  | ELocal _ (Some i) => [i]
  | ELocal _ None => []
  | EOther _ cs => cs
  end.

(** The [switch] of [type_narrow_error_find_local]. *)
Definition find_local_visit (h : gmap ptr local_t) (x : expr)
    (lp : option ptr) (op : option op_t) : option (option ptr * option op_t) :=
  match x with
  | ELocal p _ =>
      n ← h !! p;
      if nodekind_isvar (l_kind n) && bool_decide (lp = None)
         && has_flag (l_flags n) NF_NARROWED
      then Some (Some p, op) else Some (lp, op)
  | EPrefixop o _ =>
      if bool_decide (o = OP_NOT) && bool_decide (op = None)
      then Some (lp, Some o) else Some (lp, op)
  | EBinop o _ _ =>
      if bool_decide (o = OP_LOR) && bool_decide (op = None)
      then Some (lp, Some o) else Some (lp, op)
  | _ => Some (lp, op)
  end.

Definition both_found (lp : option ptr) (op : option op_t) : bool :=
  bool_decide (lp ≠ None) && bool_decide (op ≠ None).

(** The loop of [type_narrow_error_find_local] over the children, with
    the function itself as [find]. *)
Fixpoint find_local_children
    (find : expr → option ptr → option op_t → option (option ptr * option op_t * bool))
    (cs : list expr) (lp : option ptr) (op : option op_t)
    : option (option ptr * option op_t * bool) :=
  match cs with
  | [] => Some (lp, op, false)
  | cn :: cs =>
      '(lp, op, found) ← find cn lp op;
      if found : bool then Some (lp, op, true) else find_local_children find cs lp op
  end.

(** [type_narrow_error_find_local] *)
Fixpoint type_narrow_error_find_local (h : gmap ptr local_t) (x : expr)
    (lp : option ptr) (op : option op_t) {struct x}
    : option (option ptr * option op_t * bool) :=
  '(lp, op) ← find_local_visit h x lp op;
  if both_found lp op then Some (lp, op, true) else
  match x with
  | EId _ _ _ _ => Some (lp, op, false)
  | EPrefixop _ e => find_local_children (type_narrow_error_find_local h) [e] lp op
  | EBinop _ l r => find_local_children (type_narrow_error_find_local h) [l; r] lp op
  | ELocal _ (Some i) => find_local_children (type_narrow_error_find_local h) [i] lp op
  | ELocal _ None => Some (lp, op, false)
  | EOther _ cs => find_local_children (type_narrow_error_find_local h) cs lp op
  end.

Definition localdef_mix_diag (kind : nodekind) (op : op_t) : diag_t :=
  Diag DIAG_ERR "cannot use type-narrowing %s definition with '%s' operation"
    [FmtStr (if bool_decide (kind = EXPR_VAR) then "var" else "let");
     FmtStr (op_fmt op)].

(** [type_narrow_error_localdef_mix]; it returns [false]. *)
Definition type_narrow_error_localdef_mix (s : narrow_t) (cond : expr) : option narrow_t :=
  '(lp, op, _) ← type_narrow_error_find_local (n_heap s) cond None None;
  l ← lp;        (* assertnotnull(l) *)
  op ← op;       (* assert(op > 0) *)
  n ← n_heap s !! l;
  Some (n_report_diag s (localdef_mix_diag (l_kind n) op)).

(** The body of the loop of [type_narrow_cond] for the entry at [p]. *)
Definition narrow_entry (fuel : nat) (s : narrow_t) (elsedefs : option (list ptr))
    (p : ptr) : option (narrow_t * option (list ptr) * bool) :=
  n ← n_heap s !! p;
  if negb (has_flag (l_flags n) NF_NARROWED) then Some (s, elsedefs, true) else
  let isneg := has_flag (l_flags n) NF_MARK1 in
  let islocal := has_flag (l_flags n) NF_MARK2 in
  let n := local_set_flags n (clear_flag (l_flags n) (Z.lor NF_MARK1 NF_MARK2)) in
  let s := n_set_heap s (<[p := n]> (n_heap s)) in
  (* optional type is found either on the local or the initializer *)
  oktype ← (if bool_decide (type_kind (l_type n) = TYPE_OPTIONAL) then Some (l_type n)
            else i ← l_init n; init_type i);
  oktype ← match oktype with
           | TPtr _ K_OPTIONAL elem => Some elem
           | _ => None
           end;
  '(s, elsedefs, oktype, ok) ←
    (if islocal then
       (* check assignable type of local definition *)
       if bool_decide (type_kind (l_type n) = TYPE_UNRESOLVED) then
         Some (s, elsedefs, l_type n, true)
       else if negb (ptr_eqb (l_type n) type_unknown) then
         assignable ← type_isassignable fuel (n_compiler s) (l_type n) oktype;
         if assignable : bool then Some (s, elsedefs, oktype, true)
         else Some (n_report_diag s
                      (Diag DIAG_ERR "cannot assign value of type %s to %s of type %s"
                         [FmtType oktype; FmtKind (l_kind n); FmtType (l_type n)]),
                    elsedefs, oktype, true)
       else Some (s, elsedefs, oktype, true)
     else
       match elsedefs with
       | Some defs =>
           (* add the inverse to the "else" definitions *)
           match ast_clone_node s n with
           | (s, None) => Some (s, elsedefs, oktype, false)
           | (s, Some p2) =>
               let n2 := local_set_type n (if isneg then oktype else type_void) in
               Some (n_set_heap s (<[p2 := n2]> (n_heap s)), Some (defs ++ [p2]),
                     oktype, true)
           end
       | None => Some (s, elsedefs, oktype, true)
       end);
  if negb ok then Some (s, elsedefs, false) else
  (* narrow type of n *)
  n ← n_heap s !! p;
  let n := local_set_type n (if isneg then type_void else oktype) in
  Some (n_set_heap s (<[p := n]> (n_heap s)), elsedefs, true).

(** The loop of [type_narrow_cond] over the slots defined by the walk. *)
Fixpoint narrow_entries (fuel : nat) (s : narrow_t) (elsedefs : option (list ptr))
    (slots : list slot) : option (narrow_t * option (list ptr) * bool) :=
  match slots with
  | [] => Some (s, elsedefs, true)
  | SName _ :: SNode p :: rest =>
      '(s, elsedefs, ok) ← narrow_entry fuel s elsedefs p;
      if negb ok then Some (s, elsedefs, false) else
      narrow_entries fuel s elsedefs rest
  | _ => None
  end.

(** [type_narrow_cond].  [elsedefs] is [None] for a [NULL] pointer.  The
    result is the state, the "else" definitions, the condition and the
    value returned. *)
Definition type_narrow_cond (fuel : nat) (s : narrow_t) (elsedefs : option (list ptr))
    (cond : expr) : option (narrow_t * option (list ptr) * expr * bool) :=
  let scope_len0 := scope_len (n_scope s) in
  '(s, flags, cond, ok) ← type_narrow_cond1 s 0 cond;
  if negb ok then Some (s, elsedefs, cond, false) else
  if (flags =? Z.lor 1 2)%Z then
    s ← type_narrow_error_localdef_mix s cond;
    Some (s, elsedefs, cond, false)
  else
  let added := (scope_len (n_scope s) - scope_len0)%nat in
  (* nodearray_reserve_exact *)
  let reserve :=
    if bool_decide (elsedefs ≠ None) && bool_decide (added ≠ 0%nat)
    then mem_alloc (n_ma s) else Some (n_ma s) in
  match reserve with
  | None => Some (s, elsedefs, cond, false)
  | Some m =>
      let s := n_set_scope s (n_scope s) m in
      '(s, elsedefs, ok) ← narrow_entries fuel s elsedefs (take added (s_ptr (n_scope s)));
      Some (s, elsedefs, cond, ok)
  end.

(** [type_narrow_elsedefs] *)
Fixpoint type_narrow_elsedefs (s : narrow_t) (elsedefs : list ptr) : option (narrow_t * bool) :=
  match elsedefs with
  | [] => Some (s, true)
  | p :: rest =>
      n ← n_heap s !! p;
      if negb (nodekind_islocal (l_kind n) || bool_decide (l_kind n = EXPR_ID)) then None else
      let '(s, ok) := n_scope_define s (l_name n) p in
      if negb ok then Some (s, false) else type_narrow_elsedefs s rest
  end.

(** [enter_scope] and [leave_scope], on the scope of the checker.  (When
    [scope_push] fails the checker reports "out of memory"; here the
    scope is then left as it is.) *)
Definition enter_scope (s : narrow_t) : narrow_t :=
  match mem_alloc (n_ma s) with
  | Some m => n_set_scope s (scope_push (n_scope s)) m
  | None => n_report_diag s (Diag DIAG_ERR "out of memory" [])
  end.

Definition leave_scope (s : narrow_t) : narrow_t :=
  n_set_scope s (scope_pop (n_scope s)) (n_ma s).

(** ** Flags, bit by bit *)

Lemma has_flag_bit (f : nodeflag_t) (i : Z) :
  0 ≤ i → has_flag f (Z.shiftl 1 i) = Z.testbit f i.
Proof.
  intros Hi. unfold has_flag. rewrite Z.shiftl_1_l.
  assert (Z.land f (2 ^ i) = if Z.testbit f i then 2 ^ i else 0) as ->.
  { apply Z.bits_inj'. intros n Hn.
    rewrite Z.land_spec, Z.pow2_bits_eqb by lia.
    destruct (Z.eqb_spec i n) as [->|Hne].
    - rewrite andb_true_r. destruct (Z.testbit f n); [|by rewrite Z.bits_0].
      by rewrite Z.pow2_bits_eqb, Z.eqb_refl by lia.
    - rewrite andb_false_r. destruct (Z.testbit f i); [|by rewrite Z.bits_0].
      rewrite Z.pow2_bits_eqb by lia. symmetry. by apply Z.eqb_neq. }
  destruct (Z.testbit f i); [|reflexivity].
  destruct (Z.eqb_spec (2 ^ i) 0) as [H|]; [|reflexivity].
  pose proof (Z.pow_pos_nonneg 2 i). lia.
Qed.

Lemma has_NARROWED f : has_flag f NF_NARROWED = Z.testbit f 5.
Proof. by apply (has_flag_bit f 5). Qed.
Lemma has_MARK1 f : has_flag f NF_MARK1 = Z.testbit f 12.
Proof. by apply (has_flag_bit f 12). Qed.
Lemma has_MARK2 f : has_flag f NF_MARK2 = Z.testbit f 13.
Proof. by apply (has_flag_bit f 13). Qed.

(** Rewrites a question about a flag into a question about a bit. *)
Ltac flag_bits :=
  rewrite ?has_NARROWED, ?has_MARK1, ?has_MARK2 in *;
  unfold set_flag, clear_flag, toggle_flag in *;
  rewrite ?Z.lor_spec, ?Z.lxor_spec, ?Z.land_spec, ?Z.lnot_spec in * by lia.

Lemma toggle_MARK1_NARROWED f :
  has_flag (toggle_flag f NF_MARK1) NF_NARROWED = has_flag f NF_NARROWED.
Proof. flag_bits. cbn. by rewrite xorb_false_r. Qed.
Lemma toggle_MARK1_MARK2 f :
  has_flag (toggle_flag f NF_MARK1) NF_MARK2 = has_flag f NF_MARK2.
Proof. flag_bits. cbn. by rewrite xorb_false_r. Qed.
Lemma toggle_MARK1_MARK1 f :
  has_flag (toggle_flag f NF_MARK1) NF_MARK1 = negb (has_flag f NF_MARK1).
Proof. flag_bits. cbn. by rewrite xorb_true_r. Qed.
Lemma set_NARROWED_NARROWED f : has_flag (set_flag f NF_NARROWED) NF_NARROWED = true.
Proof. flag_bits. cbn. by rewrite orb_true_r. Qed.
Lemma set_NARROWED_MARK1 f :
  has_flag (set_flag f NF_NARROWED) NF_MARK1 = has_flag f NF_MARK1.
Proof. flag_bits. cbn. by rewrite orb_false_r. Qed.
Lemma set_NARROWED_MARK2 f :
  has_flag (set_flag f NF_NARROWED) NF_MARK2 = has_flag f NF_MARK2.
Proof. flag_bits. cbn. by rewrite orb_false_r. Qed.

(** ** Narrowing a reference under negations *)

(** [!...!x], with [k] negations. *)
Fixpoint nots (k : nat) (x : expr) : expr :=
  match k with
  | O => x
  | S k => EPrefixop OP_NOT (nots k x)
  end.

(** The flags of the narrowed copy of a binding after [k] negations. *)
Fixpoint negated (k : nat) (fl : nodeflag_t) : nodeflag_t :=
  match k with
  | O => set_flag fl NF_NARROWED
  | S k => toggle_flag (negated k fl) NF_MARK1
  end.

Lemma negated_NARROWED k fl : has_flag (negated k fl) NF_NARROWED = true.
Proof.
  induction k as [|k IH]; cbn; [apply set_NARROWED_NARROWED|].
  by rewrite toggle_MARK1_NARROWED.
Qed.

Lemma negated_MARK2 k fl : has_flag (negated k fl) NF_MARK2 = has_flag fl NF_MARK2.
Proof.
  induction k as [|k IH]; cbn; [apply set_NARROWED_MARK2|].
  by rewrite toggle_MARK1_MARK2.
Qed.

Lemma negated_MARK1 k fl :
  has_flag fl NF_MARK1 = false → has_flag (negated k fl) NF_MARK1 = Nat.odd k.
Proof.
  intros Hfl. induction k as [|k IH]; [by cbn; rewrite set_NARROWED_MARK1|].
  rewrite Nat.odd_succ, <- Nat.negb_odd, <- IH. apply toggle_MARK1_MARK1.
Qed.

Lemma scope_len_define s k v : scope_len (scope_define s k v) = S (S (scope_len s)).
Proof. reflexivity. Qed.

Lemma type_narrow_cond1_nots (k : nat) (s : narrow_t) (f : Z) fl ty name r rn :
  type_kind ty = TYPE_OPTIONAL →
  has_flag fl NF_NARROWED = false →
  scope_lookup (n_scope s) name 0 = None →
  n_heap s !! r = Some rn →
  nodekind_islocal (l_kind rn) = true →
  (1 ≤ n_ast_ma s)%nat → (1 ≤ n_ma s)%nat →
  ∃ s' f',
    type_narrow_cond1 s f (nots k (EId fl ty name (Some r)))
    = Some (s', f', nots k (EId (set_flag fl NF_NARROWED) ty name (Some r)), true)
    ∧ (f' = f ∨ f' = Z.lor f 1)
    ∧ n_scope s' = scope_define (n_scope s) (l_name rn) (n_ast_next s)
    ∧ n_heap s' !! n_ast_next s = Some (local_set_flags rn (negated k (l_flags rn)))
    ∧ n_ma s' = pred (n_ma s) ∧ n_ast_ma s' = pred (n_ast_ma s)
    ∧ n_ast_next s' = Pos.succ (n_ast_next s)
    ∧ n_diags s' = n_diags s ∧ n_compiler s' = n_compiler s.
Proof.
  intros Hty Hfl Hlook Hr Hloc Hast Hma. revert f.
  induction k as [|k IH]; intros f.
  - cbn [nots type_narrow_cond1].
    rewrite Hty, Hfl, Hlook. cbn. rewrite Hr. cbn. rewrite Hloc. cbn.
    unfold ast_clone_node, n_scope_define.
    destruct (n_ast_ma s) as [|am] eqn:Eam; [lia|]. cbn.
    destruct (n_ma s) as [|m] eqn:Em; [lia|]. cbn.
    eexists _, f. split; [reflexivity|]. cbn.
    rewrite lookup_insert_eq. by repeat split; auto.
  - destruct (IH (Z.lor f 1)) as (s' & f' & Hw & Hf' & Hsc & Hh & Hm & Ham & Hnx & Hd & Hc).
    cbn [nots type_narrow_cond1].
    rewrite bool_decide_eq_true_2 by reflexivity. cbn [negb].
    rewrite Hw. cbn [mbind option_bind negb].
    rewrite Hsc, scope_len_define.
    replace (S (S (scope_len (n_scope s))) - scope_len (n_scope s))%nat with 2%nat by lia.
    cbn [scope_define s_ptr take negate_slots]. rewrite Hh. cbn [mbind option_bind].
    cbn [local_set_flags l_flags]. rewrite negated_NARROWED.
    eexists _, f'. split; [reflexivity|]. cbn.
    rewrite lookup_insert_eq.
    repeat split; auto.
    destruct Hf' as [->| ->]; [by right|right].
    by rewrite <- Z.lor_assoc.
Qed.

Lemma scope_lookup_define s name p d :
  scope_lookup (scope_define s name p) name d = Some p.
Proof. unfold scope_lookup. cbn. by rewrite String.eqb_refl. Qed.

Lemma scope_lookup_push s name : scope_lookup (scope_push s) name 0 = None.
Proof. reflexivity. Qed.

(** C1. For a condition [!...!x] with [k] negations over a reference [x]
    to a binding of optional type [?T], the narrower run by [ifexpr] (in the
    scope entered for the "then" branch, with the definitions for an "else"
    branch asked for) succeeds, given memory; then the binding that the
    name of [x] has in the scope of the "then" branch has type [T] when [k]
    is even ([if x]) and [void] when [k] is odd ([if !x]), and the one
    binding handed to the "else" branch has type [void] when [k] is even
    and [T] when [k] is odd; [type_narrow_elsedefs] installs that binding
    under the name of [x] in the scope entered for the "else" branch. *)
Theorem type_narrow_cond_optional (k fuel : nat) (s : narrow_t)
    (fl : nodeflag_t) (ty : type_t) (h : thdr) (T : type_t) (name : sym_t)
    (r : ptr) (rn : local_t) :
  type_kind ty = TYPE_OPTIONAL →
  has_flag fl NF_NARROWED = false →
  n_heap s !! r = Some rn →
  nodekind_islocal (l_kind rn) = true →
  l_name rn = name →
  l_type rn = TPtr h K_OPTIONAL T →
  has_flag (l_flags rn) NF_MARK1 = false →
  has_flag (l_flags rn) NF_MARK2 = false →
  (3 ≤ n_ma s)%nat → (2 ≤ n_ast_ma s)%nat →
  ∃ s1 cond' p1 p2 n1 n2,
    type_narrow_cond fuel (enter_scope s) (Some []) (nots k (EId fl ty name (Some r)))
    = Some (s1, Some [p2], cond', true)
    ∧ scope_lookup (n_scope s1) name 0 = Some p1
    ∧ n_heap s1 !! p1 = Some n1
    ∧ l_type n1 = (if Nat.even k then T else type_void)
    ∧ n_heap s1 !! p2 = Some n2
    ∧ l_type n2 = (if Nat.even k then type_void else T)
    ∧ ∀ s2, n_heap s2 !! p2 = Some n2 → (2 ≤ n_ma s2)%nat →
        ∃ s3, type_narrow_elsedefs (enter_scope (leave_scope s2)) [p2] = Some (s3, true)
              ∧ scope_lookup (n_scope s3) name 0 = Some p2
              ∧ n_heap s3 !! p2 = Some n2.
Proof.
  intros Hty Hfl Hr Hloc Hname Hrt Hm1 Hm2 Hma Hast.
  assert (∃ m, n_ma s = S (S (S m))) as [m Em]
    by (destruct (n_ma s) as [|[|[|m]]]; try lia; eauto).
  set (s0 := enter_scope s).
  assert (n_scope s0 = scope_push (n_scope s) ∧ n_ma s0 = S (S m)
          ∧ n_heap s0 = n_heap s ∧ n_ast_ma s0 = n_ast_ma s) as (Hsc0 & Hma0 & Hh0 & Hast0).
  { unfold s0, enter_scope. rewrite Em. by cbn. }
  destruct (type_narrow_cond1_nots k s0 0 fl ty name r rn)
    as (s' & f' & Hw & Hf' & Hsc & Hh & Hm & Ham & Hnx & Hd & Hc); auto.
  { by rewrite Hsc0. } { by rewrite Hh0. } { lia. } { lia. }
  unfold type_narrow_cond. rewrite Hw. cbn [mbind option_bind negb].
  assert ((f' =? Z.lor 1 2) = false) as ->
    by (destruct Hf' as [->| ->]; reflexivity).
  rewrite Hsc, scope_len_define.
  replace (S (S (scope_len (n_scope s0))) - scope_len (n_scope s0))%nat with 2%nat by lia.
  rewrite bool_decide_eq_true_2 by discriminate.
  rewrite bool_decide_eq_true_2 by discriminate. cbn [andb].
  rewrite Hm, Hma0. cbn [pred mem_alloc n_scope n_set_scope scope_define s_ptr take narrow_entries].
  unfold narrow_entry. cbn [n_set_scope n_heap]. rewrite Hh. cbn [mbind option_bind].
  cbn [local_set_flags l_flags l_type l_init].
  rewrite negated_NARROWED, negated_MARK2, Hm2, (negated_MARK1 _ _ Hm1). cbn [negb].
  rewrite Hrt. cbn [type_kind ptrkind_kind].
  rewrite bool_decide_eq_true_2 by reflexivity. cbn [mbind option_bind].
  unfold ast_clone_node. cbn [n_ast_ma n_set_heap n_set_scope].
  rewrite Ham, Hast0.
  destruct (n_ast_ma s) as [|[|am]]; try lia. cbn [pred mem_alloc].
  cbn [n_heap n_set_heap n_ast_next n_set_scope mbind option_bind negb].
  rewrite Hnx.
  assert (n_ast_next s0 ≠ Pos.succ (n_ast_next s0)) as Hne by lia.
  rewrite lookup_insert_ne, lookup_insert_ne, lookup_insert_eq by auto.
  cbn [mbind option_bind].
  eexists _, _, (n_ast_next s0), (Pos.succ (n_ast_next s0)), _, _.
  split; [reflexivity|]. cbn [n_scope n_heap n_set_heap n_set_scope].
  rewrite <- Hname, scope_lookup_define, lookup_insert_eq.
  rewrite lookup_insert_ne, lookup_insert_eq by auto.
  split; [reflexivity|]. split; [reflexivity|].
  rewrite <- Nat.negb_even.
  split; [by destruct (Nat.even k)|]. split; [reflexivity|].
  split; [by destruct (Nat.even k)|].
  intros s2 Hs2 Hma2.
  unfold enter_scope, leave_scope. cbn [n_set_scope n_ma].
  destruct (n_ma s2) as [|[|m2]]; try lia. cbn [mem_alloc].
  cbn [type_narrow_elsedefs n_set_scope n_heap]. rewrite Hs2. cbn [mbind option_bind].
  cbn [local_set_type local_set_flags l_kind l_name]. rewrite Hloc. cbn.
  eexists. split; [reflexivity|]. cbn. by rewrite String.eqb_refl.
Qed.

(** Scenario S1 of the spec, [fun f(a ?int) int { if a { a } else { 0 } }]:
    the parameter [a] at address 50, in the scope of the function, and the
    reference to it in the condition. *)
Definition opt_int : type_t := mkptr 60%positive K_OPTIONAL type_int.
Definition param_a : local_t :=
  Local EXPR_PARAM NF_CHECKED opt_int "a" None false false 0.
Definition id_a : expr :=
  EId (Z.lor NF_CHECKED NF_RVALUE) opt_int "a" (Some 50%positive).
Definition narrow0 : narrow_t :=
  {| n_compiler := compiler64;
     n_heap := <[50%positive := param_a]> ∅;
     n_scope := scope_define (scope_push (Scope [] 0%nat)) "a" 50%positive;
     n_ma := 8%nat; n_ast_ma := 8%nat; n_ast_next := 1000%positive;
     n_diags := [] |}.

(** The types of the bindings of [name] in the "then" scope and of the
    bindings handed to the "else" branch, after the narrower. *)
Definition narrowed_types (fuel : nat) (s : narrow_t) (cond : expr) (name : sym_t)
    : option (option type_t * list (option type_t)) :=
  '(s1, elsedefs, _, _) ← type_narrow_cond fuel (enter_scope s) (Some []) cond;
  Some (p ← scope_lookup (n_scope s1) name 0; n ← n_heap s1 !! p; Some (l_type n),
        (λ p, n ← n_heap s1 !! p; Some (l_type n)) <$> default [] elsedefs).

Example narrow_S1 :
  narrowed_types 0 narrow0 id_a "a" = Some (Some type_int, [Some type_void])
  ∧ narrowed_types 0 narrow0 (EPrefixop OP_NOT id_a) "a"
    = Some (Some type_void, [Some type_int])
  ∧ narrowed_types 0 narrow0 (EPrefixop OP_NOT (EPrefixop OP_NOT id_a)) "a"
    = Some (Some type_int, [Some type_void]).
Proof. repeat split; vm_compute; reflexivity. Qed.

Lemma type_narrow_cond_optional_witness :
  ∃ s1 cond' p1 p2 n1 n2,
    type_narrow_cond 0 (enter_scope narrow0) (Some []) (EPrefixop OP_NOT id_a)
    = Some (s1, Some [p2], cond', true)
    ∧ scope_lookup (n_scope s1) "a" 0 = Some p1
    ∧ n_heap s1 !! p1 = Some n1
    ∧ l_type n1 = type_void
    ∧ n_heap s1 !! p2 = Some n2
    ∧ l_type n2 = type_int
    ∧ ∀ s2, n_heap s2 !! p2 = Some n2 → (2 ≤ n_ma s2)%nat →
        ∃ s3, type_narrow_elsedefs (enter_scope (leave_scope s2)) [p2] = Some (s3, true)
              ∧ scope_lookup (n_scope s3) "a" 0 = Some p2
              ∧ n_heap s3 !! p2 = Some n2.
Proof.
  apply (type_narrow_cond_optional 1 0 narrow0 (Z.lor NF_CHECKED NF_RVALUE) opt_int
           (Thdr 60%positive NF_CHECKED 8 8) type_int "a" 50%positive param_a);
    try reflexivity; cbn; lia.
Defined.

(** ** The walk of the narrower and what it observes *)

(** [y] is a node of the condition [x]. *)
Inductive subexpr (y : expr) : expr → Prop :=
  | sub_here : subexpr y y
  | sub_prefixop op e : subexpr y e → subexpr y (EPrefixop op e)
  | sub_left op l r : subexpr y l → subexpr y (EBinop op l r)
  | sub_right op l r : subexpr y r → subexpr y (EBinop op l r)
  | sub_init p i : subexpr y i → subexpr y (ELocal p (Some i))
  | sub_child kind cs c : c ∈ cs → subexpr y c → subexpr y (EOther kind cs).

(** Every [EXPR_VAR] and [EXPR_LET] node of the condition is a node of the
    store. *)
Fixpoint locals_in (h : gmap ptr local_t) (x : expr) : bool :=
  match x with
  | EId _ _ _ _ => true
  | EPrefixop _ e => locals_in h e
  | EBinop _ l r => locals_in h l && locals_in h r
  | ELocal p i =>
      bool_decide (is_Some (h !! p))
      && match i with Some i => locals_in h i | None => true end
  | EOther _ cs => forallb (locals_in h) cs
  end.

(** The nodes of the store are older than the next node to be allocated. *)
Definition heap_fresh (s : narrow_t) : Prop :=
  map_Forall (λ p _, (p < n_ast_next s)%positive) (n_heap s).

Lemma heap_fresh_lt (s : narrow_t) :
  heap_fresh s ↔ ∀ p, is_Some (n_heap s !! p) → (p < n_ast_next s)%positive.
Proof.
  split.
  - intros H p [n Hp]. exact (H p n Hp).
  - intros H p n Hp. apply H. by exists n.
Qed.

(** A complex operator, as the spec has it: [!], or [||].  The walk goes
    through [!], [&&] and [||] only. *)
Fixpoint complex_op_on_path (x : expr) : bool :=
  match x with
  | EPrefixop op _ => bool_decide (op = OP_NOT)
  | EBinop op l r =>
      bool_decide (op = OP_LOR)
      || (bool_decide (op = OP_LAND) && (complex_op_on_path l || complex_op_on_path r))
  | _ => false
  end.

(** A narrowing local definition, as the spec has it: a [let] or [var]
    not narrowed before, "whose type is narrowed from [?T] to [T]": the
    type is optional or, when the type is known not to be, the
    initializer's type is optional or not known yet. *)
Definition narrowing_localdef (n : local_t) : bool :=
  nodekind_isvar (l_kind n)
  && negb (has_flag (l_flags n) NF_NARROWED)
  && (bool_decide (type_kind (l_type n) = TYPE_OPTIONAL)
      || (negb (bool_decide (type_kind (l_type n) = TYPE_UNKNOWN))
          && match l_init n with
             | None => false
             | Some i =>
                 match init_type i with
                 | None => true
                 | Some it => bool_decide (type_kind it = TYPE_OPTIONAL)
                              || bool_decide (type_kind it = TYPE_UNKNOWN)
                 end
             end)).

Fixpoint localdef_on_path (h : gmap ptr local_t) (x : expr) : bool :=
  match x with
  | EPrefixop op e => bool_decide (op = OP_NOT) && localdef_on_path h e
  | EBinop op l r => is_land_lor op && (localdef_on_path h l || localdef_on_path h r)
  | ELocal p _ =>
      match h !! p with
      | Some n => narrowing_localdef n
      | None => false
      end
  | _ => false
  end.

(** [*flags] after the walk. *)
Definition observed (complex_op localdef : bool) : Z :=
  Z.lor (if complex_op then 1 else 0) (if localdef then 2 else 0).

Lemma observed_lor f c1 l1 c2 l2 :
  Z.lor (Z.lor f (observed c1 l1)) (observed c2 l2) = Z.lor f (observed (c1 || c2) (l1 || l2)).
Proof. rewrite <- Z.lor_assoc. f_equal. by destruct c1, l1, c2, l2. Qed.

Lemma observed_3 c l : (Z.lor 0 (observed c l) =? Z.lor 1 2) = c && l.
Proof. by destruct c, l. Qed.

(** What a walk from [s] to [s'] keeps of the nodes of the store; [L]
    tells whether it has observed a local definition. *)
Definition walk_inv (s s' : narrow_t) (L : bool) : Prop :=
  heap_fresh s' ∧ n_diags s' = n_diags s ∧
  ∀ p n, n_heap s !! p = Some n →
    ∃ n', n_heap s' !! p = Some n'
      ∧ l_kind n' = l_kind n ∧ l_type n' = l_type n ∧ l_init n' = l_init n
      ∧ (has_flag (l_flags n) NF_NARROWED = true → has_flag (l_flags n') NF_NARROWED = true)
      ∧ (has_flag (l_flags n') NF_NARROWED = true →
         has_flag (l_flags n) NF_NARROWED = true ∨ L = true).

Lemma walk_inv_refl s : heap_fresh s → walk_inv s s false.
Proof. intros Hf. repeat split; auto. intros p n Hp. exists n. by repeat split; auto. Qed.


Lemma walk_inv_mono s s' (L L' : bool) :
  (L = true → L' = true) → walk_inv s s' L → walk_inv s s' L'.
Proof.
  intros HL (Hf & Hd & Hh). repeat split; auto. intros p n Hp.
  destruct (Hh p n Hp) as (n' & ? & ? & ? & ? & ? & Hn). exists n'.
  repeat split; auto. intros H'. destruct (Hn H'); auto.
Qed.

Lemma walk_inv_trans s1 s2 s3 L1 L2 :
  walk_inv s1 s2 L1 → walk_inv s2 s3 L2 → walk_inv s1 s3 (L1 || L2).
Proof.
  intros (Hf1 & Hd1 & Hh1) (Hf2 & Hd2 & Hh2). repeat split; auto; [congruence|].
  intros p n Hp.
  destruct (Hh1 p n Hp) as (n1 & Hp1 & ? & ? & ? & Hto1 & Hfrom1).
  destruct (Hh2 p n1 Hp1) as (n2 & Hp2 & ? & ? & ? & Hto2 & Hfrom2).
  exists n2. repeat split; auto; try congruence.
  intros Hn2. destruct (Hfrom2 Hn2) as [Hn1| ->]; [|by right; apply orb_true_r].
  destruct (Hfrom1 Hn1) as [?| ->]; auto.
Qed.

(** A [let] or [var] of the store that is marked as narrowed. *)
Definition narrowed_var (h : gmap ptr local_t) (l : ptr) : Prop :=
  ∃ n, h !! l = Some n ∧ nodekind_isvar (l_kind n) = true
       ∧ has_flag (l_flags n) NF_NARROWED = true.

(** [o] is a complex operator of a node of [x]. *)
Definition op_in (o : op_t) (x : expr) : Prop :=
  (o = OP_NOT ∧ ∃ e, subexpr (EPrefixop OP_NOT e) x)
  ∨ (o = OP_LOR ∧ ∃ l r, subexpr (EBinop OP_LOR l r) x).

Lemma subexpr_trans x y z : subexpr x y → subexpr y z → subexpr x z.
Proof.
  intros Hxy Hyz. induction Hyz; auto;
    [by apply sub_prefixop|by apply sub_left|by apply sub_right|by apply sub_init
    |by eapply sub_child].
Qed.

Lemma op_in_sub o x y : op_in o x → subexpr x y → op_in o y.
Proof.
  intros [[-> [e He]]|[-> (l & r & He)]] Hxy; [left|right]; (split; [done|]).
  - exists e. by eapply subexpr_trans.
  - exists l, r. by eapply subexpr_trans.
Qed.

(** The test of the [EXPR_VAR]/[EXPR_LET] case of the walk is the negation
    of [narrowing_localdef]. *)
Lemma narrowing_localdef_walk (n : local_t) :
  nodekind_isvar (l_kind n) = true →
  has_flag (l_flags n) NF_NARROWED
  || bool_decide (type_kind (l_type n) = TYPE_UNKNOWN)
  || (negb (bool_decide (type_kind (l_type n) = TYPE_OPTIONAL))
      && match l_init n with
         | None => true
         | Some i =>
             match init_type i with
             | None => false
             | Some it =>
                 negb (bool_decide (type_kind it = TYPE_OPTIONAL))
                 && negb (bool_decide (type_kind it = TYPE_UNKNOWN))
             end
         end)
  = negb (narrowing_localdef n).
Proof.
  intros Hvar. unfold narrowing_localdef. rewrite Hvar.
  destruct (has_flag (l_flags n) NF_NARROWED); [reflexivity|]. cbn [negb andb orb].
  destruct (decide (type_kind (l_type n) = TYPE_UNKNOWN)) as [Hu|Hu].
  - rewrite (bool_decide_eq_true_2 _ Hu), bool_decide_eq_false_2 by (rewrite Hu; discriminate).
    reflexivity.
  - rewrite (bool_decide_eq_false_2 _ Hu). cbn [negb andb orb].
    destruct (bool_decide (type_kind (l_type n) = TYPE_OPTIONAL)); [reflexivity|].
    cbn [negb andb orb]. destruct (l_init n) as [i|]; [|reflexivity].
    destruct (init_type i) as [it|]; [|reflexivity].
    by destruct (bool_decide (type_kind it = TYPE_OPTIONAL)),
                (bool_decide (type_kind it = TYPE_UNKNOWN)).
Qed.

Lemma narrowing_localdef_ext (n n' : local_t) :
  l_kind n' = l_kind n → l_type n' = l_type n → l_init n' = l_init n →
  has_flag (l_flags n') NF_NARROWED = has_flag (l_flags n) NF_NARROWED →
  narrowing_localdef n' = narrowing_localdef n.
Proof. unfold narrowing_localdef. by intros -> -> -> ->. Qed.

Lemma locals_in_mono (h h' : gmap ptr local_t) (x : expr) :
  (∀ p, is_Some (h !! p) → is_Some (h' !! p)) →
  locals_in h x = true → locals_in h' x = true.
Proof.
  intros Hdom. induction x as [| |op l r IHl IHr|p init IH|kind cs IH] using expr_ind;
    cbn [locals_in]; auto.
  - intros [Hl Hr]%andb_true_iff. by rewrite IHl, IHr.
  - intros [Hp Hi]%andb_true_iff. apply bool_decide_eq_true_1, Hdom in Hp.
    rewrite (bool_decide_eq_true_2 _ Hp). destruct init as [i|]; [|reflexivity].
    by apply IH.
  - rewrite !forallb_forall. intros Hcs c Hc.
    rewrite Forall_forall in IH. apply IH; [by apply list_elem_of_In|by apply Hcs].
Qed.

Lemma localdef_on_path_ext (h h' : gmap ptr local_t) (x : expr) :
  (∀ p n, h !! p = Some n →
     ∃ n', h' !! p = Some n' ∧ narrowing_localdef n' = narrowing_localdef n) →
  locals_in h x = true →
  localdef_on_path h' x = localdef_on_path h x.
Proof.
  intros Hext. induction x as [| |op l r IHl IHr|p init IH|kind cs IH] using expr_ind;
    cbn [locals_in localdef_on_path]; auto.
  - intros Hx. by rewrite IHx.
  - intros [Hl Hr]%andb_true_iff. by rewrite IHl, IHr.
  - intros [Hp _]%andb_true_iff. apply bool_decide_eq_true_1 in Hp as [n Hn].
    destruct (Hext p n Hn) as (n' & -> & ->). by rewrite Hn.
Qed.

(** The loop of the [!] case changes the "negative" mark only. *)
Lemma negate_slots_inv (slots : list slot) : ∀ (h h' : gmap ptr local_t),
  negate_slots h slots = Some h' →
  (∀ p n, h !! p = Some n →
     ∃ n', h' !! p = Some n'
       ∧ l_kind n' = l_kind n ∧ l_type n' = l_type n ∧ l_init n' = l_init n
       ∧ has_flag (l_flags n') NF_NARROWED = has_flag (l_flags n) NF_NARROWED)
  ∧ (∀ p, is_Some (h' !! p) → is_Some (h !! p)).
Proof.
  induction slots as [slots IH] using (induction_ltof1 _ (@length slot)).
  unfold ltof in IH. intros h h' Hneg.
  destruct slots as [|a [|[b|q|name] rest]]; try discriminate Hneg.
  - injection Hneg as <-. split; [|done]. intros p n Hp. by exists n.
  - cbn [negate_slots] in Hneg.
    destruct (h !! q) as [n2|] eqn:Eq; [|discriminate Hneg]. cbn [mbind option_bind] in Hneg.
    apply (IH rest) in Hneg as [Hfwd Hbwd]; [|cbn; lia].
    destruct (has_flag (l_flags n2) NF_NARROWED) eqn:En2; [|by split].
    split.
    + intros p n Hp. destruct (decide (p = q)) as [->|Hne].
      * destruct (Hfwd q _ (lookup_insert_eq _ _ _)) as (n' & ? & ? & ? & ? & Hfl).
        assert (n = n2) as -> by congruence. exists n'.
        repeat split; auto. rewrite Hfl. cbn [local_set_flags l_flags].
        by rewrite toggle_MARK1_NARROWED.
      * apply Hfwd. by rewrite lookup_insert_ne.
    + intros p Hp%Hbwd. destruct (decide (p = q)) as [->|Hne]; [by rewrite Eq|].
      by rewrite lookup_insert_ne in Hp.
Qed.

(** What the walk of the narrower observes and what it leaves. *)
Definition walk_spec (s : narrow_t) (f : Z) (x : expr)
    (s' : narrow_t) (f' : Z) (x' : expr) : Prop :=
  f' = Z.lor f (observed (complex_op_on_path x) (localdef_on_path (n_heap s) x))
  ∧ walk_inv s s' (localdef_on_path (n_heap s) x)
  ∧ (∀ h, locals_in h x' = locals_in h x)
  ∧ (complex_op_on_path x = true → ∃ o, op_in o x')
  ∧ (localdef_on_path (n_heap s) x = true →
     ∃ p i, subexpr (ELocal p i) x' ∧ narrowed_var (n_heap s') p).

Lemma walk_spec_skip (s : narrow_t) (f : Z) (x : expr) :
  heap_fresh s → complex_op_on_path x = false → localdef_on_path (n_heap s) x = false →
  walk_spec s f x s f x.
Proof.
  intros Hf Hc Hl. unfold walk_spec. rewrite Hc, Hl.
  split; [by rewrite Z.lor_0_r|]. split; [by apply walk_inv_refl|].
  by repeat split.
Qed.

Lemma set_NARROWED_MARK2_NARROWED f :
  has_flag (set_flag f (Z.lor NF_NARROWED NF_MARK2)) NF_NARROWED = true.
Proof. flag_bits. cbn. by rewrite orb_true_r. Qed.

Lemma type_narrow_cond1_observes (x : expr) : ∀ s f s' f' x',
  type_narrow_cond1 s f x = Some (s', f', x', true) →
  heap_fresh s → locals_in (n_heap s) x = true →
  walk_spec s f x s' f' x'.
Proof.
  induction x as [fl ty name ref|op e IHe|op l r IHl IHr|p init _|kind cs _] using expr_ind;
    intros s f s' f' x' Hw Hfresh Hin; cbn [type_narrow_cond1] in Hw.
  - (* EXPR_ID *)
    destruct (negb (bool_decide (type_kind ty = TYPE_OPTIONAL)) || has_flag fl NF_NARROWED).
    { injection Hw as <- <- <-. by apply walk_spec_skip. }
    assert (∀ s0 : narrow_t, walk_inv s s0 false → walk_spec s f (EId fl ty name ref) s0 f
              (EId (set_flag fl NF_NARROWED) ty name ref)) as Hdone.
    { intros s0 Hinv. unfold walk_spec. cbn [complex_op_on_path localdef_on_path].
      split; [by rewrite Z.lor_0_r|]. split; [exact Hinv|]. by repeat split. }
    destruct (match scope_lookup (n_scope s) name 0 with
              | Some p2 => _ | None => Some false end) as [[|]|] eqn:Ereuse;
      cbn [mbind option_bind] in Hw; [| |discriminate Hw].
    { injection Hw as <- <- <-. by apply Hdone, walk_inv_refl. }
    destruct ref as [r|]; [|discriminate Hw]. cbn [mbind option_bind] in Hw.
    destruct (n_heap s !! r) as [rn|] eqn:Er; [|discriminate Hw].
    cbn [mbind option_bind] in Hw.
    destruct (nodekind_islocal (l_kind rn)); [|discriminate Hw]. cbn [negb] in Hw.
    unfold ast_clone_node in Hw.
    destruct (mem_alloc (n_ast_ma s)) as [am|]; [|discriminate Hw].
    unfold n_scope_define in Hw. cbn [n_ma n_set_heap] in Hw.
    destruct (mem_alloc (n_ma s)) as [m|]; [|discriminate Hw].
    injection Hw as <- <- <-. apply Hdone.
    assert (∀ q, is_Some (n_heap s !! q) → q ≠ n_ast_next s) as Hne
      by (intros q Hq%(proj1 (heap_fresh_lt s) Hfresh); lia).
    split; [|split; [reflexivity|]]; cbn.
    + apply heap_fresh_lt. intros q Hq. cbn in Hq |- *.
      destruct (decide (q = n_ast_next s)) as [->|Hq']; [lia|].
      rewrite !lookup_insert_ne in Hq by auto.
      apply (proj1 (heap_fresh_lt s) Hfresh) in Hq. lia.
    + intros q n Hq. exists n. cbn. rewrite !lookup_insert_ne by (apply not_eq_sym, Hne; eauto).
      by repeat split; auto.
  - (* EXPR_PREFIXOP *)
    destruct (decide (op = OP_NOT)) as [->|Hop].
    2:{ rewrite (bool_decide_eq_false_2 _ Hop) in Hw. injection Hw as <- <- <-.
        apply walk_spec_skip; auto; cbn; by rewrite (bool_decide_eq_false_2 _ Hop). }
    rewrite bool_decide_eq_true_2 in Hw by reflexivity. cbn [negb] in Hw.
    destruct (type_narrow_cond1 s (Z.lor f 1) e) as [[[[s1 f1] e1] [|]]|] eqn:Ee;
      cbn [mbind option_bind negb] in Hw; [|discriminate Hw|discriminate Hw].
    destruct (negate_slots _ _) as [h'|] eqn:Eneg; [|discriminate Hw].
    injection Hw as <- <- <-.
    destruct (IHe _ _ _ _ _ Ee Hfresh Hin) as (Hf1 & Hinv & Hloc & Hop & Hdef).
    destruct (negate_slots_inv _ _ _ Eneg) as [Hneg Hdom].
    unfold walk_spec. cbn [complex_op_on_path localdef_on_path locals_in].
    rewrite bool_decide_eq_true_2 by reflexivity. cbn [andb].
    split.
    { rewrite Hf1. change 1 with (observed true false) at 1. by rewrite observed_lor. }
    split.
    { replace (localdef_on_path (n_heap s) e)
        with (localdef_on_path (n_heap s) e || false) by apply orb_false_r.
      apply walk_inv_trans with s1; [exact Hinv|].
      destruct Hinv as (Hfresh1 & _ & _).
      split; [|split; [reflexivity|]]; cbn.
      - apply heap_fresh_lt. intros q Hq.
        apply (proj1 (heap_fresh_lt s1) Hfresh1), Hdom, Hq.
      - intros q n Hq.
        destruct (Hneg q n Hq) as (n' & ? & ? & ? & ? & Hfl). exists n'. rewrite Hfl.
        by repeat split; auto. }
    split; [exact Hloc|]. split.
    { intros _. exists OP_NOT. left. split; [done|]. exists e1. constructor. }
    intros HL. destruct (Hdef HL) as (q & i & Hsub & n & Hq & Hvar & Hnar).
    exists q, i. split; [by apply sub_prefixop|].
    destruct (Hneg q n Hq) as (n' & ? & Hk & ? & ? & Hfl). exists n'. cbn.
    by rewrite Hk, Hfl.
  - (* EXPR_BINOP *)
    apply andb_true_iff in Hin as [Hinl Hinr].
    destruct (is_land_lor op) eqn:Eop.
    2:{ cbn [negb] in Hw. injection Hw as <- <- <-.
        apply walk_spec_skip; auto; cbn [complex_op_on_path localdef_on_path];
          [by destruct op|by rewrite Eop]. }
    cbn [negb] in Hw.
    destruct (type_narrow_cond1 s _ l) as [[[[s1 f1] l1] [|]]|] eqn:El;
      cbn [mbind option_bind negb] in Hw; [|discriminate Hw|discriminate Hw].
    destruct (type_narrow_cond1 s1 f1 r) as [[[[s2 f2] r1] ok]|] eqn:Er;
      cbn [mbind option_bind negb] in Hw; [|discriminate Hw].
    injection Hw as <- <- <- ->.
    destruct (IHl _ _ _ _ _ El Hfresh Hinl) as (Hf1 & Hinv1 & Hloc1 & Hop1 & Hdef1).
    assert (locals_in (n_heap s1) r = true) as Hinr1.
    { apply (locals_in_mono (n_heap s)); [|exact Hinr].
      intros q [n Hq]. destruct Hinv1 as (_ & _ & Hh).
      destruct (Hh q n Hq) as (n' & -> & _). eauto. }
    destruct (IHr _ _ _ _ _ Er (proj1 Hinv1) Hinr1) as (Hf2 & Hinv2 & Hloc2 & Hop2 & Hdef2).
    set (Ll := localdef_on_path (n_heap s) l) in *.
    set (Lr := localdef_on_path (n_heap s) r).
    set (Lr1 := localdef_on_path (n_heap s1) r) in *.
    assert (Ll || Lr1 = Ll || Lr) as HL.
    { destruct Ll eqn:ELl; [reflexivity|]. cbn [orb]. unfold Lr1, Lr.
      apply localdef_on_path_ext; [|exact Hinr].
      intros q n Hq. destruct Hinv1 as (_ & _ & Hh).
      destruct (Hh q n Hq) as (n' & Hq' & ? & ? & ? & Hto & Hfrom). exists n'.
      split; [exact Hq'|]. apply narrowing_localdef_ext; auto.
      destruct (has_flag (l_flags n) NF_NARROWED) eqn:En; [by apply Hto|].
      destruct (has_flag (l_flags n') NF_NARROWED) eqn:En'; [|reflexivity].
      by destruct (Hfrom eq_refl). }
    unfold walk_spec. cbn [complex_op_on_path localdef_on_path locals_in].
    rewrite Eop. cbn [andb]. fold Ll Lr. rewrite <- HL.
    split.
    { rewrite Hf2, Hf1. fold Ll Lr1. rewrite observed_lor.
      destruct op; try discriminate Eop.
      - rewrite bool_decide_eq_false_2, bool_decide_eq_true_2 by done. reflexivity.
      - rewrite bool_decide_eq_true_2 by done.
        change 1 with (observed true false) at 1. by rewrite !observed_lor. }
    split; [by apply walk_inv_trans with s1|].
    split; [by intros h; rewrite Hloc1, Hloc2|].
    split.
    { intros Hc. destruct (decide (op = OP_LOR)) as [->|Hop].
      { exists OP_LOR. right. split; [done|]. exists l1, r1. constructor. }
      rewrite (bool_decide_eq_false_2 _ Hop) in Hc. cbn [orb] in Hc.
      apply andb_true_iff in Hc as [_ [Hc|Hc]%orb_true_iff].
      - destruct (Hop1 Hc) as [o Ho]. exists o. apply (op_in_sub _ _ _ Ho).
        apply sub_left. constructor.
      - destruct (Hop2 Hc) as [o Ho]. exists o. apply (op_in_sub _ _ _ Ho).
        apply sub_right. constructor. }
    intros [HLl|HLr]%orb_true_iff.
    + destruct (Hdef1 HLl) as (q & i & Hsub & n & Hq & Hvar & Hnar).
      exists q, i. split; [by apply sub_left|].
      destruct Hinv2 as (_ & _ & Hh).
      destruct (Hh q n Hq) as (n' & Hq' & Hk & _ & _ & Hto & _). exists n'.
      rewrite Hk. auto.
    + destruct (Hdef2 HLr) as (q & i & Hsub & Hq).
      exists q, i. split; [by apply sub_right|done].
  - (* EXPR_VAR, EXPR_LET *)
    destruct (n_heap s !! p) as [n|] eqn:Ep; [|discriminate Hw].
    cbn [mbind option_bind] in Hw.
    destruct (nodekind_isvar (l_kind n)) eqn:Evar; cbn [negb] in Hw.
    2:{ injection Hw as <- <- <-. apply walk_spec_skip; auto.
        cbn [localdef_on_path]. rewrite Ep. unfold narrowing_localdef. by rewrite Evar. }
    rewrite (narrowing_localdef_walk n Evar) in Hw.
    destruct (narrowing_localdef n) eqn:Enar; cbn [negb] in Hw.
    2:{ injection Hw as <- <- <-. apply walk_spec_skip; auto.
        cbn [localdef_on_path]. by rewrite Ep. }
    unfold n_scope_define in Hw. cbn [n_ma n_set_heap] in Hw.
    destruct (mem_alloc (n_ma s)) as [m|]; [|discriminate Hw].
    injection Hw as <- <- <-.
    unfold walk_spec. cbn [complex_op_on_path localdef_on_path]. rewrite Ep, Enar.
    split; [reflexivity|]. split.
    { split; [|split; [reflexivity|]].
      - apply heap_fresh_lt. intros q Hq. apply (proj1 (heap_fresh_lt s) Hfresh). cbn in Hq.
        destruct (decide (q = p)) as [->|Hne]; [by eexists|].
        by rewrite lookup_insert_ne in Hq.
      - intros q n0 Hq. cbn. destruct (decide (q = p)) as [->|Hne].
        + rewrite lookup_insert_eq. eexists. split; [reflexivity|].
          assert (n0 = n) as -> by congruence. cbn [local_set_flags l_kind l_type l_init l_flags].
          repeat split; auto. intros _. apply set_NARROWED_MARK2_NARROWED.
        + rewrite lookup_insert_ne by auto. exists n0. by repeat split; auto. }
    split; [reflexivity|]. split; [discriminate|].
    intros _. exists p, init. split; [constructor|].
    eexists. cbn. rewrite lookup_insert_eq. split; [reflexivity|]. cbn.
    split; [exact Evar|apply set_NARROWED_MARK2_NARROWED].
  - (* any other node *)
    injection Hw as <- <- <-. by apply walk_spec_skip.
Qed.

(** ** The search for the local definition and the operator to report *)

Lemma find_local_unfold (h : gmap ptr local_t) (x : expr) lp op :
  type_narrow_error_find_local h x lp op
  = '(lp, op) ← find_local_visit h x lp op;
    if both_found lp op then Some (lp, op, true)
    else find_local_children (type_narrow_error_find_local h) (expr_children x) lp op.
Proof. destruct x as [| | |p [i|]|]; reflexivity. Qed.

Lemma expr_children_ind (P : expr → Prop) :
  (∀ x, Forall P (expr_children x) → P x) → ∀ x, P x.
Proof.
  intros H x. induction x as [| |op l r IHl IHr|p init IH|kind cs IH] using expr_ind;
    apply H; cbn [expr_children]; auto.
  destruct init as [i|]; auto.
Qed.

Lemma subexpr_children (y x : expr) :
  subexpr y x ↔ y = x ∨ ∃ c, c ∈ expr_children x ∧ subexpr y c.
Proof.
  split.
  - intros Hs. destruct Hs as [|op e He|op l r Hl|op l r Hr|p i Hi|kind cs c Hc Hs];
      [by left|right..]; cbn [expr_children].
    + exists e. split; [apply list_elem_of_here|done].
    + exists l. split; [apply list_elem_of_here|done].
    + exists r. split; [apply list_elem_of_further, list_elem_of_here|done].
    + exists i. split; [apply list_elem_of_here|done].
    + exists c. by split.
  - intros [->|(c & Hc & Hs)]; [constructor|].
    destruct x as [fl ty name ref|op e|op l r|p [i|]|kind cs]; cbn [expr_children] in Hc.
    + by apply elem_of_nil in Hc.
    + apply list_elem_of_singleton in Hc as ->. by apply sub_prefixop.
    + apply elem_of_cons in Hc as [->|Hc]; [by apply sub_left|].
      apply list_elem_of_singleton in Hc as ->. by apply sub_right.
    + apply list_elem_of_singleton in Hc as ->. by apply sub_init.
    + by apply elem_of_nil in Hc.
    + by eapply sub_child.
Qed.

Lemma locals_in_children (h : gmap ptr local_t) (x : expr) :
  locals_in h x = true → Forall (λ c, locals_in h c = true) (expr_children x).
Proof.
  destruct x as [fl ty name ref|op e|op l r|p [i|]|kind cs];
    cbn [locals_in expr_children]; auto.
  - intros [? ?]%andb_true_iff. auto.
  - intros [? ?]%andb_true_iff. auto.
  - intros H. apply Forall_forall. intros c Hc%list_elem_of_In.
    by apply (proj1 (forallb_forall _ _) H).
Qed.

(** The narrowed [let] and [var] nodes of a condition, and its complex
    operators. *)
Definition narrowed_var_in (h : gmap ptr local_t) (x : expr) (l : ptr) : Prop :=
  narrowed_var h l ∧ ∃ i, subexpr (ELocal l i) x.

(** The result of a search through a part of the condition that has the
    narrowed locals [Lin] and the complex operators [Oin]. *)
Definition found_in (Lin : ptr → Prop) (Oin : op_t → Prop)
    (lp : option ptr) (op : option op_t)
    (r : option ptr * option op_t * bool) : Prop :=
  (∀ l, r.1.1 = Some l → lp = Some l ∨ Lin l)
  ∧ (∀ o, r.1.2 = Some o → op = Some o ∨ Oin o)
  ∧ (is_Some lp → is_Some r.1.1) ∧ (is_Some op → is_Some r.1.2)
  ∧ (if r.2 then is_Some r.1.1 ∧ is_Some r.1.2
     else (∀ l, Lin l → is_Some r.1.1) ∧ (∀ o, Oin o → is_Some r.1.2)).

Lemma found_in_ext (L L' : ptr → Prop) (O O' : op_t → Prop) lp op r :
  (∀ l, L l ↔ L' l) → (∀ o, O o ↔ O' o) → found_in L O lp op r → found_in L' O' lp op r.
Proof.
  intros HL HO (S1 & S2 & M1 & M2 & C). repeat split; auto.
  - intros l Hl. destruct (S1 l Hl); [by left|right]. by apply HL.
  - intros o Ho. destruct (S2 o Ho); [by left|right]. by apply HO.
  - destruct r.2; [done|]. destruct C as [C1 C2]. split.
    + intros l Hl. apply (C1 l), HL, Hl.
    + intros o Ho. apply (C2 o), HO, Ho.
Qed.

Lemma found_in_seq (L1 L2 : ptr → Prop) (O1 O2 : op_t → Prop) lp op lp1 op1 r :
  found_in L1 O1 lp op (lp1, op1, false) → found_in L2 O2 lp1 op1 r →
  found_in (λ l, L1 l ∨ L2 l) (λ o, O1 o ∨ O2 o) lp op r.
Proof.
  intros (S1 & S2 & M1 & M2 & C1 & C2) (S1' & S2' & M1' & M2' & C').
  cbn [fst snd] in *. repeat split; auto.
  - intros l Hl. destruct (S1' l Hl) as [H1|H2]; [|by right; right].
    destruct (S1 l H1); [by left|by right; left].
  - intros o Ho. destruct (S2' o Ho) as [H1|H2]; [|by right; right].
    destruct (S2 o H1); [by left|by right; left].
  - destruct r.2; [done|]. destruct C' as [C1' C2']. split.
    + intros l [Hl|Hl]; [apply M1', (C1 l Hl)|apply (C1' l Hl)].
    + intros o [Ho|Ho]; [apply M2', (C2 o Ho)|apply (C2' o Ho)].
Qed.

Lemma found_in_stop (L1 L2 : ptr → Prop) (O1 O2 : op_t → Prop) lp op lp1 op1 :
  found_in L1 O1 lp op (lp1, op1, true) →
  found_in (λ l, L1 l ∨ L2 l) (λ o, O1 o ∨ O2 o) lp op (lp1, op1, true).
Proof.
  intros (S1 & S2 & M1 & M2 & C). cbn [fst snd] in *. repeat split; auto; try tauto.
  - intros l Hl. destruct (S1 l Hl); [by left|by right; left].
  - intros o Ho. destruct (S2 o Ho); [by left|by right; left].
Qed.

(** The node itself. *)
Definition visit_local (h : gmap ptr local_t) (x : expr) (l : ptr) : Prop :=
  narrowed_var h l ∧ ∃ i, x = ELocal l i.
Definition visit_op (x : expr) (o : op_t) : Prop :=
  (o = OP_NOT ∧ ∃ e, x = EPrefixop OP_NOT e) ∨ (o = OP_LOR ∧ ∃ l r, x = EBinop OP_LOR l r).

Lemma find_local_visit_ok (h : gmap ptr local_t) (x : expr) lp op :
  locals_in h x = true →
  ∃ lp1 op1, find_local_visit h x lp op = Some (lp1, op1)
             ∧ found_in (visit_local h x) (visit_op x) lp op (lp1, op1, false).
Proof.
  intros Hin.
  assert (∀ L O, (∀ l, ¬ L l) → (∀ o, ¬ O o) → found_in L O lp op (lp, op, false)) as Hsame.
  { intros L O HL HO. repeat split; cbn [fst snd]; auto.
    - intros l Hl. by destruct (HL l).
    - intros o Ho. by destruct (HO o). }
  destruct x as [fl ty name ref|o e|o l r|p i|kind cs]; cbn [find_local_visit].
  - exists lp, op. split; [done|]. apply Hsame.
    + by intros l (_ & i & ?).
    + by intros o [(_ & e & ?)|(_ & l & r & ?)].
  - destruct (decide (o = OP_NOT)) as [->|Ho].
    + rewrite bool_decide_eq_true_2 by done. cbn [andb].
      destruct op as [o0|].
      * rewrite bool_decide_eq_false_2 by done. exists lp, (Some o0). split; [done|].
        repeat split; cbn [fst snd]; auto. by intros l (_ & i & ?).
      * rewrite bool_decide_eq_true_2 by done. exists lp, (Some OP_NOT). split; [done|].
        repeat split; cbn [fst snd]; auto.
        -- intros o [= <-]. right. left. eauto.
        -- by intros l (_ & i & ?).
    + rewrite (bool_decide_eq_false_2 _ Ho). cbn [andb].
      exists lp, op. split; [done|]. apply Hsame.
      * by intros l (_ & i & ?).
      * intros o' [(_ & e' & [= -> _])|(_ & l & r & ?)]; done.
  - destruct (decide (o = OP_LOR)) as [->|Ho].
    + rewrite bool_decide_eq_true_2 by done. cbn [andb].
      destruct op as [o0|].
      * rewrite bool_decide_eq_false_2 by done. exists lp, (Some o0). split; [done|].
        repeat split; cbn [fst snd]; auto. by intros l0 (_ & i & ?).
      * rewrite bool_decide_eq_true_2 by done. exists lp, (Some OP_LOR). split; [done|].
        repeat split; cbn [fst snd]; auto.
        -- intros o [= <-]. right. right. eauto.
        -- by intros l0 (_ & i & ?).
    + rewrite (bool_decide_eq_false_2 _ Ho). cbn [andb].
      exists lp, op. split; [done|]. apply Hsame.
      * by intros l0 (_ & i & ?).
      * intros o' [(_ & e' & ?)|(_ & l' & r' & [= -> _ _])]; done.
  - cbn [locals_in] in Hin. apply andb_true_iff in Hin as [[n Hn]%bool_decide_eq_true_1 _].
    rewrite Hn. cbn [mbind option_bind].
    assert (∀ o, ¬ visit_op (ELocal p i) o) as HO
      by (by intros o [(_ & e & ?)|(_ & l & r & ?)]).
    destruct (nodekind_isvar (l_kind n) && bool_decide (lp = None)
              && has_flag (l_flags n) NF_NARROWED) eqn:E.
    + apply andb_true_iff in E as [[Hvar ->%bool_decide_eq_true_1]%andb_true_iff Hnar].
      exists (Some p), op. split; [done|].
      repeat split; cbn [fst snd]; auto.
      * intros l [= <-]. right. split; [by exists n|eauto].
      * intros o Ho. by destruct (HO o).
    + exists lp, op. split; [done|].
      repeat split; cbn [fst snd]; auto.
      * intros l ((n' & Hn' & Hvar & Hnar) & i' & [= <- _]).
        assert (n' = n) as -> by congruence. rewrite Hvar, Hnar in E.
        destruct lp; [done|]. by rewrite bool_decide_eq_true_2 in E.
      * intros o Ho. by destruct (HO o).
  - exists lp, op. split; [done|]. apply Hsame.
    + by intros l (_ & i & ?).
    + by intros o [(_ & e & ?)|(_ & l & r & ?)].
Qed.

Lemma find_local_children_ok (h : gmap ptr local_t) (cs : list expr) :
  Forall (λ c, ∀ lp op, ∃ r, type_narrow_error_find_local h c lp op = Some r
                 ∧ found_in (narrowed_var_in h c) (λ o, op_in o c) lp op r) cs →
  ∀ lp op, ∃ r,
    find_local_children (type_narrow_error_find_local h) cs lp op = Some r
    ∧ found_in (λ l, ∃ c, c ∈ cs ∧ narrowed_var_in h c l)
               (λ o, ∃ c, c ∈ cs ∧ op_in o c) lp op r.
Proof.
  induction 1 as [|c cs Hc _ IH]; intros lp op; cbn [find_local_children].
  - exists (lp, op, false). split; [done|]. repeat split; cbn [fst snd]; auto.
    + intros l (c & Hc%elem_of_nil & _). done.
    + intros o (c & Hc%elem_of_nil & _). done.
  - destruct (Hc lp op) as ([[lp1 op1] found] & -> & Hr). cbn [mbind option_bind].
    destruct found.
    + exists (lp1, op1, true). split; [done|].
      eapply found_in_ext; [| |apply found_in_stop, Hr].
      * intros l. instantiate (1 := λ l, ∃ c', c' ∈ cs ∧ narrowed_var_in h c' l). cbn. split.
        -- intros [H|(c' & Hc' & H)]; [exists c|exists c'];
             (split; [|done]); [apply list_elem_of_here|by apply list_elem_of_further].
        -- intros (c' & [->|Hc']%elem_of_cons & H); [by left|right; eauto].
      * intros o. instantiate (1 := λ o, ∃ c', c' ∈ cs ∧ op_in o c'). cbn. split.
        -- intros [H|(c' & Hc' & H)]; [exists c|exists c'];
             (split; [|done]); [apply list_elem_of_here|by apply list_elem_of_further].
        -- intros (c' & [->|Hc']%elem_of_cons & H); [by left|right; eauto].
    + destruct (IH lp1 op1) as (r & -> & Hr'). exists r. split; [done|].
      eapply found_in_ext; [| |apply (found_in_seq _ _ _ _ _ _ _ _ _ Hr Hr')].
      * intros l. cbn. split.
        -- intros [H|(c' & Hc' & H)]; [exists c|exists c'];
             (split; [|done]); [apply list_elem_of_here|by apply list_elem_of_further].
        -- intros (c' & [->|Hc']%elem_of_cons & H); [by left|right; eauto].
      * intros o. cbn. split.
        -- intros [H|(c' & Hc' & H)]; [exists c|exists c'];
             (split; [|done]); [apply list_elem_of_here|by apply list_elem_of_further].
        -- intros (c' & [->|Hc']%elem_of_cons & H); [by left|right; eauto].
Qed.

Lemma type_narrow_error_find_local_ok (h : gmap ptr local_t) (x : expr) :
  locals_in h x = true →
  ∀ lp op, ∃ r, type_narrow_error_find_local h x lp op = Some r
                ∧ found_in (narrowed_var_in h x) (λ o, op_in o x) lp op r.
Proof.
  induction x as [x IH] using expr_children_ind. intros Hin lp op.
  rewrite find_local_unfold.
  destruct (find_local_visit_ok h x lp op Hin) as (lp1 & op1 & -> & Hv).
  cbn [mbind option_bind].
  assert (∀ l, visit_local h x l ∨ (∃ c, c ∈ expr_children x ∧ narrowed_var_in h c l)
               ↔ narrowed_var_in h x l) as HL.
  { intros l. unfold narrowed_var_in, visit_local. split.
    - intros [(Hl & i & ->)|(c & Hc & Hl & i & Hi)]; (split; [done|]); exists i;
        [constructor|]. apply subexpr_children. right. eauto.
    - intros (Hl & i & [<-|(c & Hc & Hi)]%subexpr_children); [left; eauto|].
      right. exists c. eauto. }
  assert (∀ o, visit_op x o ∨ (∃ c, c ∈ expr_children x ∧ op_in o c) ↔ op_in o x) as HO.
  { intros o. unfold op_in, visit_op. split.
    - intros [[(-> & e & ->)|(-> & l & r & ->)]|(c & Hc & [(-> & e & He)|(-> & l & r & He)])].
      + left. split; [done|]. exists e. constructor.
      + right. split; [done|]. exists l, r. constructor.
      + left. split; [done|]. exists e. apply subexpr_children. right. eauto.
      + right. split; [done|]. exists l, r. apply subexpr_children. right. eauto.
    - intros [(-> & e & [<-|(c & Hc & He)]%subexpr_children)
             |(-> & l & r & [<-|(c & Hc & He)]%subexpr_children)].
      + left. left. eauto.
      + right. exists c. split; [done|]. left. eauto.
      + left. right. eauto.
      + right. exists c. split; [done|]. right. eauto. }
  destruct (both_found lp1 op1) eqn:Eboth.
  - exists (lp1, op1, true). split; [done|].
    apply andb_true_iff in Eboth as [H1%bool_decide_eq_true_1 H2%bool_decide_eq_true_1].
    destruct Hv as (S1 & S2 & M1 & M2 & _). cbn [fst snd] in *.
    repeat split; cbn [fst snd]; auto.
    + intros l Hl. destruct (S1 l Hl); [by left|right]. apply HL. by left.
    + intros o Ho. destruct (S2 o Ho); [by left|right]. apply HO. by left.
    + by destruct lp1.
    + by destruct op1.
  - destruct (find_local_children_ok h (expr_children x)) with (lp := lp1) (op := op1)
      as (r & -> & Hr).
    { pose proof (locals_in_children h x Hin) as Hcs.
      rewrite Forall_forall in IH, Hcs. apply Forall_forall. intros c Hc. auto. }
    exists r. split; [done|].
    eapply found_in_ext; [apply HL|apply HO|apply (found_in_seq _ _ _ _ _ _ _ _ _ Hv Hr)].
Qed.

(** [type_narrow_error_localdef_mix] finds a narrowed local definition
    and a complex operator to name whenever the condition has both. *)
Lemma type_narrow_error_localdef_mix_ok (s : narrow_t) (cond : expr) l0 o0 :
  locals_in (n_heap s) cond = true →
  narrowed_var_in (n_heap s) cond l0 → op_in o0 cond →
  ∃ l n o, type_narrow_error_localdef_mix s cond
           = Some (n_report_diag s (localdef_mix_diag (l_kind n) o))
           ∧ n_heap s !! l = Some n
           ∧ narrowed_var_in (n_heap s) cond l ∧ op_in o cond.
Proof.
  intros Hin Hl0 Ho0. unfold type_narrow_error_localdef_mix.
  destruct (type_narrow_error_find_local_ok (n_heap s) cond Hin None None)
    as ([[lp op] found] & -> & S1 & S2 & _ & _ & C).
  cbn [fst snd mbind option_bind] in *.
  assert (is_Some lp ∧ is_Some op) as [[l ->] [o ->]].
  { destruct found; [done|]. destruct C as [C1 C2]. split; eauto. }
  destruct (S1 l eq_refl) as [|Hl]; [done|].
  destruct (S2 o eq_refl) as [|Ho]; [done|].
  destruct Hl as [(n & Hn & Hvar & Hnar) Hsub].
  exists l, n, o. cbn [mbind option_bind]. rewrite Hn. cbn [mbind option_bind].
  repeat split; auto. by exists n.
Qed.

(** The only error the loop of [type_narrow_cond] reports. *)
Definition cannot_assign_fmt : string :=
  "cannot assign value of type %s to %s of type %s".

Definition only_cannot_assign (s s' : narrow_t) : Prop :=
  ∀ d, d ∈ n_diags s' → d ∈ n_diags s ∨ diag_fmt d = cannot_assign_fmt.

Lemma narrow_entry_diags fuel s elsedefs p s' elsedefs' ok :
  narrow_entry fuel s elsedefs p = Some (s', elsedefs', ok) → only_cannot_assign s s'.
Proof.
  unfold narrow_entry, only_cannot_assign. intros H d.
  destruct (n_heap s !! p) as [n|]; [|discriminate H]. cbn [mbind option_bind] in H.
  destruct (has_flag (l_flags n) NF_NARROWED); cbn [negb] in H;
    [|injection H as <- <- <-; auto].
  match type of H with (?o ≫= _) = _ => destruct o as [ok1|] end; [|discriminate H].
  cbn [mbind option_bind] in H.
  match type of H with (?o ≫= _) = _ => destruct o as [ok2|] end; [|discriminate H].
  cbn [mbind option_bind] in H.
  match type of H with (?o ≫= _) = _ => destruct o as [[[[s1 e1] t1] ok3]|] eqn:E end;
    [|discriminate H].
  cbn [mbind option_bind] in H.
  assert (∀ d, d ∈ n_diags s1 → d ∈ n_diags s ∨ diag_fmt d = cannot_assign_fmt) as H1.
  { clear H. intros d0.
    destruct (has_flag (l_flags n) NF_MARK2).
    - destruct (bool_decide _); [injection E as <- <- <- <-; auto|].
      destruct (negb _).
      + destruct (type_isassignable _ _ _ _) as [[|]|]; cbn [mbind option_bind] in E;
          [injection E as <- <- <- <-; auto| |discriminate E].
        injection E as <- <- <- <-. cbn.
        intros [Hd|Hd%list_elem_of_singleton]%elem_of_app; [by left|right]. by subst.
      + injection E as <- <- <- <-; auto.
    - destruct elsedefs as [defs|]; [|injection E as <- <- <- <-; auto].
      unfold ast_clone_node in E. cbn [n_ast_ma n_set_heap] in E.
      destruct (mem_alloc (n_ast_ma s)); injection E as <- <- <- <-; auto. }
  destruct ok3; cbn [negb] in H; [|injection H as <- <- <-; auto].
  match type of H with (?o ≫= _) = _ => destruct o as [n1|] end; [|discriminate H].
  cbn [mbind option_bind] in H. injection H as <- <- <-. auto.
Qed.

Lemma narrow_entries_diags fuel (slots : list slot) : ∀ s elsedefs s' elsedefs' ok,
  narrow_entries fuel s elsedefs slots = Some (s', elsedefs', ok) → only_cannot_assign s s'.
Proof.
  induction slots as [slots IH] using (induction_ltof1 _ (@length slot)).
  unfold ltof in IH. intros s elsedefs s' elsedefs' ok H.
  destruct slots as [|[b|q|name] [|[b'|p|name'] rest]]; try discriminate H.
  - injection H as <- <- <-. by intros d; left.
  - cbn [narrow_entries] in H.
    destruct (narrow_entry fuel s elsedefs p) as [[[s1 e1] ok1]|] eqn:E; [|discriminate H].
    cbn [mbind option_bind] in H. apply narrow_entry_diags in E.
    destruct ok1; cbn [negb] in H; [|by injection H as <- <- <-].
    apply IH in H; [|cbn; lia].
    intros d Hd. destruct (H d Hd) as [Hd1|]; [|by right]. by apply E.
Qed.

(** C6. Let the walk of the narrower over a condition complete (not stop
    for lack of memory).  If the walk has met both a complex operator
    ([!] or [||]) and a narrowing local definition ([let] or [var]), the
    narrower returns failure and reports one error, "cannot use
    type-narrowing %s definition with '%s' operation", that names the kind
    of a narrowed [let] or [var] of the condition and a [!] or [||] of
    the condition.  If it has met only one of the two, or none, the
    narrower reports no such error: whatever it reports is a "cannot
    assign value" error. *)
Theorem type_narrow_cond_localdef_mix (fuel : nat) (s : narrow_t)
    (elsedefs : option (list ptr)) (cond : expr)
    (s1 : narrow_t) (f : Z) (cond1 : expr) :
  heap_fresh s →
  locals_in (n_heap s) cond = true →
  type_narrow_cond1 s 0 cond = Some (s1, f, cond1, true) →
  if complex_op_on_path cond && localdef_on_path (n_heap s) cond
  then ∃ l n o,
         type_narrow_cond fuel s elsedefs cond
         = Some (n_report_diag s1 (localdef_mix_diag (l_kind n) o), elsedefs, cond1, false)
         ∧ n_diags s1 = n_diags s
         ∧ n_heap s1 !! l = Some n
         ∧ narrowed_var_in (n_heap s1) cond1 l ∧ op_in o cond1
  else ∀ s2 elsedefs2 cond2 ok,
         type_narrow_cond fuel s elsedefs cond = Some (s2, elsedefs2, cond2, ok) →
         only_cannot_assign s s2.
Proof.
  intros Hfresh Hin Hw.
  destruct (type_narrow_cond1_observes _ _ _ _ _ _ Hw Hfresh Hin)
    as (Hf & (Hfresh1 & Hd & Hh) & Hloc & Hop & Hdef).
  unfold type_narrow_cond. rewrite Hw. cbn [mbind option_bind negb].
  rewrite Hf, observed_3.
  destruct (complex_op_on_path cond && localdef_on_path (n_heap s) cond) eqn:Eboth.
  - apply andb_true_iff in Eboth as [Hc Hl].
    destruct (Hop Hc) as [o0 Ho0]. destruct (Hdef Hl) as (l0 & i0 & Hsub & Hl0).
    destruct (type_narrow_error_localdef_mix_ok s1 cond1 l0 o0)
      as (l & n & o & -> & Hn & Hlin & Hoin); auto.
    { rewrite Hloc. apply (locals_in_mono (n_heap s)); [|exact Hin].
      intros q [n Hq]. destruct (Hh q n Hq) as (n' & -> & _). eauto. }
    { split; eauto. }
    exists l, n, o. split; [reflexivity|]. split; [exact Hd|]. split; [exact Hn|].
    split; [exact Hlin|exact Hoin].
  - intros s2 e2 c2 ok H.
    match type of H with (match ?r with _ => _ end) = _ => destruct r as [m|] end.
    2:{ injection H as <- <- <- <-. intros d. rewrite Hd. auto. }
    match type of H with (?o ≫= _) = _ => destruct o as [[[s3 e3] ok3]|] eqn:E end;
      [|discriminate H].
    cbn [mbind option_bind] in H. injection H as <- <- <- <-.
    apply narrow_entries_diags in E. intros d Hd'. destruct (E d Hd') as [Hd1|]; [|by right].
    left. cbn in Hd1. by rewrite <- Hd.
Qed.

(** Scenario S6 of the spec, [if let x = a || !a], read as
    [(let x = a) || !a]: the [let] at address 70. *)
Definition let_x : local_t :=
  Local EXPR_LET NF_CHECKED opt_int "x" (Some (Init (Some opt_int))) false false 0.
Definition narrow_let0 : narrow_t :=
  {| n_compiler := compiler64;
     n_heap := <[70%positive := let_x]> (<[50%positive := param_a]> ∅);
     n_scope := scope_define (scope_push (Scope [] 0%nat)) "a" 50%positive;
     n_ma := 8%nat; n_ast_ma := 8%nat; n_ast_next := 1000%positive;
     n_diags := [] |}.
Definition cond_S6 : expr :=
  EBinop OP_LOR (ELocal 70%positive (Some id_a)) (EPrefixop OP_NOT id_a).

Lemma type_narrow_cond_localdef_mix_witness :
  ∃ s1 cond1 l n o,
    type_narrow_cond 0 (enter_scope narrow_let0) (Some []) cond_S6
    = Some (n_report_diag s1 (localdef_mix_diag (l_kind n) o), Some [], cond1, false)
    ∧ n_diags s1 = n_diags (enter_scope narrow_let0)
    ∧ n_heap s1 !! l = Some n
    ∧ narrowed_var_in (n_heap s1) cond1 l ∧ op_in o cond1.
Proof.
  eexists _, _.
  refine (type_narrow_cond_localdef_mix 0 (enter_scope narrow_let0) (Some []) cond_S6
            _ _ _ _ _ _).
  - unfold heap_fresh. apply (bool_decide_unpack _). vm_compute. exact I.
  - reflexivity.
  - vm_compute. reflexivity.
Defined.

Example narrow_S6 :
  (λ r, (map diag_msg (n_diags r.1.1.1), r.2))
    <$> type_narrow_cond 0 (enter_scope narrow_let0) (Some []) cond_S6
  = Some (["cannot use type-narrowing let definition with '||' operation"], false).
Proof. vm_compute. reflexivity. Qed.

(** ** Name resolution *)

Definition set_scope (a : typecheck_t) (sc : scope_t) : typecheck_t :=
  {| compiler := compiler a; mainfun := mainfun a; ma := ma a; ast_ma := ast_ma a;
     ast_next := ast_next a; err := err a; typectx := typectx a;
     typectxstack := typectxstack a; postanalyze := postanalyze a;
     typeidmap := typeidmap a; reported_error := reported_error a; diags := diags a;
     scope := sc; pkg_defs := pkg_defs a; didyoumean := didyoumean a; nodes := nodes a;
     templateimap := templateimap a; templatenest := templatenest a |}.

Definition set_nodes (a : typecheck_t) (ns : gmap ptr node_t) : typecheck_t :=
  {| compiler := compiler a; mainfun := mainfun a; ma := ma a; ast_ma := ast_ma a;
     ast_next := ast_next a; err := err a; typectx := typectx a;
     typectxstack := typectxstack a; postanalyze := postanalyze a;
     typeidmap := typeidmap a; reported_error := reported_error a; diags := diags a;
     scope := scope a; pkg_defs := pkg_defs a; didyoumean := didyoumean a; nodes := ns;
     templateimap := templateimap a; templatenest := templatenest a |}.

Definition set_templateimap (a : typecheck_t) (m : gmap (ptr * string) ptr) : typecheck_t :=
  {| compiler := compiler a; mainfun := mainfun a; ma := ma a; ast_ma := ast_ma a;
     ast_next := ast_next a; err := err a; typectx := typectx a;
     typectxstack := typectxstack a; postanalyze := postanalyze a;
     typeidmap := typeidmap a; reported_error := reported_error a; diags := diags a;
     scope := scope a; pkg_defs := pkg_defs a; didyoumean := didyoumean a;
     nodes := nodes a; templateimap := m; templatenest := templatenest a |}.

Definition set_templatenest (a : typecheck_t) (k : Z) : typecheck_t :=
  {| compiler := compiler a; mainfun := mainfun a; ma := ma a; ast_ma := ast_ma a;
     ast_next := ast_next a; err := err a; typectx := typectx a;
     typectxstack := typectxstack a; postanalyze := postanalyze a;
     typeidmap := typeidmap a; reported_error := reported_error a; diags := diags a;
     scope := scope a; pkg_defs := pkg_defs a; didyoumean := didyoumean a;
     nodes := nodes a; templateimap := templateimap a; templatenest := k |}.


Definition u32 (x : Z) : Z := x mod 2 ^ 32.

(** [incuse]: the use count of the node, and of what an identifier refers
    to. *)
Fixpoint incuse (fuel : nat) (ns : gmap ptr node_t) (p : ptr) : option (gmap ptr node_t) :=
  match fuel with
  | O => None
  | S fuel =>
      n ← ns !! p;
      let h := node_hdr n in
      let ns := <[p := node_set_hdr n (hdr_set_nuse h (u32 (nd_nuse h + 1)))]> ns in
      match n with
      | NId _ _ _ (Some r) =>
          if bool_decide (nd_kind h = EXPR_ID) then incuse fuel ns r else Some ns
      | _ => Some ns
      end
  end.

(** [node_upgrade_visibility] ([compiler.h]) *)
Definition node_upgrade_visibility (n : node_t) (minvis : nodeflag_t) : node_t :=
  let h := node_hdr n in
  if (Z.land (nd_flags h) NF_VIS_MASK <? minvis)%Z
  then node_set_hdr n
         (hdr_set_flags h (Z.lor (Z.land (nd_flags h) (Z.lnot NF_VIS_MASK)) minvis))
  else n.

(** [sym__], the name that names nothing ([compiler.h]). *)
Definition sym__ : sym_t := "_".

(** Modelled from the spec: [pkg_def_get]; the package is an external
    collaborator, its definitions are a map from names to nodes. *)
Definition pkg_def_get (a : typecheck_t) (name : sym_t) : option ptr := pkg_defs a !! name.

(** [lookup].  The result is [None] when the C code follows a pointer that
    is not a node of the store (or the model runs out of fuel); otherwise
    the state and the node found, [None] for [NULL]. *)
Definition lookup (fuel : nat) (a : typecheck_t) (name : sym_t)
    : option (typecheck_t * option ptr) :=
  if String.eqb name sym__ then None else   (* assert(name != sym__) *)
  match scope_lookup (scope a) name U32_MAX with
  | Some p =>
      ns ← incuse fuel (nodes a) p;
      Some (set_nodes a ns, Some p)
  | None =>
      match pkg_def_get a name with
      | None => Some (a, None)
      | Some p =>
          n ← nodes a !! p;
          (* mark the node as being used across translations units *)
          ns ← incuse fuel (<[p := node_upgrade_visibility n NF_VIS_PKG]> (nodes a)) p;
          Some (set_nodes a ns, Some p)
      end
  end.

(** [scope_define(&a->scope, a->ma, name, n)] followed by [out_of_mem] when
    it fails. *)
Definition define_or_oom (a : typecheck_t) (name : sym_t) (p : ptr) : typecheck_t :=
  match mem_alloc (ma a) with
  | Some m => set_scope (set_ma a m) (scope_define (scope a) name p)
  | None => out_of_mem a
  end.

Definition unknown_identifier_fmt : string := "unknown identifier " +:+ dq +:+ "%s" +:+ dq.
Definition did_you_mean_fmt : string := "did you mean " +:+ dq +:+ "%s" +:+ dq.
Definition unknown_type_fmt : string := "unknown type " +:+ dq +:+ "%s" +:+ dq.
Definition not_a_type_fmt : string := "%s is not a type (it's a %s)".

Section resolve.

(** The name of the closest definition in scope, when it is close enough
    to be suggested.  ([scope_iterate], the sorted set of candidates and
    [co_qsort] are not among the sources; the memory the search uses is
    given back before [unknown_identifier] returns.) *)
Variable fuzzy_suggestion : typecheck_t → sym_t → option sym_t.

(** The rest of [idexpr], for an identifier that has a reference. *)
Variable idexpr_resolved : typecheck_t → ptr → option typecheck_t.

(** [check_template], [check_typedep] and the cases of the [switch] of
    [_type] for the other kinds of types (given [type]). *)
Variable check_template : typecheck_t → ptr → option (typecheck_t * ptr).
Variable check_typedep : typecheck_t → ptr → bool.
Variable _type_switch :
  (typecheck_t → ptr → option (typecheck_t * ptr)) →
  typecheck_t → ptr → option (typecheck_t * ptr).

(** [unknown_identifier] *)
Definition unknown_identifier (a : typecheck_t) (name : sym_t) : typecheck_t :=
  let a := error a unknown_identifier_fmt [FmtStr name] in
  (* try to find an exact match in didyoumean *)
  let matches :=
    filter (λ dym, bool_decide (dym_name dym = name)
                   || bool_decide (dym_othername dym = Some name)) (didyoumean a) in
  let a := foldl (λ a dym, help a did_you_mean_fmt [FmtStr (dym_name dym)]) a matches in
  if (0 <? Z.of_nat (length matches))%Z then a else
  (* suggest fuzzy matches *)
  match fuzzy_suggestion a name with
  | Some nm => help a did_you_mean_fmt [FmtStr nm]
  | None => a
  end.

(** [idexpr], for the identifier at [p] *)
Definition idexpr (fuel : nat) (a : typecheck_t) (p : ptr) : option typecheck_t :=
  n ← nodes a !! p;
  match n with
  | NId h _ name ref =>
      if bool_decide (ref = None) || has_flag (nd_flags h) NF_UNKNOWN then
        '(a, r) ← lookup fuel a name;
        n ← nodes a !! p;
        match n with
        | NId h ty name _ =>
            let a := set_nodes a (<[p := NId h ty name r]> (nodes a)) in
            match r with
            | None => Some (unknown_identifier a name)
            | Some _ => idexpr_resolved a p
            end
        | _ => None
        end
      else idexpr_resolved a p
  | _ => None
  end.

(** [type], given [_type] *)
Definition type_with (_type : typecheck_t → ptr → option (typecheck_t * ptr))
    (a : typecheck_t) (p : ptr) : option (typecheck_t * ptr) :=
  if (p =? type_addr type_unknown)%positive then Some (a, p) else
  n ← nodes a !! p;
  if negb (has_flag (node_flags n) NF_CHECKED) then _type a p else Some (a, p).

(** [unresolvedtype], given [type]; the result is the state and [*tp]. *)
Definition unresolvedtype (type : typecheck_t → ptr → option (typecheck_t * ptr))
    (fuel : nat) (a : typecheck_t) (p : ptr) : option (typecheck_t * ptr) :=
  n ← nodes a !! p;
  match n with
  | NUnresolved h name (Some r) => Some (a, r)
  | NUnresolved h name None =>
      '(a, t) ← lookup fuel a name;
      tn ← match t with Some t => Some <$> nodes a !! t | None => Some None end;
      match t, tn with
      | Some t, Some tn =>
          if nodekind_istype (node_kind tn) then
            '(a, t) ← type a t;
            tn ← nodes a !! t;
            un ← nodes a !! p;
            (* t->nuse += tp->nuse *)
            let tn := node_set_hdr tn
                        (hdr_set_nuse (node_hdr tn)
                           (u32 (nd_nuse (node_hdr tn) + nd_nuse (node_hdr un)))) in
            let a := set_nodes a (<[t := tn]> (nodes a)) in
            (* tp->resolved = t *)
            un ← nodes a !! p;
            match un with
            | NUnresolved h name _ =>
                let a := set_nodes a (<[p := NUnresolved h name (Some t)]> (nodes a)) in
                tn ← nodes a !! t;
                match tn with
                | NAlias ah aname _ =>
                    if bool_decide (nd_kind ah = TYPE_ALIAS) && negb (check_typedep a t) then
                      (* break cycle to prevent stack overflow in type_isowner *)
                      Some (set_nodes a (<[t := NAlias ah aname (type_addr type_unknown)]>
                                           (nodes a)), t)
                    else Some (a, t)
                | _ => Some (a, t)
                end
            | _ => None
            end
          else
            (* not a type *)
            let a := error a not_a_type_fmt [FmtStr name; FmtKind (node_kind tn)] in
            let a := if negb (nd_line (node_hdr tn) =? 0)%Z
                     then help a "%s defined here" [FmtStr name] else a in
            Some (define_or_oom a name p, p)
      | _, _ =>
          (* not found *)
          let a := error a unknown_type_fmt [FmtStr name] in
          (* redefine as "void" in current scope to minimize repetitive errors *)
          Some (define_or_oom a name p, p)
      end
  | _ => None
  end.

(** [_type]: the mark, and the case of the [switch] for [TYPE_UNRESOLVED]. *)
Fixpoint _type (fuel : nat) (a : typecheck_t) (p : ptr) {struct fuel}
    : option (typecheck_t * ptr) :=
  match fuel with
  | O => None
  | S fuel =>
      t ← nodes a !! p;
      if has_flag (node_flags t) NF_CHECKED then Some (a, p) else
      let t := node_set_hdr t (hdr_set_flags (node_hdr t)
                                 (set_flag (node_flags t) NF_CHECKED)) in
      let a := set_nodes a (<[p := t]> (nodes a)) in
      '(a, p') ← (if has_flag (node_flags t) NF_TEMPLATE
                  then check_template (set_templatenest a (u32 (templatenest a + 1))) p
                  else Some (a, p));
      k ← node_kind <$> nodes a !! p';
      '(a, p') ← (if bool_decide (k = TYPE_UNRESOLVED)
                  then unresolvedtype (type_with (_type fuel)) fuel a p'
                  else _type_switch (type_with (_type fuel)) a p');
      (* note: must access local t here as *tp might have been updated *)
      t ← nodes a !! p;
      Some (set_templatenest a
              (u32 (templatenest a - (if has_flag (node_flags t) NF_TEMPLATE then 1 else 0))),
            p')
  end.

(** [type] *)
Definition type (fuel : nat) : typecheck_t → ptr → option (typecheck_t * ptr) :=
  type_with (_type fuel).

(** [exprp], for an identifier; [exprp_switch] is the rest of [exprp] for
    the other kinds of expressions.  ([a->pubnest] is not kept: it is
    restored after the call of [type].) *)
Variable exprp_switch : typecheck_t → ptr → option typecheck_t.

Definition exprp (fuel : nat) (a : typecheck_t) (p : ptr) : option typecheck_t :=
  n ← nodes a !! p;
  if has_flag (node_flags n) NF_CHECKED then Some a else
  let n := node_set_hdr n (hdr_set_flags (node_hdr n) (set_flag (node_flags n) NF_CHECKED)) in
  let a := set_nodes a (<[p := n]> (nodes a)) in
  if reported_error a then Some a else
  match n with
  | NId h ty name ref =>
      '(a, ty) ← type fuel a ty;
      n ← nodes a !! p;
      match n with
      | NId h _ name ref =>
          let a := set_nodes a (<[p := NId h ty name ref]> (nodes a)) in
          if bool_decide (nd_kind h = EXPR_ID) then idexpr fuel a p else exprp_switch a p
      | _ => None
      end
  | _ => exprp_switch a p
  end.

End resolve.

(** A name that nothing defines: neither the scopes nor the package. *)
Definition unresolved_name (a : typecheck_t) (name : sym_t) : Prop :=
  name ≠ sym__ ∧ scope_lookup (scope a) name U32_MAX = None ∧ pkg_def_get a name = None.

Definition is_help (d : diag_t) : Prop := diag_kind d = DIAG_HELP.

Lemma lookup_unresolved (fuel : nat) (a : typecheck_t) (name : sym_t) :
  unresolved_name a name → lookup fuel a name = Some (a, None).
Proof.
  intros (Hn & Hs & Hp). unfold lookup.
  by rewrite (proj2 (String.eqb_neq _ _) Hn), Hs, Hp.
Qed.

(** Computes with the nodes of the store. *)
Ltac node_simpl :=
  repeat progress
    (unfold node_flags, node_kind;
     repeat match goal with
            | |- context [?f <$> Some ?x] => change (f <$> Some x) with (Some (f x))
            end;
     cbv beta;
     cbn [node_hdr node_set_hdr hdr_set_flags hdr_set_nuse nd_kind nd_flags nd_nuse nd_line
          set_nodes nodes mbind option_bind negb]).

(** The diagnostics of [unresolvedtype] for a name that is not a type. *)
Definition not_a_type_diags (name : sym_t) (tn : node_t) : list diag_t :=
  Diag DIAG_ERR not_a_type_fmt [FmtStr name; FmtKind (node_kind tn)]
  :: (if (nd_line (node_hdr tn) =? 0)%Z then []
      else [Diag DIAG_HELP "%s defined here" [FmtStr name]]).

(** A node with another header, of the same kind. *)
Definition same_kind (n n' : node_t) : Prop :=
  ∃ h', n' = node_set_hdr n h' ∧ nd_kind h' = nd_kind (node_hdr n).

(** Stores with the same nodes, headers apart. *)
Definition same_kinds (ns ns' : gmap ptr node_t) : Prop :=
  ∀ q, option_Forall2 same_kind (ns !! q) (ns' !! q).

Lemma same_kind_refl (n : node_t) : same_kind n n.
Proof. exists (node_hdr n). by destruct n. Qed.

Lemma same_kinds_refl (ns : gmap ptr node_t) : same_kinds ns ns.
Proof.
  intros q. destruct (ns !! q); constructor. apply same_kind_refl.
Qed.

Lemma same_kinds_insert (ns ns' : gmap ptr node_t) (p : ptr) (n n' : node_t) :
  same_kinds ns ns' → same_kind n n' → same_kinds (<[p := n]> ns) (<[p := n']> ns').
Proof.
  intros H Hn q. destruct (decide (q = p)) as [->|Hne].
  - rewrite !lookup_insert_eq. by constructor.
  - rewrite !lookup_insert_ne by done. apply H.
Qed.

Lemma node_set_hdr_twice (n : node_t) (h h' : nhdr) :
  node_set_hdr (node_set_hdr n h) h' = node_set_hdr n h'.
Proof. by destruct n. Qed.

Lemma node_hdr_set (n : node_t) (h : nhdr) : node_hdr (node_set_hdr n h) = h.
Proof. by destruct n. Qed.

Lemma node_set_hdr_same (n : node_t) : node_set_hdr n (node_hdr n) = n.
Proof. by destruct n. Qed.

(** Whether the references from a node end does not depend on the
    headers' flags and counts. *)
Lemma incuse_same_kinds (fuel : nat) : ∀ (ns ns' : gmap ptr node_t) (p : ptr),
  same_kinds ns ns' → is_Some (incuse fuel ns p) → is_Some (incuse fuel ns' p).
Proof.
  induction fuel as [|fuel IH]; intros ns ns' p H [m Hm]; [discriminate Hm|].
  cbn [incuse] in *. pose proof (H p) as Hp.
  destruct (ns !! p) as [n|]; [|discriminate Hm].
  inversion Hp as [? n' (h' & -> & Hk) E1 E2|]. cbn [mbind option_bind] in *.
  rewrite node_hdr_set, node_set_hdr_twice.
  assert (same_kinds
            (<[p := node_set_hdr n (hdr_set_nuse (node_hdr n) (u32 (nd_nuse (node_hdr n) + 1)))]> ns)
            (<[p := node_set_hdr n (hdr_set_nuse h' (u32 (nd_nuse h' + 1)))]> ns')) as H'.
  { apply same_kinds_insert; [exact H|].
    exists (hdr_set_nuse h' (u32 (nd_nuse h' + 1))).
    rewrite node_set_hdr_twice, node_hdr_set. split; [done|]. exact Hk. }
  destruct n as [h ty nm [r|]| | | |]; cbn [node_set_hdr node_hdr] in *; try by eexists.
  rewrite Hk. destruct (bool_decide (nd_kind h = EXPR_ID)); [|by eexists].
  apply (IH _ _ r H'). by exists m.
Qed.

(** [incuse] changes use counts only. *)
Lemma incuse_nuse (fuel : nat) : ∀ (ns m : gmap ptr node_t) (p : ptr),
  incuse fuel ns p = Some m →
  ∀ q n, ns !! q = Some n →
    ∃ k, m !! q = Some (node_set_hdr n (hdr_set_nuse (node_hdr n) k)).
Proof.
  induction fuel as [|fuel IH]; intros ns m p Hm q n Hq; [discriminate Hm|].
  cbn [incuse] in Hm.
  destruct (ns !! p) as [np|] eqn:Ep; [|discriminate Hm]. cbn [mbind option_bind] in Hm.
  set (ns1 := <[p := _]> ns) in Hm.
  assert (∃ k, ns1 !! q = Some (node_set_hdr n (hdr_set_nuse (node_hdr n) k))) as [k Hk].
  { unfold ns1. destruct (decide (q = p)) as [->|Hne].
    - rewrite lookup_insert_eq. rewrite Ep in Hq. injection Hq as ->. by eexists.
    - rewrite lookup_insert_ne by done. exists (nd_nuse (node_hdr n)).
      rewrite Hq. f_equal. by destruct n as [[]| [] | [] | [] | []]. }
  assert (∀ m', Some ns1 = Some m' →
                ∃ k, m' !! q = Some (node_set_hdr n (hdr_set_nuse (node_hdr n) k))) as Hdone.
  { intros m' [= <-]. by exists k. }
  destruct np as [h ty nm [r|]| | | |]; try (by apply Hdone).
  destruct (bool_decide (nd_kind (node_hdr (NId h ty nm (Some r))) = EXPR_ID));
    [|by apply Hdone].
  destruct (IH _ _ _ Hm q _ Hk) as [k' Hk']. exists k'. rewrite Hk'. f_equal.
  rewrite node_set_hdr_twice, node_hdr_set. by destruct n.
Qed.

Lemma incuse_mono (fuel : nat) : ∀ (fuel' : nat) (ns m : gmap ptr node_t) (p : ptr),
  incuse fuel ns p = Some m → (fuel ≤ fuel')%nat → incuse fuel' ns p = Some m.
Proof.
  induction fuel as [|fuel IH]; intros fuel' ns m p Hm Hle; [discriminate Hm|].
  destruct fuel' as [|fuel']; [lia|]. cbn [incuse] in *.
  destruct (ns !! p) as [n|]; [|discriminate Hm]. cbn [mbind option_bind] in *.
  destruct n as [h ty nm [r|]| | | |]; try exact Hm.
  destruct (bool_decide _); [|exact Hm]. apply IH; [exact Hm|lia].
Qed.

(** A name that is defined, in a scope or else in the package, as the
    node [tn] at [t], which is not a type. *)
Definition names_no_type (a : typecheck_t) (name : sym_t) (t : ptr) (tn : node_t) : Prop :=
  name ≠ sym__
  ∧ (scope_lookup (scope a) name U32_MAX = Some t
     ∨ (scope_lookup (scope a) name U32_MAX = None ∧ pkg_def_get a name = Some t))
  ∧ nodes a !! t = Some tn
  ∧ nodekind_istype (node_kind tn) = false.

(** [lookup] of a name that is defined: the node is found; the nodes are
    the ones before, use counts apart, and for the node found its
    visibility. *)
Lemma lookup_defined (fuel n : nat) (a : typecheck_t) (name : sym_t) (t : ptr) (tn : node_t) :
  name ≠ sym__ →
  (scope_lookup (scope a) name U32_MAX = Some t
   ∨ (scope_lookup (scope a) name U32_MAX = None ∧ pkg_def_get a name = Some t)) →
  nodes a !! t = Some tn →
  is_Some (incuse n (nodes a) t) → (n ≤ fuel)%nat →
  ∃ ns, lookup fuel a name = Some (set_nodes a ns, Some t)
        ∧ ∀ q nq, nodes a !! q = Some nq →
            ∃ h', ns !! q = Some (node_set_hdr nq h')
                  ∧ nd_kind h' = nd_kind (node_hdr nq)
                  ∧ nd_line h' = nd_line (node_hdr nq)
                  ∧ (q ≠ t → nd_flags h' = nd_flags (node_hdr nq)).
Proof.
  intros Hsym Hfound Ht Hinc Hle. unfold lookup.
  rewrite (proj2 (String.eqb_neq _ _) Hsym).
  destruct Hfound as [Hs|[Hs Hp]]; rewrite Hs.
  - destruct Hinc as [m Hm]. apply incuse_mono with (fuel' := fuel) in Hm; [|exact Hle].
    rewrite Hm. cbn [mbind option_bind]. exists m. split; [done|].
    intros q nq Hq. destruct (incuse_nuse _ _ _ _ Hm q nq Hq) as [k Hk].
    eexists. split; [exact Hk|]. by destruct nq as [[]| [] | [] | [] | []].
  - rewrite Hp, Ht. cbn [mbind option_bind].
    set (ns1 := <[t := node_upgrade_visibility tn NF_VIS_PKG]> (nodes a)).
    assert (same_kind tn (node_upgrade_visibility tn NF_VIS_PKG)) as Hup.
    { unfold node_upgrade_visibility. destruct (_ <? _)%Z; [|apply same_kind_refl].
      eexists. split; [reflexivity|]. reflexivity. }
    assert (is_Some (incuse fuel ns1 t)) as [m Hm].
    { apply incuse_same_kinds with (nodes a).
      - intros q. unfold ns1. destruct (decide (q = t)) as [->|Hne].
        + rewrite lookup_insert_eq, Ht. by constructor.
        + rewrite lookup_insert_ne by done. apply same_kinds_refl.
      - destruct Hinc as [m Hm]. exists m. by apply incuse_mono with n. }
    rewrite Hm. cbn [mbind option_bind]. exists m. split; [done|].
    intros q nq Hq. destruct (decide (q = t)) as [->|Hne].
    + rewrite Ht in Hq. injection Hq as <-.
      destruct (incuse_nuse _ _ _ _ Hm t (node_upgrade_visibility tn NF_VIS_PKG)) as [k Hk].
      { unfold ns1. apply lookup_insert_eq. }
      rewrite Hk. unfold node_upgrade_visibility.
      destruct (_ <? _)%Z; rewrite ?node_set_hdr_twice, ?node_hdr_set;
        (eexists; split; [reflexivity|]); by destruct tn as [[]| [] | [] | [] | []].
    + destruct (incuse_nuse _ _ _ _ Hm q nq) as [k Hk].
      { unfold ns1. by rewrite lookup_insert_ne. }
      eexists. split; [exact Hk|]. by destruct nq as [[]| [] | [] | [] | []].
Qed.

Section resolve_facts.
Context (fuzzy_suggestion : typecheck_t → sym_t → option sym_t)
        (idexpr_resolved : typecheck_t → ptr → option typecheck_t)
        (check_template : typecheck_t → ptr → option (typecheck_t * ptr))
        (check_typedep : typecheck_t → ptr → bool)
        (_type_switch : (typecheck_t → ptr → option (typecheck_t * ptr)) →
                        typecheck_t → ptr → option (typecheck_t * ptr))
        (exprp_switch : typecheck_t → ptr → option typecheck_t).

Lemma help_matches (fmt : string) (f : didyoumean_t → list fmtarg)
    (matches : list didyoumean_t) : ∀ a : typecheck_t,
  let a' := foldl (λ a dym, help a fmt (f dym)) a matches in
  (∃ helps, diags a' = diags a ++ helps ∧ Forall is_help helps)
  ∧ reported_error a' = reported_error a ∧ scope a' = scope a ∧ nodes a' = nodes a.
Proof.
  induction matches as [|dym matches IH]; intros a; cbn [foldl].
  - split; [|done]. exists []. by rewrite app_nil_r.
  - destruct (IH (help a fmt (f dym))) as ((helps & Hd & Hh) & Hr & Hs & Hn).
    split; [|by rewrite Hr, Hs, Hn].
    exists (Diag DIAG_HELP fmt (f dym) :: helps). rewrite Hd. cbn.
    split; [by rewrite <- app_assoc|]. by constructor.
Qed.

Lemma unknown_identifier_spec (a : typecheck_t) (name : sym_t) :
  let a' := unknown_identifier fuzzy_suggestion a name in
  (∃ helps, diags a' = diags a ++ Diag DIAG_ERR unknown_identifier_fmt [FmtStr name] :: helps
            ∧ Forall is_help helps)
  ∧ reported_error a' = true ∧ scope a' = scope a ∧ nodes a' = nodes a.
Proof.
  intros a'. unfold unknown_identifier in a'.
  set (a0 := error a unknown_identifier_fmt [FmtStr name]) in a'.
  set (matches := filter _ (didyoumean a0)) in a'.
  destruct (help_matches did_you_mean_fmt (λ dym, [FmtStr (dym_name dym)]) matches a0)
    as ((helps & Hd & Hh) & Hr & Hs & Hn).
  set (a1 := foldl _ a0 matches) in *.
  assert (diags a0 = diags a ++ [Diag DIAG_ERR unknown_identifier_fmt [FmtStr name]]) as Hd0
    by reflexivity.
  rewrite Hd0, <- app_assoc in Hd. cbn [app] in Hd.
  assert ((∃ helps, diags a1 = diags a
                      ++ Diag DIAG_ERR unknown_identifier_fmt [FmtStr name] :: helps
                    ∧ Forall is_help helps)
          ∧ reported_error a1 = true ∧ scope a1 = scope a ∧ nodes a1 = nodes a) as H1.
  { split; [by exists helps|]. by rewrite Hr, Hs, Hn. }
  unfold a'. destruct (0 <? Z.of_nat (length matches))%Z; [exact H1|].
  destruct (fuzzy_suggestion a1 name) as [nm|]; [|exact H1].
  destruct H1 as (_ & Hr1 & Hs1 & Hn1).
  split; [|by unfold help, diag, set_diags; cbn [reported_error scope nodes]].
  exists (helps ++ [Diag DIAG_HELP did_you_mean_fmt [FmtStr nm]]).
  unfold help, diag, set_diags; cbn [diags]. rewrite Hd. split; [by rewrite <- app_assoc|].
  apply Forall_app. split; [done|]. by constructor.
Qed.


#[local] Abbreviation exprp' := (exprp fuzzy_suggestion idexpr_resolved check_template check_typedep
                      _type_switch exprp_switch).
#[local] Abbreviation type' := (type check_template check_typedep _type_switch).

(** An unknown identifier is reported, and defined nowhere. *)
Lemma exprp_unknown_identifier (fuel : nat) (a : typecheck_t) (p : ptr)
    (h : nhdr) (name : sym_t) :
  nodes a !! p = Some (NId h (type_addr type_unknown) name None) →
  nd_kind h = EXPR_ID →
  has_flag (nd_flags h) NF_CHECKED = false →
  reported_error a = false →
  unresolved_name a name →
  ∃ a1 helps,
    exprp' fuel a p = Some a1
    ∧ diags a1 = diags a ++ Diag DIAG_ERR unknown_identifier_fmt [FmtStr name] :: helps
    ∧ Forall is_help helps
    ∧ reported_error a1 = true
    ∧ scope a1 = scope a.
Proof.
  intros Hp Hk Hc Hr Hname. unfold exprp. rewrite Hp. cbn [mbind option_bind].
  unfold node_flags. cbn [node_hdr node_set_hdr]. rewrite Hc.
  cbn [set_nodes reported_error]. rewrite Hr.
  unfold type, type_with. rewrite Pos.eqb_refl. cbn [mbind option_bind].
  cbn [set_nodes nodes]. rewrite lookup_insert_eq. cbn [mbind option_bind].
  cbn [hdr_set_flags nd_kind]. rewrite (bool_decide_eq_true_2 _ Hk).
  unfold idexpr. cbn [set_nodes nodes]. rewrite lookup_insert_eq. cbn [mbind option_bind].
  rewrite bool_decide_eq_true_2 by done. cbn [orb].
  rewrite lookup_unresolved by exact Hname. cbn [mbind option_bind nodes set_nodes].
  rewrite lookup_insert_eq. cbn [mbind option_bind].
  match goal with |- context [unknown_identifier _ ?a0 _] =>
    destruct (unknown_identifier_spec a0 name) as ((helps & Hd & Hh) & Hr' & Hs & _)
  end.
  eexists _, helps. split; [reflexivity|]. by rewrite Hd, Hr', Hs.
Qed.

(** Once an error was reported, [exprp] checks no expression. *)
Lemma exprp_after_error (fuel : nat) (a : typecheck_t) (p : ptr) :
  reported_error a = true → is_Some (nodes a !! p) →
  ∃ a', exprp' fuel a p = Some a' ∧ diags a' = diags a ∧ scope a' = scope a
        ∧ reported_error a' = true.
Proof.
  intros Hr [n Hn]. unfold exprp. rewrite Hn. cbn [mbind option_bind].
  destruct (has_flag (node_flags n) NF_CHECKED); [by exists a|].
  unfold node_flags.
  cbn [set_nodes reported_error]. rewrite Hr. by eexists.
Qed.


Lemma _type_S (fuel : nat) (a : typecheck_t) (p : ptr) :
  _type check_template check_typedep _type_switch (S fuel) a p
  = t ← nodes a !! p;
    if has_flag (node_flags t) NF_CHECKED then Some (a, p) else
    let t := node_set_hdr t (hdr_set_flags (node_hdr t)
                               (set_flag (node_flags t) NF_CHECKED)) in
    let a := set_nodes a (<[p := t]> (nodes a)) in
    '(a, p') ← (if has_flag (node_flags t) NF_TEMPLATE
                then check_template (set_templatenest a (u32 (templatenest a + 1))) p
                else Some (a, p));
    k ← node_kind <$> nodes a !! p';
    '(a, p') ← (if bool_decide (k = TYPE_UNRESOLVED)
                then unresolvedtype check_typedep (type' fuel) fuel a p'
                else _type_switch (type' fuel) a p');
    t ← nodes a !! p;
    Some (set_templatenest a
            (u32 (templatenest a - (if has_flag (node_flags t) NF_TEMPLATE then 1 else 0))),
          p').
Proof. reflexivity. Qed.

(** An unknown type name is reported once, and the name is then bound to
    the unresolved type node itself. *)
Lemma type_unknown_name (fuel : nat) (a : typecheck_t) (p : ptr) (h : nhdr) (name : sym_t) :
  nodes a !! p = Some (NUnresolved h name None) →
  nd_kind h = TYPE_UNRESOLVED →
  has_flag (nd_flags h) NF_CHECKED = false →
  has_flag (nd_flags h) NF_TEMPLATE = false →
  p ≠ type_addr type_unknown →
  unresolved_name a name →
  (1 ≤ ma a)%nat →
  ∃ a1 h1,
    type' (S fuel) a p = Some (a1, p)
    ∧ diags a1 = diags a ++ [Diag DIAG_ERR unknown_type_fmt [FmtStr name]]
    ∧ scope a1 = scope_define (scope a) name p
    ∧ nodes a1 = <[p := NUnresolved h1 name None]> (nodes a)
    ∧ nd_kind h1 = TYPE_UNRESOLVED
    ∧ has_flag (nd_flags h1) NF_CHECKED = true
    ∧ nd_nuse h1 = nd_nuse h
    ∧ pkg_defs a1 = pkg_defs a ∧ ma a1 = pred (ma a).
Proof.
  intros Hp Hk Hc Ht Hne Hname Hma.
  unfold type, type_with. rewrite (proj2 (Pos.eqb_neq _ _) Hne). rewrite Hp.
  cbn [mbind option_bind]. unfold node_flags at 1. cbn [node_hdr]. rewrite Hc. cbn [negb].
  rewrite _type_S, Hp. cbn [mbind option_bind]. unfold node_flags.
  cbn [node_hdr node_set_hdr]. rewrite Hc. cbn [hdr_set_flags nd_flags].
  assert (has_flag (set_flag (nd_flags h) NF_CHECKED) NF_TEMPLATE = false) as ->.
  { rewrite <- Ht. unfold has_flag. f_equal. f_equal. unfold set_flag.
    rewrite Z.land_lor_distr_l. change (Z.land NF_CHECKED NF_TEMPLATE) with 0.
    apply Z.lor_0_r. }
  cbn [mbind option_bind set_nodes nodes]. rewrite lookup_insert_eq.
  cbn [fmap option_fmap option_map mbind option_bind node_kind node_hdr nd_kind].
  rewrite (bool_decide_eq_true_2 _ Hk).
  unfold unresolvedtype. cbn [set_nodes nodes]. rewrite lookup_insert_eq.
  cbn [mbind option_bind].
  rewrite lookup_unresolved by exact Hname. cbn [mbind option_bind].
  unfold define_or_oom. cbn [error diag set_diags set_nodes ma].
  destruct (ma a) as [|m] eqn:Em; [lia|]. cbn [mem_alloc].
  cbn [set_scope set_ma set_nodes nodes error diag set_diags]. rewrite lookup_insert_eq.
  cbn [mbind option_bind].
  eexists _, (hdr_set_flags h (set_flag (nd_flags h) NF_CHECKED)).
  split; [reflexivity|]. cbn. repeat split; auto.
  unfold has_flag, set_flag. rewrite Z.land_lor_distr_l.
  change (Z.land NF_CHECKED NF_CHECKED) with 8.
  destruct (Z.eqb_spec (Z.lor (Z.land (nd_flags h) NF_CHECKED) 8) 0) as [E|]; [|done].
  apply Z.lor_eq_0_iff in E as [_ E]. discriminate E.
Qed.


(** A later use of a type name that is bound to an unresolved type node
    resolves to that node, without a report. *)
Lemma type_unknown_name_again (fuel : nat) (a : typecheck_t) (p p2 : ptr)
    (h h2 : nhdr) (name : sym_t) (resolved : option ptr) :
  name ≠ sym__ →
  scope_lookup (scope a) name U32_MAX = Some p →
  nodes a !! p = Some (NUnresolved h name resolved) →
  nd_kind h = TYPE_UNRESOLVED →
  has_flag (nd_flags h) NF_CHECKED = true →
  nodes a !! p2 = Some (NUnresolved h2 name None) →
  nd_kind h2 = TYPE_UNRESOLVED →
  has_flag (nd_flags h2) NF_CHECKED = false →
  has_flag (nd_flags h2) NF_TEMPLATE = false →
  p2 ≠ p → p ≠ type_addr type_unknown → p2 ≠ type_addr type_unknown →
  ∃ a2 h2',
    type' (S (S fuel)) a p2 = Some (a2, p)
    ∧ diags a2 = diags a
    ∧ reported_error a2 = reported_error a
    ∧ scope a2 = scope a
    ∧ nodes a2 !! p2 = Some (NUnresolved h2' name (Some p)).
Proof.
  intros Hsym Hs Hp Hk Hc Hp2 Hk2 Hc2 Ht2 Hne Hu Hu2.
  assert (has_flag (set_flag (nd_flags h2) NF_CHECKED) NF_TEMPLATE = false) as Ht2'.
  { rewrite <- Ht2. unfold has_flag. f_equal. f_equal. unfold set_flag.
    rewrite Z.land_lor_distr_l. change (Z.land NF_CHECKED NF_TEMPLATE) with 0.
    apply Z.lor_0_r. }
  unfold type, type_with. rewrite (proj2 (Pos.eqb_neq _ _) Hu2), Hp2. node_simpl.
  rewrite Hc2. cbn [negb]. rewrite _type_S, Hp2. node_simpl. rewrite Hc2, Ht2'.
  node_simpl. rewrite lookup_insert_eq. node_simpl.
  rewrite (bool_decide_eq_true_2 _ Hk2).
  unfold unresolvedtype. node_simpl. rewrite lookup_insert_eq. node_simpl.
  unfold lookup. rewrite (proj2 (String.eqb_neq _ _) Hsym). cbn [set_nodes scope].
  rewrite Hs. cbn [incuse]. node_simpl. rewrite lookup_insert_ne, Hp by done. node_simpl.
  rewrite lookup_insert_eq. node_simpl. rewrite Hk.
  change (nodekind_istype TYPE_UNRESOLVED) with true. cbv iota.
  unfold type, type_with. rewrite (proj2 (Pos.eqb_neq _ _) Hu). node_simpl.
  rewrite lookup_insert_eq. node_simpl. rewrite Hc. node_simpl.
  rewrite lookup_insert_eq. node_simpl.
  rewrite lookup_insert_ne, lookup_insert_eq by done. node_simpl.
  rewrite lookup_insert_ne, lookup_insert_ne, lookup_insert_eq by done. node_simpl.
  rewrite lookup_insert_ne, lookup_insert_eq by (by apply not_eq_sym). node_simpl.
  rewrite lookup_insert_eq. node_simpl.
  eexists _, _. split; [reflexivity|]. cbn.
  rewrite lookup_insert_eq. by repeat split.
Qed.

(** A type name that is defined as something that is not a type is
    reported, and the name is then bound to the unresolved type node
    itself. *)
Lemma type_not_a_type (fuel n : nat) (a : typecheck_t) (p : ptr) (h : nhdr) (name : sym_t)
    (t : ptr) (tn : node_t) :
  nodes a !! p = Some (NUnresolved h name None) →
  nd_kind h = TYPE_UNRESOLVED →
  has_flag (nd_flags h) NF_CHECKED = false →
  has_flag (nd_flags h) NF_TEMPLATE = false →
  p ≠ type_addr type_unknown →
  names_no_type a name t tn →
  is_Some (incuse n (nodes a) t) → (n ≤ fuel)%nat →
  (1 ≤ ma a)%nat →
  ∃ a1 h1,
    type' (S fuel) a p = Some (a1, p)
    ∧ diags a1 = diags a ++ not_a_type_diags name tn
    ∧ reported_error a1 = true
    ∧ scope a1 = scope_define (scope a) name p
    ∧ nodes a1 !! p = Some (NUnresolved h1 name None)
    ∧ nd_kind h1 = TYPE_UNRESOLVED
    ∧ has_flag (nd_flags h1) NF_CHECKED = true.
Proof.
  intros Hp Hk Hc Ht Hne (Hsym & Hfound & Htn & Hnt) Hinc Hle Hma.
  assert (t ≠ p) as Htp.
  { intros ->. rewrite Hp in Htn. injection Htn as <-.
    unfold node_kind in Hnt. cbn [node_hdr] in Hnt. rewrite Hk in Hnt. discriminate Hnt. }
  unfold type, type_with. rewrite (proj2 (Pos.eqb_neq _ _) Hne). rewrite Hp.
  cbn [mbind option_bind]. unfold node_flags at 1. cbn [node_hdr]. rewrite Hc. cbn [negb].
  rewrite _type_S, Hp. cbn [mbind option_bind]. unfold node_flags.
  cbn [node_hdr node_set_hdr]. rewrite Hc. cbn [hdr_set_flags nd_flags].
  assert (has_flag (set_flag (nd_flags h) NF_CHECKED) NF_TEMPLATE = false) as ->.
  { rewrite <- Ht. unfold has_flag. f_equal. f_equal. unfold set_flag.
    rewrite Z.land_lor_distr_l. change (Z.land NF_CHECKED NF_TEMPLATE) with 0.
    apply Z.lor_0_r. }
  cbn [mbind option_bind set_nodes nodes]. rewrite lookup_insert_eq.
  cbn [fmap option_fmap option_map mbind option_bind node_kind node_hdr nd_kind].
  rewrite (bool_decide_eq_true_2 _ Hk).
  unfold unresolvedtype. cbn [set_nodes nodes]. rewrite lookup_insert_eq.
  cbn [mbind option_bind].
  set (h0 := hdr_set_flags h (set_flag (nd_flags h) NF_CHECKED)).
  set (a0 := set_nodes a (<[p := NUnresolved h0 name None]> (nodes a))) in *.
  destruct (lookup_defined fuel n a0 name t tn) as (ns & Hlook & Hns); auto.
  { unfold a0. cbn [set_nodes nodes]. by rewrite lookup_insert_ne. }
  { apply incuse_same_kinds with (nodes a); [|exact Hinc].
    intros q. unfold a0. cbn [set_nodes nodes]. destruct (decide (q = p)) as [->|Hq].
    - rewrite lookup_insert_eq, Hp. constructor. by exists h0.
    - rewrite lookup_insert_ne by done. apply same_kinds_refl. }
  rewrite Hlook. cbn [mbind option_bind set_nodes nodes].
  destruct (Hns t tn) as (ht & Et & Hkt & Hlt & _).
  { unfold a0. cbn [set_nodes nodes]. by rewrite lookup_insert_ne. }
  destruct (Hns p (NUnresolved h0 name None)) as (hp & Ep & Hkp & _ & Hfp).
  { unfold a0. cbn [set_nodes nodes]. apply lookup_insert_eq. }
  specialize (Hfp (not_eq_sym Htp)). cbn [node_set_hdr node_hdr] in Ep, Hkp, Hfp.
  unfold h0 in Hkp, Hfp. cbn [hdr_set_flags nd_kind nd_flags] in Hkp, Hfp.
  rewrite Et. cbn [fmap option_fmap option_map mbind option_bind].
  unfold node_kind. rewrite node_hdr_set, Hkt.
  unfold node_kind in Hnt. rewrite Hnt.
  unfold define_or_oom. rewrite Hlt.
  assert (∀ b : typecheck_t, ma b = ma a → nodes b = ns →
            ∃ a1, (let a := define_or_oom b name p in
                   t ← nodes a !! p;
                   Some (set_templatenest a
                           (u32 (templatenest a
                                 - (if has_flag (node_flags t) NF_TEMPLATE then 1 else 0))),
                         p)) = Some (a1, p)
                  ∧ diags a1 = diags b ∧ reported_error a1 = reported_error b
                  ∧ scope a1 = scope_define (scope b) name p
                  ∧ nodes a1 = ns) as Hdef.
  { intros b Hmb Hnb. unfold define_or_oom. rewrite Hmb.
    destruct (ma a) as [|m]; [lia|]. cbn [mem_alloc]. cbv zeta.
    cbn [set_scope set_ma nodes]. rewrite Hnb, Ep. cbn [mbind option_bind].
    eexists. split; [reflexivity|]. by cbn. }
  unfold define_or_oom in Hdef.
  match goal with
  | |- context [mem_alloc (ma ?b)] => destruct (Hdef b) as (a1 & E1 & Hd1 & Hr1 & Hs1 & Hn1)
  end.
  { by destruct (nd_line (node_hdr tn) =? 0)%Z. }
  { by destruct (nd_line (node_hdr tn) =? 0)%Z. }
  cbv zeta in E1. exists a1, hp. split; [exact E1|].
  rewrite Hd1, Hr1, Hs1, Hn1, Ep. unfold not_a_type_diags, node_kind.
  destruct (nd_line (node_hdr tn) =? 0)%Z; cbn; rewrite <- ?app_assoc; repeat split; auto;
    try congruence.
  all: rewrite Hfp; unfold has_flag, set_flag; rewrite Z.land_lor_distr_l;
    change (Z.land NF_CHECKED NF_CHECKED) with 8;
    destruct (Z.eqb_spec (Z.lor (Z.land (nd_flags h) NF_CHECKED) 8) 0) as [E|]; [|done];
    apply Z.lor_eq_0_iff in E as [_ E]; discriminate E.
Qed.

End resolve_facts.


(** A checker state with an identifier [foo] (at 2000) and two uses of a
    type [Bar] (at 2001 and 2002) that nothing defines. *)
Definition resolve0 : typecheck_t :=
  set_nodes (typecheck_init compiler64 8)
    (<[2000%positive := NId (Nhdr EXPR_ID NF_RVALUE 0 1) (type_addr type_unknown) "foo" None]>
       (<[2001%positive := NUnresolved (Nhdr TYPE_UNRESOLVED 0 0 1) "Bar" None]>
          (<[2002%positive := NUnresolved (Nhdr TYPE_UNRESOLVED 0 0 2) "Bar" None]> ∅))).

(** The parts of the checker that the two rules leave open, for the
    examples: no suggestion, and nothing else to check. *)
Definition no_suggestion (a : typecheck_t) (name : sym_t) : option sym_t := None.
Definition checked (a : typecheck_t) (p : ptr) : option typecheck_t := Some a.
Definition checked_type (a : typecheck_t) (p : ptr) : option (typecheck_t * ptr) :=
  Some (a, p).
Definition exprp0 : nat → typecheck_t → ptr → option typecheck_t :=
  exprp no_suggestion checked checked_type (λ _ _, true) (λ _, checked_type) checked.
Definition type0 : nat → typecheck_t → ptr → option (typecheck_t * ptr) :=
  type checked_type (λ _ _, true) (λ _, checked_type).

(** The state [resolve0] with a function [f] (at 2003, in line 7) that the
    scope defines, and two uses of [f] as the name of a type (at 2004 and
    2005). *)
Definition resolve1 : typecheck_t :=
  set_scope
    (set_nodes resolve0
       (<[2003%positive := NNode (Nhdr EXPR_FUN 0 0 7)]>
          (<[2004%positive := NUnresolved (Nhdr TYPE_UNRESOLVED 0 0 3) "f" None]>
             (<[2005%positive := NUnresolved (Nhdr TYPE_UNRESOLVED 0 0 4) "f" None]>
                (nodes resolve0)))))
    (scope_define (scope resolve0) "f" 2003%positive).


Example not_a_type_twice :
  (λ r, (map diag_fmt (diags r.1), r.2))
    <$> ('(a1, _) ← type0 2 resolve1 2004%positive; type0 2 a1 2005%positive)
  = Some (["%s is not a type (it's a %s)"; "%s defined here"], 2004%positive).
Proof. vm_compute. reflexivity. Qed.


Example unresolved_type_twice :
  (λ r, (map diag_msg (diags r.1), r.2))
    <$> ('(a1, _) ← type0 2 resolve0 2001%positive; type0 2 a1 2002%positive)
  = Some (["unknown type " +:+ dq +:+ "Bar" +:+ dq], 2001%positive).
Proof. vm_compute. reflexivity. Qed.

(** ** Template instantiation *)

(** [templatetype_t]: a use of a template, [Foo<A,B>]. *)
Record templatetype_t : Set := Templatetype {
  tt_recv : ptr;                 (* the template *)
  tt_args : list type_t;
}.

(** [a->ast_ma] gets back what [nodearray_dispose] frees. *)
Definition mem_free (ma : memalloc_t) : memalloc_t := S ma.

#[global] Instance err_eq_dec : EqDecision err_t.
Proof. solve_decision. Defined.

Section templates.

(** [typeid_of], [ast_transform] (with [instantiate_trfn]: it works on the
    nodes with the AST allocator, and returns an error and the instance,
    which is the template itself when nothing was substituted) and
    [err_str] are not among the sources.  [type] is the checker of types,
    which checks the instance.  The buffer [a->tmpbuf] that a key is built
    in is taken to be large enough. *)
Variable typeid_of : type_t → typeid_t.
Variable ast_transform :
  gmap ptr node_t → memalloc_t → ptr → ptr → list type_t →
  gmap ptr node_t * memalloc_t * ptr * err_t * ptr.
Variable err_str : err_t → string.
Variable type : typecheck_t → ptr → option (typecheck_t * ptr).

(** [templateimap_mkkey]: the template pointer, then the type ids of the
    arguments, one after the other. *)
Definition templateimap_mkkey (template : ptr) (template_args : list tplnode)
    : option (ptr * string) :=
  ids ← mapM (λ n, match n with
                   | TplArg t => Some (typeid_of t)
                   | TplParam _ => None     (* assert(node_istype(...)) *)
                   end) template_args;
  Some (template, foldr append EmptyString ids).

(** [templateimap_add]: a request to [a->ma] for the copy of the key and
    one for the entry of the map.  (When the copy of the key cannot be
    allocated the C code still calls [map_assign]; here an exhausted
    allocator serves neither request and the map is left as it is.) *)
Definition templateimap_add (a : typecheck_t) (template instance : ptr)
    : option typecheck_t :=
  n ← nodes a !! instance;
  match n with
  | NUsertype _ templateparams =>
      key ← templateimap_mkkey template templateparams;
      match mem_alloc (ma a) with
      | None => Some (out_of_mem a)
      | Some m =>
          match mem_alloc m with
          | None => Some (out_of_mem (set_ma a m))
          | Some m =>
              match templateimap a !! key with
              | Some _ => None    (* assertf( *p == NULL, "duplicate entry") *)
              | None => Some (set_templateimap (set_ma a m) (<[key := instance]> (templateimap a)))
              end
          end
      end
  | _ => None
  end.

(** [templateimap_lookup] *)
Definition templateimap_lookup (a : typecheck_t) (template : ptr)
    (template_args : list tplnode) : option (option ptr) :=
  key ← templateimap_mkkey template template_args;
  Some (templateimap a !! key).

(** The arguments of an instance: those of the use, then the defaults of
    the parameters that are left. *)
Definition template_args (templateparams : list tplnode) (args : list type_t)
    : option (list type_t) :=
  defaults ← mapM (λ n, match n with
                        | TplParam tparam => tpl_init tparam   (* assertnotnull *)
                        | TplArg _ => None
                        end) (drop (length args) templateparams);
  Some (args ++ defaults).

(** [instantiate_templatetype].  The result is the state and [*tp] when it
    was set ([None]: it is still the use of the template). *)
Definition instantiate_templatetype (a : typecheck_t) (tt : templatetype_t)
    : option (typecheck_t * option ptr) :=
  let template := tt_recv tt in
  tn ← nodes a !! template;
  match tn with
  | NUsertype _ templateparams =>
      if (length templateparams <? length (tt_args tt))%nat then None else
      let complete := (length (tt_args tt) =? length templateparams)%nat in
      (* Copy args if there are default values involved. *)
      match (if complete then Some (ast_ma a) else mem_alloc (ast_ma a)) with
      | None => Some (out_of_mem a, None)
      | Some m =>
          let a := set_ast a m (ast_next a) in
          args ← (if complete then Some (tt_args tt)
                  else template_args templateparams (tt_args tt));
          (* check if there's an existing instance *)
          found ← templateimap_lookup a template (TplArg <$> args);
          match found with
          | Some instance =>
              let a := if complete then a else set_ast a (mem_free (ast_ma a)) (ast_next a) in
              Some (a, Some instance)
          | None =>
              (* instantiate template *)
              let '(ns, m, next, e, instance) :=
                ast_transform (nodes a) (ast_ma a) (ast_next a) template args in
              let a := set_ast (set_nodes a ns) m next in
              if negb (bool_decide (e = ErrOk)) then
                Some (seterr (error a "%s" [FmtStr (err_str e)]) e, None)
              else
                r ← ((if (instance =? template)%positive then
                       (* no substitutions *)
                       n ← nodes a !! instance;
                       match mem_alloc (ast_ma a) with
                       | None => Some (inr (out_of_mem a))
                       | Some m =>
                           Some (inl (set_ast (set_nodes a (<[ast_next a := n]> (nodes a)))
                                        m (Pos.succ (ast_next a)),
                                      ast_next a))
                       end
                     else
                       n ← nodes a !! instance;
                       if has_flag (node_flags n) NF_CHECKED then None
                       else Some (inl (a, instance)))
                     : option (typecheck_t * ptr + typecheck_t));
                match r with
                | inr a => Some (a, None)
                | inl (a, instance) =>
                    n ← nodes a !! instance;
                    match n with
                    | NUsertype h _ =>
                        if negb (nodekind_isusertype (nd_kind h)) then None else
                        (* convert instance to NF_TEMPLATEI *)
                        let h := hdr_set_flags h
                                   (Z.lor (Z.land (nd_flags h) (Z.lnot NF_TEMPLATE))
                                      NF_TEMPLATEI) in
                        let a := set_nodes a (<[instance := NUsertype h (TplArg <$> args)]>
                                                 (nodes a)) in
                        (* register instance (before checking, in case it refers
                           to itself) *)
                        a ← templateimap_add a template instance;
                        (* typecheck the instance *)
                        '(a, p) ← type a instance;
                        if negb (p =? instance)%positive then None
                        else Some (a, Some instance)
                    | _ => None
                    end
                end
          end
      end
  | _ => None
  end.

(** The key of a use of a template. *)
Definition template_key (a : typecheck_t) (tt : templatetype_t) : option (ptr * string) :=
  tn ← nodes a !! tt_recv tt;
  match tn with
  | NUsertype _ templateparams =>
      if (length templateparams <? length (tt_args tt))%nat then None else
      args ← (if (length (tt_args tt) =? length templateparams)%nat then Some (tt_args tt)
              else template_args templateparams (tt_args tt));
      templateimap_mkkey (tt_recv tt) (TplArg <$> args)
  | _ => None
  end.

(** The use names all the arguments: nothing is copied. *)
Definition args_complete (a : typecheck_t) (tt : templatetype_t) : bool :=
  match nodes a !! tt_recv tt with
  | Some (NUsertype _ templateparams) =>
      (length (tt_args tt) =? length templateparams)%nat
  | _ => false
  end.

End templates.

(** The instances of [a] are instances of [a']. *)
Definition keeps_instances (a a' : typecheck_t) : Prop :=
  ∀ k v, templateimap a !! k = Some v → templateimap a' !! k = Some v.

Lemma set_ast_same (a : typecheck_t) : set_ast a (ast_ma a) (ast_next a) = a.
Proof. by destruct a. Qed.

Lemma set_ast_free (a : typecheck_t) (m : memalloc_t) :
  ast_ma a = S m →
  set_ast (set_ast a m (ast_next a)) (mem_free m) (ast_next a) = a.
Proof. destruct a. cbn. by intros ->. Qed.

Section templates_facts.
Context (typeid_of : type_t → typeid_t)
        (ast_transform : gmap ptr node_t → memalloc_t → ptr → ptr → list type_t →
                         gmap ptr node_t * memalloc_t * ptr * err_t * ptr)
        (err_str : err_t → string)
        (type : typecheck_t → ptr → option (typecheck_t * ptr)).

#[local] Abbreviation instantiate' :=
  (instantiate_templatetype typeid_of ast_transform err_str type).
#[local] Abbreviation template_key' := (template_key typeid_of).

(** A use whose key is in the map gets the instance of the map; the state
    is left as it is. *)
Lemma instantiate_templatetype_hit (a : typecheck_t) (tt : templatetype_t)
    (key : ptr * string) (inst : ptr) :
  template_key' a tt = Some key →
  templateimap a !! key = Some inst →
  (args_complete a tt = false → (1 ≤ ast_ma a)%nat) →
  instantiate' a tt = Some (a, Some inst).
Proof.
  unfold template_key, args_complete, instantiate_templatetype.
  intros Hkey Hinst Hmem.
  destruct (nodes a !! tt_recv tt) as [[| | |h ps|]|]; try discriminate Hkey.
  cbn [mbind option_bind] in *.
  destruct (length ps <? length (tt_args tt))%nat; [discriminate Hkey|].
  destruct (length (tt_args tt) =? length ps)%nat.
  - cbn [mbind option_bind] in *. rewrite set_ast_same.
    unfold templateimap_lookup. rewrite Hkey. cbn [mbind option_bind]. by rewrite Hinst.
  - destruct (ast_ma a) as [|m] eqn:Em; [specialize (Hmem eq_refl); lia|].
    cbn [mem_alloc].
    destruct (template_args ps (tt_args tt)) as [args|]; [|discriminate Hkey].
    cbn [mbind option_bind] in *.
    unfold templateimap_lookup. rewrite Hkey. cbn [mbind option_bind set_ast templateimap].
    rewrite Hinst. cbn [set_ast ast_ma ast_next]. f_equal. f_equal.
    apply (set_ast_free a m Em).
Qed.

(** A use that was given an instance has it in the map afterwards. *)
Lemma instantiate_templatetype_registers (a a1 : typecheck_t) (tt : templatetype_t)
    (inst : ptr) :
  (∀ a p a' p', type a p = Some (a', p') → keeps_instances a a') →
  instantiate' a tt = Some (a1, Some inst) →
  (2 ≤ ma a)%nat →
  ∃ key, template_key' a tt = Some key ∧ templateimap a1 !! key = Some inst.
Proof.
  unfold template_key, instantiate_templatetype.
  intros Htype H Hma.
  destruct (nodes a !! tt_recv tt) as [[| | |h ps|]|]; try discriminate H.
  cbn [mbind option_bind] in *.
  destruct (length ps <? length (tt_args tt))%nat; [discriminate H|].
  set (complete := (length (tt_args tt) =? length ps)%nat) in *.
  destruct (if complete then Some (ast_ma a) else mem_alloc (ast_ma a)) as [m|];
    [|discriminate H].
  destruct (if complete then Some (tt_args tt) else template_args ps (tt_args tt))
    as [args|]; [|discriminate H].
  cbn [mbind option_bind] in *.
  unfold templateimap_lookup in H.
  destruct (templateimap_mkkey typeid_of (tt_recv tt) (TplArg <$> args)) as [key|] eqn:Ekey;
    [|discriminate H].
  cbn [mbind option_bind set_ast templateimap] in H. exists key. split; [reflexivity|].
  destruct (templateimap a !! key) as [instance|] eqn:Efound.
  { injection H as <- <-. by destruct complete. }
  destruct (ast_transform _ _ _ _ _) as [[[[ns m'] next] e] instance].
  destruct (bool_decide (e = ErrOk)); cbn [negb] in H; [|discriminate H].
  match type of H with (?r ≫= _) = _ => destruct r as [[[a' instance']|a']|] eqn:Er end;
    cbn [mbind option_bind] in H; [|discriminate H|discriminate H].
  assert (ma a' = ma a ∧ templateimap a' = templateimap a) as [Hma' Hmap'].
  { destruct (instance =? tt_recv tt)%positive.
    - cbn [set_ast set_nodes nodes ast_ma] in Er.
      destruct (ns !! instance) as [n|]; [|discriminate Er]. cbn [mbind option_bind] in Er.
      destruct (mem_alloc m'); [|discriminate Er].
      by injection Er as <- <-.
    - cbn [set_ast set_nodes nodes] in Er.
      destruct (ns !! instance) as [n|]; [|discriminate Er]. cbn [mbind option_bind] in Er.
      destruct (has_flag (node_flags n) NF_CHECKED); [discriminate Er|].
      by injection Er as <- <-. }
  match type of H with (?x ≫= _) = _ => destruct x as [n'|] eqn:En' end;
    cbn [mbind option_bind] in H; [|discriminate H].
  destruct n' as [| | |h' ps'|]; try discriminate H.
  destruct (nodekind_isusertype (nd_kind h')); cbn [negb] in H; [|discriminate H].
  unfold templateimap_add in H. cbn [set_nodes nodes ma templateimap] in H.
  rewrite lookup_insert_eq in H. cbn [mbind option_bind] in H.
  rewrite Ekey in H. cbn [mbind option_bind] in H.
  rewrite Hma', Hmap', Efound in H.
  destruct (ma a) as [|[|m2]]; try lia. cbn [mem_alloc mbind option_bind] in H.
  match type of H with (?r ≫= _) = _ => destruct r as [[a3 p]|] eqn:Et end;
    [|discriminate H].
  cbn [mbind option_bind] in H.
  destruct (p =? instance')%positive; cbn [negb] in H; [|discriminate H].
  injection H as <- <-. apply (Htype _ _ _ _ Et). cbn. apply lookup_insert_eq.
Qed.

End templates_facts.

Section templates_key_facts.
Context (typeid_of : type_t → typeid_t).

(** The key of type arguments: the template, then their type ids. *)
Lemma templateimap_mkkey_args (template : ptr) (args : list type_t) :
  templateimap_mkkey typeid_of template (TplArg <$> args)
  = Some (template, foldr append EmptyString (typeid_of <$> args)).
Proof.
  unfold templateimap_mkkey.
  match goal with
  | |- (?m ≫= _) = _ => assert (m = Some (typeid_of <$> args)) as ->; [|done]
  end.
  induction args as [|t args IH]; [done|].
  cbn. cbn in IH. by rewrite IH.
Qed.

(** The key of a use: the template and the type ids of the arguments of
    the use, then of the defaults. *)
Lemma template_key_shape (a : typecheck_t) (tt : templatetype_t) (key : ptr * string) :
  template_key typeid_of a tt = Some key →
  ∃ defaults, key = (tt_recv tt,
                     foldr append EmptyString (typeid_of <$> (tt_args tt ++ defaults))).
Proof.
  unfold template_key. intros H.
  destruct (nodes a !! tt_recv tt) as [[| | |h ps|]|]; try discriminate H.
  cbn [mbind option_bind] in H.
  destruct (length ps <? length (tt_args tt))%nat; [discriminate H|].
  destruct (length (tt_args tt) =? length ps)%nat.
  - cbn [mbind option_bind] in H. rewrite templateimap_mkkey_args in H.
    injection H as <-. exists []. by rewrite app_nil_r.
  - unfold template_args in H.
    destruct (mapM _ (drop (length (tt_args tt)) ps)) as [defaults|]; [|discriminate H].
    cbn [mbind option_bind] in H. rewrite templateimap_mkkey_args in H.
    injection H as <-. by exists defaults.
Qed.
End templates_key_facts.

(** C2.  Let a use of a template have been given an instance (from the
    map, or made and registered), with memory for the entry of the map.
    Then the map of the state that results has that instance under the
    key of the use: the pointer of the template and the type ids of the
    arguments, defaults included, one after the other.  And a use with
    that key, in any state, is given the node the map of that state has
    under the key, whatever it is: [*tp] is set to it and the state is
    left as it is, for every [ast_transform] and checker of types, so no
    expansion is made.  Hence in any later state that still has the
    instances of the map, a use with the same key is given the same node.
    ([type] stands for the checker of types; what is asked of it is that it
    keeps the instances that are in the map.) *)
Theorem instantiate_templatetype_memoized
    (typeid_of : type_t → typeid_t)
    (ast_transform : gmap ptr node_t → memalloc_t → ptr → ptr → list type_t →
                     gmap ptr node_t * memalloc_t * ptr * err_t * ptr)
    (err_str : err_t → string)
    (type : typecheck_t → ptr → option (typecheck_t * ptr))
    (a a1 : typecheck_t) (tt : templatetype_t) (inst : ptr) :
  (∀ a p a' p', type a p = Some (a', p') → keeps_instances a a') →
  instantiate_templatetype typeid_of ast_transform err_str type a tt = Some (a1, Some inst) →
  (2 ≤ ma a)%nat →
  ∃ key defaults,
    template_key typeid_of a tt = Some key
    ∧ key = (tt_recv tt,
             foldr append EmptyString (typeid_of <$> (tt_args tt ++ defaults)))
    ∧ templateimap a1 !! key = Some inst
    ∧ (∀ ast_transform2 err_str2 type2 a2 tt2 inst2,
         template_key typeid_of a2 tt2 = Some key →
         templateimap a2 !! key = Some inst2 →
         (args_complete a2 tt2 = false → (1 ≤ ast_ma a2)%nat) →
         instantiate_templatetype typeid_of ast_transform2 err_str2 type2 a2 tt2
         = Some (a2, Some inst2))
    ∧ (∀ ast_transform2 err_str2 type2 a2 tt2,
         keeps_instances a1 a2 →
         template_key typeid_of a2 tt2 = Some key →
         (args_complete a2 tt2 = false → (1 ≤ ast_ma a2)%nat) →
         instantiate_templatetype typeid_of ast_transform2 err_str2 type2 a2 tt2
         = Some (a2, Some inst)).
Proof.
  intros Htype H1 Hma.
  destruct (instantiate_templatetype_registers _ _ _ _ _ _ _ _ Htype H1 Hma)
    as (key & Hk & Hinst).
  destruct (template_key_shape _ _ _ _ Hk) as [defaults Hshape].
  exists key, defaults. split; [exact Hk|]. split; [exact Hshape|]. split; [exact Hinst|].
  split.
  - intros tr2 es2 ty2 a2 tt2 inst2 Hk2 Hin2 Hmem.
    by apply instantiate_templatetype_hit with key.
  - intros tr2 es2 ty2 a2 tt2 Hkeep Hk2 Hmem.
    apply instantiate_templatetype_hit with key; [exact Hk2|by apply Hkeep|exact Hmem].
Qed.


(** Scenario S4 of the spec, [type Foo<T> { x T }] used twice as
    [Foo<int>]: the template at address 3000. *)
Definition template_Foo : node_t :=
  NUsertype (Nhdr TYPE_STRUCT NF_TEMPLATE 0 1) [TplParam (Templateparam "T" None)].
Definition templates0 : typecheck_t :=
  set_nodes (typecheck_init compiler64 8) (<[3000%positive := template_Foo]> ∅).
Definition Foo_int : templatetype_t := Templatetype 3000%positive [type_int].

(** An expansion, for the example: a copy of the template. *)
Definition expand_copy (ns : gmap ptr node_t) (m : memalloc_t) (next template : ptr)
    (args : list type_t) : gmap ptr node_t * memalloc_t * ptr * err_t * ptr :=
  match ns !! template, mem_alloc m with
  | Some n, Some m' => (<[next := n]> ns, m', Pos.succ next, ErrOk, next)
  | _, _ => (ns, m, next, ErrNoMem, template)
  end.

Definition instantiate0 : typecheck_t → templatetype_t → option (typecheck_t * option ptr) :=
  instantiate_templatetype typeid_structural expand_copy (λ _, "out of memory") checked_type.

(** The state after the first use. *)
Definition templates1 : typecheck_t :=
  default templates0 (fst <$> instantiate0 templates0 Foo_int).

(** A second entry, for the example: the use [Foo<int>] finds whatever
    node the map has under its key. *)
Definition templates2 : typecheck_t :=
  set_templateimap templates1
    (<[(3000%positive, typeid_structural type_int) := 4242%positive]> (templateimap templates1)).

Lemma instantiate_templatetype_memoized_witness :
  instantiate0 templates0 Foo_int = Some (templates1, Some 1000%positive)
  ∧ ∃ key defaults,
    template_key typeid_structural templates0 Foo_int = Some key
    ∧ key = (tt_recv Foo_int,
             foldr append EmptyString (typeid_structural <$> (tt_args Foo_int ++ defaults)))
    ∧ templateimap templates1 !! key = Some 1000%positive
    ∧ (∀ ast_transform2 err_str2 type2 a2 tt2 inst2,
         template_key typeid_structural a2 tt2 = Some key →
         templateimap a2 !! key = Some inst2 →
         (args_complete a2 tt2 = false → (1 ≤ ast_ma a2)%nat) →
         instantiate_templatetype typeid_structural ast_transform2 err_str2 type2 a2 tt2
         = Some (a2, Some inst2))
    ∧ (∀ ast_transform2 err_str2 type2 a2 tt2,
         keeps_instances templates1 a2 →
         template_key typeid_structural a2 tt2 = Some key →
         (args_complete a2 tt2 = false → (1 ≤ ast_ma a2)%nat) →
         instantiate_templatetype typeid_structural ast_transform2 err_str2 type2 a2 tt2
         = Some (a2, Some 1000%positive)).
Proof.
  split; [vm_compute; reflexivity|].
  apply (instantiate_templatetype_memoized typeid_structural expand_copy
           (λ _, "out of memory") checked_type templates0 templates1 Foo_int 1000%positive).
  - intros a p a' p' [= <- <-] k v H. exact H.
  - vm_compute. reflexivity.
  - cbn. lia.
Defined.

(** Whatever node the map has under the key is the one a use is given. *)
Example templates_other_entry :
  instantiate0 templates2 Foo_int = Some (templates2, Some 4242%positive).
Proof. vm_compute. reflexivity. Qed.

Example templates_S4 :
  snd <$> instantiate0 templates0 Foo_int = Some (Some 1000%positive)
  ∧ snd <$> instantiate0 templates1 Foo_int = Some (Some 1000%positive)
  ∧ ast_next templates0 = 1000%positive
  ∧ ast_next templates1 = 1001%positive
  ∧ (ast_next <$> (fst <$> instantiate0 templates1 Foo_int)) = Some 1001%positive.
Proof. repeat split; vm_compute; reflexivity. Qed.

(** ** Source positions ([loc_t], [compiler.h])

    A [loc_t] is a [u64] that packs a source file id, a line, a column
    and a width.  [typecheck.c] reads the line of a node's position
    ([loc_line]) to decide whether a diagnostic can point to it. *)

Definition loc_t := Z.   (* u64 *)

Definition _loc_widthBits : Z := 12.
Definition _loc_colBits : Z := 12.
Definition _loc_lineBits : Z := 20.
Definition _loc_srcfileidBits : Z := 64 - _loc_lineBits - _loc_colBits - _loc_widthBits.

Definition _loc_srcfileidMax : Z := Z.shiftl 1 _loc_srcfileidBits - 1.
Definition _loc_lineMax : Z := Z.shiftl 1 _loc_lineBits - 1.
Definition _loc_colMax : Z := Z.shiftl 1 _loc_colBits - 1.
Definition _loc_widthMax : Z := Z.shiftl 1 _loc_widthBits - 1.

Definition _loc_srcfileidShift : Z := _loc_srcfileidBits + _loc_colBits + _loc_widthBits.
Definition _loc_lineShift : Z := _loc_colBits + _loc_widthBits.
Definition _loc_colShift : Z := _loc_widthBits.

(** [loc_make_unchecked]: every argument is a [u32], converted to [u64]
    before it is shifted; the shift drops what leaves the 64 bits. *)
Definition loc_make_unchecked (srcfileid line col width : Z) : loc_t :=
  Z.lor (Z.lor (Z.lor (u64 (Z.shiftl srcfileid _loc_srcfileidShift))
                      (u64 (Z.shiftl line _loc_lineShift)))
               (u64 (Z.shiftl col _loc_colShift)))
        width.

(** [loc_make]: [MIN] clamps every field to the largest value it can hold. *)
Definition loc_make (srcfileid line col width : Z) : loc_t :=
  loc_make_unchecked
    (Z.min _loc_srcfileidMax srcfileid)
    (Z.min _loc_lineMax line)
    (Z.min _loc_colMax col)
    (Z.min _loc_widthMax width).

(** The readers return a [u32]. *)
Definition loc_srcfileid (p : loc_t) : Z := u32 (Z.shiftr p _loc_srcfileidShift).
Definition loc_line (p : loc_t) : Z := u32 (Z.land (Z.shiftr p _loc_lineShift) _loc_lineMax).
Definition loc_col (p : loc_t) : Z := u32 (Z.land (Z.shiftr p _loc_colShift) _loc_colMax).
Definition loc_width (p : loc_t) : Z := u32 (Z.land p _loc_widthMax).

Definition loc_with_srcfileid (p : loc_t) (srcfileid : Z) : loc_t :=
  loc_make_unchecked
    (Z.min _loc_srcfileidMax srcfileid) (loc_line p) (loc_col p) (loc_width p).
Definition loc_with_line (p : loc_t) (line : Z) : loc_t :=
  loc_make_unchecked
    (loc_srcfileid p) (Z.min _loc_lineMax line) (loc_col p) (loc_width p).
Definition loc_with_col (p : loc_t) (col : Z) : loc_t :=
  loc_make_unchecked
    (loc_srcfileid p) (loc_line p) (Z.min _loc_colMax col) (loc_width p).
Definition loc_with_width (p : loc_t) (width : Z) : loc_t :=
  loc_make_unchecked
    (loc_srcfileid p) (loc_line p) (loc_col p) (Z.min _loc_widthMax width).

(** [loc_min]: [b-1 < a-1] on [u64], so that position 0 (unknown) counts
    as the largest. *)
Definition loc_min (a b : loc_t) : loc_t :=
  if (u64 (b - 1) <? u64 (a - 1)) then b else a.
Definition loc_max (a b : loc_t) : loc_t :=
  if (a <? b) then b else a.

Definition loc_isknown (p : loc_t) : bool :=
  negb (Z.lor (loc_srcfileid p) (loc_line p) =? 0).
Definition loc_isbefore (p q : loc_t) : bool := p <? q.
Definition loc_isafter (p q : loc_t) : bool := q <? p.

(** The four fields of a position. *)
Definition loc_fields (p : loc_t) : Z * Z * Z * Z :=
  (loc_srcfileid p, loc_line p, loc_col p, loc_width p).

(** Bit by bit. *)
Ltac bits_step :=
  first
    [ rewrite Z.land_spec | rewrite Z.lor_spec
    | rewrite Z.shiftr_spec by lia | rewrite Z.shiftl_spec by lia
    | rewrite Z.testbit_mod_pow2 by lia
    | rewrite Z.testbit_ones_nonneg by lia
    | rewrite Z.testbit_neg_r by lia ].

Ltac bits_case :=
  match goal with
  | |- context [(?a <? ?b)] => destruct (Z.ltb_spec a b); cbn [andb orb]
  end.

Ltac bits_arith :=
  repeat match goal with
  | |- context [Z.testbit ?x ?i] =>
      progress (ring_simplify i)
  end.

Ltac loc_bits :=
  apply Z.bits_inj'; intros i Hi;
  repeat bits_step;
  repeat (bits_case; try lia; repeat bits_step);
  rewrite ?Bool.orb_false_r, ?Bool.andb_false_r, ?Bool.andb_true_r; cbn [andb orb];
  try reflexivity;
  try (f_equal; lia).

(** The packed value of four fields that fit. *)
Definition loc_pack (f l c w : Z) : loc_t :=
  Z.lor (Z.lor (Z.lor (Z.shiftl (f mod 2 ^ 20) 44) (Z.shiftl (l mod 2 ^ 20) 24))
               (Z.shiftl (c mod 2 ^ 12) 12)) (w mod 2 ^ 12).

Lemma loc_make_unchecked_pack (f l c w : Z) :
  0 ≤ f < 2 ^ 20 → 0 ≤ l < 2 ^ 20 → 0 ≤ c < 2 ^ 12 → 0 ≤ w < 2 ^ 12 →
  loc_make_unchecked f l c w = loc_pack f l c w.
Proof.
  intros Hf Hl Hc Hw. unfold loc_make_unchecked, loc_pack, u64.
  change _loc_srcfileidShift with 44. change _loc_lineShift with 24.
  change _loc_colShift with 12.
  rewrite <- (Z.mod_small f (2 ^ 20)) at 1 by lia.
  rewrite <- (Z.mod_small l (2 ^ 20)) at 1 by lia.
  rewrite <- (Z.mod_small c (2 ^ 12)) at 1 by lia.
  rewrite <- (Z.mod_small w (2 ^ 12)) at 1 by lia.
  loc_bits.
Qed.

Lemma loc_pack_fields (f l c w : Z) :
  loc_fields (loc_pack f l c w) = (f mod 2 ^ 20, l mod 2 ^ 20, c mod 2 ^ 12, w mod 2 ^ 12).
Proof.
  unfold loc_fields, loc_srcfileid, loc_line, loc_col, loc_width, loc_pack, u32.
  change _loc_srcfileidShift with 44. change _loc_lineShift with 24.
  change _loc_colShift with 12. change _loc_lineMax with (Z.ones 20).
  change _loc_colMax with (Z.ones 12). change _loc_widthMax with (Z.ones 12).
  f_equal; [f_equal; [f_equal|]|]; loc_bits.
Qed.

Lemma loc_fields_range (p : loc_t) :
  0 ≤ p < 2 ^ 64 →
  0 ≤ loc_srcfileid p < 2 ^ 20 ∧ 0 ≤ loc_line p < 2 ^ 20
  ∧ 0 ≤ loc_col p < 2 ^ 12 ∧ 0 ≤ loc_width p < 2 ^ 12.
Proof.
  intros Hp. unfold loc_srcfileid, loc_line, loc_col, loc_width, u32.
  change _loc_srcfileidShift with 44. change _loc_lineShift with 24.
  change _loc_colShift with 12. change _loc_lineMax with (Z.ones 20).
  change _loc_colMax with (Z.ones 12). change _loc_widthMax with (Z.ones 12).
  rewrite !Z.land_ones, !Z.shiftr_div_pow2 by lia.
  Z.div_mod_to_equations. lia.
Qed.

Lemma loc_pack_of_fields (p : loc_t) :
  0 ≤ p < 2 ^ 64 →
  loc_pack (loc_srcfileid p) (loc_line p) (loc_col p) (loc_width p) = p.
Proof.
  intros Hp. rewrite <- (Z.mod_small p (2 ^ 64)) by lia.
  unfold loc_srcfileid, loc_line, loc_col, loc_width, loc_pack, u32.
  change _loc_srcfileidShift with 44. change _loc_lineShift with 24.
  change _loc_colShift with 12. change _loc_lineMax with (Z.ones 20).
  change _loc_colMax with (Z.ones 12). change _loc_widthMax with (Z.ones 12).
  loc_bits.
Qed.

(** X3.  [loc_make] followed by the readers: every field reads back as
    the value given, clamped to the largest value the field holds (1048575
    for the file id and the line, 4095 for the column and the width); no
    field spills into another. *)
Theorem loc_make_fields (srcfileid line col width : Z) :
  0 ≤ srcfileid < 2 ^ 32 → 0 ≤ line < 2 ^ 32 → 0 ≤ col < 2 ^ 32 → 0 ≤ width < 2 ^ 32 →
  loc_fields (loc_make srcfileid line col width)
  = (Z.min 1048575 srcfileid, Z.min 1048575 line, Z.min 4095 col, Z.min 4095 width).
Proof.
  intros Hf Hl Hc Hw. unfold loc_make.
  change _loc_srcfileidMax with 1048575. change _loc_lineMax with 1048575.
  change _loc_colMax with 4095. change _loc_widthMax with 4095.
  rewrite loc_make_unchecked_pack, loc_pack_fields by lia.
  by rewrite !Z.mod_small by lia.
Qed.

Lemma loc_make_fields_witness :
  loc_fields (loc_make 3 2000000 7 5000) = (3, 1048575, 7, 4095).
Proof. apply (loc_make_fields 3 2000000 7 5000); lia. Defined.

(** X4.  Reading the four fields of a position and making a position of
    them gives the position back: the four fields are all of it. *)
Theorem loc_make_of_fields (p : loc_t) :
  0 ≤ p < 2 ^ 64 →
  loc_make (loc_srcfileid p) (loc_line p) (loc_col p) (loc_width p) = p.
Proof.
  intros Hp. destruct (loc_fields_range p Hp) as (Hf & Hl & Hc & Hw).
  unfold loc_make.
  change _loc_srcfileidMax with 1048575. change _loc_lineMax with 1048575.
  change _loc_colMax with 4095. change _loc_widthMax with 4095.
  rewrite !Z.min_r by lia.
  rewrite loc_make_unchecked_pack by lia. by apply loc_pack_of_fields.
Qed.

Lemma loc_make_of_fields_witness :
  loc_make (loc_srcfileid 0x0000300007005004) (loc_line 0x0000300007005004)
           (loc_col 0x0000300007005004) (loc_width 0x0000300007005004)
  = 0x0000300007005004.
Proof. apply (loc_make_of_fields 0x0000300007005004); lia. Defined.

(** X5.  [loc_with_srcfileid], [loc_with_line], [loc_with_col] and
    [loc_with_width] replace one field, clamped, and keep the other
    three. *)
Theorem loc_with_fields (p : loc_t) (v : Z) :
  0 ≤ p < 2 ^ 64 → 0 ≤ v < 2 ^ 32 →
  loc_fields (loc_with_srcfileid p v)
    = (Z.min 1048575 v, loc_line p, loc_col p, loc_width p)
  ∧ loc_fields (loc_with_line p v)
    = (loc_srcfileid p, Z.min 1048575 v, loc_col p, loc_width p)
  ∧ loc_fields (loc_with_col p v)
    = (loc_srcfileid p, loc_line p, Z.min 4095 v, loc_width p)
  ∧ loc_fields (loc_with_width p v)
    = (loc_srcfileid p, loc_line p, loc_col p, Z.min 4095 v).
Proof.
  intros Hp Hv. destruct (loc_fields_range p Hp) as (Hf & Hl & Hc & Hw).
  unfold loc_with_srcfileid, loc_with_line, loc_with_col, loc_with_width.
  change _loc_srcfileidMax with 1048575. change _loc_lineMax with 1048575.
  change _loc_colMax with 4095. change _loc_widthMax with 4095.
  rewrite !loc_make_unchecked_pack, !loc_pack_fields by lia.
  by rewrite !Z.mod_small by lia.
Qed.

Lemma loc_with_fields_witness :
  loc_fields (loc_with_srcfileid (loc_make 1 2 3 4) 9) = (9, 2, 3, 4)
  ∧ loc_fields (loc_with_line (loc_make 1 2 3 4) 9) = (1, 9, 3, 4)
  ∧ loc_fields (loc_with_col (loc_make 1 2 3 4) 9) = (1, 2, 9, 4)
  ∧ loc_fields (loc_with_width (loc_make 1 2 3 4) 9) = (1, 2, 3, 9).
Proof.
  apply (loc_with_fields (loc_make 1 2 3 4) 9); [|lia].
  vm_compute; split; [discriminate|reflexivity].
Defined.

(** The order of two quadruples, the first component weighing most. *)
Definition fields_lt (x y : Z * Z * Z * Z) : Prop :=
  let '(f1, l1, c1, w1) := x in
  let '(f2, l2, c2, w2) := y in
  f1 < f2 ∨ (f1 = f2 ∧ (l1 < l2 ∨ (l1 = l2 ∧ (c1 < c2 ∨ (c1 = c2 ∧ w1 < w2))))).

(** X6.  [loc_isbefore] and [loc_isafter] compare the packed values;
    that is the order by file id, then line, then column, then width. *)
Theorem loc_isbefore_fields (p q : loc_t) :
  0 ≤ p < 2 ^ 64 → 0 ≤ q < 2 ^ 64 →
  (loc_isbefore p q = true ↔ fields_lt (loc_fields p) (loc_fields q))
  ∧ (loc_isafter p q = true ↔ fields_lt (loc_fields q) (loc_fields p)).
Proof.
  intros Hp Hq. unfold loc_isbefore, loc_isafter, fields_lt, loc_fields.
  rewrite !Z.ltb_lt.
  unfold loc_srcfileid, loc_line, loc_col, loc_width, u32.
  change _loc_srcfileidShift with 44. change _loc_lineShift with 24.
  change _loc_colShift with 12. change _loc_lineMax with (Z.ones 20).
  change _loc_colMax with (Z.ones 12). change _loc_widthMax with (Z.ones 12).
  rewrite !Z.land_ones, !Z.shiftr_div_pow2 by lia.
  Z.div_mod_to_equations. lia.
Qed.

Lemma loc_isbefore_fields_witness :
  (loc_isbefore (loc_make 1 9 80 1) (loc_make 1 10 2 1) = true
   ↔ fields_lt (1, 9, 80, 1) (1, 10, 2, 1))
  ∧ (loc_isafter (loc_make 1 9 80 1) (loc_make 1 10 2 1) = true
     ↔ fields_lt (1, 10, 2, 1) (1, 9, 80, 1)).
Proof.
  apply (loc_isbefore_fields (loc_make 1 9 80 1) (loc_make 1 10 2 1));
    vm_compute; split; (discriminate || reflexivity).
Defined.

(** X7.  [loc_min] prefers a known position: with the unknown position 0
    on one side it returns the other side, and of two positions that are
    not 0 it returns the smaller.  [loc_max] returns the larger. *)
Theorem loc_min_known (a b : loc_t) :
  0 ≤ a < 2 ^ 64 → 0 ≤ b < 2 ^ 64 →
  loc_min a 0 = a ∧ loc_min 0 b = b
  ∧ (0 < a → 0 < b → loc_min a b = Z.min a b)
  ∧ loc_max a b = Z.max a b.
Proof.
  intros Ha Hb. unfold loc_min, loc_max, u64. repeat split.
  - change ((0 - 1) mod 2 ^ 64) with (2 ^ 64 - 1).
    destruct (Z.ltb_spec (2 ^ 64 - 1) ((a - 1) mod 2 ^ 64)); [|reflexivity].
    pose proof (Z.mod_pos_bound (a - 1) (2 ^ 64)). lia.
  - change ((0 - 1) mod 2 ^ 64) with (2 ^ 64 - 1).
    destruct (Z.ltb_spec ((b - 1) mod 2 ^ 64) (2 ^ 64 - 1)); [reflexivity|].
    destruct (decide (b = 0)) as [->|]; [reflexivity|].
    rewrite Z.mod_small in * by lia. lia.
  - intros Ha0 Hb0. rewrite !Z.mod_small by lia.
    destruct (Z.ltb_spec (b - 1) (a - 1)); lia.
  - destruct (Z.ltb_spec a b); lia.
Qed.

Lemma loc_min_known_witness :
  loc_min (loc_make 1 9 80 1) 0 = loc_make 1 9 80 1
  ∧ loc_min 0 (loc_make 1 10 2 1) = loc_make 1 10 2 1
  ∧ (0 < loc_make 1 9 80 1 → 0 < loc_make 1 10 2 1 →
     loc_min (loc_make 1 9 80 1) (loc_make 1 10 2 1) = loc_make 1 9 80 1)
  ∧ loc_max (loc_make 1 9 80 1) (loc_make 1 10 2 1) = loc_make 1 10 2 1.
Proof.
  apply (loc_min_known (loc_make 1 9 80 1) (loc_make 1 10 2 1));
    vm_compute; split; (discriminate || reflexivity).
Defined.

(** ** Edit distance ([levenshtein_dist], [levenshtein])

    The distance between the name that was not found and a candidate, by
    which [fuzzy_sort] orders its suggestions.  [d] is the table the caller
    allocates, [(alen+1) * (blen+1)] cells of type [int]; a cell below 0
    is not computed yet.  A read or write outside a string or the table,
    and a table size that does not fit an [int], have no result. *)

Definition INT_MAX : Z := 2147483647.

(** [v[k]] for an [int] index [k]. *)
Definition at_int {A : Type} (v : list A) (k : Z) : option A :=
  if (k <? 0) then None else v !! Z.to_nat k.

(** [v[k] = x] *)
Definition set_int {A : Type} (v : list A) (k : Z) (x : A) : option (list A) :=
  if (k <? 0) || (Z.of_nat (length v) <=? k) then None
  else Some (<[Z.to_nat k := x]> v).

(** [levenshtein_dist]; one unit of fuel for every call. *)
Fixpoint levenshtein_dist (fuel : nat) (astr : list ascii) (alen : Z)
    (bstr : list ascii) (blen : Z) (d : list Z) (i j : Z) : option (list Z * Z) :=
  match fuel with
  | O => None
  | S fuel =>
      c ← at_int d (i * (blen + 1) + j);
      if (0 <=? c) then Some (d, c) else
      '(d, x) ←
        (if (i =? alen) then Some (d, blen - j)
         else if (j =? blen) then Some (d, alen - i)
         else
           ai ← at_int astr i;
           bj ← at_int bstr j;
           if bool_decide (ai = bj)
           then levenshtein_dist fuel astr alen bstr blen d (i + 1) (j + 1)
           else
             '(d, x) ← levenshtein_dist fuel astr alen bstr blen d (i + 1) (j + 1);
             '(d, y) ← levenshtein_dist fuel astr alen bstr blen d i (j + 1);
             let x := if (y <? x) then y else x in
             '(d, y) ← levenshtein_dist fuel astr alen bstr blen d (i + 1) j;
             let x := if (y <? x) then y else x in
             Some (d, x + 1));
      d ← set_int d (i * (blen + 1) + j) x;
      Some (d, x)
  end.

(** The loop [for (i = 0; i < n; i++) d[i] = -1]. *)
Definition table_clear (d : list Z) (n : Z) : option (list Z) :=
  if (Z.of_nat (length d) <? n) then None
  else Some (replicate (Z.to_nat n) (-1) ++ drop (Z.to_nat n) d).

(** [levenshtein] *)
Definition levenshtein (fuel : nat) (astr : list ascii) (alen : Z)
    (bstr : list ascii) (blen : Z) (d : list Z) : option (list Z * Z) :=
  if (INT_MAX <? (alen + 1) * (blen + 1)) then None else
  d ← table_clear d ((alen + 1) * (blen + 1));
  levenshtein_dist fuel astr alen bstr blen d 0 0.

(** The recurrence [levenshtein_dist] follows, on the rest of the two
    strings. *)
Fixpoint lev (a b : list ascii) : nat :=
  match a with
  | [] => length b
  | x :: a' =>
      (fix lev_a (b : list ascii) : nat :=
         match b with
         | [] => length a
         | y :: b' =>
             if bool_decide (x = y) then lev a' b'
             else S (lev a' b' `min` (lev_a b' `min` lev a' b))
         end) b
  end.

Lemma lev_nil_r (a : list ascii) : lev a [] = length a.
Proof. by destruct a. Qed.

Lemma lev_cons (x y : ascii) (a b : list ascii) :
  lev (x :: a) (y :: b)
  = if bool_decide (x = y) then lev a b
    else S (lev a b `min` (lev (x :: a) b `min` lev a (y :: b))).
Proof. reflexivity. Qed.

Lemma at_int_nat {A : Type} (v : list A) (k : nat) : at_int v (Z.of_nat k) = v !! k.
Proof.
  unfold at_int. destruct (Z.ltb_spec (Z.of_nat k) 0); [lia|]. by rewrite Nat2Z.id.
Qed.

Lemma set_int_nat {A : Type} (v : list A) (k : nat) (x : A) :
  (k < length v)%nat → set_int v (Z.of_nat k) x = Some (<[k := x]> v).
Proof.
  intros Hk. unfold set_int.
  destruct (Z.ltb_spec (Z.of_nat k) 0); [lia|].
  destruct (Z.leb_spec (Z.of_nat (length v)) (Z.of_nat k)); [lia|].
  cbn [orb]. by rewrite Nat2Z.id.
Qed.

Section levenshtein_facts.
Context (astr bstr : list ascii).

#[local] Abbreviation alen := (Z.of_nat (length astr)).
#[local] Abbreviation blen := (Z.of_nat (length bstr)).

(** What a table holds: every cell of the rectangle that is computed holds
    the distance of the two rests. *)
Definition table_ok (d : list Z) : Prop :=
  (alen + 1) * (blen + 1) ≤ Z.of_nat (length d)
  ∧ ∀ (i j : nat) (c : Z),
      (i ≤ length astr)%nat → (j ≤ length bstr)%nat →
      d !! (i * (length bstr + 1) + j)%nat = Some c → 0 ≤ c →
      c = Z.of_nat (lev (drop i astr) (drop j bstr)).

Lemma table_ok_insert (d : list Z) (i j : nat) :
  table_ok d → (i ≤ length astr)%nat → (j ≤ length bstr)%nat →
  table_ok (<[(i * (length bstr + 1) + j)%nat := Z.of_nat (lev (drop i astr) (drop j bstr))]> d).
Proof.
  intros [Hlen Hd] Hi Hj. split; [by rewrite length_insert|].
  intros i' j' c Hi' Hj' Hc Hc0.
  destruct (decide ((i * (length bstr + 1) + j)%nat = (i' * (length bstr + 1) + j')%nat))
    as [Heq|Hne].
  - assert (i = i' ∧ j = j') as [<- <-].
    { pose proof (Nat.mul_le_mono_r (S i) i' (length bstr + 1)).
      pose proof (Nat.mul_le_mono_r (S i') i (length bstr + 1)).
      destruct (Nat.lt_trichotomy i i') as [?|[->|?]]; lia. }
    rewrite list_lookup_insert_eq in Hc by nia. congruence.
  - rewrite list_lookup_insert_ne in Hc by done. by eapply Hd.
Qed.

Lemma levenshtein_dist_lev (fuel : nat) : ∀ (d : list Z) (i j : nat),
  table_ok d → (i ≤ length astr)%nat → (j ≤ length bstr)%nat →
  (length astr - i + (length bstr - j) < fuel)%nat →
  ∃ d', levenshtein_dist fuel astr alen bstr blen d (Z.of_nat i) (Z.of_nat j)
        = Some (d', Z.of_nat (lev (drop i astr) (drop j bstr)))
        ∧ table_ok d' ∧ length d' = length d.
Proof.
  induction fuel as [|fuel IH]; intros d i j Hd Hi Hj Hf; [lia|].
  cbn [levenshtein_dist].
  assert (Hidx : Z.of_nat i * (blen + 1) + Z.of_nat j
                 = Z.of_nat (i * (length bstr + 1) + j)) by lia.
  rewrite Hidx, !at_int_nat.
  destruct Hd as [Hlen Hcells].
  assert (Hin : (i * (length bstr + 1) + j < length d)%nat) by nia.
  destruct (lookup_lt_is_Some_2 d _ Hin) as [c Hc]. rewrite Hc. cbn [mbind option_bind].
  destruct (Z.leb_spec 0 c) as [Hc0|Hc0].
  { exists d. rewrite (Hcells i j c Hi Hj Hc Hc0). by repeat split. }
  (* the cell is computed now *)
  assert (Hset : ∀ d1, length d1 = length d →
    set_int d1 (Z.of_nat (i * (length bstr + 1) + j))
      (Z.of_nat (lev (drop i astr) (drop j bstr)))
    = Some (<[(i * (length bstr + 1) + j)%nat := Z.of_nat (lev (drop i astr) (drop j bstr))]> d1)).
  { intros d1 Hd1. apply set_int_nat. lia. }
  assert (Hfin : ∀ d1 x, table_ok d1 → length d1 = length d →
    x = Z.of_nat (lev (drop i astr) (drop j bstr)) →
    ∃ d', (d2 ← set_int d1 (Z.of_nat (i * (length bstr + 1) + j)) x; Some (d2, x))
          = Some (d', Z.of_nat (lev (drop i astr) (drop j bstr)))
          ∧ table_ok d' ∧ length d' = length d).
  { intros d1 x Hd1 Hl1 ->. rewrite Hset by done. cbn [mbind option_bind].
    eexists; split; [reflexivity|]. split; [by apply table_ok_insert|].
    by rewrite length_insert. }
  destruct (Z.eqb_spec (Z.of_nat i) alen) as [Hia|Hia].
  { cbn [mbind option_bind]. apply Hfin; [by split|done|].
    assert (i = length astr) as -> by lia.
    rewrite drop_all. cbn [lev]. rewrite length_drop. lia. }
  destruct (Z.eqb_spec (Z.of_nat j) blen) as [Hjb|Hjb].
  { cbn [mbind option_bind]. apply Hfin; [by split|done|].
    assert (j = length bstr) as -> by lia.
    rewrite (drop_all bstr), lev_nil_r, length_drop. lia. }
  assert (Hi' : (i < length astr)%nat) by lia.
  assert (Hj' : (j < length bstr)%nat) by lia.
  destruct (lookup_lt_is_Some_2 astr i Hi') as [ai Hai].
  destruct (lookup_lt_is_Some_2 bstr j Hj') as [bj Hbj].
  rewrite Hai, Hbj. cbn [mbind option_bind].
  assert (Hlev : lev (drop i astr) (drop j bstr)
                 = if bool_decide (ai = bj) then lev (drop (S i) astr) (drop (S j) bstr)
                   else S (lev (drop (S i) astr) (drop (S j) bstr)
                           `min` (lev (drop i astr) (drop (S j) bstr)
                                  `min` lev (drop (S i) astr) (drop j bstr)))).
  { rewrite (drop_S astr ai i Hai), (drop_S bstr bj j Hbj). rewrite lev_cons.
    by rewrite <- (drop_S astr ai i Hai), <- (drop_S bstr bj j Hbj). }
  replace (Z.of_nat i + 1) with (Z.of_nat (S i)) by lia.
  replace (Z.of_nat j + 1) with (Z.of_nat (S j)) by lia.
  destruct (IH d (S i) (S j)) as (d1 & E1 & Hd1 & Hl1); [by split|lia|lia|lia|].
  destruct (bool_decide (ai = bj)).
  { rewrite E1. cbn [mbind option_bind]. apply Hfin; [done|done|by rewrite Hlev]. }
  rewrite E1. cbn [mbind option_bind].
  destruct (IH d1 i (S j)) as (d2 & E2 & Hd2 & Hl2); [done|lia|lia|lia|].
  rewrite E2. cbn [mbind option_bind].
  destruct (IH d2 (S i) j) as (d3 & E3 & Hd3 & Hl3); [done|lia|lia|lia|].
  rewrite E3. cbn [mbind option_bind].
  apply Hfin; [done|congruence|]. rewrite Hlev.
  generalize (lev (drop (S i) astr) (drop (S j) bstr))
             (lev (drop i astr) (drop (S j) bstr))
             (lev (drop (S i) astr) (drop j bstr)).
  intros x y z.
  destruct (Z.ltb_spec (Z.of_nat y) (Z.of_nat x));
    match goal with |- context [if (?a <? ?b) then _ else _] =>
      destruct (Z.ltb_spec a b) end; lia.
Qed.

Lemma table_clear_ok (d : list Z) :
  (alen + 1) * (blen + 1) ≤ Z.of_nat (length d) →
  ∃ d0, table_clear d ((alen + 1) * (blen + 1)) = Some d0
        ∧ table_ok d0 ∧ length d0 = length d.
Proof.
  intros Hlen. unfold table_clear.
  destruct (Z.ltb_spec (Z.of_nat (length d)) ((alen + 1) * (blen + 1))); [lia|].
  eexists; split; [reflexivity|].
  assert (Hl : length (replicate (Z.to_nat ((alen + 1) * (blen + 1))) (-1)
                       ++ drop (Z.to_nat ((alen + 1) * (blen + 1))) d) = length d).
  { rewrite length_app, length_replicate, length_drop. lia. }
  split; [|exact Hl]. split; [by rewrite Hl|].
  intros i j c Hi Hj Hc Hc0.
  rewrite lookup_app_l in Hc by (rewrite length_replicate; nia).
  apply lookup_replicate in Hc as [-> _]. lia.
Qed.

Lemma levenshtein_lev (fuel : nat) (d : list Z) :
  (alen + 1) * (blen + 1) ≤ INT_MAX →
  (alen + 1) * (blen + 1) ≤ Z.of_nat (length d) →
  (length astr + length bstr < fuel)%nat →
  ∃ d', levenshtein fuel astr alen bstr blen d = Some (d', Z.of_nat (lev astr bstr))
        ∧ length d' = length d.
Proof.
  intros Hint Hlen Hf. unfold levenshtein.
  destruct (Z.ltb_spec INT_MAX ((alen + 1) * (blen + 1))); [lia|].
  destruct (table_clear_ok d Hlen) as (d0 & -> & Hd0 & Hl0). cbn [mbind option_bind].
  destruct (levenshtein_dist_lev fuel d0 0 0 Hd0) as (d' & E & _ & Hl); [lia|lia|lia|].
  exists d'. split; [exact E|congruence].
Qed.

End levenshtein_facts.

(** The recurrence is a distance between strings. *)
Lemma lev_refl (a : list ascii) : lev a a = 0%nat.
Proof.
  induction a as [|x a IH]; [done|]. rewrite lev_cons.
  by rewrite bool_decide_true.
Qed.

Lemma lev_upper (a : list ascii) : ∀ b, (lev a b ≤ length a `max` length b)%nat.
Proof.
  induction a as [|x a IHa]; intros b; [simpl; lia|].
  induction b as [|y b IHb]; [rewrite lev_nil_r; lia|].
  rewrite lev_cons. specialize (IHa b). cbn [length] in *.
  destruct (bool_decide (x = y)); lia.
Qed.

Lemma lev_lower (a : list ascii) : ∀ b,
  (length a - length b ≤ lev a b ∧ length b - length a ≤ lev a b)%nat.
Proof.
  induction a as [|x a IHa]; intros b; [simpl; lia|].
  induction b as [|y b IHb]; [rewrite lev_nil_r; simpl; lia|].
  rewrite lev_cons. pose proof (IHa b). pose proof (IHa (y :: b)).
  cbn [length] in *. destruct (bool_decide (x = y)); lia.
Qed.

Lemma lev_zero (a : list ascii) : ∀ b, lev a b = 0%nat → a = b.
Proof.
  induction a as [|x a IHa]; intros b.
  - destruct b; [done|discriminate].
  - destruct b as [|y b]; [discriminate|]. rewrite lev_cons.
    destruct (bool_decide_reflect (x = y)) as [->|]; [|discriminate].
    intros H. by rewrite (IHa b H).
Qed.

Lemma lev_sym (a : list ascii) : ∀ b, lev a b = lev b a.
Proof.
  induction a as [|x a IHa]; intros b; [by rewrite lev_nil_r|].
  induction b as [|y b IHb]; [by rewrite lev_nil_r|].
  rewrite !lev_cons, IHb, <- !IHa.
  destruct (bool_decide_reflect (x = y)) as [->|Hne].
  - by rewrite bool_decide_true.
  - rewrite bool_decide_false by congruence. lia.
Qed.

(** The table has room for the two strings. *)
Definition table_room (astr bstr : list ascii) (d : list Z) : Prop :=
  (Z.of_nat (length astr) + 1) * (Z.of_nat (length bstr) + 1) ≤ INT_MAX
  ∧ (Z.of_nat (length astr) + 1) * (Z.of_nat (length bstr) + 1) ≤ Z.of_nat (length d).

(** X8.  [levenshtein] on a table with room never reads or writes
    outside the strings or the table, returns whatever the table held
    before, and its result is the value of the recurrence: the length of
    the other string when one is empty, the distance of the rests when the
    first characters are equal, and otherwise one more than the least
    distance after a substitution, an insertion or a deletion. *)
Theorem levenshtein_recurrence (fuel : nat) (astr bstr : list ascii) (d : list Z) :
  table_room astr bstr d →
  (length astr + length bstr < fuel)%nat →
  ∃ d', levenshtein fuel astr (Z.of_nat (length astr)) bstr (Z.of_nat (length bstr)) d
        = Some (d', Z.of_nat (lev astr bstr))
        ∧ length d' = length d.
Proof. intros [Hint Hlen] Hf. by apply levenshtein_lev. Qed.

Lemma levenshtein_recurrence_witness :
  ∃ d', levenshtein 9 (list_ascii_of_string "fop") 3 (list_ascii_of_string "foo") 3
          (replicate 16 7)
        = Some (d', 1) ∧ length d' = 16%nat.
Proof.
  apply (levenshtein_recurrence 9 (list_ascii_of_string "fop") (list_ascii_of_string "foo")
           (replicate 16 7)).
  - split; vm_compute; discriminate.
  - simpl. lia.
Defined.

(** X9.  The distance [levenshtein] returns is 0 exactly when the two
    strings are equal. *)
Theorem levenshtein_zero_iff_equal (fuel : nat) (astr bstr : list ascii) (d : list Z) :
  table_room astr bstr d →
  (length astr + length bstr < fuel)%nat →
  ∃ d' x, levenshtein fuel astr (Z.of_nat (length astr)) bstr (Z.of_nat (length bstr)) d
          = Some (d', x)
          ∧ (x = 0 ↔ astr = bstr).
Proof.
  intros [Hint Hlen] Hf.
  destruct (levenshtein_lev astr bstr fuel d Hint Hlen Hf) as (d' & E & _).
  exists d', (Z.of_nat (lev astr bstr)). split; [exact E|]. split.
  - intros H. apply lev_zero. lia.
  - intros ->. by rewrite lev_refl.
Qed.

Lemma levenshtein_zero_iff_equal_witness :
  ∃ d' x, levenshtein 9 (list_ascii_of_string "foo") 3 (list_ascii_of_string "foo") 3
            (replicate 16 7)
          = Some (d', x)
          ∧ (x = 0 ↔ list_ascii_of_string "foo" = list_ascii_of_string "foo").
Proof.
  apply (levenshtein_zero_iff_equal 9 (list_ascii_of_string "foo")
           (list_ascii_of_string "foo") (replicate 16 7)).
  - split; vm_compute; discriminate.
  - simpl. lia.
Defined.

(** X10.  The distance [levenshtein] returns is at least the difference
    of the two lengths and at most the larger length. *)
Theorem levenshtein_bounds (fuel : nat) (astr bstr : list ascii) (d : list Z) :
  table_room astr bstr d →
  (length astr + length bstr < fuel)%nat →
  ∃ d' x, levenshtein fuel astr (Z.of_nat (length astr)) bstr (Z.of_nat (length bstr)) d
          = Some (d', x)
          ∧ Z.abs (Z.of_nat (length astr) - Z.of_nat (length bstr)) ≤ x
          ∧ x ≤ Z.max (Z.of_nat (length astr)) (Z.of_nat (length bstr)).
Proof.
  intros [Hint Hlen] Hf.
  destruct (levenshtein_lev astr bstr fuel d Hint Hlen Hf) as (d' & E & _).
  exists d', (Z.of_nat (lev astr bstr)). split; [exact E|].
  pose proof (lev_upper astr bstr). pose proof (lev_lower astr bstr). lia.
Qed.

Lemma levenshtein_bounds_witness :
  ∃ d' x, levenshtein 9 (list_ascii_of_string "ab") 2 (list_ascii_of_string "xyzw") 4
            (replicate 15 0)
          = Some (d', x) ∧ Z.abs (2 - 4) ≤ x ∧ x ≤ Z.max 2 4.
Proof.
  apply (levenshtein_bounds 9 (list_ascii_of_string "ab") (list_ascii_of_string "xyzw")
           (replicate 15 0)).
  - split; vm_compute; discriminate.
  - simpl. lia.
Defined.

(** X11.  [levenshtein] is symmetric: the distance from [astr] to [bstr]
    is the distance from [bstr] to [astr]. *)
Theorem levenshtein_symmetric (fuel : nat) (astr bstr : list ascii) (d1 d2 : list Z) :
  table_room astr bstr d1 → table_room bstr astr d2 →
  (length astr + length bstr < fuel)%nat →
  ∃ d1' d2' x,
    levenshtein fuel astr (Z.of_nat (length astr)) bstr (Z.of_nat (length bstr)) d1
    = Some (d1', x)
    ∧ levenshtein fuel bstr (Z.of_nat (length bstr)) astr (Z.of_nat (length astr)) d2
      = Some (d2', x).
Proof.
  intros [Hint1 Hlen1] [Hint2 Hlen2] Hf.
  destruct (levenshtein_lev astr bstr fuel d1 Hint1 Hlen1 Hf) as (d1' & E1 & _).
  destruct (levenshtein_lev bstr astr fuel d2 Hint2 Hlen2) as (d2' & E2 & _); [lia|].
  exists d1', d2', (Z.of_nat (lev astr bstr)). split; [exact E1|].
  by rewrite (lev_sym astr bstr).
Qed.

Lemma levenshtein_symmetric_witness :
  ∃ d1' d2' x,
    levenshtein 9 (list_ascii_of_string "ab") 2 (list_ascii_of_string "xbzw") 4
      (replicate 15 0) = Some (d1', x)
    ∧ levenshtein 9 (list_ascii_of_string "xbzw") 4 (list_ascii_of_string "ab") 2
        (replicate 15 0) = Some (d2', x).
Proof.
  apply (levenshtein_symmetric 9 (list_ascii_of_string "ab") (list_ascii_of_string "xbzw")
           (replicate 15 0) (replicate 15 0)).
  - split; vm_compute; discriminate.
  - split; vm_compute; discriminate.
  - simpl. lia.
Defined.

Example levenshtein_kitten :
  snd <$> levenshtein 20 (list_ascii_of_string "kitten") 6 (list_ascii_of_string "sitting") 7
            (replicate 56 0) = Some 3.
Proof. vm_compute. reflexivity. Qed.

(** ** The stack of type contexts ([typectx_push], [typectx_pop])

    The checker brackets the check of a subexpression between a push and a
    pop ([assign], [binop], [local], [arraytype], [subscript], ...).  A
    run of the checker is seen here as the sequence of pushes and pops it
    makes. *)
Inductive ctxop : Set :=
  | CtxPush (t : type_t)
  | CtxPop.

Definition ctx_step (a : typecheck_t) (o : ctxop) : typecheck_t :=
  match o with
  | CtxPush t => typectx_push a t
  | CtxPop => typectx_pop a
  end.

Definition ctx_run (ops : list ctxop) (a : typecheck_t) : typecheck_t :=
  foldl ctx_step a ops.

(** The nesting depth after [ops], entered at depth [k]; [None] when a pop
    has no push before it. *)
Fixpoint ctx_depth (ops : list ctxop) (k : nat) : option nat :=
  match ops with
  | [] => Some k
  | CtxPush _ :: ops => ctx_depth ops (S k)
  | CtxPop :: ops =>
      match k with
      | O => None
      | S k => ctx_depth ops k
      end
  end.

Fixpoint ctx_pushes (ops : list ctxop) : nat :=
  match ops with
  | [] => 0
  | CtxPush _ :: ops => S (ctx_pushes ops)
  | CtxPop :: ops => ctx_pushes ops
  end.

(** The current context on top of the saved ones. *)
Definition ctx_all (a : typecheck_t) : list type_t := typectx a :: typectxstack a.

Lemma ctx_run_stack (ops : list ctxop) : ∀ (a : typecheck_t) (k n : nat) (pre rest : list type_t),
  ctx_all a = pre ++ rest → length pre = k → rest ≠ [] →
  ctx_depth ops k = Some n →
  (ctx_pushes ops ≤ ma a)%nat →
  ∃ pre', ctx_all (ctx_run ops a) = pre' ++ rest ∧ length pre' = n
          ∧ err (ctx_run ops a) = err a ∧ diags (ctx_run ops a) = diags a
          ∧ reported_error (ctx_run ops a) = reported_error a
          ∧ ma (ctx_run ops a) = (ma a - ctx_pushes ops)%nat.
Proof.
  induction ops as [|[t|] ops IH]; intros a k n pre rest Hall Hk Hrest Hd Hma.
  - injection Hd as <-. exists pre. cbn. repeat split; auto. lia.
  - cbn [ctx_depth ctx_pushes] in *. cbn [ctx_run foldl ctx_step].
    destruct (ma a) as [|m] eqn:Em; [lia|].
    assert (Ep : typectx_push a t = set_typectx (set_ma a m) t (typectx a :: typectxstack a)).
    { unfold typectx_push. rewrite Em. reflexivity. }
    rewrite Ep.
    destruct (IH (set_typectx (set_ma a m) t (typectx a :: typectxstack a))
                (S k) n (t :: pre) rest) as (pre' & H1 & H2 & H3 & H4 & H5 & H6).
    + unfold ctx_all in *. cbn. by rewrite <- Hall.
    + cbn. by rewrite Hk.
    + done.
    + done.
    + cbn. lia.
    + exists pre'. unfold ctx_run in *. rewrite H1, H2, H3, H4, H5, H6. cbn.
      repeat split; auto.
  - cbn [ctx_depth ctx_pushes] in *. cbn [ctx_run foldl ctx_step].
    destruct k as [|k]; [discriminate|].
    destruct pre as [|x pre]; [discriminate|]. injection Hk as Hk.
    unfold ctx_all in Hall. injection Hall as Hx Hs.
    assert (∃ y s, typectxstack a = y :: s) as (y & s & Es).
    { destruct (typectxstack a) as [|y s]; [|by eauto].
      destruct pre; [simpl in Hs; congruence|discriminate]. }
    assert (Ep : typectx_pop a = set_typectx a y s).
    { unfold typectx_pop. by rewrite Es. }
    rewrite Ep.
    destruct (IH (set_typectx a y s) k n pre rest) as (pre' & H1 & H2 & H3 & H4 & H5 & H6).
    + unfold ctx_all. cbn. congruence.
    + done.
    + done.
    + done.
    + cbn. lia.
    + exists pre'. unfold ctx_run in *. rewrite H1, H2, H3, H4, H5, H6. cbn.
      repeat split; auto.
Qed.

(** X12.  Pushes and pops that nest leave the type context as it was:
    after a sequence in which every pop has a push before it and every
    push is popped, with the allocator serving every push, the current
    context and the saved contexts are those of the start, and nothing is
    reported. *)
Theorem typectx_balanced (ops : list ctxop) (a : typecheck_t) :
  ctx_depth ops 0 = Some 0%nat →
  (ctx_pushes ops ≤ ma a)%nat →
  typectx (ctx_run ops a) = typectx a
  ∧ typectxstack (ctx_run ops a) = typectxstack a
  ∧ err (ctx_run ops a) = err a
  ∧ diags (ctx_run ops a) = diags a.
Proof.
  intros Hd Hma.
  destruct (ctx_run_stack ops a 0 0 [] (ctx_all a)) as (pre' & H1 & H2 & H3 & H4 & _);
    [done..|].
  destruct pre'; [|discriminate]. unfold ctx_all in H1. injection H1 as H1 H1'.
  by repeat split.
Qed.

Lemma typectx_balanced_witness :
  let ops := [CtxPush type_uint; CtxPush type_i8; CtxPop; CtxPop; CtxPush type_bool; CtxPop] in
  typectx (ctx_run ops state0) = type_void
  ∧ typectxstack (ctx_run ops state0) = []
  ∧ err (ctx_run ops state0) = ErrOk
  ∧ diags (ctx_run ops state0) = [].
Proof.
  intros ops. apply (typectx_balanced ops state0); [reflexivity|cbn; lia].
Defined.

(** X13.  When the allocator cannot serve a push, the context that was
    current is not saved: the checker reports "out of memory", records
    [ErrNoMem] unless an error is recorded already, and the pop that
    follows takes the context of the enclosing bracket off the stack. *)
Theorem typectx_push_out_of_memory (a : typecheck_t) (t outer : type_t) (saved : list type_t) :
  ma a = 0%nat →
  typectxstack a = outer :: saved →
  let a' := typectx_pop (typectx_push a t) in
  typectx (typectx_push a t) = t
  ∧ typectx a' = outer ∧ typectxstack a' = saved
  ∧ err a' = (if decide (err a = ErrOk) then ErrNoMem else err a)
  ∧ reported_error a' = true
  ∧ diags a' = diags a ++ [Diag DIAG_ERR "out of memory" []].
Proof.
  intros Hma Hs. unfold typectx_push, typectx_pop. rewrite Hma. cbn.
  rewrite Hs. unfold out_of_mem, seterr. cbn.
  destruct (err a) eqn:E; cbn; rewrite ?E; by repeat split.
Qed.

Lemma typectx_push_out_of_memory_witness :
  let a := set_typectx (typecheck_init compiler64 0) type_i8 [type_void] in
  let a' := typectx_pop (typectx_push a type_uint) in
  typectx (typectx_push a type_uint) = type_uint
  ∧ typectx a' = type_void ∧ typectxstack a' = []
  ∧ err a' = ErrNoMem
  ∧ reported_error a' = true
  ∧ diags a' = [Diag DIAG_ERR "out of memory" []].
Proof.
  intros a.
  apply (typectx_push_out_of_memory a type_uint type_void []); reflexivity.
Defined.

(** ** Concrete types and equivalence ([concrete_type], [type_isequivalent]) *)

Lemma concrete_type_tcu (c : compiler_t) (t : type_t) (fuel : nat) :
  compiler_ok c →
  (alias_depth t + 2 ≤ fuel)%nat →
  concrete_type fuel c t = Some (tcu c t).
Proof.
  intros Hc.
  destruct (inttype_prim c Hc) as (hi & ki & Ei & Hi).
  destruct (uinttype_prim c Hc) as (hu & ku & Eu & Hu).
  revert fuel. induction t as [h k|h k e IH|h e IH len|h n e IH|h k];
    intros [|[|fuel]] Hf; simpl in Hf; try lia.
  - destruct k; try reflexivity; unfold tcu; simpl; rewrite ?Ei, ?Eu;
      [destruct ki | destruct ku]; simpl in *; try discriminate; reflexivity.
  - reflexivity.
  - reflexivity.
  - change (concrete_type (S (S fuel)) c (TAlias h n e))
      with (concrete_type (S fuel) c e).
    rewrite IH by lia. reflexivity.
  - reflexivity.
Qed.

Lemma tcu_idem (c : compiler_t) (t : type_t) :
  compiler_ok c → tcu c (tcu c t) = tcu c t.
Proof.
  intros Hc. pose proof (tcu_not_alias c Hc t) as Ha.
  pose proof (tcu_not_native c Hc t) as Hn.
  destruct (tcu c t) as [h k|h k e|h e len|h n e|h k] eqn:E; try reflexivity.
  - destruct k; try reflexivity; exfalso; destruct (Hn h); congruence.
  - exfalso. by eapply Ha.
Qed.

(** X14.  [concrete_type] returns after at most one step for every alias
    at the head of the type and two more; its result is not an alias and
    is neither "int" nor "uint"; and it is a fixed point: the concrete
    type of a concrete type is the type itself. *)
Theorem concrete_type_resolved (c : compiler_t) (t : type_t) (fuel : nat) :
  compiler_ok c →
  (alias_depth t + 2 ≤ fuel)%nat →
  ∃ r, concrete_type fuel c t = Some r
       ∧ type_kind r ≠ TYPE_ALIAS ∧ type_kind r ≠ TYPE_INT ∧ type_kind r ≠ TYPE_UINT
       ∧ concrete_type fuel c r = Some r.
Proof.
  intros Hc Hf. exists (tcu c t). split; [by apply concrete_type_tcu|].
  pose proof (tcu_not_alias c Hc t) as Ha.
  pose proof (tcu_not_native c Hc t) as Hn.
  assert (Hk : type_kind (tcu c t) ≠ TYPE_ALIAS ∧ type_kind (tcu c t) ≠ TYPE_INT
               ∧ type_kind (tcu c t) ≠ TYPE_UINT).
  { destruct (tcu c t) as [h k|h k e|h e len|h n e|h k] eqn:E; cbn.
    - destruct (Hn h). destruct k; cbn; repeat split; congruence.
    - destruct k; repeat split; discriminate.
    - repeat split; discriminate.
    - exfalso. by eapply Ha.
    - destruct k; repeat split; discriminate. }
  destruct Hk as (H1 & H2 & H3). repeat split; auto.
  rewrite concrete_type_tcu; [by rewrite tcu_idem|done|].
  destruct (tcu c t) as [h k|h k e|h e len|h n e|h k] eqn:E; cbn in *; try lia.
  done.
Qed.

Lemma concrete_type_resolved_witness :
  ∃ r, concrete_type 3 compiler64 (TAlias (Thdr 50%positive 0 8 8) "MyInt" type_int) = Some r
       ∧ type_kind r ≠ TYPE_ALIAS ∧ type_kind r ≠ TYPE_INT ∧ type_kind r ≠ TYPE_UINT
       ∧ concrete_type 3 compiler64 r = Some r.
Proof.
  apply (concrete_type_resolved compiler64 (TAlias (Thdr 50%positive 0 8 8) "MyInt" type_int) 3).
  - split; reflexivity.
  - simpl. lia.
Defined.

(** When "int" is configured to be "int" itself, the loop of
    [concrete_type] does not end. *)
Example concrete_type_diverges (c : compiler_t) (h : thdr) (fuel : nat) :
  inttype c = TPrim h K_INT → concrete_type fuel c type_int = None.
Proof.
  intros Hi. assert (H : ∀ n, concrete_type n c (TPrim h K_INT) = None).
  { induction n as [|n IH]; [reflexivity|]. simpl. rewrite Hi. exact IH. }
  destruct fuel as [|fuel]; [reflexivity|]. simpl. rewrite Hi. apply H.
Qed.

Lemma type_isequivalent_tcu (c : compiler_t) (x y : type_t) (fuel : nat) :
  compiler_ok c →
  (alias_depth x + 2 ≤ fuel)%nat → (alias_depth y + 2 ≤ fuel)%nat →
  type_isequivalent fuel c x y
  = Some (ptr_eqb x y || ptr_eqb (tcu c x) (tcu c y)).
Proof.
  intros Hc Hx Hy. unfold type_isequivalent.
  destruct (ptr_eqb x y); [reflexivity|].
  by rewrite !concrete_type_tcu.
Qed.

Lemma ptr_eqb_sym (x y : type_t) : ptr_eqb x y = ptr_eqb y x.
Proof. unfold ptr_eqb. apply Pos.eqb_sym. Qed.

Lemma ptr_eqb_trans (x y z : type_t) :
  ptr_eqb x y = true → ptr_eqb y z = true → ptr_eqb x z = true.
Proof. unfold ptr_eqb. rewrite !Pos.eqb_eq. congruence. Qed.

(** X15.  [type_isequivalent] is an equivalence on nodes with addresses
    of their own: it is reflexive and symmetric, and transitive. *)
Theorem type_isequivalent_equivalence (c : compiler_t) (x y z : type_t) (fuel : nat) :
  compiler_ok c →
  addr_consistentb [x; y; z] = true →
  (alias_depth x + 2 ≤ fuel)%nat → (alias_depth y + 2 ≤ fuel)%nat →
  (alias_depth z + 2 ≤ fuel)%nat →
  type_isequivalent fuel c x x = Some true
  ∧ type_isequivalent fuel c x y = type_isequivalent fuel c y x
  ∧ (type_isequivalent fuel c x y = Some true →
     type_isequivalent fuel c y z = Some true →
     type_isequivalent fuel c x z = Some true).
Proof.
  intros Hc Ha Hx Hy Hz. pose proof (addr_consistentb_spec _ Ha) as Haddr.
  assert (Hxy : ptr_eqb x y = true → x = y).
  { unfold ptr_eqb. rewrite Pos.eqb_eq. apply Haddr; apply list_elem_of_In; simpl; tauto. }
  assert (Hyz : ptr_eqb y z = true → y = z).
  { unfold ptr_eqb. rewrite Pos.eqb_eq. apply Haddr; apply list_elem_of_In; simpl; tauto. }
  rewrite !type_isequivalent_tcu by done. repeat split.
  - by rewrite ptr_eqb_refl.
  - by rewrite (ptr_eqb_sym x y), (ptr_eqb_sym (tcu c x)).
  - intros [= H1] [= H2]. f_equal.
    apply orb_true_iff in H1 as [H1|H1].
    { rewrite (Hxy H1). exact H2. }
    apply orb_true_iff in H2 as [H2|H2].
    { rewrite <- (Hyz H2). by rewrite H1, orb_true_r. }
    by rewrite (ptr_eqb_trans _ _ _ H1 H2), orb_true_r.
Qed.

Definition MyInt : type_t := TAlias (Thdr 50%positive 0 8 8) "MyInt" type_int.

Lemma type_isequivalent_equivalence_witness :
  type_isequivalent 3 compiler64 MyInt MyInt = Some true
  ∧ type_isequivalent 3 compiler64 MyInt type_int = type_isequivalent 3 compiler64 type_int MyInt
  ∧ (type_isequivalent 3 compiler64 MyInt type_int = Some true →
     type_isequivalent 3 compiler64 type_int type_i64 = Some true →
     type_isequivalent 3 compiler64 MyInt type_i64 = Some true).
Proof.
  apply (type_isequivalent_equivalence compiler64 MyInt type_int type_i64 3).
  - split; reflexivity.
  - vm_compute. reflexivity.
  - simpl. lia.
  - simpl. lia.
  - simpl. lia.
Defined.

(** ** Assignment of a reference to a value *)

(** X16.  "T = &T": a reference (or mutable reference) to a value of a
    fixed-size integer type can be assigned to a binding of that type; a
    reference to a struct can be assigned to a binding of the struct type
    exactly when the struct is not an owner.  The other way round, a
    value is never assignable to a binding of reference type. *)
Theorem type_isassignable_deref (c : compiler_t) (T : type_t) (hr : thdr) (rk : ptrkind)
    (fuel : nat) :
  (rk = K_REF ∨ rk = K_MUTREF) →
  (is_sized_int_type T = true ∨ type_kind T = TYPE_STRUCT) →
  type_addr T ≠ t_addr hr →
  (2 ≤ fuel)%nat →
  type_isassignable fuel c T (TPtr hr rk T)
    = Some (is_sized_int_type T || negb (type_isowner T))
  ∧ type_isassignable fuel c (TPtr hr rk T) T = Some false.
Proof.
  intros Hrk HT Ha Hf. destruct fuel as [|[|fuel]]; try lia.
  assert (Hne1 : ptr_eqb T (TPtr hr rk T) = false).
  { unfold ptr_eqb, type_addr in *. cbn. by apply Pos.eqb_neq. }
  assert (Hne2 : ptr_eqb (TPtr hr rk T) T = false).
  { unfold ptr_eqb, type_addr in *. cbn. apply Pos.eqb_neq. intros E. by apply Ha. }
  unfold type_isassignable, type_compat. rewrite Hne1, Hne2.
  destruct T as [h k|h k e|h e len|h n e|h k]; cbn in HT;
    try (by destruct HT as [HT|HT]; discriminate);
    try (by destruct HT as [HT|HT]; [discriminate|destruct k; discriminate]).
  - (* a fixed-size integer *)
    destruct HT as [HT|HT]; [|by destruct k].
    destruct Hrk as [-> | ->]; destruct k; try discriminate; cbn;
      rewrite ?Hne1, ?Hne2; cbn; rewrite ?ptr_eqb_refl; by split.
  - (* a struct *)
    destruct HT as [HT|HT]; [discriminate|].
    destruct k; try discriminate.
    destruct Hrk as [-> | ->]; cbn; rewrite ?Hne1, ?Hne2; cbn;
      rewrite ?ptr_eqb_refl; by split.
Qed.

Definition struct_plain : type_t := TUser (Thdr 300%positive NF_CHECKED 8 8) K_STRUCT.
Definition struct_owner : type_t :=
  TUser (Thdr 301%positive (Z.lor NF_CHECKED NF_DROP) 8 8) K_STRUCT.

Lemma type_isassignable_deref_witness :
  type_isassignable 2 compiler64 struct_owner (mkptr 310%positive K_REF struct_owner)
    = Some false
  ∧ type_isassignable 2 compiler64 (mkptr 310%positive K_REF struct_owner) struct_owner
    = Some false.
Proof.
  apply (type_isassignable_deref compiler64 struct_owner
           (Thdr 310%positive NF_CHECKED 8 8) K_REF 2).
  - by left.
  - by right.
  - discriminate.
  - lia.
Defined.

Example type_isassignable_deref_plain :
  type_isassignable 2 compiler64 struct_plain (mkptr 310%positive K_REF struct_plain)
  = Some true.
Proof. reflexivity. Qed.

(** ** Visibility ([node_upgrade_visibility], [node_set_visibility]) *)

(** [node_set_visibility] ([compiler.h]) *)
Definition node_set_visibility (n : node_t) (vis : nodeflag_t) : node_t :=
  let h := node_hdr n in
  node_set_hdr n (hdr_set_flags h (Z.lor (Z.land (nd_flags h) (Z.lnot NF_VIS_MASK)) vis)).

(** The visibility of a node, and its other flags. *)
Definition node_vis (n : node_t) : Z := Z.land (node_flags n) NF_VIS_MASK.
Definition node_other_flags (n : node_t) : Z := Z.land (node_flags n) (Z.lnot NF_VIS_MASK).

(** The visibilities the assertion of the two functions allows. *)
Definition is_vis (v : nodeflag_t) : Prop :=
  v = NF_VIS_UNIT ∨ v = NF_VIS_PKG ∨ v = NF_VIS_PUB.

Lemma node_flags_set_hdr (n : node_t) (h : nhdr) :
  node_flags (node_set_hdr n h) = nd_flags h.
Proof. by destruct n. Qed.

Lemma node_kind_set_flags (n : node_t) (f : nodeflag_t) :
  node_kind (node_set_hdr n (hdr_set_flags (node_hdr n) f)) = node_kind n.
Proof. by destruct n. Qed.

Lemma vis_set (f v : Z) :
  is_vis v →
  Z.land (Z.lor (Z.land f (Z.lnot NF_VIS_MASK)) v) NF_VIS_MASK = v
  ∧ Z.land (Z.lor (Z.land f (Z.lnot NF_VIS_MASK)) v) (Z.lnot NF_VIS_MASK)
    = Z.land f (Z.lnot NF_VIS_MASK).
Proof.
  intros Hv. rewrite !Z.land_lor_distr_l, <- !Z.land_assoc, Z.land_diag.
  change (Z.land (Z.lnot NF_VIS_MASK) NF_VIS_MASK) with 0. rewrite Z.land_0_r.
  destruct Hv as [-> | [-> | ->]]; cbn; rewrite ?Z.lor_0_r; done.
Qed.

Lemma node_upgrade_visibility_vis (n : node_t) (minvis : nodeflag_t) :
  is_vis minvis →
  node_vis (node_upgrade_visibility n minvis) = Z.max (node_vis n) minvis
  ∧ node_other_flags (node_upgrade_visibility n minvis) = node_other_flags n
  ∧ node_kind (node_upgrade_visibility n minvis) = node_kind n.
Proof.
  intros Hv. unfold node_vis, node_other_flags, node_upgrade_visibility.
  destruct (vis_set (nd_flags (node_hdr n)) minvis Hv) as [H1 H2].
  fold (node_flags n).
  destruct (Z.ltb_spec (Z.land (node_flags n) NF_VIS_MASK) minvis) as [Hlt|Hge].
  - rewrite !node_flags_set_hdr, node_kind_set_flags. cbn [hdr_set_flags nd_flags].
    unfold node_flags in *. rewrite H1, H2. repeat split; lia.
  - repeat split; lia.
Qed.

(** X17.  [node_upgrade_visibility] raises the visibility of a node to
    the given one and never lowers it: the visibility after the call is
    the larger of the two; the kind and the other flags of the node stay.
    [node_set_visibility] sets the visibility, whatever it was. *)
Theorem node_upgrade_visibility_max (n : node_t) (minvis : nodeflag_t) :
  is_vis minvis →
  node_vis (node_upgrade_visibility n minvis) = Z.max (node_vis n) minvis
  ∧ node_other_flags (node_upgrade_visibility n minvis) = node_other_flags n
  ∧ node_kind (node_upgrade_visibility n minvis) = node_kind n
  ∧ node_vis (node_set_visibility n minvis) = minvis
  ∧ node_other_flags (node_set_visibility n minvis) = node_other_flags n.
Proof.
  intros Hv.
  destruct (node_upgrade_visibility_vis n minvis Hv) as (H1 & H2 & H3).
  destruct (vis_set (nd_flags (node_hdr n)) minvis Hv) as [H4 H5].
  repeat split; try done;
    unfold node_vis, node_other_flags, node_set_visibility;
    rewrite node_flags_set_hdr; cbn [hdr_set_flags nd_flags]; done.
Qed.

Lemma node_upgrade_visibility_max_witness :
  let n := NNode (Nhdr EXPR_FUN (Z.lor NF_CHECKED NF_VIS_PUB) 0 1) in
  node_vis (node_upgrade_visibility n NF_VIS_PKG) = Z.max (node_vis n) NF_VIS_PKG
  ∧ node_other_flags (node_upgrade_visibility n NF_VIS_PKG) = node_other_flags n
  ∧ node_kind (node_upgrade_visibility n NF_VIS_PKG) = node_kind n
  ∧ node_vis (node_set_visibility n NF_VIS_PKG) = NF_VIS_PKG
  ∧ node_other_flags (node_set_visibility n NF_VIS_PKG) = node_other_flags n.
Proof.
  intros n. apply (node_upgrade_visibility_max n NF_VIS_PKG). right; by left.
Defined.

(** ** Use counts ([incuse], [lookup]) *)

(** The node [incuse] goes on to: what an identifier refers to. *)
Definition incuse_next (n : node_t) : option ptr :=
  match n with
  | NId h _ _ (Some r) => if bool_decide (nd_kind h = EXPR_ID) then Some r else None
  | _ => None
  end.

(** The nodes [incuse] visits from [p]: [p], what [p] refers to, and so
    on, to a node that is not an identifier or refers to nothing. *)
Inductive use_chain (ns : gmap ptr node_t) : ptr → list ptr → Prop :=
  | use_chain_end p n :
      ns !! p = Some n → incuse_next n = None → use_chain ns p [p]
  | use_chain_ref p n r l :
      ns !! p = Some n → incuse_next n = Some r → use_chain ns r l →
      use_chain ns p (p :: l).

(** One use more. *)
Definition node_used (n : node_t) : node_t :=
  node_set_hdr n (hdr_set_nuse (node_hdr n) (u32 (nd_nuse (node_hdr n) + 1))).

Lemma incuse_unfold (fuel : nat) (ns : gmap ptr node_t) (p : ptr) (n : node_t) :
  ns !! p = Some n →
  incuse (S fuel) ns p
  = match incuse_next n with
    | Some r => incuse fuel (<[p := node_used n]> ns) r
    | None => Some (<[p := node_used n]> ns)
    end.
Proof.
  intros Hn. cbn [incuse]. rewrite Hn. cbn [mbind option_bind].
  unfold incuse_next, node_used.
  destruct n as [h ty nm [r|]| | | |]; try reflexivity.
  cbn [node_hdr]. by destruct (bool_decide (nd_kind h = EXPR_ID)).
Qed.

Lemma use_chain_insert (ns : gmap ptr node_t) (q : ptr) (m : node_t) (p : ptr) (l : list ptr) :
  use_chain ns p l → q ∉ l → use_chain (<[q := m]> ns) p l.
Proof.
  induction 1 as [p n Hn Hx|p n r l Hn Hx Hc IH]; intros Hq.
  - apply use_chain_end with n; [|done].
    rewrite lookup_insert_ne; [done|]. intros ->. apply Hq, list_elem_of_here.
  - apply use_chain_ref with n r; [|done|].
    + rewrite lookup_insert_ne; [done|]. intros ->. apply Hq, list_elem_of_here.
    + apply IH. intros H. apply Hq. by apply list_elem_of_further.
Qed.

Lemma incuse_chain (l : list ptr) : ∀ (ns : gmap ptr node_t) (p : ptr) (fuel : nat),
  use_chain ns p l → NoDup l → (length l ≤ fuel)%nat →
  ∃ ns', incuse fuel ns p = Some ns'
         ∧ ∀ q, ns' !! q = if bool_decide (q ∈ l) then node_used <$> ns !! q else ns !! q.
Proof.
  induction l as [|p0 l IH]; intros ns p [|fuel] Hc Hnd Hf;
    cbn [length] in Hf; try lia; try (by inversion Hc).
  inversion Hc as [p1 n Hn Hx|p1 n r l1 Hn Hx Hc']; subst.
  - rewrite (incuse_unfold _ _ _ _ Hn), Hx. eexists; split; [reflexivity|].
    intros q. destruct (decide (q = p0)) as [->|Hne].
    + rewrite lookup_insert_eq, bool_decide_true by apply list_elem_of_here.
      by rewrite Hn.
    + rewrite lookup_insert_ne by done.
      rewrite bool_decide_false; [done|]. by rewrite list_elem_of_singleton.
  - rewrite (incuse_unfold _ _ _ _ Hn), Hx.
    apply NoDup_cons in Hnd as [Hp Hnd].
    destruct (IH (<[p0 := node_used n]> ns) r fuel) as (ns' & E & Hns');
      [by apply use_chain_insert|done|lia|].
    exists ns'. split; [exact E|].
    intros q. rewrite Hns'. destruct (decide (q = p0)) as [->|Hne].
    + rewrite (bool_decide_false (p0 ∈ l)) by done.
      rewrite bool_decide_true by apply list_elem_of_here.
      by rewrite lookup_insert_eq, Hn.
    + rewrite lookup_insert_ne by done.
      destruct (decide (q ∈ l)) as [Hin|Hnin].
      * rewrite !bool_decide_true; [done| |done]. by apply list_elem_of_further.
      * rewrite !bool_decide_false; [done| |done].
        intros [->|H]%elem_of_cons; done.
Qed.

(** X18.  [incuse] adds one use to the node and to every node on the
    chain of identifiers it refers to, and changes no other node: when
    the chain from [p] visits the nodes [l], no node twice, the use count
    of each node of [l] grows by one (modulo 2^32) and every other node
    is as before. *)
Theorem incuse_counts_chain (ns : gmap ptr node_t) (p : ptr) (l : list ptr) (fuel : nat) :
  use_chain ns p l → NoDup l → (length l ≤ fuel)%nat →
  ∃ ns', incuse fuel ns p = Some ns'
         ∧ (∀ q, q ∈ l → ns' !! q = node_used <$> ns !! q)
         ∧ (∀ q, q ∉ l → ns' !! q = ns !! q).
Proof.
  intros Hc Hnd Hf.
  destruct (incuse_chain l ns p fuel Hc Hnd Hf) as (ns' & E & H).
  exists ns'. split; [exact E|]. split; intros q Hq; rewrite H.
  - by rewrite bool_decide_true.
  - by rewrite bool_decide_false.
Qed.

(** An identifier [x] at 20 that refers to the narrowed [x] at 21, which
    refers to the variable at 22. *)
Definition use_nodes : gmap ptr node_t :=
  <[20%positive := NId (Nhdr EXPR_ID 0 0 3) 5%positive "x" (Some 21%positive)]>
  (<[21%positive := NId (Nhdr EXPR_ID 0 1 2) 5%positive "x" (Some 22%positive)]>
  (<[22%positive := NNode (Nhdr EXPR_VAR 0 4 1)]> ∅)).

Lemma incuse_counts_chain_witness :
  ∃ ns', incuse 3 use_nodes 20%positive = Some ns'
         ∧ (∀ q, q ∈ [20; 21; 22]%positive → ns' !! q = node_used <$> use_nodes !! q)
         ∧ (∀ q, q ∉ [20; 21; 22]%positive → ns' !! q = use_nodes !! q).
Proof.
  apply (incuse_counts_chain use_nodes 20%positive [20; 21; 22]%positive 3).
  - eapply use_chain_ref; [reflexivity|reflexivity|].
    eapply use_chain_ref; [reflexivity|reflexivity|].
    eapply use_chain_end; reflexivity.
  - apply (bool_decide_unpack _). vm_compute. exact I.
  - simpl. lia.
Defined.

(** An identifier that refers to itself: the recursion of [incuse] does
    not end. *)
Example incuse_cycle (fuel : nat) (nuse : Z) :
  incuse fuel
    (<[20%positive := NId (Nhdr EXPR_ID 0 nuse 1) 5%positive "x" (Some 20%positive)]> ∅)
    20%positive = None.
Proof.
  revert nuse. induction fuel as [|fuel IH]; intros nuse; [reflexivity|].
  erewrite incuse_unfold by apply lookup_insert_eq.
  cbn [incuse_next nd_kind]. rewrite bool_decide_true by done.
  unfold node_used. cbn. rewrite insert_insert_eq. apply IH.
Qed.

(** X19.  [lookup] of a name that no scope defines and the package
    does: the definition is returned, it is marked visible in the whole
    package at least, it counts one use more, and no other node, no scope
    and no diagnostic changes. *)
Theorem lookup_package_definition (fuel : nat) (a : typecheck_t) (name : sym_t)
    (p : ptr) (n : node_t) :
  name ≠ sym__ →
  scope_lookup (scope a) name U32_MAX = None →
  pkg_def_get a name = Some p →
  nodes a !! p = Some n →
  node_kind n ≠ EXPR_ID →
  ∃ a' n',
    lookup (S fuel) a name = Some (a', Some p)
    ∧ nodes a' !! p = Some n'
    ∧ node_vis n' = Z.max (node_vis n) NF_VIS_PKG
    ∧ node_other_flags n' = node_other_flags n
    ∧ nd_nuse (node_hdr n') = u32 (nd_nuse (node_hdr n) + 1)
    ∧ (∀ q, q ≠ p → nodes a' !! q = nodes a !! q)
    ∧ scope a' = scope a ∧ diags a' = diags a ∧ err a' = err a.
Proof.
  intros Hname Hscope Hpkg Hn Hk.
  assert (Hv : is_vis NF_VIS_PKG) by (right; by left).
  destruct (node_upgrade_visibility_vis n NF_VIS_PKG Hv) as (H1 & H2 & H3).
  set (n1 := node_upgrade_visibility n NF_VIS_PKG) in *.
  assert (Hx : incuse_next n1 = None).
  { unfold node_kind in *. destruct n1 as [h ty nm [r|]| | | |]; try reflexivity.
    cbn in *. rewrite bool_decide_false; [done|]. congruence. }
  unfold lookup. rewrite (proj2 (String.eqb_neq _ _) Hname), Hscope, Hpkg, Hn.
  cbn [mbind option_bind]. fold n1.
  erewrite incuse_unfold by apply lookup_insert_eq. rewrite Hx.
  cbn [mbind option_bind]. rewrite insert_insert_eq.
  eexists _, (node_used n1). split; [reflexivity|]. cbn [nodes set_nodes].
  rewrite lookup_insert_eq. split; [reflexivity|].
  assert (Hf : node_flags (node_used n1) = node_flags n1) by (by destruct n1).
  unfold node_vis, node_other_flags in *. rewrite Hf.
  repeat split; try done.
  - assert (Hu : nd_nuse (node_hdr n1) = nd_nuse (node_hdr n)).
    { unfold n1, node_upgrade_visibility.
      destruct (_ <? _); [|reflexivity]. by destruct n. }
    rewrite <- Hu. by destruct n1.
  - intros q Hq. by rewrite lookup_insert_ne.
Qed.

Definition pkg_state : typecheck_t :=
  {| compiler := compiler64; mainfun := None; ma := 8%nat; ast_ma := 8%nat;
     ast_next := 1000%positive; err := ErrOk; typectx := type_void;
     typectxstack := []; postanalyze := ∅; typeidmap := ∅;
     reported_error := false; diags := [];
     scope := Scope [] 0%nat; pkg_defs := <["helper"%string := 30%positive]> ∅;
     didyoumean := [];
     nodes := <[30%positive := NNode (Nhdr EXPR_FUN NF_CHECKED 0 7)]> ∅;
     templateimap := ∅; templatenest := 0 |}.

Lemma lookup_package_definition_witness :
  ∃ a' n',
    lookup 1 pkg_state "helper" = Some (a', Some 30%positive)
    ∧ nodes a' !! 30%positive = Some n'
    ∧ node_vis n' = NF_VIS_PKG
    ∧ node_other_flags n' = NF_CHECKED
    ∧ nd_nuse (node_hdr n') = 1
    ∧ (∀ q, q ≠ 30%positive → nodes a' !! q = nodes pkg_state !! q)
    ∧ scope a' = scope pkg_state ∧ diags a' = [] ∧ err a' = ErrOk.
Proof.
  apply (lookup_package_definition 0 pkg_state "helper" 30%positive
           (NNode (Nhdr EXPR_FUN NF_CHECKED 0 7))); try reflexivity; discriminate.
Defined.

(** ** Expressions without side effects ([type_cons_no_side_effects],
      [expr_no_side_effects]) *)

(** [type_cons_no_side_effects]: constructing a value of the type has no
    side effects.  [TYPE_UNKNOWN] and the struct, function and other
    user types take the [default] branch. *)
Fixpoint type_cons_no_side_effects (t : type_t) : bool :=
  match t with
  | TPrim _ K_UNKNOWN => false
  | TPrim _ _ => true
  | TPtr _ _ elem => type_cons_no_side_effects elem
  | TArray _ elem _ => type_cons_no_side_effects elem
  | TAlias _ _ elem => type_cons_no_side_effects elem
  | TUser _ _ => false
  end.

(** The expression nodes as [expr_no_side_effects] reads them: of every
    kind the children the function visits.  The kinds that take its
    [default] branch have no children here. *)
Inductive localkind : Set := L_FIELD | L_PARAM | L_LET | L_VAR.

Inductive otherkind : Set :=
  | O_TYPECONS | O_NS | O_SUBSCRIPT | O_DEREF | O_ASSIGN | O_FOR | O_STRLIT.

#[local] Unset Elimination Schemes.
Inductive expr_t : Set :=
  | XId | XBoollit | XIntlit | XFloatlit
  | XMember (recv : expr_t)
  | XLocal (k : localkind) (type : type_t) (init : option expr_t)
  | XArraylit (type : type_t) (values : list expr_t)
  | XBlock (children : list expr_t)
  | XBinop (left right : expr_t)
  | XUnaryop (postfix : bool) (op : op_t) (e : expr_t)
  | XIf (cond thenb : expr_t) (elseb : option expr_t)
  | XReturn (value : option expr_t)
  | XCall
  | XFun (params : option (list (option expr_t))) (body : option expr_t)
  | XOther (k : otherkind).
#[local] Set Elimination Schemes.

(** [n->kind] *)
Definition expr_kind (n : expr_t) : nodekind :=
  match n with
  | XId => EXPR_ID | XBoollit => EXPR_BOOLLIT | XIntlit => EXPR_INTLIT
  | XFloatlit => EXPR_FLOATLIT
  | XMember _ => EXPR_MEMBER
  | XLocal L_FIELD _ _ => EXPR_FIELD | XLocal L_PARAM _ _ => EXPR_PARAM
  | XLocal L_LET _ _ => EXPR_LET | XLocal L_VAR _ _ => EXPR_VAR
  | XArraylit _ _ => EXPR_ARRAYLIT
  | XBlock _ => EXPR_BLOCK
  | XBinop _ _ => EXPR_BINOP
  | XUnaryop false _ _ => EXPR_PREFIXOP | XUnaryop true _ _ => EXPR_POSTFIXOP
  | XIf _ _ _ => EXPR_IF
  | XReturn _ => EXPR_RETURN
  | XCall => EXPR_CALL
  | XFun _ _ => EXPR_FUN
  | XOther O_TYPECONS => EXPR_TYPECONS | XOther O_NS => EXPR_NS
  | XOther O_SUBSCRIPT => EXPR_SUBSCRIPT | XOther O_DEREF => EXPR_DEREF
  | XOther O_ASSIGN => EXPR_ASSIGN | XOther O_FOR => EXPR_FOR
  | XOther O_STRLIT => EXPR_STRLIT
  end.

(** [expr_no_side_effects]; [fn->type] of a function is [params], [None]
    when the type is not there yet, and holds the initializer of every
    parameter. *)
Fixpoint expr_no_side_effects (n : expr_t) : bool :=
  match n with
  | XId | XBoollit | XIntlit | XFloatlit => true
  | XMember recv => expr_no_side_effects recv
  | XLocal _ type init =>
      type_cons_no_side_effects type
      && match init with
         | None => true
         | Some i => expr_no_side_effects i
         end
  | XArraylit type values =>
      type_cons_no_side_effects type && forallb expr_no_side_effects values
  | XBlock children => forallb expr_no_side_effects children
  | XBinop l r => expr_no_side_effects r && expr_no_side_effects l
  | XUnaryop _ op e =>
      if bool_decide (op = OP_INC) || bool_decide (op = OP_DEC) then false
      else expr_no_side_effects e
  | XIf cond thenb elseb =>
      expr_no_side_effects cond && expr_no_side_effects thenb
      && match elseb with
         | None => true
         | Some e => expr_no_side_effects e
         end
  | XReturn value =>
      match value with
      | None => true
      | Some v => expr_no_side_effects v
      end
  | XCall => false
  | XFun params body =>
      match params with
      | None => false   (* incomplete *)
      | Some ps =>
          if forallb (λ p, match p with
                           | None => true
                           | Some i => expr_no_side_effects i
                           end) ps
          then match body with
               | Some b => expr_no_side_effects b
               | None => false
               end
          else false
      end
  | XOther _ => false
  end.

(** The children of a node, and all the nodes of its tree. *)
Definition opt_list {A : Type} (o : option A) : list A :=
  match o with
  | Some x => [x]
  | None => []
  end.

Definition expr_t_children (n : expr_t) : list expr_t :=
  match n with
  | XMember recv => [recv]
  | XLocal _ _ init => opt_list init
  | XArraylit _ values => values
  | XBlock children => children
  | XBinop l r => [l; r]
  | XUnaryop _ _ e => [e]
  | XIf cond thenb elseb => cond :: thenb :: opt_list elseb
  | XReturn value => opt_list value
  | XFun params body => flat_map opt_list (default [] params) ++ opt_list body
  | _ => []
  end.

Inductive in_tree (m : expr_t) : expr_t → Prop :=
  | in_tree_here : in_tree m m
  | in_tree_child n c : c ∈ expr_t_children n → in_tree m c → in_tree m n.

(** What the function accepts of one node. *)
Definition no_effect_here (n : expr_t) : bool :=
  match n with
  | XCall | XOther _ => false
  | XUnaryop _ op _ => negb (bool_decide (op = OP_INC) || bool_decide (op = OP_DEC))
  | XLocal _ type _ | XArraylit type _ => type_cons_no_side_effects type
  | XFun params body =>
      match params, body with
      | Some _, Some _ => true
      | _, _ => false
      end
  | _ => true
  end.

(** The number of nodes of a tree. *)
Fixpoint expr_size (n : expr_t) : nat :=
  S (match n with
     | XMember recv => expr_size recv
     | XLocal _ _ init => match init with Some i => expr_size i | None => 0 end
     | XArraylit _ values => list_sum (map expr_size values)
     | XBlock children => list_sum (map expr_size children)
     | XBinop l r => expr_size l + expr_size r
     | XUnaryop _ _ e => expr_size e
     | XIf cond thenb elseb =>
         expr_size cond + expr_size thenb
         + match elseb with Some e => expr_size e | None => 0 end
     | XReturn value => match value with Some v => expr_size v | None => 0 end
     | XFun params body =>
         match params with
         | Some ps =>
             list_sum (map (λ p, match p with Some i => expr_size i | None => 0 end) ps)
         | None => 0
         end
         + match body with Some b => expr_size b | None => 0 end
     | _ => 0
     end)%nat.

Lemma list_sum_elem (l : list expr_t) (c : expr_t) :
  c ∈ l → (expr_size c ≤ list_sum (map expr_size l))%nat.
Proof.
  induction l as [|x l IH]; intros H; [by apply elem_of_nil in H|].
  change (list_sum (map expr_size (x :: l)))
    with (expr_size x + list_sum (map expr_size l))%nat.
  apply elem_of_cons in H as [->|H]; [lia|]. specialize (IH H). lia.
Qed.

Lemma list_sum_opt_elem (ps : list (option expr_t)) (c : expr_t) :
  c ∈ flat_map opt_list ps →
  (expr_size c
   ≤ list_sum (map (λ p, match p with Some i => expr_size i | None => 0 end) ps))%nat.
Proof.
  set (f := λ p : option expr_t, match p with Some i => expr_size i | None => 0%nat end).
  induction ps as [|[x|] ps IH]; intros H.
  - by apply elem_of_nil in H.
  - change (list_sum (map f (Some x :: ps))) with (expr_size x + list_sum (map f ps))%nat.
    cbn in H. apply elem_of_cons in H as [->|H]; [lia|]. specialize (IH H). lia.
  - change (list_sum (map f (None :: ps))) with (list_sum (map f ps)). by apply IH.
Qed.

Lemma expr_size_child (n c : expr_t) :
  c ∈ expr_t_children n → (expr_size c < expr_size n)%nat.
Proof.
  destruct n as [| | | |recv|k ty [i|]|ty vs|cs|l r|pf op e|cond thenb [e|]|[v|]| |ps body|k];
    cbn [expr_t_children opt_list]; intros H;
    repeat match goal with
    | H : _ ∈ [] |- _ => by apply elem_of_nil in H
    | H : _ ∈ _ :: _ |- _ => apply elem_of_cons in H as [->|H]
    end; cbn [expr_size]; try lia.
  - apply list_sum_elem in H. lia.
  - apply list_sum_elem in H. lia.
  - apply elem_of_app in H as [H|H].
    + destruct ps as [ps|]; cbn in H; [|by apply elem_of_nil in H].
      apply list_sum_opt_elem in H. lia.
    + destruct body as [b|]; cbn in H; [|by apply elem_of_nil in H].
      apply list_elem_of_singleton in H as ->. lia.
Qed.

(** Induction on a tree: a property that holds of a node when it holds of
    its children holds of every node. *)
Lemma expr_t_children_ind (P : expr_t → Prop) :
  (∀ n, (∀ c, c ∈ expr_t_children n → P c) → P n) → ∀ n, P n.
Proof.
  intros Hstep n. remember (expr_size n) as k eqn:Ek.
  revert n Ek. induction k as [k IH] using lt_wf_ind. intros n ->.
  apply Hstep. intros c Hc. apply (IH (expr_size c)); [by apply expr_size_child|done].
Qed.

Lemma forallb_elem {A : Type} (f : A → bool) (l : list A) :
  forallb f l = true ↔ ∀ x, x ∈ l → f x = true.
Proof.
  rewrite forallb_forall. split; intros H x Hx; apply H; by apply list_elem_of_In.
Qed.

(** The function, by the node and its children. *)
Lemma expr_no_side_effects_children (n : expr_t) :
  expr_no_side_effects n
  = no_effect_here n && forallb expr_no_side_effects (expr_t_children n).
Proof.
  destruct n as [| | | |recv|k ty [i|]|ty vs|cs|l r|pf op e|cond thenb [e|]|[v|]| |ps body|k];
    cbn [expr_no_side_effects no_effect_here expr_t_children opt_list forallb andb];
    rewrite ?andb_true_r; try reflexivity.
  - apply andb_comm.
  - by destruct (bool_decide (op = OP_INC) || bool_decide (op = OP_DEC)).
  - by rewrite andb_assoc.
  - destruct ps as [ps|]; [|reflexivity]. cbn [default].
    rewrite forallb_app.
    assert (E : forallb (λ p, match p with
                              | Some i => expr_no_side_effects i
                              | None => true
                              end) ps
                = forallb expr_no_side_effects (flat_map opt_list ps)).
    { induction ps as [|[x|] ps IH]; cbn; [done| |done]. by rewrite IH. }
    rewrite E. change (id ps) with ps.
    destruct body as [b|]; cbn [opt_list forallb andb]; rewrite ?andb_true_r.
    + by destruct (forallb expr_no_side_effects (flat_map opt_list ps)).
    + by destruct (forallb expr_no_side_effects (flat_map opt_list ps)).
Qed.

(** X20.  [expr_no_side_effects] answers true exactly when no node of
    the expression (through receivers, initializers, array values, block
    statements, operands, conditions and branches, returned values,
    parameter initializers and function bodies) is a call, a [++] or
    [--], a kind the function does not know (an assignment, a [for], a
    subscript, ...), a function without type or body, or a binding or
    array literal of a type whose construction may have side effects. *)
Theorem expr_no_side_effects_tree (n : expr_t) :
  expr_no_side_effects n = true ↔ ∀ m, in_tree m n → no_effect_here m = true.
Proof.
  induction n as [n IH] using expr_t_children_ind.
  rewrite expr_no_side_effects_children, andb_true_iff, forallb_elem. split.
  - intros [Hn Hc] m Hm. destruct Hm as [|n c Hin Hm]; [exact Hn|].
    apply (IH c Hin); [by apply Hc|exact Hm].
  - intros H. split; [apply H, in_tree_here|].
    intros c Hc. apply (IH c Hc). intros m Hm. apply H. by eapply in_tree_child.
Qed.

Example expr_no_side_effects_examples :
  expr_no_side_effects (XBinop XId XIntlit) = true
  ∧ expr_no_side_effects (XBlock [XIntlit; XBinop XId XCall]) = false
  ∧ expr_no_side_effects (XUnaryop true OP_INC XId) = false
  ∧ expr_no_side_effects (XLocal L_LET type_int (Some (XUnaryop false OP_NOT XBoollit))) = true
  ∧ expr_no_side_effects (XOther O_ASSIGN) = false.
Proof. by repeat split. Qed.

(** ** Assignment targets ([check_assign], [check_assign_to_id],
      [check_assign_to_member]) *)

(** What the checks read of the node an identifier refers to: its kind
    and, of a local, [isthis]. *)
Record target_ref : Set := TargetRef {
  tr_kind   : nodekind;
  tr_isthis : bool;
}.

(** What they read of the receiver of a member access: its kind, its
    type and, of an identifier, what it refers to. *)
Record recv_t : Set := Recv {
  rc_kind : nodekind;
  rc_type : type_t;
  rc_ref  : option target_ref;
}.

(** The target of an assignment. *)
Inductive target_t : Set :=
  | AId (name : sym_t) (ref : option target_ref)     (* EXPR_ID *)
  | AMember (recv : recv_t)                           (* EXPR_MEMBER *)
  | ADeref (t : type_t)                               (* EXPR_DEREF of a value of type t *)
  | AOther (k : nodekind).                            (* every other kind *)

Definition target_kind (x : target_t) : nodekind :=
  match x with
  | AId _ _ => EXPR_ID
  | AMember _ => EXPR_MEMBER
  | ADeref _ => EXPR_DEREF
  | AOther k => k
  end.

Section check_assign.
(** [fmtnode] of an expression; the formatter is not among the sources. *)
Variable fmtnode_recv : recv_t → string.

(** [check_assign_to_member].  The struct case reads [ref->kind] of a
    receiver that is an identifier without a test for [NULL]: there is no
    result when the identifier refers to nothing. *)
Definition check_assign_to_member (a : typecheck_t) (recv : recv_t)
    : option (typecheck_t * bool) :=
  match type_kind (rc_type recv) with
  | TYPE_STRUCT =>
      if bool_decide (rc_kind recv = EXPR_ID) then
        r ← rc_ref recv;
        if bool_decide (tr_kind r = EXPR_PARAM) && tr_isthis r
        then Some (error a "assignment to immutable struct %s" [FmtStr (fmtnode_recv recv)],
                   false)
        else Some (a, true)
      else Some (a, true)
  | TYPE_REF =>
      Some (error a "assignment to immutable reference %s" [FmtStr (fmtnode_recv recv)],
            false)
  | _ => Some (a, true)
  end.

(** [check_assign_to_id] *)
Definition check_assign_to_id (a : typecheck_t) (name : sym_t) (ref : option target_ref)
    : typecheck_t * bool :=
  match ref with
  | None => (a, false)   (* target is NULL when "id" is undefined *)
  | Some target =>
      match tr_kind target with
      | EXPR_ID =>
          (error a ("cannot assign to type-narrowed binding " +:+ dq +:+ "%s" +:+ dq)
             [FmtStr name], true)
      | EXPR_VAR => (a, true)
      | k =>
          if bool_decide (k = EXPR_PARAM) && negb (tr_isthis target) then (a, true)
          else (error a ("cannot assign to %s " +:+ dq +:+ "%s" +:+ dq)
                  [FmtKind k; FmtStr name], false)
      end
  end.

(** [check_assign] *)
Definition check_assign (a : typecheck_t) (target : target_t)
    : option (typecheck_t * bool) :=
  let other :=
    Some (error a "cannot assign to %s" [FmtKind (target_kind target)], false) in
  match target with
  | AId name ref => Some (check_assign_to_id a name ref)
  | AMember recv => check_assign_to_member a recv
  | ADeref t =>
      match type_kind t with
      | TYPE_REF =>
          Some (error a "cannot assign via immutable reference of type %s" [FmtType t],
                false)
      | TYPE_MUTREF | TYPE_PTR => Some (a, true)
      | _ => other
      end
  | AOther _ => other
  end.
End check_assign.

(** A target that can be written: a [var], a parameter other than
    [this], a member of a receiver that is neither an immutable reference
    nor the immutable struct [this], or what a mutable reference or a
    pointer refers to. *)
Definition writable (x : target_t) : Prop :=
  match x with
  | AId _ (Some r) =>
      tr_kind r = EXPR_VAR ∨ (tr_kind r = EXPR_PARAM ∧ tr_isthis r = false)
  | AId _ None => False
  | AMember recv =>
      type_kind (rc_type recv) ≠ TYPE_REF
      ∧ ¬ (type_kind (rc_type recv) = TYPE_STRUCT ∧ rc_kind recv = EXPR_ID
           ∧ ∃ r, rc_ref recv = Some r ∧ tr_kind r = EXPR_PARAM ∧ tr_isthis r = true)
  | ADeref t => type_kind t = TYPE_MUTREF ∨ type_kind t = TYPE_PTR
  | AOther _ => False
  end.

(** One error more, and nothing else. *)
Definition one_error (a a' : typecheck_t) : Prop :=
  ∃ d, diag_kind d = DIAG_ERR ∧ a' = error a (diag_fmt d) (diag_args d).

Lemma error_neq (a : typecheck_t) (fmt : string) (args : list fmtarg) :
  error a fmt args ≠ a.
Proof.
  intros H. apply (f_equal (λ x, length (diags x))) in H. cbn in H.
  rewrite length_app in H. cbn in H. lia.
Qed.

Lemma one_error_intro (a : typecheck_t) (fmt : string) (args : list fmtarg) :
  one_error a (error a fmt args).
Proof. by exists (Diag DIAG_ERR fmt args). Qed.

Lemma check_assign_to_member_cases (fmtnode_recv : recv_t → string)
    (a : typecheck_t) (recv : recv_t) :
  (type_kind (rc_type recv) = TYPE_REF
   ∧ check_assign_to_member fmtnode_recv a recv
     = Some (error a "assignment to immutable reference %s" [FmtStr (fmtnode_recv recv)],
             false))
  ∨ (type_kind (rc_type recv) = TYPE_STRUCT
     ∧ check_assign_to_member fmtnode_recv a recv
       = if bool_decide (rc_kind recv = EXPR_ID) then
           r ← rc_ref recv;
           if bool_decide (tr_kind r = EXPR_PARAM) && tr_isthis r
           then Some (error a "assignment to immutable struct %s"
                        [FmtStr (fmtnode_recv recv)], false)
           else Some (a, true)
         else Some (a, true))
  ∨ (type_kind (rc_type recv) ≠ TYPE_REF ∧ type_kind (rc_type recv) ≠ TYPE_STRUCT
     ∧ check_assign_to_member fmtnode_recv a recv = Some (a, true)).
Proof.
  unfold check_assign_to_member.
  destruct (type_kind (rc_type recv)); auto; right; right; by repeat split.
Qed.

Lemma check_assign_deref_cases (fmtnode_recv : recv_t → string)
    (a : typecheck_t) (t : type_t) :
  (type_kind t = TYPE_REF
   ∧ check_assign fmtnode_recv a (ADeref t)
     = Some (error a "cannot assign via immutable reference of type %s" [FmtType t], false))
  ∨ ((type_kind t = TYPE_MUTREF ∨ type_kind t = TYPE_PTR)
     ∧ check_assign fmtnode_recv a (ADeref t) = Some (a, true))
  ∨ (type_kind t ≠ TYPE_MUTREF ∧ type_kind t ≠ TYPE_PTR
     ∧ check_assign fmtnode_recv a (ADeref t)
       = Some (error a "cannot assign to %s" [FmtKind EXPR_DEREF], false)).
Proof.
  unfold check_assign. cbn [target_kind].
  destruct (type_kind t); auto; right; right; by repeat split.
Qed.

(** X21.  The verdict of [check_assign].  A target it accepts without a
    diagnostic can be written.  A target it rejects is reported with
    exactly one error, except an identifier that refers to nothing, which
    is rejected in silence.  The one target it accepts and reports is an
    identifier that refers to a type-narrowed binding.  In particular a
    [let] binding is never accepted. *)
Theorem check_assign_verdict (fmtnode_recv : recv_t → string)
    (a a' : typecheck_t) (target : target_t) (ok : bool) :
  check_assign fmtnode_recv a target = Some (a', ok) →
  (ok = true → a' = a → writable target)
  ∧ (writable target → ok = true ∧ a' = a)
  ∧ (ok = false → (∃ name, target = AId name None) ∧ a' = a
                  ∨ (∀ name, target ≠ AId name None) ∧ one_error a a')
  ∧ (ok = true → a' ≠ a →
       one_error a a' ∧ ∃ name r, target = AId name (Some r) ∧ tr_kind r = EXPR_ID)
  ∧ (∀ name r, target = AId name (Some r) → tr_kind r = EXPR_LET →
       ok = false ∧ one_error a a').
Proof.
  intros H.
  assert (Hne : ∀ fmt args, error a fmt args = a → False) by (intros ? ? E; by apply error_neq in E).
  assert (H1 := one_error_intro a).
  assert (Hany : ∀ fmt args, (∀ name, target ≠ AId name None) →
    (false = false → (∃ name, target = AId name None) ∧ error a fmt args = a
                     ∨ (∀ name, target ≠ AId name None) ∧ one_error a (error a fmt args))).
  { intros fmt args Ht _. right. split; [exact Ht|apply H1]. }
  destruct target as [name [r|]|recv|t|k].
  - (* an identifier that refers to a node *)
    cbn in H.
    unfold check_assign_to_id in H.
    destruct r as [k isthis]. cbn [tr_kind tr_isthis] in H.
    assert (Hk : ∀ name0 r0, AId name (Some (TargetRef k isthis)) = AId name0 (Some r0) →
                 tr_kind r0 = k) by (by intros ? ? [= _ <-]).
    cbn [writable tr_kind tr_isthis].
    destruct k; try destruct isthis; cbn in H; injection H as <- <-;
      (split; [|split; [|split; [|split]]]);
      first
        [ by intros [=]
        | by intros _ E; apply Hne in E
        | by intros [?|[? ?]]
        | by intros
        | by intros; auto
        | by apply Hany
        | by intros _ _; split; [apply H1|eauto]
        | by intros ? ? E%Hk E2; congruence
        | by intros ? ? _ _; split; [|apply H1]
        | idtac ].
  - (* an identifier that refers to nothing *)
    cbn in H. injection H as <- <-. cbn [writable].
    (split; [|split; [|split; [|split]]]);
      first [ by intros [=] | by intros | by intros _; left; split; [eexists|] ].
  - (* a member *)
    cbn [check_assign] in H. cbn [writable].
    destruct (check_assign_to_member_cases fmtnode_recv a recv)
      as [[Ek E]|[[Ek E]|(Ek1 & Ek2 & E)]]; rewrite E in H; clear E.
    + (* TYPE_REF *)
      injection H as <- <-.
      (split; [|split; [|split; [|split]]]);
        first [ by intros [=] | by intros [Hw _]; congruence | by apply Hany | by intros ].
    + (* TYPE_STRUCT *)
      destruct (bool_decide_reflect (rc_kind recv = EXPR_ID)) as [Hid|Hid].
      * destruct (rc_ref recv) as [r|] eqn:Er; [|discriminate]. cbn in H.
        destruct (bool_decide_reflect (tr_kind r = EXPR_PARAM)) as [Hp|Hp];
          [destruct (tr_isthis r) eqn:Et|]; cbn in H; injection H as <- <-;
          (split; [|split; [|split; [|split]]]);
          first
            [ by intros [=]
            | by intros _ E; apply Hne in E
            | by intros
            | by apply Hany
            | by intros [_ Hw]; exfalso; apply Hw; eauto 10
            | by intros _ _; split; [congruence|];
                 intros (_ & _ & r' & [= <-] & ? & ?); congruence
            | idtac ].
      * injection H as <- <-.
        (split; [|split; [|split; [|split]]]);
          first [ by intros [=] | by intros | by intros _ _; split; [congruence|];
                  intros (_ & ? & _) ].
    + (* another type *)
      injection H as <- <-.
      (split; [|split; [|split; [|split]]]);
        first [ by intros [=] | by intros | by intros _ _; split; [done|]; intros (? & _) ].
  - (* a dereference *)
    cbn [writable].
    destruct (check_assign_deref_cases fmtnode_recv a t)
      as [[Ek E]|[[Ek E]|(Ek1 & Ek2 & E)]]; rewrite E in H; clear E;
      injection H as <- <-;
      (split; [|split; [|split; [|split]]]);
      first
        [ by intros [=]
        | by intros _ E; apply Hne in E
        | by intros [?|?]; congruence
        | by intros
        | by intros; auto
        | by apply Hany
        | idtac ].
  - (* another kind of node *)
    cbn in H. injection H as <- <-. cbn [writable].
    (split; [|split; [|split; [|split]]]);
      first [ by intros [=] | by intros | by apply Hany ].
Qed.

Definition struct_A_type : type_t := TUser (Thdr 300%positive 0 0 0) K_STRUCT.

(** [let x = 1; x = 2]: the target is an identifier that refers to a
    [let] binding. *)
Definition target_let_x : target_t := AId "x" (Some (TargetRef EXPR_LET false)).
Definition state_let_x : typecheck_t :=
  error state0 ("cannot assign to %s " +:+ dq +:+ "%s" +:+ dq) [FmtKind EXPR_LET; FmtStr "x"].

Lemma check_assign_verdict_witness :
  (false = true → state_let_x = state0 → writable target_let_x)
  ∧ (writable target_let_x → false = true ∧ state_let_x = state0)
  ∧ (false = false →
       (∃ name, target_let_x = AId name None) ∧ state_let_x = state0
       ∨ (∀ name, target_let_x ≠ AId name None) ∧ one_error state0 state_let_x)
  ∧ (false = true → state_let_x ≠ state0 →
       one_error state0 state_let_x
       ∧ ∃ name r, target_let_x = AId name (Some r) ∧ tr_kind r = EXPR_ID)
  ∧ (∀ name r, target_let_x = AId name (Some r) → tr_kind r = EXPR_LET →
       false = false ∧ one_error state0 state_let_x).
Proof.
  apply (check_assign_verdict (λ _, "recv"%string) state0 state_let_x target_let_x false).
  reflexivity.
Defined.

Example check_assign_examples :
  snd <$> check_assign (λ _, "recv"%string) state0 (AId "v" (Some (TargetRef EXPR_VAR false)))
    = Some true
  ∧ snd <$> check_assign (λ _, "recv"%string) state0
              (AId "this" (Some (TargetRef EXPR_PARAM true))) = Some false
  ∧ snd <$> check_assign (λ _, "recv"%string) state0
              (ADeref (mkptr 100%positive K_REF type_int)) = Some false
  ∧ snd <$> check_assign (λ _, "recv"%string) state0
              (ADeref (mkptr 100%positive K_MUTREF type_int)) = Some true
  ∧ check_assign (λ _, "recv"%string) state0
      (AMember (Recv EXPR_ID struct_A_type None)) = None.
Proof. by repeat split. Qed.

(** ** Type casts ([type_isconvertible], [finalize_typecons]) *)

(** [((reftype_t* )t)->elem] of a reference; any other type is left. *)
Definition ref_elem (t : type_t) : type_t :=
  match t with
  | TPtr _ (K_REF | K_MUTREF) elem => elem
  | _ => t
  end.

(** [type_isconvertible]: a value of type [src] can be converted to type
    [dst]. *)
Definition type_isconvertible (dst src : type_t) : bool :=
  let dst := unwrap_alias dst in
  let src := unwrap_alias src in
  let dst := if type_isref dst then ref_elem dst else dst in
  let src := if type_isref src then ref_elem src else src in
  ptr_eqb dst src || (type_isprim dst && type_isprim src).

(** What [finalize_typecons] reads of the argument of a cast, and of the
    cast. *)
Record cast_arg : Set := CastArg {
  ca_type : type_t;
  ca_nuse : Z;        (* u32 *)
}.

Record typecons_t : Set := Typecons {
  tc_type : type_t;
  tc_nuse : Z;        (* u32 *)
  tc_expr : option cast_arg;
}.

Definition cannot_convert_fmt : string := "cannot convert value of type %s to type %s".

(** [finalize_typecons].  The result is the state and what [*np] is
    after the call: the cast, or its argument when the cast is
    eliminated. *)
Definition finalize_typecons (fuel : nat) (a : typecheck_t) (n : typecons_t)
    : option (typecheck_t * (typecons_t + cast_arg)) :=
  let t := tc_type n in
  if negb (type_isprim (unwrap_alias t)) then Some (a, inl n) else
  match tc_expr n with
  | None => Some (a, inl n)
  | Some expr =>
      ct ← concrete_type fuel (compiler a) t;
      ce ← concrete_type fuel (compiler a) (ca_type expr);
      (* eliminate type cast to equivalent type, e.g. "i8(3)" => "3" *)
      if ptr_eqb ct ce then
        Some (a, inr {| ca_type := ca_type expr;
                        ca_nuse := u32 (ca_nuse expr + (Z.max 1 (tc_nuse n) - 1)) |})
      else if negb (type_isconvertible t (ca_type expr)) then
        Some (error a cannot_convert_fmt [FmtType (ca_type expr); FmtType t], inl n)
      else Some (a, inl n)
  end.

Lemma type_isprim_inv (t : type_t) : type_isprim t = true ↔ ∃ h k, t = TPrim h k.
Proof.
  split.
  - destruct t as [h k|h k e|h e len|h n e|h k]; try destruct k; intros H;
      try discriminate H; eauto.
  - intros (h & k & ->). by destruct k.
Qed.

(** X27.  A cast to a primitive type.  [finalize_typecons] returns; a
    cast to the concrete type the argument has already is eliminated, and
    the argument takes over the uses of the cast; a cast of a primitive
    value, also one behind aliases or a reference, is never an error; and
    the only thing reported is "cannot convert value", for an argument
    that is not primitive. *)
Theorem finalize_typecons_primitive (fuel : nat) (a : typecheck_t) (n : typecons_t)
    (arg : cast_arg) :
  compiler_ok (compiler a) →
  type_isprim (unwrap_alias (tc_type n)) = true →
  tc_expr n = Some arg →
  (alias_depth (tc_type n) + 2 ≤ fuel)%nat →
  (alias_depth (ca_type arg) + 2 ≤ fuel)%nat →
  ∃ a' r ct ce,
    finalize_typecons fuel a n = Some (a', r)
    ∧ concrete_type fuel (compiler a) (tc_type n) = Some ct
    ∧ concrete_type fuel (compiler a) (ca_type arg) = Some ce
    ∧ (ptr_eqb ct ce = true →
         a' = a
         ∧ r = inr (CastArg (ca_type arg) (u32 (ca_nuse arg + (Z.max 1 (tc_nuse n) - 1)))))
    ∧ (ptr_eqb ct ce = false → r = inl n)
    ∧ (type_isprim (ref_elem (unwrap_alias (ca_type arg))) = true → a' = a)
    ∧ (a' ≠ a →
         a' = error a cannot_convert_fmt [FmtType (ca_type arg); FmtType (tc_type n)]
         ∧ type_isprim (ref_elem (unwrap_alias (ca_type arg))) = false).
Proof.
  intros Hc Hp He Hf1 Hf2. unfold finalize_typecons. rewrite Hp, He. cbn [negb].
  rewrite !concrete_type_tcu by done. cbn [mbind option_bind].
  exists (if ptr_eqb (tcu (compiler a) (tc_type n)) (tcu (compiler a) (ca_type arg)) then a
          else if negb (type_isconvertible (tc_type n) (ca_type arg))
               then error a cannot_convert_fmt [FmtType (ca_type arg); FmtType (tc_type n)]
               else a).
  exists (if ptr_eqb (tcu (compiler a) (tc_type n)) (tcu (compiler a) (ca_type arg))
          then inr (CastArg (ca_type arg) (u32 (ca_nuse arg + (Z.max 1 (tc_nuse n) - 1))))
          else inl n).
  eexists _, _. split; [|split; [reflexivity|split; [reflexivity|]]].
  { destruct (ptr_eqb _ _); [reflexivity|]. by destruct (negb _). }
  assert (Hconv : type_isprim (ref_elem (unwrap_alias (ca_type arg))) = true →
                  type_isconvertible (tc_type n) (ca_type arg) = true).
  { intros Hs. unfold type_isconvertible.
    assert (Hnr : type_isref (unwrap_alias (tc_type n)) = false).
    { apply type_isprim_inv in Hp as (h & k & ->). by destruct k. }
    rewrite Hnr, Hp.
    assert (Hs' : type_isprim (if type_isref (unwrap_alias (ca_type arg))
                               then ref_elem (unwrap_alias (ca_type arg))
                               else unwrap_alias (ca_type arg)) = true).
    { destruct (unwrap_alias (ca_type arg)) as [? k|? k e| | |]; try done; by destruct k. }
    rewrite Hs'. apply orb_true_r. }
  destruct (ptr_eqb _ _) eqn:Eq.
  - repeat split; try done.
  - destruct (type_isconvertible (tc_type n) (ca_type arg)) eqn:Ec; cbn [negb].
    + repeat split; try done.
    + repeat split; try done.
      * intros Hs. discriminate (Hconv Hs).
      * destruct (type_isprim (ref_elem (unwrap_alias (ca_type arg)))) eqn:Hs; [|done].
        discriminate (Hconv eq_refl).
Qed.

(** [i8(x)] for an [x] of type "int", and for an [x] of a struct type. *)
Lemma finalize_typecons_primitive_witness :
  let n := Typecons type_i8 1 (Some (CastArg struct_plain 1)) in
  ∃ a' r ct ce,
    finalize_typecons 2 state0 n = Some (a', r)
    ∧ concrete_type 2 compiler64 type_i8 = Some ct
    ∧ concrete_type 2 compiler64 struct_plain = Some ce
    ∧ (ptr_eqb ct ce = true →
         a' = state0 ∧ r = inr (CastArg struct_plain (u32 (1 + (Z.max 1 1 - 1)))))
    ∧ (ptr_eqb ct ce = false → r = inl n)
    ∧ (type_isprim (ref_elem (unwrap_alias struct_plain)) = true → a' = state0)
    ∧ (a' ≠ state0 →
         a' = error state0 cannot_convert_fmt [FmtType struct_plain; FmtType type_i8]
         ∧ type_isprim (ref_elem (unwrap_alias struct_plain)) = false).
Proof.
  intros n.
  apply (finalize_typecons_primitive 2 state0 n (CastArg struct_plain 1)).
  - split; reflexivity.
  - reflexivity.
  - reflexivity.
  - simpl. lia.
  - simpl. lia.
Defined.

Example finalize_typecons_examples :
  (* i64(x) for an x of type "int" on a 64-bit target: the cast is eliminated *)
  snd <$> finalize_typecons 2 state0 (Typecons type_i64 3 (Some (CastArg type_int 1)))
    = Some (inr (CastArg type_int 3))
  (* f64(x) for an x of type "bool": kept, and no error *)
  ∧ finalize_typecons 2 state0 (Typecons type_f64 1 (Some (CastArg type_bool 1)))
    = Some (state0, inl (Typecons type_f64 1 (Some (CastArg type_bool 1))))
  (* i8(x) for an x of a struct type: an error *)
  ∧ (diags <$> (fst <$> finalize_typecons 2 state0
                          (Typecons type_i8 1 (Some (CastArg struct_plain 1)))))
    = Some [Diag DIAG_ERR cannot_convert_fmt [FmtType struct_plain; FmtType type_i8]].
Proof. by repeat split. Qed.

(** ** Integer literals outside an integer context *)

(** The context stands for an integer type ([intlit] takes one of the
    cases [TYPE_I8] ... [TYPE_UINT] of its switch). *)
Definition int_context (t : type_t) : bool :=
  match unwrap_alias t with
  | TPrim _ (K_I8 | K_I16 | K_I32 | K_I64 | K_INT
             | K_U8 | K_U16 | K_U32 | K_U64 | K_UINT) => true
  | _ => false
  end.

(** X22.  An integer literal that is checked in a context that is not
    an integer type (no context, [bool], a struct, ...) never overflows:
    [intlit] reports nothing and gives the literal the type "int" when
    the value fits a signed integer of the target's width, and otherwise
    "uint", "i64" or "u64", a type that holds the value. *)
Theorem intlit_untyped (a : typecheck_t) (n : intlit_t) (fuel : nat) :
  ptr_eqb (il_type n) type_unknown = true →
  int_context (typectx a) = false →
  0 ≤ intval n < 2 ^ 64 →
  target_intsize (compiler a) = 8 ∨ target_intsize (compiler a) = 4 →
  (1 ≤ fuel)%nat →
  ∃ t, intlit fuel a n = Some (a, intlit_set_type n t)
       ∧ (intval n < 2 ^ (8 * target_intsize (compiler a) - 1) → t = type_int)
       ∧ (t = type_int ∧ intval n < 2 ^ (8 * target_intsize (compiler a) - 1)
          ∨ t = type_uint ∧ intval n < 2 ^ (8 * target_intsize (compiler a))
          ∨ t = type_i64 ∧ intval n < 2 ^ 63
          ∨ t = type_u64 ∧ intval n < 2 ^ 64).
Proof.
  intros Hunk Hctx Hv Hsz Hf. destruct fuel as [|fuel]; [lia|].
  unfold intlit. rewrite Hunk. cbn [negb]. unfold intlit_isneg. cbn [Z.eqb negb].
  unfold int_context in Hctx.
  assert (Hsw : intlit_switch (S fuel) a n 0 (typectx a) (unwrap_alias (typectx a)) (intval n)
    = if (target_intsize (compiler a) =? 8)%Z then
        if (intval n <? 0x8000000000000000)%Z then Some (a, intlit_set_type n type_int)
        else Some (intlit_finish a n type_u64 (intval n) 0xffffffffffffffff)
      else
        if (intval n <=? 0x7fffffff)%Z then Some (a, intlit_set_type n type_int)
        else if (intval n <=? 0xffffffff)%Z then Some (a, intlit_set_type n type_uint)
        else if (intval n <=? 0x7fffffffffffffff)%Z
             then Some (a, intlit_set_type n type_i64)
        else Some (intlit_finish a n type_u64 (intval n) 0xffffffffffffffff)).
  { destruct (unwrap_alias (typectx a)) as [h k|h k e|h e len|h nm e|h k];
      try destruct k; try discriminate Hctx; reflexivity. }
  rewrite Hsw. clear Hsw.
  assert (Hfin : intlit_finish a n type_u64 (intval n) 0xffffffffffffffff
                 = (a, intlit_set_type n type_u64)).
  { unfold intlit_finish. destruct (Z.ltb_spec 0xffffffffffffffff (intval n)); [lia|done]. }
  rewrite Hfin.
  destruct Hsz as [-> | ->]; cbn [Z.eqb Pos.eqb].
  - change (2 ^ (8 * 8 - 1)) with 0x8000000000000000.
    destruct (Z.ltb_spec (intval n) 0x8000000000000000).
    + exists type_int. split; [done|]. split; [done|]. left. by split.
    + exists type_u64. split; [done|]. split; [lia|]. right; right; right. split; [done|lia].
  - change (2 ^ (8 * 4 - 1)) with 0x80000000. change (2 ^ (8 * 4)) with 0x100000000.
    destruct (Z.leb_spec (intval n) 0x7fffffff).
    { exists type_int. split; [done|]. split; [done|]. left. split; [done|lia]. }
    destruct (Z.leb_spec (intval n) 0xffffffff).
    { exists type_uint. split; [done|]. split; [lia|]. right; left. split; [done|lia]. }
    destruct (Z.leb_spec (intval n) 0x7fffffffffffffff).
    { exists type_i64. split; [done|]. split; [lia|]. right; right; left. split; [done|lia]. }
    exists type_u64. split; [done|]. split; [lia|]. right; right; right. split; [done|lia].
Qed.

Lemma intlit_untyped_witness :
  let n := Intlit 0 type_unknown 0x8000000000000000 in
  ∃ t, intlit 1 state0 n = Some (state0, intlit_set_type n t)
       ∧ (intval n < 2 ^ (8 * 8 - 1) → t = type_int)
       ∧ (t = type_int ∧ intval n < 2 ^ (8 * 8 - 1)
          ∨ t = type_uint ∧ intval n < 2 ^ (8 * 8)
          ∨ t = type_i64 ∧ intval n < 2 ^ 63
          ∨ t = type_u64 ∧ intval n < 2 ^ 64).
Proof.
  intros n. apply (intlit_untyped state0 n 1).
  - reflexivity.
  - reflexivity.
  - cbn. lia.
  - by left.
  - lia.
Defined.

(** ** The interner keeps what it holds *)

(** X23.  [intern_usertype] never replaces and never removes an entry of
    the interner: what an id is mapped to before the call it is mapped to
    after it.  When the allocator cannot serve a new entry, the type is
    not interned: "out of memory" is reported, the caller keeps its node
    and false is returned. *)
Theorem intern_usertype_keeps (typeid_intern : type_t → typeid_t)
    (a : typecheck_t) (U : type_t) :
  let '(a', U', added) := intern_usertype typeid_intern a U in
  (∀ id p, typeidmap a !! id = Some p → typeidmap a' !! id = Some p)
  ∧ (added = true → typeidmap a' !! typeid_intern U = Some U ∧ U' = U)
  ∧ (typeidmap a !! typeid_intern U = None → ma a = 0%nat →
       added = false ∧ U' = U ∧ typeidmap a' = typeidmap a
       ∧ err a' = (if decide (err a = ErrOk) then ErrNoMem else err a)
       ∧ diags a' = diags a ++ [Diag DIAG_ERR "out of memory" []]).
Proof.
  unfold intern_usertype.
  destruct (typeidmap a !! typeid_intern U) as [p|] eqn:Hp.
  - repeat split; try done.
  - destruct (ma a) as [|m] eqn:Em; cbn [mem_alloc].
    + unfold out_of_mem, seterr. cbn.
      destruct (err a) eqn:Ee; cbn; rewrite ?Ee; repeat split; done.
    + cbn. repeat split; try done.
      * intros id p Hid. rewrite lookup_insert_ne; [done|]. congruence.
      * by rewrite lookup_insert_eq.
Qed.

Example intern_usertype_out_of_memory :
  let U := TArray (Thdr 200%positive NF_CHECKED 2 1) type_u8 2 in
  let '(a', U', added) :=
    intern_usertype typeid_structural (typecheck_init compiler64 0) U in
  added = false ∧ typeidmap a' = ∅ ∧ err a' = ErrNoMem ∧ reported_error a' = true.
Proof. by repeat split. Qed.

(** ** Conditions that narrow nothing *)

(** A condition in which [type_narrow_cond1] finds nothing to narrow: under
    its [!], [&&] and [||] every identifier is either not optional or
    narrowed already, and no variable is defined. *)
Fixpoint nothing_to_narrow (x : expr) : bool :=
  match x with
  | EId fl ty _ _ =>
      negb (bool_decide (type_kind ty = TYPE_OPTIONAL)) || has_flag fl NF_NARROWED
  | EPrefixop op e => negb (bool_decide (op = OP_NOT)) || nothing_to_narrow e
  | EBinop op l r => negb (is_land_lor op) || (nothing_to_narrow l && nothing_to_narrow r)
  | ELocal _ _ => false
  | EOther _ _ => true
  end.

Lemma n_set_heap_same (s : narrow_t) : n_set_heap s (n_heap s) = s.
Proof. by destruct s. Qed.

Lemma n_set_scope_same (s : narrow_t) : n_set_scope s (n_scope s) (n_ma s) = s.
Proof. by destruct s. Qed.

Lemma type_narrow_cond1_nothing (x : expr) : ∀ (s : narrow_t) (f : Z),
  nothing_to_narrow x = true →
  ∃ f', type_narrow_cond1 s f x = Some (s, f', x, true) ∧ (f' = f ∨ f' = Z.lor f 1).
Proof.
  induction x as [fl ty name ref|op e IH|op l r IHl IHr|p init _|kind cs _] using expr_ind;
    intros s f Hx; cbn [nothing_to_narrow] in Hx; cbn [type_narrow_cond1].
  - rewrite Hx. eauto.
  - destruct (bool_decide (op = OP_NOT)); cbn [negb orb] in *; [|by eauto].
    destruct (IH s (Z.lor f 1) Hx) as (f' & -> & Hf'). cbn [mbind option_bind negb].
    rewrite Nat.sub_diag, take_0. cbn [negate_slots mbind option_bind].
    rewrite n_set_heap_same. exists f'. split; [done|]. right.
    destruct Hf' as [-> | ->]; [done|]. by rewrite <- Z.lor_assoc, Z.lor_diag.
  - destruct (is_land_lor op); cbn [negb orb] in *; [|by eauto].
    apply andb_true_iff in Hx as [Hl Hr].
    destruct (IHl s (if bool_decide (op = OP_LOR) then Z.lor f 1 else f) Hl)
      as (f1 & -> & Hf1). cbn [mbind option_bind negb].
    destruct (IHr s f1 Hr) as (f2 & -> & Hf2). cbn [mbind option_bind].
    exists f2. split; [done|].
    destruct (bool_decide (op = OP_LOR)); destruct Hf1 as [-> | ->], Hf2 as [-> | ->];
      rewrite <- ?Z.lor_assoc, ?Z.lor_diag; auto.
  - discriminate.
  - eauto.
Qed.

(** X24.  [type_narrow_cond] on a condition with nothing to narrow
    returns true and changes nothing: not the bindings, not the scope, not
    the "else" definitions, not the condition, and it reports nothing. *)
Theorem type_narrow_cond_nothing (fuel : nat) (s : narrow_t) (elsedefs : option (list ptr))
    (cond : expr) :
  nothing_to_narrow cond = true →
  type_narrow_cond fuel s elsedefs cond = Some (s, elsedefs, cond, true).
Proof.
  intros Hx. unfold type_narrow_cond.
  destruct (type_narrow_cond1_nothing cond s 0 Hx) as (f' & -> & Hf').
  cbn [mbind option_bind negb].
  assert (Hf : (f' =? Z.lor 1 2) = false) by (by destruct Hf' as [-> | ->]).
  rewrite Hf, Nat.sub_diag. rewrite (bool_decide_false (0%nat ≠ 0%nat)) by (intros H; by apply H).
  rewrite andb_false_r, n_set_scope_same, take_0. reflexivity.
Qed.

(** [a == 1 || !b], where [a] is an "int" and [b] a "bool". *)
Definition cond_plain : expr :=
  EBinop OP_LOR
    (EBinop OP_EQ (EId 0 type_int "a" (Some 40%positive)) (EOther EXPR_INTLIT []))
    (EPrefixop OP_NOT (EId 0 type_bool "b" (Some 41%positive))).

Lemma type_narrow_cond_nothing_witness :
  type_narrow_cond 3 narrow0 (Some []) cond_plain = Some (narrow0, Some [], cond_plain, true).
Proof. apply (type_narrow_cond_nothing 3 narrow0 (Some []) cond_plain). reflexivity. Defined.

(** ** Tokens ([tokens.h], [tok_isassign] of [compiler.h])

    [enum tok] lists the tokens of [tokens.h] in the order of the file, the
    keywords last; [tok_t] is a [u8].  The string of an entry is what
    [tok_repr] prints. *)
Inductive tok_t : Set :=
  | TEOF | TSEMI | TLPAREN | TRPAREN | TLBRACE | TRBRACE | TLBRACK | TRBRACK | TDOT
  | TDOTDOTDOT | TCOLON | TCOMMA | TQUESTION | TPLUS | TPLUSPLUS | TMINUS | TMINUSMINUS
  | TSTAR | TSLASH | TPERCENT | TTILDE | TNOT | TAND | TANDAND | TOR | TOROR | TXOR
  | TSHL | TSHR | TEQ | TNEQ | TLT | TGT | TLTEQ | TGTEQ | TASSIGN | TADDASSIGN
  | TSUBASSIGN | TMULASSIGN | TDIVASSIGN | TMODASSIGN | TSHLASSIGN | TSHRASSIGN
  | TANDASSIGN | TXORASSIGN | TORASSIGN | TCOMMENT | TID | TINTLIT | TFLOATLIT
  | TBYTELIT | TSTRLIT | TFUN | TLET | TRETURN | TSTRUCT | TTYPE | TVAR.

#[global] Instance tok_eq_dec : EqDecision tok_t.
Proof. solve_decision. Defined.

(** The entries of [tokens.h], in the order of the file. *)
Definition tokens : list (tok_t * string) :=
  [(TEOF, "eof"%string); (TSEMI, ";"%string); (TLPAREN, "("%string);
   (TRPAREN, ")"%string); (TLBRACE, "{"%string); (TRBRACE, "}"%string);
   (TLBRACK, "["%string); (TRBRACK, "]"%string); (TDOT, "."%string);
   (TDOTDOTDOT, "..."%string); (TCOLON, ":"%string); (TCOMMA, ","%string);
   (TQUESTION, "?"%string); (TPLUS, "+"%string); (TPLUSPLUS, "++"%string);
   (TMINUS, "-"%string); (TMINUSMINUS, "--"%string); (TSTAR, "*"%string);
   (TSLASH, "/"%string); (TPERCENT, "%"%string); (TTILDE, "~"%string);
   (TNOT, "!"%string); (TAND, "&"%string); (TANDAND, "&&"%string); (TOR, "|"%string);
   (TOROR, "||"%string); (TXOR, "^"%string); (TSHL, "<<"%string); (TSHR, ">>"%string);
   (TEQ, "=="%string); (TNEQ, "!="%string); (TLT, "<"%string); (TGT, ">"%string);
   (TLTEQ, "<="%string); (TGTEQ, ">="%string); (TASSIGN, "="%string);
   (TADDASSIGN, "+="%string); (TSUBASSIGN, "-="%string); (TMULASSIGN, "*="%string);
   (TDIVASSIGN, "/="%string); (TMODASSIGN, "%="%string); (TSHLASSIGN, "<<="%string);
   (TSHRASSIGN, ">>="%string); (TANDASSIGN, "&="%string); (TXORASSIGN, "^="%string);
   (TORASSIGN, "|="%string); (TCOMMENT, "comment"%string); (TID, "identifier"%string);
   (TINTLIT, "integer literal"%string); (TFLOATLIT, "number literal"%string);
   (TBYTELIT, "byte literal"%string); (TSTRLIT, "string literal"%string);
   (TFUN, "fun"%string); (TLET, "let"%string); (TRETURN, "return"%string);
   (TSTRUCT, "struct"%string); (TTYPE, "type"%string); (TVAR, "var"%string)].

(** The keywords of the table ("must be sorted"). *)
Definition keywords : list (string * tok_t) :=
  [("fun"%string, TFUN); ("let"%string, TLET); ("return"%string, TRETURN);
   ("struct"%string, TSTRUCT); ("type"%string, TTYPE); ("var"%string, TVAR)].

(** The value of a token in [enum tok]: its place in the table. *)
Definition tok_value (t : tok_t) : Z :=
  Z.of_nat (default 0%nat (fst <$> list_find (λ e, bool_decide (e.1 = t)) tokens)).

(** [tok_repr], e.g. [TEQ => "=="] *)
Definition tok_repr (t : tok_t) : string :=
  default EmptyString
    ((λ e : nat * (tok_t * string), e.2.2) <$> list_find (λ e, bool_decide (e.1 = t)) tokens).

(** [tok_isassign] *)
Definition tok_isassign (t : tok_t) : bool :=
  (tok_value TASSIGN <=? tok_value t) && (tok_value t <=? tok_value TORASSIGN).

(** The binary operators of arithmetic and of bits. *)
Definition binary_op_tokens : list tok_t :=
  [TPLUS; TMINUS; TSTAR; TSLASH; TPERCENT; TSHL; TSHR; TAND; TXOR; TOR].

Definition assign_repr (t : tok_t) : bool :=
  bool_decide (tok_repr t = "=")
  || existsb (λ o, bool_decide (tok_repr t = tok_repr o +:+ "=")) binary_op_tokens.

Lemma tok_isassign_assign_repr (t : tok_t) : tok_isassign t = assign_repr t.
Proof. destruct t; vm_compute; reflexivity. Qed.

(** X25.  The range test of [tok_isassign] holds of a token exactly when
    the token is written [=] or as a binary operator of arithmetic or of
    bits followed by [=]; every such operator has its assignment in the
    range, and no comparison ([==], [!=], [<=], [>=]) is in it. *)
Theorem tok_isassign_written (t : tok_t) :
  (tok_isassign t = true
   ↔ tok_repr t = "=" ∨ ∃ o, o ∈ binary_op_tokens ∧ tok_repr t = tok_repr o +:+ "=")
  ∧ (∀ o, o ∈ binary_op_tokens →
       ∃ t', tok_isassign t' = true ∧ tok_repr t' = tok_repr o +:+ "=")
  ∧ (t ∈ [TEQ; TNEQ; TLTEQ; TGTEQ] → tok_isassign t = false).
Proof.
  split; [|split].
  - rewrite tok_isassign_assign_repr. unfold assign_repr.
    rewrite orb_true_iff, bool_decide_eq_true, existsb_exists.
    split; (intros [H|(o & Ho & H)]; [by left|right; exists o]).
    + apply list_elem_of_In in Ho. by apply bool_decide_eq_true in H.
    + split; [by apply list_elem_of_In|by apply bool_decide_eq_true].
  - intros o Ho. unfold binary_op_tokens in Ho.
    repeat (apply elem_of_cons in Ho as [->|Ho]);
      [ by exists TADDASSIGN | by exists TSUBASSIGN | by exists TMULASSIGN
      | by exists TDIVASSIGN | by exists TMODASSIGN | by exists TSHLASSIGN
      | by exists TSHRASSIGN | by exists TANDASSIGN | by exists TXORASSIGN
      | by exists TORASSIGN | by apply elem_of_nil in Ho ].
  - intros Ht. repeat (apply elem_of_cons in Ht as [->|Ht]); try reflexivity.
    by apply elem_of_nil in Ht.
Qed.

(** Every string is below the next. *)
Fixpoint ascending (l : list string) : bool :=
  match l with
  | x :: ((y :: _) as rest) => String.ltb x y && ascending rest
  | _ => true
  end.

(** The values of the tokens are those of a [u8], no two tokens are
    written alike, and the keywords are in order. *)
Example tokens_table :
  Forall (λ e, 0 ≤ tok_value e.1 < 256) tokens
  ∧ NoDup (map snd tokens)
  ∧ ascending (map fst keywords) = true.
Proof.
  split; [|split].
  - apply Forall_forall. intros e He. unfold tokens in He.
    repeat (apply elem_of_cons in He as [->|He]); try (vm_compute; split; [discriminate|reflexivity]).
    by apply elem_of_nil in He.
  - apply (bool_decide_unpack _). vm_compute. exact I.
  - reflexivity.
Qed.

(** ** The operators of a type ([type_has_binop]) *)

Module binop.
(** Modelled from the spec: [op_t]; [ops.h] is not among the sources.
    These are all the operations [typecheck.c] names: the binary ones of
    [type_has_binop], and the unary ones of [unaryop]. *)
Inductive op_t : Set :=
  | OP_ADD | OP_SUB | OP_MUL | OP_DIV | OP_MOD
  | OP_AND | OP_OR | OP_XOR | OP_SHL | OP_SHR
  | OP_LAND | OP_LOR
  | OP_EQ | OP_NEQ | OP_LT | OP_GT | OP_LTEQ | OP_GTEQ
  | OP_ASSIGN
  | OP_ADD_ASSIGN | OP_SUB_ASSIGN | OP_MUL_ASSIGN | OP_DIV_ASSIGN | OP_MOD_ASSIGN
  | OP_AND_ASSIGN | OP_OR_ASSIGN | OP_XOR_ASSIGN | OP_SHL_ASSIGN | OP_SHR_ASSIGN
  | OP_NOT | OP_INC | OP_DEC | OP_REF | OP_MUTREF.
End binop.

Section type_has_binop.
Import binop.

#[local] Instance binop_eq_dec : EqDecision op_t.
Proof. solve_decision. Defined.

(** [type_has_binop] *)
Definition type_has_binop (fuel : nat) (c : compiler_t) (t : type_t) (op : op_t)
    : option bool :=
  t ← concrete_type fuel c t;
  Some
    match type_kind t with
    | TYPE_BOOL | TYPE_OPTIONAL =>
        match op with
        | OP_LAND | OP_LOR | OP_EQ | OP_NEQ | OP_ASSIGN => true
        | _ => false
        end
    | TYPE_I8 | TYPE_I16 | TYPE_I32 | TYPE_I64
    | TYPE_U8 | TYPE_U16 | TYPE_U32 | TYPE_U64 =>
        match op with
        | OP_ADD | OP_SUB | OP_MUL | OP_DIV | OP_MOD
        | OP_AND | OP_OR | OP_XOR | OP_SHL | OP_SHR
        | OP_LAND | OP_LOR
        | OP_EQ | OP_NEQ | OP_LT | OP_GT | OP_LTEQ | OP_GTEQ
        | OP_ASSIGN
        | OP_ADD_ASSIGN | OP_SUB_ASSIGN | OP_MUL_ASSIGN | OP_DIV_ASSIGN | OP_MOD_ASSIGN
        | OP_AND_ASSIGN | OP_OR_ASSIGN | OP_XOR_ASSIGN | OP_SHL_ASSIGN | OP_SHR_ASSIGN => true
        | _ => false
        end
    | TYPE_F32 | TYPE_F64 =>
        match op with
        | OP_ADD | OP_SUB | OP_MUL | OP_DIV | OP_MOD
        | OP_LAND | OP_LOR
        | OP_EQ | OP_NEQ | OP_LT | OP_GT | OP_LTEQ | OP_GTEQ
        | OP_ASSIGN
        | OP_ADD_ASSIGN | OP_SUB_ASSIGN | OP_MUL_ASSIGN | OP_DIV_ASSIGN | OP_MOD_ASSIGN => true
        | _ => false
        end
    | TYPE_STRUCT =>
        match op with
        | OP_EQ | OP_NEQ | OP_ASSIGN => true
        | _ => false
        end
    | TYPE_REF | TYPE_PTR =>
        match op with
        | OP_EQ | OP_NEQ | OP_ASSIGN => true
        | _ => false
        end
    | _ => bool_decide (op = OP_ASSIGN)
    end.

(** Classes of operators: on bits, of arithmetic, of order; each with its
    assignment. *)
Definition op_bits (op : op_t) : bool :=
  match op with
  | OP_AND | OP_OR | OP_XOR | OP_SHL | OP_SHR
  | OP_AND_ASSIGN | OP_OR_ASSIGN | OP_XOR_ASSIGN | OP_SHL_ASSIGN | OP_SHR_ASSIGN => true
  | _ => false
  end.

Definition op_arith (op : op_t) : bool :=
  match op with
  | OP_ADD | OP_SUB | OP_MUL | OP_DIV | OP_MOD
  | OP_ADD_ASSIGN | OP_SUB_ASSIGN | OP_MUL_ASSIGN | OP_DIV_ASSIGN | OP_MOD_ASSIGN => true
  | _ => false
  end.

Definition op_order (op : op_t) : bool :=
  match op with
  | OP_LT | OP_GT | OP_LTEQ | OP_GTEQ => true
  | _ => false
  end.

Definition op_unary (op : op_t) : bool :=
  match op with
  | OP_NOT | OP_INC | OP_DEC | OP_REF | OP_MUTREF => true
  | _ => false
  end.

Definition is_float_type (t : type_t) : bool :=
  match t with
  | TPrim _ (K_F32 | K_F64) => true
  | _ => false
  end.

(** X26.  What [type_has_binop] grants.  With "int" and "uint"
    configured, the function returns; every type has [=]; no type has a
    unary operation as a binary one; the operators on bits belong to the
    integers only, those of arithmetic and of order to the integers and
    the floating-point numbers only; and an alias has the operators of the
    type it names. *)
Theorem type_has_binop_classes (c : compiler_t) (t : type_t) (op : op_t) (fuel : nat)
    (h : thdr) (name : sym_t) :
  compiler_ok c →
  (alias_depth t + 2 ≤ fuel)%nat →
  ∃ r b,
    concrete_type fuel c t = Some r
    ∧ type_has_binop fuel c t op = Some b
    ∧ (op = OP_ASSIGN → b = true)
    ∧ (op_unary op = true → b = false)
    ∧ (b = true → op_bits op = true → is_sized_int_type r = true)
    ∧ (b = true → op_arith op || op_order op = true →
         is_sized_int_type r || is_float_type r = true)
    ∧ type_has_binop (S fuel) c (TAlias h name t) op = Some b.
Proof.
  intros Hc Hf.
  pose proof (concrete_type_tcu c t fuel Hc Hf) as Hr.
  pose proof (tcu_not_alias c Hc t) as Ha.
  pose proof (tcu_not_native c Hc t) as Hn.
  assert (Hal : type_has_binop (S fuel) c (TAlias h name t) op = type_has_binop fuel c t op).
  { unfold type_has_binop. reflexivity. }
  rewrite Hal. unfold type_has_binop. rewrite Hr. cbn [mbind option_bind].
  eexists _, _. split; [reflexivity|]. split; [reflexivity|].
  destruct (tcu c t) as [h' k|h' k e|h' e len|h' n e|h' k] eqn:E.
  - destruct k; try (exfalso; destruct (Hn h'); congruence);
      cbn; repeat split; intros; subst; try done; by destruct op.
  - destruct k; cbn; repeat split; intros; subst; try done;
      try (by destruct op); by rewrite bool_decide_true.
  - cbn. repeat split; intros; subst; try done;
      try (by destruct op); by rewrite bool_decide_true.
  - exfalso. by eapply Ha.
  - destruct k; cbn; repeat split; intros; subst; try done;
      try (by destruct op); by rewrite bool_decide_true.
Qed.

Lemma type_has_binop_classes_witness :
  ∃ r b,
    concrete_type 2 compiler64 type_f64 = Some r
    ∧ type_has_binop 2 compiler64 type_f64 OP_SHL = Some b
    ∧ (OP_SHL = OP_ASSIGN → b = true)
    ∧ (op_unary OP_SHL = true → b = false)
    ∧ (b = true → op_bits OP_SHL = true → is_sized_int_type r = true)
    ∧ (b = true → op_arith OP_SHL || op_order OP_SHL = true →
         is_sized_int_type r || is_float_type r = true)
    ∧ type_has_binop 3 compiler64 (TAlias (Thdr 50%positive 0 8 8) "F" type_f64) OP_SHL
      = Some b.
Proof.
  apply (type_has_binop_classes compiler64 type_f64 OP_SHL 2 (Thdr 50%positive 0 8 8) "F").
  - split; reflexivity.
  - simpl. lia.
Defined.

(** A mutable reference has no [==]; a reference and a pointer have. *)
Example type_has_binop_refs :
  type_has_binop 2 compiler64 (mkptr 100%positive K_REF type_int) OP_EQ = Some true
  ∧ type_has_binop 2 compiler64 (mkptr 100%positive K_PTR type_int) OP_EQ = Some true
  ∧ type_has_binop 2 compiler64 (mkptr 100%positive K_MUTREF type_int) OP_EQ = Some false
  ∧ type_has_binop 2 compiler64 type_f64 OP_LAND = Some true
  ∧ type_has_binop 2 compiler64 type_int OP_SHL = Some true.
Proof. by repeat split. Qed.
End type_has_binop.
